(** * Jam compiler front end: lexer, parser and verifier (lekvar)

    A shallow embedding of the Python sources
      - [compiler/jam/lexer.py]     (module [Lexer]),
      - [compiler/jam/parser.py]    (module [Parser]),
      - [compiler/lekvar/lekvar.py] (module [Lekvar]),
      - [compiler/lekvar/function.py], [compiler/lekvar/util.py]
        (module [Split], the later per-class files),
    followed by the properties checked against them.

    Python exceptions are values of [error]; a computation that can raise
    returns a [result].  Mutable objects live in an explicit store and are
    named by their index, so that aliasing and object identity ([is]) are
    index equality. *)

From Stdlib Require Import String Ascii List ZArith Bool Lia PeanoNat DecimalString.
From Stdlib Require DecimalNat.
Import ListNotations.
Local Open Scope string_scope.
Local Open Scope list_scope.
Set Warnings "-register-all,-non-full-mutual".

(* ================================================================== *)
(** * Exceptions *)
(* ================================================================== *)

(** The exception classes the sources raise.  [SyntaxError], [TypeError],
    [SemanticError], [InternalError], [MissingReferenceError] and
    [AmbiguityError] are raised by name in the sources; [AttributeError]
    and [IndexError] are what the Python runtime raises on a missing
    attribute (also on [None]) and on an index out of range.
    [AmbiguousOverload] is a kind of the specification's error taxonomy;
    no source raises it. *)
Inductive error : Type :=
| SyntaxError (message : string)
| TypeError (message : string)
| SemanticError (message : string)
| InternalError (message : string)
| MissingReferenceError (message : string)
| AmbiguityError (message : string)
| AttributeError (message : string)
| IndexError (message : string)
| AssertionError
| AmbiguousOverload (message : string).

Inductive result (A : Type) : Type :=
| Ok (a : A)
| Raise (e : error)
| OutOfFuel.
Arguments Ok {A} a.
Arguments Raise {A} e.
Arguments OutOfFuel {A}.


(** ** State and exceptions

    A computation over a mutable state [S] that returns or raises.  The
    state survives a raise: what was mutated before an exception stays
    mutated, as in Python. *)
Definition M (S A : Type) : Type := S -> result A * S.

Definition ret {S A : Type} (a : A) : M S A := fun s => (Ok a, s).

Definition bind {S A B : Type} (c : M S A) (k : A -> M S B) : M S B :=
  fun s =>
    match c s with
    | (Ok a, s') => k a s'
    | (Raise e, s') => (Raise e, s')
    | (OutOfFuel, s') => (OutOfFuel, s')
    end.

Definition raise {S A : Type} (e : error) : M S A := fun s => (Raise e, s).
Definition out_of_fuel {S A : Type} : M S A := fun s => (OutOfFuel, s).
Definition get {S : Type} : M S S := fun s => (Ok s, s).
Definition put {S : Type} (s : S) : M S unit := fun _ => (Ok tt, s).
Definition modify {S : Type} (f : S -> S) : M S unit := fun s => (Ok tt, f s).
Definition lift {S A : Type} (r : result A) : M S A := fun s => (r, s).

(** [try: c  except <handled>: h] *)
Definition try_except {S A : Type} (c : M S A) (handled : error -> bool)
  (h : M S A) : M S A :=
  fun s =>
    match c s with
    | (Raise e, s') => if handled e then h s' else (Raise e, s')
    | r => r
    end.

Declare Scope monad_scope.
Delimit Scope monad_scope with monad.
Notation "x <- c ;; k" := (bind c (fun x => k))
  (at level 61, c at next level, right associativity) : monad_scope.
Notation "c ;; k" := (bind c (fun _ => k))
  (at level 61, right associativity) : monad_scope.
Local Open Scope monad_scope.

(** [for x in xs: body x] *)
Fixpoint for_each {S A : Type} (xs : list A) (body : A -> M S unit) : M S unit :=
  match xs with
  | [] => ret tt
  | x :: r => body x ;; for_each r body
  end.

Definition is_SyntaxError (e : error) : bool :=
  match e with SyntaxError _ => true | _ => false end.
Definition is_TypeError (e : error) : bool :=
  match e with TypeError _ => true | _ => false end.
Definition is_MissingReferenceError (e : error) : bool :=
  match e with MissingReferenceError _ => true | _ => false end.

(* ================================================================== *)
(** * Lexer ([compiler/jam/lexer.py]) *)
(* ================================================================== *)

(** The members of [Tokens = Enum("Tokens", [...])], in declaration order.
    [mod] is reserved in Rocq and is spelled [mod_]. *)
Module Tokens.
Inductive t : Type :=
| newline
| identifier | const_kwd | ref_kwd | def_kwd | end_kwd | return_kwd
| class_kwd | new_kwd | as_kwd | module_kwd | loop_kwd | while_kwd
| for_kwd | in_kwd | break_kwd | self_kwd | if_kwd | elif_kwd | else_kwd
| import_kwd | pragma_kwd
| true_kwd | false_kwd
| string | format_string | integer | group_start | group_end | typeof
| returns | dot | comma | assign
| addition | subtraction | multiplication | integer_division | mod_
| division | equality | inequality | smaller_than
| smaller_than_or_equal_to | greater_than | greater_than_or_equal_to
| logical_negation | logical_and | logical_or
| function.

(** Every member with its Python name, as [Tokens.__members__] lists them. *)
Definition members : list (String.string * t) :=
  [ ("newline", newline);
    ("identifier", identifier); ("const_kwd", const_kwd);
    ("ref_kwd", ref_kwd); ("def_kwd", def_kwd); ("end_kwd", end_kwd);
    ("return_kwd", return_kwd); ("class_kwd", class_kwd);
    ("new_kwd", new_kwd); ("as_kwd", as_kwd); ("module_kwd", module_kwd);
    ("loop_kwd", loop_kwd); ("while_kwd", while_kwd); ("for_kwd", for_kwd);
    ("in_kwd", in_kwd); ("break_kwd", break_kwd); ("self_kwd", self_kwd);
    ("if_kwd", if_kwd); ("elif_kwd", elif_kwd); ("else_kwd", else_kwd);
    ("import_kwd", import_kwd); ("pragma_kwd", pragma_kwd);
    ("true_kwd", true_kwd); ("false_kwd", false_kwd);
    ("string", string); ("format_string", format_string);
    ("integer", integer); ("group_start", group_start);
    ("group_end", group_end); ("typeof", typeof); ("returns", returns);
    ("dot", dot); ("comma", comma); ("assign", assign);
    ("addition", addition); ("subtraction", subtraction);
    ("multiplication", multiplication);
    ("integer_division", integer_division); ("mod", mod_);
    ("division", division); ("equality", equality);
    ("inequality", inequality); ("smaller_than", smaller_than);
    ("smaller_than_or_equal_to", smaller_than_or_equal_to);
    ("greater_than", greater_than);
    ("greater_than_or_equal_to", greater_than_or_equal_to);
    ("logical_negation", logical_negation); ("logical_and", logical_and);
    ("logical_or", logical_or);
    ("function", function) ].

Definition eq_dec (a b : t) : {a = b} + {a <> b}.
Proof. decide equality. Defined.

Definition eqb (a b : t) : bool := if eq_dec a b then true else false.

(** The Python name of a member ([token.type.name]). *)
Definition name (k : t) : String.string :=
  match find (fun p => eqb (snd p) k) members with
  | Some p => fst p
  | None => EmptyString
  end.

(** Attribute access [Tokens.<attr>]: the member of that name, or
    [AttributeError] when the enumeration has none. *)
Definition getattr (attr : String.string) : result t :=
  match find (fun p => String.eqb (fst p) attr) members with
  | Some p => Ok (snd p)
  | None => Raise (AttributeError attr)
  end.
End Tokens.

Module Lexer.

(** A character handed to a link condition: [Some c] for a character read
    from the source, [None] for the empty string that [source.read(1)]
    returns at the end of the input.  (Python's [None] is never passed, so
    the test [c is None] of the comment sink is false on every input.) *)
Definition char : Type := option ascii.

Definition is_char (x : ascii) (c : char) : bool :=
  match c with Some a => Ascii.eqb a x | None => false end.

Definition in_set (s : list ascii) (c : char) : bool :=
  match c with Some a => existsb (Ascii.eqb a) s | None => false end.

(** [class Node]: [links] is the list of [(target, condition)] pairs, a
    target being the index of a node in the node table; [verify] is the
    optional post-processor of the lexeme. *)
Record Node : Type := mkNode {
  links : list (nat * (char -> bool));
  token_type : option Tokens.t;
  verify : option (string -> string)
}.

Record Token : Type := mkToken {
  type : option Tokens.t;
  start : Z;
  end_ : Z;
  data : option string
}.

(** ** Construction of the node graph

    The module body of [lexer.py] builds the graph by creating nodes and
    appending links.  Here the nodes live in a table; [new_node] is
    [Node(...)] and [add_link n (target, cond)] is
    [n.links.append((target, cond))]. *)
Definition table : Type := list Node.

Definition new_node (kind : option Tokens.t) (v : option (string -> string))
  (tb : table) : nat * table :=
  (length tb, tb ++ [mkNode [] kind v]).

Fixpoint update (n : nat) (f : Node -> Node) (tb : table) : table :=
  match tb, n with
  | [], _ => []
  | x :: r, O => f x :: r
  | x :: r, S m => x :: update m f r
  end.

Definition add_link (n : nat) (l : nat * (char -> bool)) (tb : table) : table :=
  update n (fun x => mkNode (links x ++ [l]) (token_type x) (verify x)) tb.

Definition set_token_type (n : nat) (kind : Tokens.t) (tb : table) : table :=
  update n (fun x => mkNode (links x) (Some kind) (verify x)) tb.

(** [TREE = Node()] is the first node created. *)
Definition TREE : nat := 0.

Definition WHITESPACE : list ascii := [" "%char; "009"%char].
Definition NEWLINE_CHAR : ascii := "010"%char.
Definition COMMENT_CHAR : ascii := "#"%char.
Definition FORMAT_STRING_CHAR : ascii := "034"%char.
Definition FORMAT_STRING_ESCAPE_CHAR : ascii := "\"%char.
Definition WYSIWYG_STRING_CHAR : ascii := "`"%char.

(** [lambda s: s[1:-1]] *)
Definition strip_ends (s : string) : string :=
  substring 1 (String.length s - 2) s.

Definition DIRECT_MAP : list (string * Tokens.t) :=
  [ (* Operators *)
    ("+", Tokens.addition);
    ("-", Tokens.subtraction);
    ("*", Tokens.multiplication);
    ("//", Tokens.integer_division);
    ("/", Tokens.division);
    ("%", Tokens.mod_);
    ("==", Tokens.equality);
    ("!=", Tokens.inequality);
    ("<=", Tokens.smaller_than_or_equal_to);
    ("<", Tokens.smaller_than);
    (">=", Tokens.greater_than_or_equal_to);
    (">", Tokens.greater_than);
    ("!", Tokens.logical_negation);
    ("&&", Tokens.logical_and);
    ("||", Tokens.logical_or);
    ("=>", Tokens.function);
    (* Instructions *)
    ("(", Tokens.group_start);
    (")", Tokens.group_end);
    (":", Tokens.typeof);
    ("->", Tokens.returns);
    (",", Tokens.comma);
    ("=", Tokens.assign);
    (".", Tokens.dot);
    (* Keywords *)
    ("const", Tokens.const_kwd);
    ("ref", Tokens.ref_kwd);
    ("def", Tokens.def_kwd);
    ("end", Tokens.end_kwd);
    ("return", Tokens.return_kwd);
    ("class", Tokens.class_kwd);
    ("new", Tokens.new_kwd);
    ("as", Tokens.as_kwd);
    ("module", Tokens.module_kwd);
    ("loop", Tokens.loop_kwd);
    ("while", Tokens.while_kwd);
    ("for", Tokens.for_kwd);
    ("in", Tokens.in_kwd);
    ("break", Tokens.break_kwd);
    ("self", Tokens.self_kwd);
    ("elif", Tokens.elif_kwd);
    ("if", Tokens.if_kwd);
    ("else", Tokens.else_kwd);
    ("import", Tokens.import_kwd);
    ("pragma", Tokens.pragma_kwd);
    (* Constants *)
    ("true", Tokens.true_kwd);
    ("false", Tokens.false_kwd) ].

(** The inner loop [for char in value]: one new node per character, linked
    from the previous one; returns the last node of the chain. *)
Fixpoint install_chain (value : list ascii) (node : nat) (tb : table)
  : nat * table :=
  match value with
  | [] => (node, tb)
  | ch :: rest =>
      let (next_node, tb1) := new_node None None tb in
      let tb2 := add_link node (next_node, is_char ch) tb1 in
      install_chain rest next_node tb2
  end.

(** [for value, token_type in DIRECT_MAP: ...] *)
Fixpoint install_direct_map (m : list (string * Tokens.t)) (tb : table)
  : table :=
  match m with
  | [] => tb
  | (value, kind) :: rest =>
      let (node, tb1) := install_chain (list_ascii_of_string value) TREE tb in
      install_direct_map rest (set_token_type node kind tb1)
  end.

Definition ascii_lowercase : list ascii :=
  list_ascii_of_string "abcdefghijklmnopqrstuvwxyz".
Definition ascii_uppercase : list ascii :=
  list_ascii_of_string "ABCDEFGHIJKLMNOPQRSTUVWXYZ".
Definition digits : list ascii := list_ascii_of_string "0123456789".

Definition WORD_CHARACTERS : list ascii :=
  ascii_lowercase ++ ascii_uppercase ++ ["_"%char].
Definition WORD_CHARACTERS_AFTER : list ascii := WORD_CHARACTERS ++ digits.
Definition DIGIT_CHARACTERS : list ascii := digits.

(** The whole module-level construction, statement by statement. *)
Definition NODES : table :=
  (* TREE = Node() *)
  let (tree, tb) := new_node None None [] in
  (* Ignore whitespace *)
  let tb := add_link tree (tree, in_set WHITESPACE) tb in
  (* Newlines *)
  let (newline_node, tb) := new_node (Some Tokens.newline) None tb in
  let tb := add_link tree (newline_node, is_char NEWLINE_CHAR) tb in
  (* Comments *)
  let (node, tb) := new_node None None tb in
  let tb := add_link tree (node, is_char COMMENT_CHAR) tb in
  let tb := add_link node (node, fun c => negb (is_char NEWLINE_CHAR c)) tb in
  let tb := add_link node (newline_node, fun c => is_char NEWLINE_CHAR c || false) tb in
  (* Strings *)
  let (node, tb) := new_node None None tb in
  let tb := add_link tree (node, is_char FORMAT_STRING_CHAR) tb in
  let tb := add_link node
    (node, fun c => negb (is_char FORMAT_STRING_CHAR c)
                    && negb (is_char FORMAT_STRING_ESCAPE_CHAR c)) tb in
  let (escape, tb) := new_node None None tb in
  let tb := add_link node (escape, is_char FORMAT_STRING_ESCAPE_CHAR) tb in
  let tb := add_link escape (node, fun _ => true) tb in
  let (end_node, tb) :=
    new_node (Some Tokens.format_string) (Some strip_ends) tb in
  let tb := add_link node (end_node, is_char FORMAT_STRING_CHAR) tb in
  (* WYSIWYG Strings *)
  let (node, tb) := new_node None None tb in
  let tb := add_link tree (node, is_char WYSIWYG_STRING_CHAR) tb in
  let tb := add_link node (node, fun c => negb (is_char WYSIWYG_STRING_CHAR c)) tb in
  let (end_node, tb) := new_node (Some Tokens.string) (Some strip_ends) tb in
  let tb := add_link node (end_node, is_char WYSIWYG_STRING_CHAR) tb in
  (* Direct maps *)
  let tb := install_direct_map DIRECT_MAP tb in
  (* Identifiers *)
  let (node, tb) := new_node (Some Tokens.identifier) None tb in
  let tb := add_link tree (node, in_set WORD_CHARACTERS) tb in
  let (end_node, tb) := new_node (Some Tokens.identifier) None tb in
  let tb := add_link node (end_node, in_set WORD_CHARACTERS_AFTER) tb in
  let tb := add_link end_node (end_node, in_set WORD_CHARACTERS_AFTER) tb in
  (* Numbers *)
  let (node, tb) := new_node (Some Tokens.integer) None tb in
  let tb := add_link tree (node, in_set DIGIT_CHARACTERS) tb in
  let (underscore_node, tb) := new_node None None tb in
  let tb := add_link node (underscore_node, is_char "_"%char) tb in
  let (end_node, tb) := new_node (Some Tokens.integer) None tb in
  let tb := add_link underscore_node (end_node, in_set DIGIT_CHARACTERS) tb in
  let tb := add_link node (end_node, in_set DIGIT_CHARACTERS) tb in
  let tb := add_link end_node (underscore_node, is_char "_"%char) tb in
  let tb := add_link end_node (end_node, in_set DIGIT_CHARACTERS) tb in
  tb.

Definition node_at (n : nat) : Node := nth n NODES (mkNode [] None None).

(** [Node.evaluate] *)
Definition evaluate (n : nat) (character : char) : list nat :=
  map fst (filter (fun l => snd l character) (links (node_at n))).

(** [Node.getToken] *)
Definition getToken (n : nat) (start stop : Z) (value : string)
  : result Token :=
  let value :=
    match verify (node_at n) with
    | Some f => f value
    | None => value
    end in
  match token_type (node_at n) with
  | None => Raise AssertionError
  | Some kind => Ok (mkToken (Some kind) start stop (Some value))
  end.

(** [class Lexer]: [source] is what is left to read of the stream,
    [current] the character read last. *)
Record t : Type := mk {
  source : list ascii;
  current : char;
  position : Z
}.

(** [Lexer.next] *)
Definition next (l : t) : t :=
  match source l with
  | [] => mk [] None (position l + 1)
  | c :: r => mk r (Some c) (position l + 1)
  end.

(** [Lexer.__init__]: [position] starts at the class default 0. *)
Definition init (src : string) : t :=
  next (mk (list_ascii_of_string src) None 0).

(** [Lexer.outputNode] *)
Fixpoint outputNode_loop (l : t) (nodes : list nat) (start : Z) (data : string)
  : result (option Token) :=
  match nodes with
  | [] =>
      Raise (SyntaxError "Unexpected character")
  | node :: rest =>
      match token_type (node_at node) with
      | Some _ =>
          match getToken node start (position l - 1) data with
          | Ok tok => Ok (Some tok)
          | Raise e => Raise e
          | OutOfFuel => OutOfFuel
          end
      | None =>
          if Nat.eqb node TREE && (match current l with None => true | Some _ => false end)
          then Ok None
          else outputNode_loop l rest start data
      end
  end.

Definition outputNode (l : t) (nodes : list nat) (start : Z) (data : string)
  : result (option Token) :=
  outputNode_loop l nodes start data.

(** What the [while True] loop of [Lexer.lex] ends with: the live nodes
    handed to [outputNode], the internal error, or the end of the input. *)
Inductive scan_end : Type :=
| Emit (current_nodes : list nat) (token_start : Z) (token_data : string)
| ZeroNodes
| EndOfInput.

Definition is_restart (next_nodes : list nat) : bool :=
  match next_nodes with
  | [n] => Nat.eqb n TREE
  | _ => false
  end.

(** The loop of [Lexer.lex].  [pending] is the current character followed
    by the unread source ([[]] when [current] is the empty string), so that
    one iteration of the loop is one step down the list; [pos] is
    [self.position]. *)
Fixpoint scan (pending : list ascii) (pos : Z) (token_start : Z)
  (token_data : string) (current_nodes : list nat) : scan_end * t :=
  let rebuild := fun (p : list ascii) (n : Z) =>
    match p with [] => mk [] None n | c :: r => mk r (Some c) n end in
  let current := hd_error pending in
  let next_nodes := flat_map (fun node => evaluate node current) current_nodes in
  match next_nodes with
  | [] =>
      match current_nodes with
      | _ :: _ => (Emit current_nodes token_start token_data, rebuild pending pos)
      | [] => (ZeroNodes, rebuild pending pos)
      end
  | _ :: _ =>
      let '(token_start, token_data) :=
        if is_restart next_nodes then (pos, EmptyString)
        else (token_start,
              match current with
              | Some c => (token_data ++ String c EmptyString)%string
              | None => token_data
              end) in
      match pending with
      | [] => (EndOfInput, rebuild pending pos)
      | _ :: rest => scan rest (pos + 1) token_start token_data next_nodes
      end
  end.

Definition pending_of (l : t) : list ascii :=
  match current l with
  | Some c => c :: source l
  | None => []
  end.

(** [Lexer.lex]: the next token, [None] at the end of the input. *)
Definition lex (l : t) : result (option Token) * t :=
  match scan (pending_of l) (position l) (position l - 1) EmptyString [TREE] with
  | (Emit nodes token_start token_data, l') =>
      (outputNode l' nodes token_start token_data, l')
  | (ZeroNodes, l') => (Raise (InternalError "Zero current nodes in lex tree."), l')
  | (EndOfInput, l') => (Ok None, l')
  end.

(** The live nodes at the moment [lex] emits. *)
Definition live_nodes (l : t) : list nat :=
  match scan (pending_of l) (position l) (position l - 1) EmptyString [TREE] with
  | (Emit nodes _ _, _) => nodes
  | _ => []
  end.

(** All tokens of a source, as the parser pulls them one by one. *)
Fixpoint lex_all (fuel : nat) (l : t) : list (result (option Token)) :=
  match fuel with
  | O => []
  | S n =>
      match lex l with
      | (Ok (Some tok), l') => Ok (Some tok) :: lex_all n l'
      | (r, _) => [r]
      end
  end.

(** The keywords of [DIRECT_MAP]: the entries spelled with identifier
    characters (its sections Keywords and Constants). *)
Definition keywords : list (string * Tokens.t) :=
  filter (fun entry =>
            match list_ascii_of_string (fst entry) with
            | c :: _ => in_set WORD_CHARACTERS (Some c)
            | [] => false
            end) DIRECT_MAP.

(** Does a lexeme end before [rest]: at the end of the input, or at a
    character that cannot continue an identifier? *)
Definition ends_lexeme (rest : list ascii) : bool :=
  match rest with
  | [] => true
  | c :: _ => negb (in_set WORD_CHARACTERS_AFTER (Some c))
  end.

(** Is a node with this token kind among the live nodes? *)
Definition live (kind : Tokens.t) (nodes : list nat) : bool :=
  existsb (fun n =>
             match token_type (node_at n) with
             | Some k => Tokens.eqb k kind
             | None => false
             end) nodes.

(** The nodes of the chains of [DIRECT_MAP] in the order the loop over
    it creates them, from the node [first] on, each with the characters
    that lead to it from the root. *)
Fixpoint prefixes (first : nat) (before rest : list ascii)
  : list (nat * list ascii) :=
  match rest with
  | [] => []
  | c :: r => (first, before ++ [c]) :: prefixes (S first) (before ++ [c]) r
  end.

Fixpoint chain_paths (m : list (string * Tokens.t)) (first : nat)
  : list (nat * list ascii) :=
  match m with
  | [] => []
  | (value, _) :: rest =>
      prefixes first [] (list_ascii_of_string value)
      ++ chain_paths rest (first + String.length value)
  end.

(** Eight nodes are created before the chains. *)
Definition CHAINS : list (nat * list ascii) := chain_paths DIRECT_MAP 8.

Definition path_of (n : nat) : option (list ascii) :=
  match find (fun p => Nat.eqb (fst p) n) CHAINS with
  | Some p => Some (snd p)
  | None => None
  end.

(** One step of the loop of [lex]: the nodes that the character [c]
    leads to from the live nodes. *)
Definition step (nodes : list nat) (c : ascii) : list nat :=
  flat_map (fun node => evaluate node (Some c)) nodes.

(** Within one token, the characters [w] lead from the live nodes
    [nodes] to the live nodes [nodes']: no character leaves the lexer
    without a node, and none restarts it at the root. *)
Inductive reads : list nat -> list ascii -> list nat -> Prop :=
| reads_nil : forall nodes, reads nodes [] nodes
| reads_cons : forall nodes c w nodes',
    step nodes c <> [] ->
    is_restart (step nodes c) = false ->
    reads (step nodes c) w nodes' ->
    reads nodes (c :: w) nodes'.

(** The lexer after [n] calls of [next]. *)
Definition advance (n : nat) (l : t) : t := Nat.iter n next l.

(** The token of the lexeme [lexeme] read by the lexer [l]. *)
Definition token_of (kind : Tokens.t) (l : t) (lexeme : list ascii)
  (value : list ascii) : Token :=
  mkToken (Some kind) (position l - 1)
    (position l - 1 + Z.of_nat (length lexeme))
    (Some (string_of_list_ascii value)).

End Lexer.


(* ================================================================== *)
(** * Parser ([compiler/jam/parser.py]) *)
(* ================================================================== *)

Module Parser.

Definition Token := Lexer.Token.

(** The unverified tree the parser emits through the [lekvar.*]
    constructors.  [PyNone] is Python's [None] where an object is expected
    (an absent value, type or constructor; the end of the input returned by
    [parseLine]); [tokens] is [None] where the constructor is called
    without tokens.  The constructors [Module_], [Function_], [Class_],
    [Variable_] and [Import_] carry an underscore because the plain words
    are commands of Rocq. *)
Inductive literal : Type :=
| LInt (z : Z)
| LBool (b : bool)
| LStr (s : string).

Inductive ir : Type :=
| PyNone
| Module_ (name : string) (children instructions : list ir)
    (tokens : option (list Token))
| Function_ (name : string) (arguments instructions : list ir)
    (return_type : ir) (tokens : option (list Token))
| Method (name : string) (overloads : list ir)
| Class_ (name : string) (constructor : ir) (attributes : list ir)
| Variable_ (name : option string) (type_ : ir) (constant : bool)
    (tokens : option (list Token))
| Assignment (variable value : ir) (tokens : option (list Token))
| Call (called : ir) (values : list ir) (return_type : ir)
    (tokens : option (list Token))
| Literal (data : literal) (type_ : ir) (tokens : option (list Token))
| Reference (reference : option string) (tokens : option (list Token))
| Attribute (value : ir) (reference : option string)
    (tokens : option (list Token))
| Return (value : ir) (tokens : option (list Token))
| Branch (condition : ir) (true_instructions false_instructions : list ir)
    (tokens : option (list Token))
| Loop (instructions : list ir) (tokens : option (list Token))
| Break (tokens : option (list Token))
| Comment (contents : option string) (tokens : option (list Token))
| Import_ (path : list (option string)) (name : option string)
    (tokens : option (list Token)).

(** [class Parser]: the lexer and the look-ahead buffer [tokens], which
    holds [None] once the lexer has reported the end of the input. *)
Record t : Type := mk {
  lexer : Lexer.t;
  tokens : list (option Token)
}.

Definition P (A : Type) : Type := M t A.

(** [Parser(Lexer(source), logger)] *)
Definition init (source : string) : t := mk (Lexer.init source) [].

(** [self.lexer.lex()] *)
Definition lex : P (option Token) :=
  fun p =>
    let (r, l') := Lexer.lex (lexer p) in
    (r, mk l' (tokens p)).

(** [Parser.next] *)
Definition next : P (option Token) :=
  p <- get ;;
  match tokens p with
  | [] => lex
  | tok :: rest => put (mk (lexer p) rest) ;; ret tok
  end.

(** The loop [while len(self.tokens) < num: self.tokens.append(self.lexer.lex())],
    [missing] being [num - len(self.tokens)]. *)
Fixpoint lookAhead_fill (missing : nat) : P unit :=
  match missing with
  | O => ret tt
  | S n =>
      tok <- lex ;;
      modify (fun p => mk (lexer p) (tokens p ++ [tok])) ;;
      lookAhead_fill n
  end.

(** [Parser.lookAhead]; [num = 0] reads [self.tokens[-1]], the last token
    of the buffer. *)
Definition lookAhead (num : nat) : P (option Token) :=
  p <- get ;;
  lookAhead_fill (num - length (tokens p)) ;;
  p <- get ;;
  match num with
  | O =>
      match rev (tokens p) with
      | [] => raise (IndexError "list index out of range")
      | tok :: _ => ret tok
      end
  | S i =>
      match nth_error (tokens p) i with
      | None => raise (IndexError "list index out of range")
      | Some tok => ret tok
      end
  end.

(** [Tokens.<attr>] evaluated by the parser. *)
Definition tk (attr : string) : P Tokens.t := lift (Tokens.getattr attr).

(** [token.type == kind] *)
Definition has_type (token : Token) (kind : Tokens.t) : bool :=
  match Lexer.type token with
  | Some k => Tokens.eqb k kind
  | None => false
  end.

(** [token.type] of a possibly absent token: [AttributeError] on [None]. *)
Definition the_token (token : option Token) : P Token :=
  match token with
  | Some tok => ret tok
  | None => raise (AttributeError "type")
  end.

Definition type_name (token : Token) : string :=
  match Lexer.type token with
  | Some k => Tokens.name k
  | None => "None"
  end.

(** [Parser._unexpected] *)
Definition _unexpected {A : Type} (token : Token) : P A :=
  raise (SyntaxError ("Unexpected " ++ type_name token)).

(** [Parser.expect]; the caller appends the returned token to its own
    [tokens] list where the source passes that list in. *)
Definition expect (kind : Tokens.t) : P Token :=
  token <- next ;;
  match token with
  | None => raise (SyntaxError ("Expected " ++ Tokens.name kind ++ " before EOF"))
  | Some token =>
      if negb (has_type token kind) then _unexpected token
      else ret token
  end.

(** [assert cond] *)
Definition assert (cond : bool) : P unit :=
  if cond then ret tt else raise AssertionError.

(** [tokens = [self.next()]] followed by [assert tokens[0].type == kind]. *)
Definition next_asserted (attr : string) : P Token :=
  token <- next ;;
  token <- the_token token ;;
  kind <- tk attr ;;
  assert (has_type token kind) ;;
  ret token.

Section Statements.

(** The expression parser, and [parseLine] for the lines nested in a
    block; [parseLine] below ties the knot. *)
Variable parseValue : P ir.
Variable parseLine : P ir.

(** The [while True] loop shared by [parseWhile], [parseLoop] and the else
    arm of [parseBranch]: lines up to [end].  [fuel] bounds the number of
    iterations. *)
Fixpoint block (fuel : nat) (message : string) (instructions : list ir)
  (tokens : list Token) : P (list ir * list Token) :=
  match fuel with
  | O => out_of_fuel
  | S n =>
      token <- lookAhead 1 ;;
      match token with
      | None => raise (SyntaxError message)
      | Some token =>
          end_kwd <- tk "end_kwd" ;;
          if has_type token end_kwd then
            token <- next ;;
            token <- the_token token ;;
            ret (instructions, tokens ++ [token])
          else
            line <- parseLine ;;
            block n message (instructions ++ [line]) tokens
      end
  end.

(** [Parser.parseWhile] *)
Definition parseWhile (fuel : nat) : P ir :=
  token <- next_asserted "while_kwd" ;;
  let tokens := [token] in
  condition <- parseValue ;;
  r <- block fuel "Expected `end` before EOF for while loop" [] tokens ;;
  let '(instructions, tokens) := r in
  let branch := Branch condition [] [Break None] None in
  ret (Loop ([branch] ++ instructions) (Some tokens)).

(** [Parser.parseLoop] *)
Definition parseLoop (fuel : nat) : P ir :=
  token <- next_asserted "loop_kwd" ;;
  let tokens := [token] in
  r <- block fuel "Expected `end` before EOF for loop" [] tokens ;;
  let '(instructions, tokens) := r in
  ret (Loop instructions (Some tokens)).

(** [Parser.parseBreak] *)
Definition parseBreak : P ir :=
  token <- next_asserted "break_kwd" ;;
  ret (Break (Some [token])).

(** The first loop of [parseBranch]: lines up to [end] (the branch is
    complete, [inl]) or [else] ([inr]). *)
Fixpoint parseBranch_if (fuel : nat) (condition : ir)
  (if_instructions : list ir) (tokens : list Token)
  : P (ir + list ir * list Token) :=
  match fuel with
  | O => out_of_fuel
  | S n =>
      token <- lookAhead 1 ;;
      match token with
      | None =>
          raise (SyntaxError "Expected `end` or `else` before EOF for if branch")
      | Some token =>
          end_kwd <- tk "end_kwd" ;;
          if has_type token end_kwd then
            token <- next ;;
            token <- the_token token ;;
            ret (inl (Branch condition if_instructions []
                        (Some (tokens ++ [token]))))
          else
            else_kwd <- tk "else_kwd" ;;
            if has_type token else_kwd then
              token <- next ;;
              token <- the_token token ;;
              ret (inr (if_instructions, tokens ++ [token]))
            else
              line <- parseLine ;;
              parseBranch_if n condition (if_instructions ++ [line]) tokens
      end
  end.

(** [Parser.parseBranch] *)
Definition parseBranch (fuel : nat) : P ir :=
  token <- next_asserted "if_kwd" ;;
  let tokens := [token] in
  condition <- parseValue ;;
  r <- parseBranch_if fuel condition [] tokens ;;
  match r with
  | inl branch => ret branch
  | inr (if_instructions, tokens) =>
      r <- block fuel "Expected `end` before EOF for else branch" [] tokens ;;
      let '(else_instructions, tokens) := r in
      ret (Branch condition if_instructions else_instructions (Some tokens))
  end.

(** [Parser.parseComment] *)
Definition parseComment : P ir :=
  token <- next_asserted "comment" ;;
  ret (Comment (Lexer.data token) (Some [token])).

(** [Parser.parseReturn] *)
Definition parseReturn : P ir :=
  token <- next_asserted "return_kwd" ;;
  let tokens := [token] in
  value <- try_except parseValue is_SyntaxError (ret PyNone) ;;
  ret (Return value (Some tokens)).

(** [Parser.parseTypeSig] *)
Definition parseTypeSig (typeof : string) : P ir :=
  typeof <- tk typeof ;;
  token <- lookAhead 1 ;;
  token <- the_token token ;;
  if negb (has_type token typeof) then ret PyNone
  else next ;; parseValue.

(** [Parser.parseVariable].  Its last statement is
    [return lekvar.Variable(name, type, constant, tokens)]: four
    arguments, where the constructor of [Variable] (in [lekvar.py] and in
    [variable.py]) takes [name], [type] and [tokens]; the call raises
    [TypeError], so that [parseVariable] does not return a variable. *)
Definition parseVariable : P ir :=
  token <- lookAhead 1 ;;
  token <- the_token token ;;
  const_kwd <- tk "const_kwd" ;;
  r <- (if has_type token const_kwd
       then (token <- next ;; token <- the_token token ;; ret ([token], true))
       else ret ([], false)) ;;
  let '(tokens, constant) := r in
  identifier <- tk "identifier" ;;
  token <- expect identifier ;;
  let tokens := tokens ++ [token] in
  let name := Lexer.data token in
  type_ <- parseTypeSig "typeof" ;;
  raise (TypeError
           "__init__() takes from 2 to 4 positional arguments but 5 were given").

(** [Parser.parseAssignment] *)
Definition parseAssignment : P ir :=
  variable <- parseVariable ;;
  token <- next_asserted "equal" ;;
  let tokens := [token] in
  value <- parseValue ;;
  ret (Assignment variable value (Some tokens)).

(** The first loop of [parseImportPath]: any number of leading dots. *)
Fixpoint parseImportPath_dots (fuel : nat) (tokens : list Token)
  (path : list (option string)) : P (list Token * list (option string)) :=
  match fuel with
  | O => out_of_fuel
  | S n =>
      token <- lookAhead 1 ;;
      token <- the_token token ;;
      dot <- tk "dot" ;;
      if has_type token dot then
        token <- next ;;
        token <- the_token token ;;
        parseImportPath_dots n (tokens ++ [token]) (path ++ [Some "."])
      else ret (tokens, path)
  end.

(** The second loop of [parseImportPath]: identifiers separated by dots. *)
Fixpoint parseImportPath_names (fuel : nat) (tokens : list Token)
  (path : list (option string)) : P (list Token * list (option string)) :=
  match fuel with
  | O => out_of_fuel
  | S n =>
      identifier <- tk "identifier" ;;
      token <- expect identifier ;;
      let tokens := tokens ++ [token] in
      let path := path ++ [Lexer.data token] in
      token <- lookAhead 1 ;;
      token <- the_token token ;;
      dot <- tk "dot" ;;
      if has_type token dot then
        token <- next ;;
        token <- the_token token ;;
        parseImportPath_names n (tokens ++ [token]) path
      else ret (tokens, path)
  end.

(** [Parser.parseImportPath] *)
Definition parseImportPath (fuel : nat) (tokens : list Token)
  : P (list Token * list (option string)) :=
  r <- parseImportPath_dots fuel tokens [] ;;
  let '(tokens, path) := r in
  parseImportPath_names fuel tokens path.

(** [Parser.parseImport] *)
Definition parseImport (fuel : nat) : P ir :=
  token <- next_asserted "import_kwd" ;;
  r <- parseImportPath fuel [token] ;;
  let '(tokens, path) := r in
  token <- lookAhead 1 ;;
  token <- the_token token ;;
  as_kwd <- tk "as_kwd" ;;
  if has_type token as_kwd then
    token <- next ;;
    token <- the_token token ;;
    identifier <- tk "identifier" ;;
    name <- expect identifier ;;
    ret (Import_ path (Lexer.data name) (Some (tokens ++ [token; name])))
  else ret (Import_ path None (Some tokens)).

(** The loop [for i in range(6)] of [parseLine]: is there an assignment
    token among the tokens looked at?  Each round evaluates [Tokens.equal]
    when the token it looks at is not [None]. *)
Fixpoint assignment_ahead (indices : list nat) : P bool :=
  match indices with
  | [] => ret false
  | i :: rest =>
      token <- lookAhead i ;;
      match token with
      | None => assignment_ahead rest
      | Some token =>
          equal <- tk "equal" ;;
          if has_type token equal then ret true else assignment_ahead rest
      end
  end.

(** The body of [Parser.parseLine]. *)
Definition parseLine_body (fuel : nat) : P ir :=
  token <- lookAhead 1 ;;
  match token with
  | None => ret PyNone
  | Some token =>
      comment <- tk "comment" ;;
      if has_type token comment then parseComment else
      return_kwd <- tk "return_kwd" ;;
      if has_type token return_kwd then parseReturn else
      import_kwd <- tk "import_kwd" ;;
      if has_type token import_kwd then parseImport fuel else
      if_kwd <- tk "if_kwd" ;;
      if has_type token if_kwd then parseBranch fuel else
      while_kwd <- tk "while_kwd" ;;
      if has_type token while_kwd then parseWhile fuel else
      loop_kwd <- tk "loop_kwd" ;;
      if has_type token loop_kwd then parseLoop fuel else
      break_kwd <- tk "break_kwd" ;;
      if has_type token break_kwd then parseBreak else
      identifier <- tk "identifier" ;;
      const_kwd <- tk "const_kwd" ;;
      if has_type token identifier || has_type token const_kwd then
        found <- assignment_ahead (seq 0 6) ;;
        if found then parseAssignment else parseValue
      else parseValue
  end.

(** The loop of [Parser.parseMethodArguments]. *)
Fixpoint parseMethodArguments_loop (fuel : nat)
  (arguments default_values : list ir) : P (list ir * list ir) :=
  match fuel with
  | O => out_of_fuel
  | S n =>
      variable <- parseVariable ;;
      let arguments := arguments ++ [variable] in
      token <- next ;;
      token <- the_token token ;;
      equal <- tk "equal" ;;
      r <- (if has_type token equal
            then (value <- parseValue ;;
                  token <- next ;;
                  token <- the_token token ;;
                  ret (default_values ++ [value], token))
            else ret (default_values ++ [PyNone], token)) ;;
      let '(default_values, token) := r in
      comma <- tk "comma" ;;
      if has_type token comma then
        parseMethodArguments_loop n arguments default_values
      else
        group_end <- tk "group_end" ;;
        if has_type token group_end then ret (arguments, default_values)
        else _unexpected token
  end.

(** [Parser.parseMethodArguments] *)
Definition parseMethodArguments (fuel : nat) : P (list ir * list ir) :=
  token <- next ;;
  token <- the_token token ;;
  group_start <- tk "group_start" ;;
  if negb (has_type token group_start) then _unexpected token
  else
    token <- lookAhead 1 ;;
    token <- the_token token ;;
    group_end <- tk "group_end" ;;
    if negb (has_type token group_end) then
      parseMethodArguments_loop fuel [] []
    else next ;; ret ([], []).

End Statements.

(** [Parser.parseLine], by the nesting depth [fuel] of the blocks it may
    enter (each block also runs for at most [fuel] lines). *)
Fixpoint parseLine (parseValue : P ir) (fuel : nat) : P ir :=
  match fuel with
  | O => out_of_fuel
  | S n => parseLine_body parseValue (parseLine parseValue n) n
  end.

(** The [Tokens] members that [parser.py] names, in order of first use. *)
Definition accessed_members : list string :=
  [ "equality"; "inequality"; "smaller_than"; "smaller_than_or_equal_to";
    "greater_than"; "greater_than_or_equal_to"; "addition"; "subtraction";
    "multiplication"; "division"; "integer_division"; "logical_negation";
    "module_kwd"; "identifier"; "end_kwd"; "comment"; "return_kwd";
    "import_kwd"; "if_kwd"; "while_kwd"; "loop_kwd"; "break_kwd";
    "const_kwd"; "equal"; "group_start"; "dot"; "as_kwd"; "def_kwd";
    "class_kwd"; "integer"; "true_kwd"; "false_kwd"; "string";
    "format_string"; "group_end"; "typeof"; "self_kwd"; "returns";
    "new_kwd"; "comma"; "else_kwd" ].

(** The identifier case of [parseSingleValue]:
    [token = self.next(); return lekvar.Reference(token.data, [token])]. *)
Definition parseReference : P ir :=
  token <- next ;;
  token <- the_token token ;;
  ret (Reference (Lexer.data token) (Some [token])).

(** The lines of a block as the loop of [parseWhile] reads them: each
    line is parsed by [parseLine] when the token ahead is not [end]; the
    block closes when it is, and that token is consumed. *)
Inductive block_lines (parseLine : P ir) : t -> list ir -> Token -> t -> Prop :=
| block_end : forall p p1 p2 token closing,
    lookAhead 1 p = (Ok (Some token), p1) ->
    has_type token Tokens.end_kwd = true ->
    next p1 = (Ok (Some closing), p2) ->
    block_lines parseLine p [] closing p2
| block_line : forall p p1 p2 p3 token line rest closing,
    lookAhead 1 p = (Ok (Some token), p1) ->
    has_type token Tokens.end_kwd = false ->
    parseLine p1 = (Ok line, p2) ->
    block_lines parseLine p2 rest closing p3 ->
    block_lines parseLine p (line :: rest) closing p3.

(** Is [attr] a member of the lexer's enumeration? *)
Definition is_member (attr : string) : bool :=
  match Tokens.getattr attr with
  | Ok _ => true
  | _ => false
  end.

(** [n] calls of [Parser.next], with what they return. *)
Fixpoint nexts (n : nat) : P (list (option Token)) :=
  match n with
  | O => ret []
  | S k => token <- next ;; rest <- nexts k ;; ret (token :: rest)
  end.

(** ** Binary operations *)

(** [BINARY_OPERATIONS]: the sets of operations, from those that bind
    least to those that bind most. *)
Definition BINARY_OPERATIONS : list (list Tokens.t) :=
  [ [Tokens.equality; Tokens.inequality;
     Tokens.smaller_than; Tokens.smaller_than_or_equal_to;
     Tokens.greater_than; Tokens.greater_than_or_equal_to];
    [Tokens.addition; Tokens.subtraction];
    [Tokens.multiplication; Tokens.division; Tokens.integer_division] ].

(** [operation.type in BINARY_OPERATIONS[operation_index]] *)
Definition in_level (operation : Token) (level : list Tokens.t) : bool :=
  existsb (has_type operation) level.

(** [xs[lo:hi]] *)
Definition slice {A : Type} (lo hi : nat) (xs : list A) : list A :=
  firstn (hi - lo) (skipn lo xs).

(** [lekvar.Call(lekvar.Attribute(lhs, operation.data), [rhs], None, operation)]:
    the source passes the operation token itself as the tokens of the
    call, here the list of that one token. *)
Definition binary_call (lhs : ir) (operation : Token) (rhs : ir) : ir :=
  Call (Attribute lhs (Lexer.data operation) None) [rhs] PyNone
    (Some [operation]).

(** The first loop of [parseBinaryOperation], over
    [enumerate(operations)]; [parse] is the recursive call with
    [operation_index + 1] and [rest] what is left of [operations] at
    [index].  It returns [operation_values], [operation_operations] and
    [previous_index]. *)
Fixpoint split_operations (parse : list ir -> list Token -> result ir)
  (level : list Tokens.t) (values : list ir) (operations : list Token)
  (index previous_index : nat) (rest : list Token)
  (operation_values : list ir) (operation_operations : list Token)
  : result (list ir * list Token * nat) :=
  match rest with
  | [] => Ok (operation_values, operation_operations, previous_index)
  | operation :: rest =>
      if in_level operation level then
        match parse (slice previous_index (index + 1) values)
                (slice previous_index index operations) with
        | Ok value =>
            split_operations parse level values operations
              (S index) (index + 1) rest
              (operation_values ++ [value])
              (operation_operations ++ [operation])
        | Raise e => Raise e
        | OutOfFuel => OutOfFuel
        end
      else
        split_operations parse level values operations
          (S index) previous_index rest operation_values operation_operations
  end.

(** The second loop, over [enumerate(operation_operations)]. *)
Fixpoint accumulate (operation_values : list ir) (index : nat)
  (operation_operations : list Token) (lhs : ir) : result ir :=
  match operation_operations with
  | [] => Ok lhs
  | operation :: rest =>
      match nth_error operation_values (index + 1) with
      | None => Raise (IndexError "list index out of range")
      | Some rhs =>
          accumulate operation_values (S index) rest
            (binary_call lhs operation rhs)
      end
  end.

(** [Parser.parseBinaryOperation]; [levels] is
    [BINARY_OPERATIONS[operation_index:]], empty when [operation_index]
    is [len(BINARY_OPERATIONS)]. *)
Fixpoint parseBinaryOperation_from (levels : list (list Tokens.t))
  (values : list ir) (operations : list Token) : result ir :=
  match values with
  | [value] => Ok value
  | _ =>
      match levels with
      | [] => Raise (InternalError "Unparsed operation")
      | level :: higher =>
          match split_operations (parseBinaryOperation_from higher) level
                  values operations 0 0 operations [] [] with
          | Ok (operation_values, operation_operations, previous_index) =>
              match parseBinaryOperation_from higher
                      (skipn previous_index values)
                      (skipn previous_index operations) with
              | Ok value =>
                  let operation_values := operation_values ++ [value] in
                  match operation_values with
                  | [] => Raise (IndexError "list index out of range")
                  | lhs :: _ =>
                      accumulate operation_values 0 operation_operations lhs
                  end
              | Raise e => Raise e
              | OutOfFuel => OutOfFuel
              end
          | Raise e => Raise e
          | OutOfFuel => OutOfFuel
          end
      end
  end.

(** [self.parseBinaryOperation(values, operations)], with the default
    [operation_index = 0]. *)
Definition parseBinaryOperation (values : list ir) (operations : list Token)
  : result ir :=
  parseBinaryOperation_from BINARY_OPERATIONS values operations.

(** [UNARY_OPERATIONS], and [UNARY_OPERATION_TOKENS], the set of its
    members *)
Definition UNARY_OPERATIONS : list Tokens.t :=
  [Tokens.addition; Tokens.subtraction; Tokens.logical_negation].

(** [BINARY_OPERATION_TOKENS], the members of the levels of
    [BINARY_OPERATIONS] *)
Definition BINARY_OPERATION_TOKENS : list Tokens.t :=
  concat BINARY_OPERATIONS.

(** The loop of [Parser.strip]; [fuel] bounds the number of tokens that
    are dropped. *)
Fixpoint strip_loop (fuel : nat) (types : list Tokens.t) (token : Token)
  {struct fuel} : P (option Token) :=
  if existsb (has_type token) types then
    match fuel with
    | O => out_of_fuel
    | S n =>
        next ;;
        token <- lookAhead 1 ;;
        match token with
        | None => ret None
        | Some token => strip_loop n types token
        end
    end
  else ret (Some token).

(** [Parser.strip] *)
Definition strip (fuel : nat) (types : list Tokens.t) : P (option Token) :=
  token <- lookAhead 1 ;;
  match token with
  | None => ret None
  | Some token => strip_loop fuel types token
  end.

(** [lekvar.Call(lekvar.Attribute(value, operation.data), [], None, operation)] *)
Definition unary_call (value : ir) (operation : Token) : ir :=
  Call (Attribute value (Lexer.data operation) None) [] PyNone
    (Some [operation]).

Section Values.

(** The parsers that [parseUnaryOperation] calls: [parseSingleValue] for
    the value itself, and [parseCall], [parseAttribute] and [parseCast]
    for what may follow it. *)
Variable parseSingleValue : P ir.
Variables parseCall parseAttribute parseCast : ir -> P ir.

(** The first loop of [Parser.parseUnaryOperation]: the prefix
    operations, the last one first.  Each round evaluates
    [Tokens.comment] for the argument of [strip]. *)
Fixpoint prefix_operations (fuel : nat) (operations : list (option Token))
  : P (list (option Token)) :=
  match fuel with
  | O => out_of_fuel
  | S n =>
      comment <- tk "comment" ;;
      token <- strip n [comment] ;;
      match token with
      | None => ret operations
      | Some token =>
          if existsb (has_type token) UNARY_OPERATIONS then
            operation <- next ;;
            prefix_operations n (operation :: operations)
          else ret operations
      end
  end.

(** [for operation in operations: value = lekvar.Call(...)] *)
Fixpoint apply_prefix (operations : list (option Token)) (value : ir)
  : P ir :=
  match operations with
  | [] => ret value
  | None :: _ => raise (AttributeError "data")
  | Some operation :: rest => apply_prefix rest (unary_call value operation)
  end.

(** The last loop of [Parser.parseUnaryOperation]: calls, attributes and
    casts after the value. *)
Fixpoint postfix_operations (fuel : nat) (value : ir) : P ir :=
  match fuel with
  | O => out_of_fuel
  | S n =>
      comment <- tk "comment" ;;
      token <- strip n [comment] ;;
      match token with
      | None => ret value
      | Some token =>
          group_start <- tk "group_start" ;;
          if has_type token group_start then
            value <- parseCall value ;;
            postfix_operations n value
          else
            dot <- tk "dot" ;;
            if has_type token dot then
              value <- parseAttribute value ;;
              postfix_operations n value
            else
              as_kwd <- tk "as_kwd" ;;
              if has_type token as_kwd then
                value <- parseCast value ;;
                postfix_operations n value
              else ret value
      end
  end.

(** [Parser.parseUnaryOperation] *)
Definition parseUnaryOperation (fuel : nat) : P ir :=
  operations <- prefix_operations fuel [] ;;
  value <- parseSingleValue ;;
  value <- apply_prefix operations value ;;
  postfix_operations fuel value.

(** The loop of [Parser.parseValue]: binary operations and their right
    operands. *)
Fixpoint parseValue_loop (fuel : nat) (values : list ir)
  (operations : list Token) : P ir :=
  match fuel with
  | O => out_of_fuel
  | S n =>
      comment <- tk "comment" ;;
      token <- strip n [comment] ;;
      match token with
      | Some token =>
          if existsb (has_type token) BINARY_OPERATION_TOKENS then
            operation <- next ;;
            operation <- the_token operation ;;
            value <- parseUnaryOperation n ;;
            parseValue_loop n (values ++ [value]) (operations ++ [operation])
          else lift (parseBinaryOperation values operations)
      | None => lift (parseBinaryOperation values operations)
      end
  end.

(** [Parser.parseValue] *)
Definition parseValue (fuel : nat) : P ir :=
  value <- parseUnaryOperation fuel ;;
  parseValue_loop fuel [value] [].

End Values.

(** The tree [tree] is made of the operands [values] and the operations
    [operations], both in their order, by the precedence of [levels]
    from the level [lo] on: the operation at the root is of a level [k]
    from [lo] on, its left operand is made from [k] on and its right
    operand from the level above [k]. *)
Inductive climbs (levels : list (list Tokens.t))
  : nat -> ir -> list ir -> list Token -> Prop :=
| climbs_value : forall lo value, climbs levels lo value [value] []
| climbs_call : forall lo k level lhs rhs operation
                       values1 operations1 values2 operations2,
    lo <= k -> nth_error levels k = Some level ->
    in_level operation level = true ->
    climbs levels k lhs values1 operations1 ->
    climbs levels (S k) rhs values2 operations2 ->
    climbs levels lo (binary_call lhs operation rhs)
      (values1 ++ values2) (operations1 ++ operation :: operations2).

End Parser.


(* ================================================================== *)
(** * Verifier ([compiler/lekvar/lekvar.py]) *)
(* ================================================================== *)

Module Lekvar.

(** An object is named by its index in the store; [is] is equality of
    indices. *)
Definition ref : Type := nat.

(** The attributes of [class BoundObject]. *)
Record BoundObject : Type := mkBound {
  name : option string;
  bound_context : option ref;
  static : bool;
  dependent : bool
}.

(** One constructor per class, with the instance attributes the verifier
    reads and writes ([tokens] is diagnostic payload and is left out).  An
    attribute that may hold [None] is an [option].  [Function_] with
    [constructor := true] is an instance of [class Constructor(Function)];
    its [bound_context] field holds [_bound_context].  The classes
    [Attribute] and [MethodType] are not part of the embedding. *)
Inductive object : Type :=
| Context (scope : option ref) (children : list (option string * ref))
| Module_ (b : BoundObject) (context main : option ref) (verified : bool)
| ModuleType (b : BoundObject) (module : option ref)
| DependentType (b : BoundObject) (compatibles : list (option ref))
    (target : option ref)
| Function_ (b : BoundObject) (constructor : bool)
    (_local_context closed_context : option ref)
    (arguments instructions : list ref) (type_ : option ref)
    (verified : bool)
| ExternalFunction (b : BoundObject) (external_name : string)
    (type_ : option ref) (verified : bool)
| FunctionType (b : BoundObject) (arguments : list (option ref))
    (return_type : option ref) (verified : bool)
| Method (b : BoundObject) (overload_context : option ref) (verified : bool)
| Class_ (b : BoundObject) (constructor instance_context : option ref)
    (verified : bool)
| Loop (function : option ref) (instructions : list ref)
| Break (loop : option ref)
| Branch (function : option ref) (condition : ref)
    (true_instructions false_instructions : list ref)
| Variable_ (b : BoundObject) (type_ : option ref)
| Assignment (variable value : ref) (scope : option ref)
| Call (called : ref) (values : list ref) (function : option ref)
| Literal (data : Parser.literal) (type_ : option ref)
| Reference (b : BoundObject) (reference : string) (value : option ref)
    (verified : bool)
| Return (value : option ref) (function : option ref)
| Comment (contents : string).

(** [class State]: the ambient state of the verifier. *)
Record State : Type := mkState {
  builtins : option ref;
  scope : option ref;
  soft_scope_stack : option (list ref)
}.

Record world : Type := mkWorld {
  heap : list object;
  state : State
}.

Definition V (A : Type) : Type := M world A.

(** [State.init] *)
Definition State_init : State := mkState None None None.

Definition empty : world := mkWorld [] State_init.

(** ** The store *)

Definition alloc (o : object) : V ref :=
  fun w => (Ok (length (heap w)), mkWorld (heap w ++ [o]) (state w)).

Definition load (r : ref) : V object :=
  fun w =>
    match nth_error (heap w) r with
    | Some o => (Ok o, w)
    | None => (Raise (InternalError "no such object"), w)
    end.

Fixpoint replace (r : nat) (f : object -> object) (h : list object)
  : list object :=
  match h, r with
  | [], _ => []
  | o :: rest, O => f o :: rest
  | o :: rest, S n => o :: replace n f rest
  end.

Definition update (r : ref) (f : object -> object) : V unit :=
  modify (fun w => mkWorld (replace r f (heap w)) (state w)).

Definition get_state : V State := fun w => (Ok (state w), w).
Definition put_state (s : State) : V unit :=
  modify (fun w => mkWorld (heap w) s).

(** [x.attr] where [x] may be [None] and the class of [x] may lack the
    attribute: [AttributeError] in both cases. *)
Definition attr {A : Type} (attr_name : string) (field : object -> option A)
  (x : option ref) : V A :=
  match x with
  | None => raise (AttributeError attr_name)
  | Some r =>
      o <- load r ;;
      match field o with
      | Some a => ret a
      | None => raise (AttributeError attr_name)
      end
  end.

(** ** Attributes by class *)

Definition bound (o : object) : option BoundObject :=
  match o with
  | Module_ b _ _ _ | ModuleType b _ | DependentType b _ _
  | Function_ b _ _ _ _ _ _ _ | ExternalFunction b _ _ _
  | FunctionType b _ _ _ | Method b _ _ | Class_ b _ _ _
  | Variable_ b _ | Reference b _ _ _ => Some b
  | _ => None
  end.

Definition with_bound (f : BoundObject -> BoundObject) (o : object) : object :=
  match o with
  | Module_ b c m v => Module_ (f b) c m v
  | ModuleType b m => ModuleType (f b) m
  | DependentType b c t => DependentType (f b) c t
  | Function_ b k l c a i t v => Function_ (f b) k l c a i t v
  | ExternalFunction b e t v => ExternalFunction (f b) e t v
  | FunctionType b a r v => FunctionType (f b) a r v
  | Method b c v => Method (f b) c v
  | Class_ b c i v => Class_ (f b) c i v
  | Variable_ b t => Variable_ (f b) t
  | Reference b r x v => Reference (f b) r x v
  | o => o
  end.

Definition get_name (o : object) : option (option string) :=
  option_map name (bound o).
Definition get_static (o : object) : option bool :=
  option_map static (bound o).
Definition get_dependent (o : object) : option bool :=
  option_map dependent (bound o).

Definition get_type (o : object) : option (option ref) :=
  match o with
  | Function_ _ _ _ _ _ _ t _ | ExternalFunction _ _ t _
  | Variable_ _ t | Literal _ t => Some t
  | _ => None
  end.

Definition get_children (o : object) : option (list (option string * ref)) :=
  match o with Context _ c => Some c | _ => None end.
Definition get_scope (o : object) : option (option ref) :=
  match o with
  | Context s _ => Some s
  | Assignment _ _ s => Some s
  | _ => None
  end.
Definition get_arguments (o : object) : option (list (option ref)) :=
  match o with
  | FunctionType _ a _ _ => Some a
  | Function_ _ _ _ _ a _ _ _ => Some (map Some a)
  | _ => None
  end.
Definition get_return_type (o : object) : option (option ref) :=
  match o with FunctionType _ _ r _ => Some r | _ => None end.
Definition get_module (o : object) : option (option ref) :=
  match o with ModuleType _ m => Some m | _ => None end.
Definition get_overload_context (o : object) : option (option ref) :=
  match o with Method _ c _ => Some c | _ => None end.
Definition get_closed_context (o : object) : option (option ref) :=
  match o with Function_ _ _ _ c _ _ _ _ => Some c | _ => None end.
Definition get_instructions (o : object) : option (list ref) :=
  match o with
  | Function_ _ _ _ _ _ i _ _ => Some i
  | Loop _ i => Some i
  | _ => None
  end.
Definition get_function_arguments (o : object) : option (list ref) :=
  match o with Function_ _ _ _ _ a _ _ _ => Some a | _ => None end.

Definition isinstance_Function (o : object) : bool :=
  match o with Function_ _ _ _ _ _ _ _ _ => true | _ => false end.
Definition isinstance_Loop (o : object) : bool :=
  match o with Loop _ _ => true | _ => false end.
Definition isinstance_Return (o : object) : bool :=
  match o with Return _ _ => true | _ => false end.
Definition isinstance_Method (o : object) : bool :=
  match o with Method _ _ _ => true | _ => false end.
Definition isinstance_DependentType (o : object) : bool :=
  match o with DependentType _ _ _ => true | _ => false end.
Definition isinstance_FunctionType (o : object) : bool :=
  match o with FunctionType _ _ _ _ => true | _ => false end.

(** [isinstance(x, C)] for an [x] that may be [None]. *)
Definition isinstance (C : object -> bool) (x : option ref) : V bool :=
  match x with
  | None => ret false
  | Some r => o <- load r ;; ret (C o)
  end.

(** Attribute assignments.  Assigning an attribute that the class of the
    object does not declare creates it in Python; no code reads such an
    attribute back, and the store is left as it is. *)
Definition set_name (r : ref) (n : option string) : V unit :=
  update r (with_bound (fun b => mkBound n (bound_context b) (static b) (dependent b))).
Definition set_bound_context (r : ref) (c : option ref) : V unit :=
  update r (with_bound (fun b => mkBound (name b) c (static b) (dependent b))).
Definition set_static (r : ref) (s : bool) : V unit :=
  update r (with_bound (fun b => mkBound (name b) (bound_context b) s (dependent b))).
Definition set_dependent (r : ref) (d : bool) : V unit :=
  update r (with_bound (fun b => mkBound (name b) (bound_context b) (static b) d)).

Definition set_verified (r : ref) : V unit :=
  update r (fun o =>
    match o with
    | Module_ b c m _ => Module_ b c m true
    | Function_ b k l c a i t _ => Function_ b k l c a i t true
    | ExternalFunction b e t _ => ExternalFunction b e t true
    | FunctionType b a rt _ => FunctionType b a rt true
    | Method b c _ => Method b c true
    | Class_ b c i _ => Class_ b c i true
    | Reference b x v _ => Reference b x v true
    | o => o
    end).

Definition set_type (r : ref) (t : option ref) : V unit :=
  update r (fun o =>
    match o with
    | Function_ b k l c a i _ v => Function_ b k l c a i t v
    | ExternalFunction b e _ v => ExternalFunction b e t v
    | Variable_ b _ => Variable_ b t
    | Literal d _ => Literal d t
    | o => o
    end).

Definition set_return_type (r : ref) (t : option ref) : V unit :=
  update r (fun o =>
    match o with
    | FunctionType b a _ v => FunctionType b a t v
    | o => o
    end).

Fixpoint list_set {A : Type} (i : nat) (x : A) (l : list A) : list A :=
  match l, i with
  | [], _ => []
  | _ :: rest, O => x :: rest
  | y :: rest, S n => y :: list_set n x rest
  end.

(** [ft.arguments[index] = t] *)
Definition set_argument (r : ref) (index : nat) (t : option ref) : V unit :=
  o <- load r ;;
  match o with
  | FunctionType b a rt v =>
      if Nat.ltb index (length a)
      then update r (fun _ => FunctionType b (list_set index t a) rt v)
      else raise (IndexError "list assignment index out of range")
  | _ => raise (AttributeError "arguments")
  end.

Definition set_target (r : ref) (t : option ref) : V unit :=
  update r (fun o =>
    match o with
    | DependentType b c _ => DependentType b c t
    | o => o
    end).

Definition append_compatible (r : ref) (t : option ref) : V unit :=
  update r (fun o =>
    match o with
    | DependentType b c x => DependentType b (c ++ [t]) x
    | o => o
    end).

Definition set_children (r : ref) (c : list (option string * ref)) : V unit :=
  update r (fun o => match o with Context s _ => Context s c | o => o end).

Definition set_local_context (r : ref) (c : option ref) : V unit :=
  update r (fun o =>
    match o with
    | Function_ b k _ cc a i t v => Function_ b k c cc a i t v
    | o => o
    end).
Definition set_closed_context (r : ref) (c : option ref) : V unit :=
  update r (fun o =>
    match o with
    | Function_ b k l _ a i t v => Function_ b k l c a i t v
    | o => o
    end).
Definition set_overload_context (r : ref) (c : option ref) : V unit :=
  update r (fun o => match o with Method b _ v => Method b c v | o => o end).
Definition set_context (r : ref) (c : option ref) : V unit :=
  update r (fun o => match o with Module_ b _ m v => Module_ b c m v | o => o end).
Definition set_main (r : ref) (m : option ref) : V unit :=
  update r (fun o => match o with Module_ b c _ v => Module_ b c m v | o => o end).
Definition set_instance_context (r : ref) (c : option ref) : V unit :=
  update r (fun o => match o with Class_ b k _ v => Class_ b k c v | o => o end).
Definition set_constructor (r : ref) (c : option ref) : V unit :=
  update r (fun o => match o with Class_ b _ i v => Class_ b c i v | o => o end).

(** [self.function = ...] of [Loop], [Branch], [Return] and [Call]. *)
Definition set_function (r : ref) (f : option ref) : V unit :=
  update r (fun o =>
    match o with
    | Loop _ i => Loop f i
    | Branch _ c t e => Branch f c t e
    | Return v _ => Return v f
    | Call c vs _ => Call c vs f
    | o => o
    end).
Definition set_loop (r : ref) (l : option ref) : V unit :=
  update r (fun o => match o with Break _ => Break l | o => o end).
Definition set_value (r : ref) (x : option ref) : V unit :=
  update r (fun o => match o with Reference b n _ v => Reference b n x v | o => o end).
Definition set_assignment_scope (r : ref) (s : option ref) : V unit :=
  update r (fun o => match o with Assignment x v _ => Assignment x v s | o => o end).
Definition set_variable (r : ref) (x : ref) : V unit :=
  update r (fun o => match o with Assignment _ v s => Assignment x v s | o => o end).

(** ** Dictionaries ([Context.children]) keep insertion order *)

Definition key_eqb (a b : option string) : bool :=
  match a, b with
  | Some x, Some y => String.eqb x y
  | None, None => true
  | _, _ => false
  end.

Fixpoint dict_get (k : option string) (d : list (option string * ref))
  : option ref :=
  match d with
  | [] => None
  | (k', v) :: rest => if key_eqb k k' then Some v else dict_get k rest
  end.

Fixpoint dict_set (k : option string) (v : ref)
  (d : list (option string * ref)) : list (option string * ref) :=
  match d with
  | [] => [(k, v)]
  | (k', v') :: rest =>
      if key_eqb k k' then (k, v) :: rest else (k', v') :: dict_set k v rest
  end.

Definition dict_values (d : list (option string * ref)) : list ref :=
  map snd d.

(** [list(map(f, xs))] *)
Fixpoint map_M {S A B : Type} (f : A -> M S B) (xs : list A) : M S (list B) :=
  match xs with
  | [] => ret []
  | x :: rest => y <- f x ;; ys <- map_M f rest ;; ret (y :: ys)
  end.

(** [str(n)] *)
Definition str (n : nat) : string := NilEmpty.string_of_uint (Nat.to_uint n).

(** ** [class State] *)

(** [State.scoped], a generator under [@contextmanager] without
    [try]/[finally]: the statements before [yield] run on entry and the
    statement after it when the body of the [with] completes.  When the
    body raises, the exception is thrown into the generator at [yield]
    and leaves it at once: the statement after [yield] does not run. *)
Definition State_scoped {A : Type} (scope_ : ref) (body : V A) : V A :=
  s <- get_state ;;
  let previous := (scope s, soft_scope_stack s) in
  put_state (mkState (builtins s) (Some scope_) (Some [])) ;;
  a <- body ;;
  s <- get_state ;;
  put_state (mkState (builtins s) (fst previous) (snd previous)) ;;
  ret a.

(** [State.softScoped], also without [try]/[finally]. *)
Definition State_softScoped {A : Type} (scope_ : ref) (body : V A) : V A :=
  s <- get_state ;;
  match soft_scope_stack s with
  | None => raise (AttributeError "append")
  | Some stack =>
      put_state (mkState (builtins s) (scope s) (Some (stack ++ [scope_]))) ;;
      a <- body ;;
      s <- get_state ;;
      match soft_scope_stack s with
      | None => raise (AttributeError "pop")
      | Some stack =>
          match stack with
          | [] => raise (IndexError "pop from empty list")
          | _ :: _ =>
              put_state (mkState (builtins s) (scope s) (Some (removelast stack))) ;;
              ret a
          end
      end
  end.

(** ** Constructors ([__init__]) *)

(** [Context.fakeChild] *)
Definition Context_fakeChild (self : ref) (child : option ref) : V unit :=
  match child with
  | None => raise (AttributeError "bound_context")
  | Some c => set_bound_context c (Some self)
  end.

(** [Context.addChild] *)
Definition Context_addChild (self : ref) (child : ref) : V unit :=
  children <- attr "children" get_children (Some self) ;;
  n <- attr "name" get_name (Some child) ;;
  set_children self (dict_set n child children) ;;
  Context_fakeChild self (Some child).

(** [Context.__init__] *)
Definition Context_init (scope_ : option ref) (children : list ref) : V ref :=
  self <- alloc (Context scope_ []) ;;
  for_each children (Context_addChild self) ;;
  ret self.

(** [DependentType.__init__] *)
Definition DependentType_init (compatibles : list (option ref)) : V ref :=
  alloc (DependentType (mkBound (Some EmptyString) None false false) compatibles None).

(** [Variable.__init__] *)
Definition Variable_init (name_ : option string) (type_ : option ref) : V ref :=
  alloc (Variable_ (mkBound name_ None false false) type_).

(** [FunctionType.__init__] *)
Definition FunctionType_init (name_ : option string)
  (arguments : list (option ref)) (return_type : option ref) : V ref :=
  alloc (FunctionType (mkBound name_ None false false) arguments return_type false).

(** [Reference.__init__]: [super().__init__(tokens)] passes the tokens as
    the name. *)
Definition Reference_init (reference : string) : V ref :=
  alloc (Reference (mkBound None None false false) reference None false).

(** [Function.__init__]; [constructor] tells [Constructor] from plain
    [Function]. *)
Definition Function_init (constructor : bool) (name_ : option string)
  (arguments instructions : list ref) (return_type : option ref)
  (static_ : bool) : V ref :=
  self <- alloc (Function_ (mkBound name_ None static_ false) constructor
                   None None arguments instructions None false) ;;
  (if static_ then ret tt
   else (c <- Context_init (Some self) arguments ;;
         set_local_context self (Some c))) ;;
  c <- Context_init (Some self) [] ;;
  set_closed_context self (Some c) ;;
  for_each arguments (fun arg =>
    t <- attr "type" get_type (Some arg) ;;
    match t with
    | None =>
        d <- DependentType_init [] ;;
        set_type arg (Some d) ;;
        set_dependent self true
    | Some _ => ret tt
    end) ;;
  types <- map_M (fun arg => attr "type" get_type (Some arg)) arguments ;;
  ft <- FunctionType_init name_ types return_type ;;
  set_type self (Some ft) ;;
  ret self.

(** [Constructor.__init__] *)
Definition Constructor_init (function : ref) (constructing : ref) : V ref :=
  fname <- attr "name" get_name (Some function) ;;
  farguments <- attr "arguments" get_function_arguments (Some function) ;;
  finstructions <- attr "instructions" get_instructions (Some function) ;;
  ftype <- attr "type" get_type (Some function) ;;
  freturn <- attr "return_type" get_return_type ftype ;;
  self <- Function_init true fname farguments finstructions freturn false ;;
  ftype <- attr "type" get_type (Some function) ;;
  freturn <- attr "return_type" get_return_type ftype ;;
  match freturn with
  | Some _ => raise (TypeError "Constructors must return nothing")
  | None =>
      match ftype with
      | Some ft => set_return_type ft (Some constructing)
      | None => raise (AttributeError "return_type")
      end ;;
      ret self
  end.

(** [Method.addOverload] *)
Definition Method_addOverload (self : ref) (overload : ref) : V unit :=
  c <- attr "overload_context" get_overload_context (Some self) ;;
  children <- attr "children" get_children c ;;
  set_name overload (Some (str (length children))) ;;
  match c with
  | Some c => Context_addChild c overload
  | None => raise (AttributeError "addChild")
  end.

(** [Method.__init__] *)
Definition Method_init (name_ : option string) (overloads : list ref) : V ref :=
  self <- alloc (Method (mkBound name_ None false false) None false) ;;
  c <- Context_init (Some self) [] ;;
  set_overload_context self (Some c) ;;
  for_each overloads (Method_addOverload self) ;;
  ret self.

(** [Method.assimilate] *)
Definition Method_assimilate (self other : ref) : V unit :=
  c <- attr "overload_context" get_overload_context (Some other) ;;
  children <- attr "children" get_children c ;;
  for_each (dict_values children) (Method_addOverload self).

(** [Class.__init__] *)
Definition Class_init (name_ : option string) (constructor : option ref)
  (attributes : list ref) : V ref :=
  self <- alloc (Class_ (mkBound name_ None false false) None None false) ;;
  ic <- Context_init (Some self) attributes ;;
  set_instance_context self (Some ic) ;;
  match constructor with
  | None => ret tt
  | Some m =>
      set_constructor self (Some m) ;;
      oc <- attr "overload_context" get_overload_context (Some m) ;;
      children <- attr "children" get_children oc ;;
      for_each (dict_values children) (fun overload =>
        n <- attr "name" get_name (Some overload) ;;
        k <- Constructor_init overload self ;;
        children <- attr "children" get_children oc ;;
        match oc with
        | Some c => set_children c (dict_set n k children)
        | None => raise (AttributeError "children")
        end ;;
        set_bound_context k oc ;;
        cc <- attr "closed_context" get_closed_context (Some k) ;;
        v <- Variable_init (Some "self") (Some self) ;;
        match cc with
        | Some cc => Context_addChild cc v
        | None => raise (AttributeError "addChild")
        end) ;;
      Context_fakeChild ic (Some m)
  end ;;
  children <- attr "children" get_children (Some ic) ;;
  for_each (dict_values children) (fun child =>
    is_method <- isinstance isinstance_Method (Some child) ;;
    if is_method then
      oc <- attr "overload_context" get_overload_context (Some child) ;;
      overloads <- attr "children" get_children oc ;;
      for_each (dict_values overloads) (fun overload =>
        cc <- attr "closed_context" get_closed_context (Some overload) ;;
        v <- Variable_init (Some "self") (Some self) ;;
        match cc with
        | Some cc => Context_addChild cc v
        | None => raise (AttributeError "addChild")
        end)
    else ret tt) ;;
  ret self.

(** [Module.__init__] *)
Definition Module_init (name_ : option string) (children : list ref)
  (main : option ref) : V ref :=
  self <- alloc (Module_ (mkBound name_ None true false) None None false) ;;
  c <- Context_init (Some self) children ;;
  set_context self (Some c) ;;
  for_each children (fun child => set_static child true) ;;
  set_main self main ;;
  Context_fakeChild c main ;;
  ret self.

(** [ModuleType.__init__]: [super().__init__(tokens)] passes the tokens as
    the name. *)
Definition ModuleType_init (module : option ref) : V ref :=
  alloc (ModuleType (mkBound None None false false) module).

(** ** Properties ([@property]) and name resolution *)

Definition is_ (a b : option ref) : bool :=
  match a, b with
  | Some x, Some y => Nat.eqb x y
  | None, None => true
  | _, _ => false
  end.

(** [x.local_context]: [Module], [Function], [Class] and [Reference]
    override the default [None] of [Object]. *)
Fixpoint local_context (fuel : nat) (self : option ref) : V (option ref) :=
  match fuel with
  | O => out_of_fuel
  | S n =>
      match self with
      | None => raise (AttributeError "local_context")
      | Some r =>
          o <- load r ;;
          match o with
          | Module_ _ c _ _ => ret c
          | Function_ b _ l _ _ _ _ _ =>
              if static b then ret (bound_context b) else ret l
          | Class_ _ _ i _ => ret i
          | Reference _ _ v _ => local_context n v
          | Context _ _ => raise (AttributeError "local_context")
          | _ => ret None
          end
      end
  end.

(** [x.bound_context]: the attribute of [BoundObject], a property of
    [Function]. *)
Fixpoint get_bound_context (fuel : nat) (self : option ref) : V (option ref) :=
  match fuel with
  | O => out_of_fuel
  | S n =>
      match self with
      | None => raise (AttributeError "bound_context")
      | Some r =>
          o <- load r ;;
          match o with
          | Function_ b _ _ _ _ _ _ _ =>
              if static b then
                s <- attr "scope" get_scope (bound_context b) ;;
                get_bound_context n s
              else ret (bound_context b)
          | _ =>
              match bound o with
              | Some b => ret (bound_context b)
              | None => raise (AttributeError "bound_context")
              end
          end
      end
  end.

(** The loop of [resolveReference]. *)
Fixpoint resolveReference_loop (fuel : nat) (reference : option string)
  (scope_ : option ref) (found : list ref) : V (list ref) :=
  match fuel with
  | O => out_of_fuel
  | S n =>
      context <- local_context n scope_ ;;
      found <-
        match context with
        | None => ret found
        | Some c =>
            children <- attr "children" get_children (Some c) ;;
            match dict_get reference children with
            | Some x => ret (found ++ [x])
            | None => ret found
            end
        end ;;
      s <- get_state ;;
      if is_ scope_ (builtins s) then ret found
      else
        bc <- get_bound_context n scope_ ;;
        next <-
          match bc with
          | Some c => attr "scope" get_scope (Some c)
          | None => ret (builtins s)
          end ;;
        resolveReference_loop n reference next found
  end.

(** [resolveReference] *)
Definition resolveReference (fuel : nat) (reference : option string) : V ref :=
  s <- get_state ;;
  found <- resolveReference_loop fuel reference (scope s) [] ;;
  match found with
  | [] => raise (MissingReferenceError "No reference")
  | [x] => ret x
  | _ => raise (AmbiguityError "Ambiguous reference")
  end.

(** [Break._getSoftScope] *)
Fixpoint _getSoftScope_loop (stack : list ref) : V (option ref) :=
  match stack with
  | [] => ret None
  | scope_ :: rest =>
      is_loop <- isinstance isinstance_Loop (Some scope_) ;;
      if is_loop then ret (Some scope_) else _getSoftScope_loop rest
  end.

Definition _getSoftScope : V (option ref) :=
  s <- get_state ;;
  match soft_scope_stack s with
  | None => raise (TypeError "'NoneType' object is not iterable")
  | Some stack => _getSoftScope_loop stack
  end.

(** [Break.verify] *)
Definition Break_verify (self : ref) : V unit :=
  loop <- _getSoftScope ;;
  set_loop self loop ;;
  match loop with
  | None => raise (SyntaxError "Cannot break outside loop")
  | Some _ => ret tt
  end.

(** [any(isinstance(inst, Return) for inst in instructions)] *)
Fixpoint any_Return (instructions : list ref) : V bool :=
  match instructions with
  | [] => ret false
  | inst :: rest =>
      b <- isinstance isinstance_Return (Some inst) ;;
      if b then ret true else any_Return rest
  end.

(** [Function.verifySelf] *)
Definition Function_verifySelf (self : ref) : V unit :=
  instructions <- attr "instructions" get_instructions (Some self) ;;
  returns <- any_Return instructions ;;
  if negb returns then
    t <- attr "type" get_type (Some self) ;;
    return_type <- attr "return_type" get_return_type t ;;
    match return_type with
    | Some _ => raise (SemanticError "All code paths must return")
    | None => ret tt
    end
  else ret tt.

(** [Constructor.verifySelf] *)
Definition Constructor_verifySelf (self : ref) : V unit :=
  instructions <- attr "instructions" get_instructions (Some self) ;;
  for_each instructions (fun instruction =>
    b <- isinstance isinstance_Return (Some instruction) ;;
    if b then raise (SyntaxError "Returns within constructors are invalid")
    else ret tt).

(** [x in xs] for a list of objects compared by identity. *)
Definition mem (x : option ref) (xs : list (option ref)) : bool :=
  existsb (is_ x) xs.

(** The loop of [Method.resolveCall] that collects the matches;
    [resolve] is [overload.resolveCall(call)]. *)
Fixpoint collect_matches (resolve : ref -> V ref) (overloads : list ref)
  (matches : list ref) : V (list ref) :=
  match overloads with
  | [] => ret matches
  | overload :: rest =>
      r <- try_except (x <- resolve overload ;; ret (Some x))
             is_TypeError (ret None) ;;
      match r with
      | Some x => collect_matches resolve rest (matches ++ [x])
      | None => collect_matches resolve rest matches
      end
  end.

(** [Method.resolveCall], given [overload.resolveCall(call)]. *)
Definition Method_resolveCall (resolve : ref -> V ref) (self : ref) : V ref :=
  c <- attr "overload_context" get_overload_context (Some self) ;;
  children <- attr "children" get_children c ;;
  matches <- collect_matches resolve (dict_values children) [] ;;
  match matches with
  | [] => raise (TypeError "call is not compatible with method")
  | first :: others =>
      ambiguous <-
        match others with
        | [] => ret false
        | _ :: _ =>
            s <- get_state ;;
            d <- attr "dependent" get_dependent (scope s) ;;
            ret (negb d)
        end ;;
      if ambiguous then raise (TypeError "Ambiguous overloads")
      else ret first
  end.

(** The loop of [FunctionType.checkCompatibility] over
    [zip(self.arguments, other.arguments)]; [check] is
    [a.checkCompatibility(b)]. *)
Fixpoint FunctionType_check_arguments
  (check : option ref -> option ref -> V bool)
  (pairs : list (option ref * option ref)) : V bool :=
  match pairs with
  | [] => ret true
  | (self_arg, other_arg) :: rest =>
      ok <- check self_arg other_arg ;;
      if negb ok then check other_arg self_arg
      else FunctionType_check_arguments check rest
  end.

(** The loop of [Function.resolveCall] over [enumerate(fn.arguments)]. *)
Fixpoint retarget (fn_type : option ref) (call : ref) (index : nat)
  (arguments : list ref) : V unit :=
  match arguments with
  | [] => ret tt
  | arg :: rest =>
      t <- attr "type" get_type (Some arg) ;;
      is_dependent <- isinstance isinstance_DependentType t ;;
      (if is_dependent then
         call_arguments <- attr "arguments" get_arguments (Some call) ;;
         match nth_error call_arguments index with
         | None => raise (IndexError "list index out of range")
         | Some x =>
             match fn_type with
             | Some ft => set_argument ft index x
             | None => raise (AttributeError "arguments")
             end ;;
             match t with
             | Some d => set_target d x
             | None => ret tt
             end
         end
       else ret tt) ;;
      retarget fn_type call (S index) rest
  end.

(** ** The methods of the objects

    [verify], [resolveType], [resolveValue], [checkCompatibility],
    [resolveCall] and [copy_] dispatch on the class of [self]; every call
    of a method spends one unit of [fuel]. *)
Fixpoint verify (fuel : nat) (self : option ref) : V unit :=
  match fuel with
  | O => out_of_fuel
  | S n =>
      match self with
      | None => raise (AttributeError "verify")
      | Some self =>
      o <- load self ;;
      match o with
      | Context _ children =>
          for_each (dict_values children) (fun child => verify n (Some child))
      | Module_ _ context main verified =>
          if verified then ret tt else
          set_verified self ;;
          State_scoped self (
            verify n main ;;
            verify n context)
      | ModuleType _ module => verify n module
      | DependentType _ _ _ => ret tt
      | Function_ _ constructor _ _ _ instructions type_ verified =>
          if verified then ret tt else
          set_verified self ;;
          State_scoped self (
            verify n type_ ;;
            for_each instructions (fun instruction => verify n (Some instruction)) ;;
            if constructor then Constructor_verifySelf self
            else Function_verifySelf self)
      | ExternalFunction _ _ type_ verified =>
          if verified then ret tt else
          set_verified self ;;
          State_scoped self (verify n type_)
      | FunctionType _ arguments return_type verified =>
          if verified then ret tt else
          set_verified self ;;
          State_scoped self (
            for_each arguments (fun arg => verify n arg) ;;
            match return_type with
            | Some _ => verify n return_type
            | None => ret tt
            end)
      | Method _ overload_context verified =>
          if verified then ret tt else
          set_verified self ;;
          State_scoped self (
            children <- attr "children" get_children overload_context ;;
            for_each (dict_values children) (fun overload => verify n (Some overload)))
      | Class_ _ constructor instance_context verified =>
          if verified then ret tt else
          set_verified self ;;
          State_scoped self (
            match constructor with
            | Some _ => verify n constructor
            | None => ret tt
            end ;;
            verify n instance_context)
      | Loop _ instructions =>
          s <- get_state ;;
          in_function <- isinstance isinstance_Function (scope s) ;;
          if negb in_function then raise (SyntaxError "Cannot branch outside method")
          else
            set_function self (scope s) ;;
            State_softScoped self (
              for_each instructions (fun instruction => verify n (Some instruction)))
      | Break _ => Break_verify self
      | Branch _ condition true_instructions false_instructions =>
          s <- get_state ;;
          in_function <- isinstance isinstance_Function (scope s) ;;
          if negb in_function then raise (SyntaxError "Cannot branch outside method")
          else
            set_function self (scope s) ;;
            verify n (Some condition) ;;
            State_softScoped self (
              for_each true_instructions (fun instruction => verify n (Some instruction)) ;;
              for_each false_instructions (fun instruction => verify n (Some instruction)))
      | Variable_ _ type_ =>
          match type_ with
          | Some _ => verify n type_
          | None => ret tt
          end
      | Assignment variable value _ =>
          s <- get_state ;;
          set_assignment_scope self (scope s) ;;
          vname <- attr "name" get_name (Some variable) ;;
          found <- try_except
                     (x <- resolveReference n vname ;; ret (Some x))
                     is_MissingReferenceError (ret None) ;;
          variable <-
            match found with
            | None =>
                lc <- local_context n (scope s) ;;
                match lc with
                | Some c => Context_addChild c variable
                | None => raise (AttributeError "addChild")
                end ;;
                ret variable
            | Some existing =>
                t <- attr "type" get_type (Some existing) ;;
                declared <- attr "type" get_type (Some variable) ;;
                match t, declared with
                | None, _ => set_type existing declared
                | Some _, Some _ => raise (TypeError "Cannot override variable type")
                | Some _, None => ret tt
                end ;;
                set_variable self existing ;;
                ret existing
            end ;;
          verify n (Some value) ;;
          verify n (Some variable) ;;
          value_type <- resolveType n (Some value) ;;
          t <- attr "type" get_type (Some variable) ;;
          match t with
          | None => set_type variable value_type
          | Some _ =>
              ok <- checkCompatibility n value_type t ;;
              if negb ok then raise (TypeError "Cannot assign value to variable")
              else ret tt
          end
      | Call called values _ =>
          verify n (Some called) ;;
          arg_types <- map_M (fun val =>
                         verify n (Some val) ;;
                         resolveType n (Some val)) values ;;
          call_type <- FunctionType_init (Some EmptyString) arg_types None ;;
          function <- resolveCall n (Some called) call_type ;;
          set_function self (Some function)
      | Literal _ type_ => verify n type_
      | Reference _ reference _ verified =>
          if verified then ret tt else
          set_verified self ;;
          value <- resolveReference n (Some reference) ;;
          set_value self (Some value) ;;
          verify n (Some value)
      | Return value _ =>
          verify n value ;;
          s <- get_state ;;
          in_function <- isinstance isinstance_Function (scope s) ;;
          if negb in_function then raise (SyntaxError "Cannot return outside of a method")
          else
            set_function self (scope s) ;;
            ftype <- attr "type" get_type (scope s) ;;
            return_type <- attr "return_type" get_return_type ftype ;;
            match return_type, ftype with
            | None, Some ft =>
                t <- resolveType n value ;;
                set_return_type ft t
            | _, _ =>
                t <- resolveType n value ;;
                checkCompatibility n return_type t ;;
                ret tt
            end
      | Comment _ => ret tt
      end
      end
  end

with resolveType (fuel : nat) (self : option ref) : V (option ref) :=
  match fuel with
  | O => out_of_fuel
  | S n =>
      match self with
      | None => raise (AttributeError "resolveType")
      | Some self =>
      o <- load self ;;
      match o with
      | Context _ _ => raise (AttributeError "resolveType")
      | Module_ _ _ _ _ => t <- ModuleType_init (Some self) ;; ret (Some t)
      | ModuleType _ _ | DependentType _ _ _ | FunctionType _ _ _ _
      | Class_ _ _ _ _ => raise (InternalError "Not Implemented")
      | Function_ _ _ _ _ _ _ type_ _ => ret type_
      | ExternalFunction _ _ type_ _ => ret type_
      | Method _ _ _ => raise (AttributeError "overload")
      | Variable_ _ type_ => ret type_
      | Literal _ type_ => ret type_
      | Reference _ _ value _ => resolveType n value
      | Call _ _ function =>
          t <- resolveType n function ;;
          attr "return_type" get_return_type t
      | Loop _ _ | Break _ | Branch _ _ _ _ | Assignment _ _ _
      | Return _ _ | Comment _ => ret None
      end
      end
  end

with resolveValue (fuel : nat) (self : option ref) : V ref :=
  match fuel with
  | O => out_of_fuel
  | S n =>
      match self with
      | None => raise (AttributeError "resolveValue")
      | Some self =>
      o <- load self ;;
      match o with
      | Context _ _ => raise (AttributeError "resolveValue")
      | Reference _ _ value _ => resolveValue n value
      | _ => ret self
      end
      end
  end

with checkCompatibility (fuel : nat) (self other : option ref) : V bool :=
  match fuel with
  | O => out_of_fuel
  | S n =>
      match self with
      | None => raise (AttributeError "checkCompatibility")
      | Some self =>
      o <- load self ;;
      match o with
      | ModuleType _ module =>
          other_module <- attr "module" get_module other ;;
          ret (is_ other_module module)
      | DependentType _ compatibles target =>
          match target with
          | Some _ => checkCompatibility n target other
          | None =>
              (if negb (mem other compatibles)
               then append_compatible self other
               else ret tt) ;;
              ret true
          end
      | FunctionType _ arguments _ _ =>
          other <- resolveValue n other ;;
          is_function_type <- isinstance isinstance_FunctionType (Some other) ;;
          if is_function_type then
            other_arguments <- attr "arguments" get_arguments (Some other) ;;
            if negb (Nat.eqb (length arguments) (length other_arguments))
            then ret false
            else
              FunctionType_check_arguments (checkCompatibility n)
                (combine arguments other_arguments)
          else checkCompatibility n (Some other) (Some self)
      | Class_ _ _ _ _ =>
          other <- resolveValue n other ;;
          ret (Nat.eqb other self)
      | Reference _ _ value _ => checkCompatibility n value other
      | _ => raise (AttributeError "checkCompatibility")
      end
      end
  end

with resolveCall (fuel : nat) (self : option ref) (call : ref) : V ref :=
  match fuel with
  | O => out_of_fuel
  | S n =>
      match self with
      | None => raise (AttributeError "resolveCall")
      | Some self =>
      o <- load self ;;
      match o with
      | Context _ _ => raise (AttributeError "resolveCall")
      | Function_ _ _ _ _ _ _ _ _ | ExternalFunction _ _ _ _ =>
          t <- resolveType n (Some self) ;;
          ok <- checkCompatibility n t (Some call) ;;
          if negb ok then raise (TypeError "call is not compatible with function")
          else
            d <- attr "dependent" get_dependent (Some self) ;;
            if negb d then ret self
            else
              fn <- copy_ n self ;;
              arguments <- attr "arguments" get_function_arguments (Some fn) ;;
              fn_type <- attr "type" get_type (Some fn) ;;
              retarget fn_type call 0 arguments ;;
              verify n (Some fn) ;;
              ret fn
      | Method _ _ _ =>
          Method_resolveCall (fun overload => resolveCall n (Some overload) call) self
      | Class_ _ constructor _ _ =>
          match constructor with
          | None => raise (TypeError "Class does not have a constructor")
          | Some _ =>
              function <- resolveCall n constructor call ;;
              t <- attr "type" get_type (Some function) ;;
              match t with
              | Some ft => set_return_type ft (Some self)
              | None => raise (AttributeError "return_type")
              end ;;
              ret function
          end
      | Reference _ _ value _ => resolveCall n value call
      | _ => raise (TypeError "object is not callable")
      end
      end
  end

(** [obj.copy()]; below, [copy] is the module-level [copy(obj)], that is
    [obj.copy() if obj else None]. *)
with copy_ (fuel : nat) (self : ref) : V ref :=
  match fuel with
  | O => out_of_fuel
  | S n =>
      let copy := fun (obj : option ref) =>
        match obj with
        | None => ret None
        | Some r => c <- copy_ n r ;; ret (Some c)
        end in
      o <- load self ;;
      match o with
      | Context _ _ => raise (InternalError "the copy of a context is a list")
      | Module_ b context _ _ =>
          children <- attr "children" get_children context ;;
          copies <- map_M (copy_ n) (dict_values children) ;;
          Module_init (name b) copies None
      | ModuleType _ module =>
          m <- copy module ;;
          ModuleType_init m
      | DependentType _ compatibles _ => DependentType_init compatibles
      | Function_ b _ _ _ arguments instructions type_ _ =>
          arguments <- map_M (copy_ n) arguments ;;
          instructions <- map_M (copy_ n) instructions ;;
          return_type <- attr "return_type" get_return_type type_ ;;
          fn <- Function_init false (name b) arguments instructions
                  return_type false ;;
          static_ <- attr "static" get_static (Some self) ;;
          set_static fn static_ ;;
          ret fn
      | ExternalFunction _ _ _ _ => raise (InternalError "Not Implemented")
      | FunctionType b arguments return_type _ =>
          arguments <- map_M copy arguments ;;
          return_type <- copy return_type ;;
          FunctionType_init (name b) arguments return_type
      | Method b overload_context _ =>
          children <- attr "children" get_children overload_context ;;
          copies <- map_M (copy_ n) (dict_values children) ;;
          Method_init (name b) copies
      | Class_ b constructor _ _ =>
          k <- copy constructor ;;
          oc <- attr "overload_context" get_overload_context constructor ;;
          children <- attr "children" get_children oc ;;
          copies <- map_M (copy_ n) (dict_values children) ;;
          Class_init (name b) k copies
      | Loop _ instructions => alloc (Loop None instructions)
      | Break _ => alloc (Break None)
      | Branch _ condition true_instructions false_instructions =>
          alloc (Branch None condition true_instructions false_instructions)
      | Variable_ b type_ =>
          t <- copy type_ ;;
          var <- Variable_init (name b) t ;;
          set_static var (static b) ;;
          ret var
      | Assignment variable value _ =>
          variable <- copy_ n variable ;;
          value <- copy_ n value ;;
          alloc (Assignment variable value None)
      | Call called values _ =>
          called <- copy_ n called ;;
          values <- map_M (copy_ n) values ;;
          alloc (Call called values None)
      | Literal _ _ => ret self
      | Reference _ reference _ _ => Reference_init reference
      | Return value _ =>
          value <- copy value ;;
          alloc (Return value None)
      | Comment contents => alloc (Comment contents)
      end
  end.

(** [lekvar.verify(module, builtin)] *)
Definition verify_module (fuel : nat) (module builtin : ref) : V unit :=
  put_state State_init ;;
  s <- get_state ;;
  put_state (mkState (Some builtin) (scope s) (soft_scope_stack s)) ;;
  verify fuel (Some module).

(** ** Reading the store *)

(** The object at [r] is an instance of the class [C]. *)
Definition instance_of (C : object -> bool) (w : world) (r : ref) : Prop :=
  exists o, nth_error (heap w) r = Some o /\ C o = true.

(** The object at [r] exists and is not an instance of [C]. *)
Definition not_instance_of (C : object -> bool) (w : world) (r : ref) : Prop :=
  exists o, nth_error (heap w) r = Some o /\ C o = false.

Definition is_instance (C : object -> bool) (w : world) (r : ref) : bool :=
  match nth_error (heap w) r with
  | Some o => C o
  | None => false
  end.

(** The overloads of a method tried in declaration order, as the loop of
    [Method.resolveCall] does: an overload whose [resolveCall] returns
    adds what it returns to the matches, one that raises [TypeError] is
    passed over. *)
Inductive tried (resolve : ref -> V ref)
  : list ref -> world -> list ref -> world -> Prop :=
| tried_nil : forall w, tried resolve [] w [] w
| tried_match : forall overload rest w x w1 matches w2,
    resolve overload w = (Ok x, w1) ->
    tried resolve rest w1 matches w2 ->
    tried resolve (overload :: rest) w (x :: matches) w2
| tried_skip : forall overload rest w message w1 matches w2,
    resolve overload w = (Raise (TypeError message), w1) ->
    tried resolve rest w1 matches w2 ->
    tried resolve (overload :: rest) w matches w2.

(** ** Frames

    What the methods leave as it is.  [class_of] is [type(obj)], with
    [Constructor] counted as [Function]. *)

Inductive class_name : Type :=
| c_Context | c_Module | c_ModuleType | c_DependentType | c_Function
| c_ExternalFunction | c_FunctionType | c_Method | c_Class | c_Loop
| c_Break | c_Branch | c_Variable | c_Assignment | c_Call | c_Literal
| c_Reference | c_Return | c_Comment.

Definition class_of (o : object) : class_name :=
  match o with
  | Context _ _ => c_Context
  | Module_ _ _ _ _ => c_Module
  | ModuleType _ _ => c_ModuleType
  | DependentType _ _ _ => c_DependentType
  | Function_ _ _ _ _ _ _ _ _ => c_Function
  | ExternalFunction _ _ _ _ => c_ExternalFunction
  | FunctionType _ _ _ _ => c_FunctionType
  | Method _ _ _ => c_Method
  | Class_ _ _ _ _ => c_Class
  | Loop _ _ => c_Loop
  | Break _ => c_Break
  | Branch _ _ _ _ => c_Branch
  | Variable_ _ _ => c_Variable
  | Assignment _ _ _ => c_Assignment
  | Call _ _ _ => c_Call
  | Literal _ _ => c_Literal
  | Reference _ _ _ _ => c_Reference
  | Return _ _ => c_Return
  | Comment _ => c_Comment
  end.

Definition isinstance_Literal (o : object) : bool :=
  match o with Literal _ _ => true | _ => false end.

Definition get_target (o : object) : option (option ref) :=
  match o with DependentType _ _ t => Some t | _ => None end.

Definition get_verified (o : object) : option bool :=
  match o with
  | Module_ _ _ _ v | Function_ _ _ _ _ _ _ _ v | ExternalFunction _ _ _ v
  | FunctionType _ _ _ v | Method _ _ v | Class_ _ _ _ v
  | Reference _ _ _ v => Some v
  | _ => None
  end.

(** What no method changes of any object: its class and, of a function,
    the list of its arguments. *)
Definition kept (o o' : object) : Prop :=
  class_of o = class_of o' /\
  get_function_arguments o = get_function_arguments o'.

(** What a method changes only of the objects it has created itself:
    [dependent], the [target] of a dependent type, the [arguments] of a
    function type; [verified] is only ever set, and a [type] that is not
    [None] stays. *)
Definition settled (o o' : object) : Prop :=
  get_dependent o = get_dependent o' /\
  get_target o = get_target o' /\
  get_arguments o = get_arguments o' /\
  (get_verified o = Some true -> get_verified o' = Some true) /\
  (forall t, get_type o = Some (Some t) -> get_type o' = Some (Some t)).

(** The store of [w'] extends the store of [w], and the objects below
    [N] are settled. *)
Definition extends (N : nat) (w w' : world) : Prop :=
  length (heap w) <= length (heap w') /\
  forall r o, nth_error (heap w) r = Some o ->
    exists o', nth_error (heap w') r = Some o' /\ kept o o' /\
               (r < N -> settled o o').

(** The types of the objects from [N] on are themselves from [N] on, or
    literals. *)
Definition types_fresh (N : nat) (w : world) : Prop :=
  forall r o t, N <= r -> nth_error (heap w) r = Some o ->
    get_type o = Some (Some t) ->
    N <= t \/ is_instance isinstance_Literal w t = true.

(** A computation started in a store of at least [N] objects settles the
    objects below [N], keeps the invariant [I] and, when it returns,
    returns a value with [P]. *)
Definition spec {A : Type} (N : nat) (I : world -> Prop) (c : V A)
  (P : A -> Prop) : Prop :=
  forall w r w', N <= length (heap w) -> c w = (r, w') ->
    extends N w w' /\ (I w -> I w') /\ (forall a, r = Ok a -> P a).

Definition anything {A : Type} (a : A) : Prop := True.
Definition always (w : world) : Prop := True.

(** The same for a computation started in the store [w], with what it
    returns read in the store it leaves. *)
Definition spec_at {A : Type} (N : nat) (I : world -> Prop) (w : world)
  (c : V A) (Q : A -> world -> Prop) : Prop :=
  forall r w', N <= length (heap w) -> c w = (r, w') ->
    extends N w w' /\ (I w -> I w') /\ (forall a, r = Ok a -> Q a w').

(** A copy is an object from [N] on, or the literal itself; the
    arguments of a copy of a function are from [N] on. *)
Definition copied (N : nat) (a : ref) (w : world) : Prop :=
  a < length (heap w) /\
  (N <= a \/ is_instance isinstance_Literal w a = true) /\
  forall o arguments, nth_error (heap w) a = Some o ->
    get_function_arguments o = Some arguments -> Forall (le N) arguments.

(** What follows [self = ...] in [Function.__init__]. *)
Definition Function_init_rest (self : ref) (name_ : option string)
  (arguments : list ref) (return_type : option ref) (static_ : bool)
  : V ref :=
  (if static_ then ret tt
   else (c <- Context_init (Some self) arguments ;;
         set_local_context self (Some c))) ;;
  c <- Context_init (Some self) [] ;;
  set_closed_context self (Some c) ;;
  for_each arguments (fun arg =>
    t <- attr "type" get_type (Some arg) ;;
    match t with
    | None =>
        d <- DependentType_init [] ;;
        set_type arg (Some d) ;;
        set_dependent self true
    | Some _ => ret tt
    end) ;;
  types <- map_M (fun arg => attr "type" get_type (Some arg)) arguments ;;
  ft <- FunctionType_init name_ types return_type ;;
  set_type self (Some ft) ;;
  ret self.

(** The copy made by [Function.resolveCall], retargeted and verified. *)
Definition specialize (fuel : nat) (self call : ref) : V ref :=
  fn <- copy_ fuel self ;;
  arguments <- attr "arguments" get_function_arguments (Some fn) ;;
  fn_type <- attr "type" get_type (Some fn) ;;
  retarget fn_type call 0 arguments ;;
  verify fuel (Some fn) ;;
  ret fn.

(** The objects at [vs] are variables with a type, created in the order
    of the list from [lo] on, each after its type when the type is not a
    literal. *)
Fixpoint typed_chain (w : world) (lo : nat) (vs : list ref) : Prop :=
  match vs with
  | [] => True
  | v :: vs =>
      (exists b c, nth_error (heap w) v = Some (Variable_ b (Some c)) /\
                   lo <= v /\ c < v /\
                   (lo <= c \/ is_instance isinstance_Literal w c = true)) /\
      typed_chain w (S v) vs
  end.

(** The object at [r] is a variable of type [t]. *)
Definition typed_variable (w : world) (r : ref) : Prop :=
  exists b t, nth_error (heap w) r = Some (Variable_ b (Some t)).

(** The object at [fn] is a function with the arguments [vs], the type
    [ft] and the flag [dependent] at [d]. *)
Definition is_function (w : world) (fn : ref) (vs : list ref) (ft : ref)
  (d : bool) : Prop :=
  exists o, nth_error (heap w) fn = Some o /\ class_of o = c_Function /\
            get_dependent o = Some d /\
            get_function_arguments o = Some vs /\
            get_type o = Some (Some ft).

(** The argument [v], the [i]-th, is a variable with a type; when the
    type is a [DependentType], its target and the [i]-th argument of the
    function type [ft] are the [i]-th of [xs]. *)
Definition retargeted (w : world) (ft : ref) (xs : list (option ref))
  (i : nat) (v : ref) : Prop :=
  exists b c,
    nth_error (heap w) v = Some (Variable_ b (Some c)) /\
    (is_instance isinstance_DependentType w c = true ->
     exists x,
       nth_error xs i = Some x /\
       (exists o, nth_error (heap w) c = Some o /\ get_target o = Some x) /\
       (exists o targs, nth_error (heap w) ft = Some o /\
                        get_arguments o = Some targs /\
                        nth_error targs i = Some x)).

(** The argument [v], the [i]-th of a copy, is a variable whose type is
    a [DependentType] created from the object [lo] on, and the target of
    that type and the [i]-th argument of the function type [ft] are the
    [i]-th of [xs]. *)
Definition resolved (w : world) (lo : nat) (ft : ref)
  (xs : list (option ref)) (i : nat) (v : ref) : Prop :=
  exists b c x bd cs o targs,
    nth_error (heap w) v = Some (Variable_ b (Some c)) /\
    lo <= c /\
    nth_error (heap w) c = Some (DependentType bd cs x) /\
    nth_error xs i = Some x /\
    nth_error (heap w) ft = Some o /\
    get_arguments o = Some targs /\
    nth_error targs i = Some x.

(** An attribute assignment that touches none of the above. *)
Definition benign (f : object -> object) : Prop :=
  forall o, kept o (f o) /\ settled o (f o) /\ get_type (f o) = get_type o.

(** ** Programs

    The objects the parser creates for a few sources, built with the
    constructors above.  Types written in the source are [Reference]s to
    the classes of the builtin module. *)

(** The outcome of a computation started in the empty store. *)
Definition outcome {A : Type} (c : V A) : result A := fst (c empty).

(** The outcome of a computation as a value, whatever it is. *)
Definition attempt {A : Type} (c : V A) : V (result A) :=
  fun w => let (r, w') := c w in (Ok r, w').

Record Builtins : Type := mkBuiltins {
  Int : ref;
  String_ : ref;
  Bool : ref;
  builtin : ref
}.

(** A builtin module with the classes [Int], [String] and [Bool] and the
    given further children. *)
Definition make_builtins (children : list ref) : V Builtins :=
  int <- Class_init (Some "Int") None [] ;;
  string_ <- Class_init (Some "String") None [] ;;
  bool_ <- Class_init (Some "Bool") None [] ;;
  main <- Function_init false (Some "main") [] [] None false ;;
  m <- Module_init (Some "_builtins") ([int; string_; bool_] ++ children) (Some main) ;;
  ret (mkBuiltins int string_ bool_ m).

(** [Literal(data, Reference(type))] *)
Definition make_literal (data : Parser.literal) (type_ : string) : V ref :=
  t <- Reference_init type_ ;;
  alloc (Literal data (Some t)).

(** [Variable(name, Reference(type))] *)
Definition make_typed_variable (name_ type_ : string) : V ref :=
  t <- Reference_init type_ ;;
  Variable_init (Some name_) (Some t).

(** A program: the builtin module, the module [main] with its main
    function, and the objects of interest. *)
Record Program : Type := mkProgram {
  builtin_module : ref;
  module : ref;
  main : ref;
  objects : list ref
}.

(** A module [main] with the given children and instructions of its main
    function, over the builtins [b]. *)
Definition make_program (b : Builtins) (children instructions objects : list ref)
  : V Program :=
  main <- Function_init false (Some "main") [] instructions None false ;;
  module <- Module_init (Some "main") children (Some main) ;;
  ret (mkProgram (builtin b) module main objects).

(** The [i]-th object of interest. *)
Definition object_ (p : Program) (i : nat) : ref := nth i (objects p) 0.

(** [lekvar.verify(module, builtin)] for a program. *)
Definition verify_program (fuel : nat) (p : Program) : V unit :=
  verify_module fuel (module p) (builtin_module p).

(** [def f(b:Bool) -> Int  if b return 1 else return 2 end  end];
    objects: the function [f] and the branch. *)
Definition program_branch_returns : V Program :=
  b <- make_builtins [] ;;
  arg <- make_typed_variable "b" "Bool" ;;
  condition <- Reference_init "b" ;;
  one <- make_literal (Parser.LInt 1) "Int" ;;
  two <- make_literal (Parser.LInt 2) "Int" ;;
  return_one <- alloc (Return (Some one) None) ;;
  return_two <- alloc (Return (Some two) None) ;;
  branch <- alloc (Branch None condition [return_one] [return_two]) ;;
  return_type <- Reference_init "Int" ;;
  f <- Function_init false (Some EmptyString) [arg] [branch] (Some return_type) false ;;
  m <- Method_init (Some "f") [f] ;;
  make_program b [m] [] [f; branch].

(** [def f(b:Bool) -> Int  if b return 1 end  end];
    objects: the function [f] and the branch. *)
Definition program_single_armed_branch : V Program :=
  b <- make_builtins [] ;;
  arg <- make_typed_variable "b" "Bool" ;;
  condition <- Reference_init "b" ;;
  one <- make_literal (Parser.LInt 1) "Int" ;;
  return_one <- alloc (Return (Some one) None) ;;
  branch <- alloc (Branch None condition [return_one] []) ;;
  return_type <- Reference_init "Int" ;;
  f <- Function_init false (Some EmptyString) [arg] [branch] (Some return_type) false ;;
  m <- Method_init (Some "f") [f] ;;
  make_program b [m] [] [f; branch].

(** Is [f] a function whose body is the single instruction [branch], a
    [Branch] with exactly one instruction in each arm, both [Return]s? *)
Definition body_is_branch_of_returns (f branch : ref) : V bool :=
  instructions <- attr "instructions" get_instructions (Some f) ;;
  o <- load branch ;;
  match instructions, o with
  | [i], Branch _ _ [return_one] [return_two] =>
      a <- isinstance isinstance_Return (Some return_one) ;;
      b <- isinstance isinstance_Return (Some return_two) ;;
      ret (Nat.eqb i branch && a && b)
  | _, _ => ret false
  end.

(** [def f() loop loop break end end end];
    objects: the outer loop, the inner loop and the break. *)
Definition program_nested_loops : V Program :=
  b <- make_builtins [] ;;
  break <- alloc (Break None) ;;
  inner <- alloc (Loop None [break]) ;;
  outer <- alloc (Loop None [inner]) ;;
  f <- Function_init false (Some EmptyString) [] [outer] None false ;;
  m <- Method_init (Some "f") [f] ;;
  make_program b [m] [] [outer; inner; break].

(** Is [loop] a [Loop] whose only instruction is [instruction]? *)
Definition loop_of (loop instruction : ref) : V bool :=
  o <- load loop ;;
  match o with
  | Loop _ [i] => ret (Nat.eqb i instruction)
  | _ => ret false
  end.

(** Is [break] a [Break] whose [loop] attribute is [loop]? *)
Definition bound_to (break loop : ref) : V bool :=
  o <- load break ;;
  match o with
  | Break l => ret (is_ l (Some loop))
  | _ => ret false
  end.

(** Over builtins that have [def h(z:Int) end]:
    [def g(x) h(x) end  def g(y:String) end];
    objects: the method [g], its overloads [g0] and [g1]. *)
Definition program_overloads : V Program :=
  z <- make_typed_variable "z" "Int" ;;
  h0 <- Function_init false (Some EmptyString) [z] [] None false ;;
  h <- Method_init (Some "h") [h0] ;;
  b <- make_builtins [h] ;;
  x <- Variable_init (Some "x") None ;;
  callee <- Reference_init "h" ;;
  value <- Reference_init "x" ;;
  call <- alloc (Call callee [value] None) ;;
  g0 <- Function_init false (Some EmptyString) [x] [call] None false ;;
  y <- make_typed_variable "y" "String" ;;
  g1 <- Function_init false (Some EmptyString) [y] [] None false ;;
  g <- Method_init (Some "g") [g0; g1] ;;
  make_program b [g] [] [g; g0; g1].

(** The call signature [FunctionType(name, [Reference(type)])] of a call
    with one argument of a builtin type, the reference verified. *)
Definition make_call_type (fuel : nat) (type_ : string) : V ref :=
  t <- Reference_init type_ ;;
  verify fuel (Some t) ;;
  FunctionType_init (Some EmptyString) [Some t] None.

(** [callee.resolveCall(signature)] for a call with one argument of a
    builtin type, made where [scope_] is the current scope: what is
    returned, and [State.scope] after the call. *)
Definition call_with (fuel : nat) (scope_ callee : ref) (type_ : string)
  : V (ref * option ref) :=
  State_scoped scope_ (
    call <- make_call_type fuel type_ ;;
    chosen <- resolveCall fuel (Some callee) call ;;
    s <- get_state ;;
    ret (chosen, scope s)).

(** [def g(x:Int) end  def g(x:Int) end  g(1)];
    objects: the method [g], its overloads [g0] and [g1]. *)
Definition program_ambiguous : V Program :=
  b <- make_builtins [] ;;
  x0 <- make_typed_variable "x" "Int" ;;
  g0 <- Function_init false (Some EmptyString) [x0] [] None false ;;
  x1 <- make_typed_variable "x" "Int" ;;
  g1 <- Function_init false (Some EmptyString) [x1] [] None false ;;
  g <- Method_init (Some "g") [g0] ;;
  g' <- Method_init (Some "g") [g1] ;;
  Method_assimilate g g' ;;
  callee <- Reference_init "g" ;;
  one <- make_literal (Parser.LInt 1) "Int" ;;
  call <- alloc (Call callee [one] None) ;;
  make_program b [g] [call] [g; g0; g1].

(** [def id(x) return x end]; objects: the function [id], its method,
    and the builtin classes [Int] and [String]. *)
Definition program_generic : V Program :=
  b <- make_builtins [] ;;
  x <- Variable_init (Some "x") None ;;
  value <- Reference_init "x" ;;
  return_x <- alloc (Return (Some value) None) ;;
  f <- Function_init false (Some EmptyString) [x] [return_x] None false ;;
  m <- Method_init (Some "id") [f] ;;
  make_program b [m] [] [f; m; Int b; String_ b].

(** [def h(z:Int) end  def f(x) h(x) end], both in the module [main];
    objects: the function [f]. *)
Definition program_generic_caller : V Program :=
  b <- make_builtins [] ;;
  z <- make_typed_variable "z" "Int" ;;
  h0 <- Function_init false (Some EmptyString) [z] [] None false ;;
  h <- Method_init (Some "h") [h0] ;;
  x <- Variable_init (Some "x") None ;;
  callee <- Reference_init "h" ;;
  value <- Reference_init "x" ;;
  call <- alloc (Call callee [value] None) ;;
  f0 <- Function_init false (Some EmptyString) [x] [call] None false ;;
  f <- Method_init (Some "f") [f0] ;;
  make_program b [h; f] [] [f0].

(** Is the signature made for a call with one argument of a builtin type
    compatible with the type of [f], in the scope [scope_]? *)
Definition compatible_with (fuel : nat) (scope_ f : ref) (type_ : string)
  : V bool :=
  State_scoped scope_ (
    call <- make_call_type fuel type_ ;;
    t <- resolveType fuel (Some f) ;;
    checkCompatibility fuel t (Some call)).

(** Is [f] a function marked dependent, and has every argument of [f]
    that is typed by a [DependentType] no target? *)
Fixpoint untargeted (arguments : list ref) : V bool :=
  match arguments with
  | [] => ret true
  | arg :: rest =>
      t <- attr "type" get_type (Some arg) ;;
      o <- attr "type" (fun o => Some o) t ;;
      match o with
      | DependentType _ _ (Some _) => ret false
      | _ => untargeted rest
      end
  end.

Definition dependent_and_unresolved (f : ref) : V bool :=
  d <- attr "dependent" get_dependent (Some f) ;;
  arguments <- attr "arguments" get_function_arguments (Some f) ;;
  u <- untargeted arguments ;;
  ret (d && u).

(** Is [f] a verified function, not marked dependent, whose only
    argument is typed by a [DependentType] with the target [target]? *)
Definition specialized_to (f : ref) (target : ref) : V bool :=
  o <- load f ;;
  match o with
  | Function_ b _ _ _ [arg] _ _ verified =>
      t <- attr "type" get_type (Some arg) ;;
      d <- attr "type" (fun o => Some o) t ;;
      match d with
      | DependentType _ _ (Some x) =>
          v <- resolveValue 5 (Some x) ;;
          ret (negb (dependent b) && verified && Nat.eqb v target)
      | _ => ret false
      end
  | _ => ret false
  end.

(** [class Pair  new(x:Int) return x end  end];
    objects: the class and its constructor. *)
Definition program_constructor_returns : V Program :=
  b <- make_builtins [] ;;
  x <- make_typed_variable "x" "Int" ;;
  value <- Reference_init "x" ;;
  return_x <- alloc (Return (Some value) None) ;;
  new <- Function_init false (Some EmptyString) [x] [return_x] None false ;;
  m <- Method_init (Some EmptyString) [new] ;;
  c <- Class_init (Some "Pair") (Some m) [] ;;
  oc <- attr "overload_context" get_overload_context (Some m) ;;
  children <- attr "children" get_children oc ;;
  k <- match dict_values children with
       | k :: _ => ret k
       | [] => raise (IndexError "no constructor")
       end ;;
  make_program b [c] [] [c; k; new].

(** [class Pair  new(x:Int) end  end];
    objects: the class, its constructor and the function the parser made
    for [new]. *)
Definition program_constructor : V Program :=
  b <- make_builtins [] ;;
  x <- make_typed_variable "x" "Int" ;;
  new <- Function_init false (Some EmptyString) [x] [] None false ;;
  m <- Method_init (Some EmptyString) [new] ;;
  c <- Class_init (Some "Pair") (Some m) [] ;;
  oc <- attr "overload_context" get_overload_context (Some m) ;;
  children <- attr "children" get_children oc ;;
  k <- match dict_values children with
       | k :: _ => ret k
       | [] => raise (IndexError "no constructor")
       end ;;
  make_program b [c] [] [c; k; new].

(** [function.type.return_type] *)
Definition return_type_of (function : ref) : V (option ref) :=
  t <- attr "type" get_type (Some function) ;;
  attr "return_type" get_return_type t.

(** A class whose constructor is a function with the declared return
    type [Int]. *)
Definition program_constructor_typed : V ref :=
  b <- make_builtins [] ;;
  return_type <- Reference_init "Int" ;;
  new <- Function_init false (Some EmptyString) [] [] (Some return_type) false ;;
  m <- Method_init (Some EmptyString) [new] ;;
  Class_init (Some "Pair") (Some m) [].

(** The signatures [((A, B))] and [((D, C))] for three classes [A], [B],
    [C] and a [DependentType] [D] without target: the two signatures,
    [B] and [C]. *)
Definition program_signatures : V (ref * ref * ref * ref) :=
  a <- Class_init (Some "A") None [] ;;
  b <- Class_init (Some "B") None [] ;;
  c <- Class_init (Some "C") None [] ;;
  d <- DependentType_init [] ;;
  f1 <- FunctionType_init (Some "f") [Some a; Some b] None ;;
  f2 <- FunctionType_init (Some EmptyString) [Some d; Some c] None ;;
  ret (f1, f2, b, c).

(** The signatures [(() -> A)] and [(() -> B)] for two classes: the two
    signatures, [A] and [B]. *)
Definition program_return_signatures : V (ref * ref * ref * ref) :=
  a <- Class_init (Some "A") None [] ;;
  b <- Class_init (Some "B") None [] ;;
  f1 <- FunctionType_init (Some "f") [] (Some a) ;;
  f2 <- FunctionType_init (Some EmptyString) [] (Some b) ;;
  ret (f1, f2, a, b).

(** The program [def g(x:Int) end  def g(x:Int) end] with the method
    verified and the signature of the call [g(1)] made, all in the scope
    of the main function: the method and the signature. *)
Definition ambiguous_call : V (ref * ref) :=
  p <- program_ambiguous ;;
  put_state (mkState (Some (builtin_module p)) (Some (main p)) (Some [])) ;;
  verify 40 (Some (object_ p 0)) ;;
  call <- make_call_type 40 "Int" ;;
  ret (object_ p 0, call).

(** A class [Pair] without constructor and the function the parser makes
    for [new(x:Int) end]: the function and the class. *)
Definition constructor_parts : V (ref * ref) :=
  b <- make_builtins [] ;;
  x <- make_typed_variable "x" "Int" ;;
  new <- Function_init false (Some EmptyString) [x] [] None false ;;
  c <- Class_init (Some "Pair") None [] ;;
  ret (new, c).

(** The store and the objects of [ambiguous_call], evaluated. *)
Definition ambiguous_start : world :=
  Eval vm_compute in snd (ambiguous_call empty).
Definition ambiguous_method : ref :=
  Eval vm_compute in
    match fst (ambiguous_call empty) with Ok (g, _) => g | _ => 0 end.
Definition ambiguous_signature : ref :=
  Eval vm_compute in
    match fst (ambiguous_call empty) with Ok (_, c) => c | _ => 0 end.
Definition ambiguous_context : ref :=
  Eval vm_compute in
    match nth_error (heap ambiguous_start) ambiguous_method with
    | Some (Method _ (Some c) _) => c
    | _ => 0
    end.
Definition ambiguous_overloads : list (option string * ref) :=
  Eval vm_compute in
    match nth_error (heap ambiguous_start) ambiguous_context with
    | Some (Context _ children) => children
    | _ => []
    end.

(** [overload.resolveCall(signature)] for the call [g(1)]. *)
Definition ambiguous_resolve (overload : ref) : V ref :=
  resolveCall 20 (Some overload) ambiguous_signature.

(** The store and the objects of [constructor_parts], evaluated, and
    what [Constructor(new, Pair)] returns there. *)
Definition constructor_start : world :=
  Eval vm_compute in snd (constructor_parts empty).
Definition constructor_function : ref :=
  Eval vm_compute in
    match fst (constructor_parts empty) with Ok (f, _) => f | _ => 0 end.
Definition constructor_class : ref :=
  Eval vm_compute in
    match fst (constructor_parts empty) with Ok (_, c) => c | _ => 0 end.
Definition constructor_made : ref :=
  Eval vm_compute in
    match fst (Constructor_init constructor_function constructor_class
                 constructor_start) with
    | Ok k => k
    | _ => 0
    end.
Definition constructor_end : world :=
  Eval vm_compute in
    snd (Constructor_init constructor_function constructor_class
           constructor_start).

(** [x.checkCompatibility(y)], [y.checkCompatibility(x)] and
    [f1.checkCompatibility(f2)] for two signatures [f1], [f2] and two
    types [x], [y]. *)
Definition compare_signatures (p : ref * ref * ref * ref)
  : V (bool * bool * bool) :=
  let '(f1, f2, x, y) := p in
  forward <- checkCompatibility 10 (Some x) (Some y) ;;
  backward <- checkCompatibility 10 (Some y) (Some x) ;;
  signatures <- checkCompatibility 10 (Some f1) (Some f2) ;;
  ret (forward, backward, signatures).


(** [def id(x) return x end] verified, and the signature of a call with
    an [Int] made in the scope of the main function: the function [id]
    and the signature. *)
Definition generic_parts : V (ref * ref) :=
  p <- program_generic ;;
  verify_program 40 p ;;
  s <- get_state ;;
  put_state (mkState (builtins s) (Some (main p)) (Some [])) ;;
  call <- make_call_type 40 "Int" ;;
  ret (object_ p 0, call).

(** The store and the objects of [generic_parts], evaluated, and what
    [id.resolveCall(signature)] returns there. *)
Definition generic_start : world :=
  Eval vm_compute in snd (generic_parts empty).
Definition generic_function : ref :=
  Eval vm_compute in
    match fst (generic_parts empty) with Ok (f, _) => f | _ => 0 end.
Definition generic_call : ref :=
  Eval vm_compute in
    match fst (generic_parts empty) with Ok (_, c) => c | _ => 0 end.
Definition generic_copy : ref :=
  Eval vm_compute in
    match fst (resolveCall 40 (Some generic_function) generic_call
                 generic_start) with
    | Ok r => r
    | _ => 0
    end.
Definition generic_end : world :=
  Eval vm_compute in
    snd (resolveCall 40 (Some generic_function) generic_call generic_start).

(** The program of [program_branch_returns], which the verifier rejects,
    with the builtins set as [lekvar.verify] sets them: the store and
    the module. *)
Definition rejected_parts : V ref :=
  p <- program_branch_returns ;;
  put_state (mkState (Some (builtin_module p)) None None) ;;
  ret (module p).
Definition rejected_start : world :=
  Eval vm_compute in snd (rejected_parts empty).
Definition rejected_module : ref :=
  Eval vm_compute in
    match fst (rejected_parts empty) with Ok m => m | _ => 0 end.

(** An object with some of its [BoundObject] attributes assigned. *)
Definition rebound (o o' : object) : Prop :=
  exists f, o' = with_bound f o.

(** [arg.type is None] for a variable [arg] of the store. *)
Definition untyped (w : world) (arg : ref) : bool :=
  match nth_error (heap w) arg with
  | Some (Variable_ _ None) => true
  | _ => false
  end.

(** [context[reference]] collected by one round of the loop of
    [resolveReference]: nothing for no context or no such child; the
    lookup fails on an object without [children]. *)
Definition found_in (w : world) (reference : option string)
  (context : option ref) : option (list ref) :=
  match context with
  | None => Some []
  | Some c =>
      match nth_error (heap w) c with
      | Some o =>
          match get_children o with
          | Some children =>
              Some (match dict_get reference children with
                    | Some x => [x]
                    | None => []
                    end)
          | None => None
          end
      | None => None
      end
  end.

(** [scope.bound_context.scope if (scope.bound_context is not None) else
    State.builtins], for the bound context [bc]. *)
Definition enclosing (w : world) (bc : option ref) : option (option ref) :=
  match bc with
  | None => Some (builtins (state w))
  | Some c =>
      match nth_error (heap w) c with
      | Some o => get_scope o
      | None => None
      end
  end.

(** The local contexts of the scopes that the loop of [resolveReference]
    visits from [scope_] up to [State.builtins]. *)
Inductive scopes_up (w : world) : option ref -> list (option ref) -> Prop :=
| scopes_top : forall scope_ n context,
    local_context n scope_ w = (Ok context, w) ->
    is_ scope_ (builtins (state w)) = true ->
    scopes_up w scope_ [context]
| scopes_next : forall scope_ n m context bc next contexts,
    local_context n scope_ w = (Ok context, w) ->
    is_ scope_ (builtins (state w)) = false ->
    get_bound_context m scope_ w = (Ok bc, w) ->
    enclosing w bc = Some next ->
    scopes_up w next contexts ->
    scopes_up w scope_ (context :: contexts).

(** A module with a variable [x] and a function [f] that has a variable
    [x] of its own, seen from inside [f]. *)
Definition shadowing_world : world :=
  mkWorld
    [Module_ (mkBound (Some "m") None true false) (Some 1) None false;
     Context (Some 0) [(Some "x", 2); (Some "f", 3)];
     Variable_ (mkBound (Some "x") (Some 1) false false) None;
     Function_ (mkBound (Some "f") (Some 1) false false) false
       (Some 4) None [5] [] None false;
     Context (Some 3) [(Some "x", 5)];
     Variable_ (mkBound (Some "x") (Some 4) false false) None]
    (mkState (Some 0) (Some 3) (Some [])).

(** [isinstance(o, Function) and o.static]: the objects whose
    [bound_context] is a property that does not return what was
    assigned. *)
Definition static_function (o : object) : bool :=
  match o with
  | Function_ b _ _ _ _ _ _ _ => static b
  | _ => false
  end.

(** [class Pair  new(x:Int) return x end  end]: the store and the
    constructor of the class. *)
Definition returning_start : world :=
  Eval vm_compute in snd (program_constructor_returns empty).
Definition returning_constructor : ref :=
  Eval vm_compute in
    match fst (program_constructor_returns empty) with
    | Ok p => object_ p 1
    | _ => 0
    end.

(** A class [Pair] without constructor and a function with the declared
    return type [Int]: the function and the class. *)
Definition declared_parts : V (ref * ref) :=
  b <- make_builtins [] ;;
  return_type <- Reference_init "Int" ;;
  new <- Function_init false (Some EmptyString) [] [] (Some return_type)
           false ;;
  c <- Class_init (Some "Pair") None [] ;;
  ret (new, c).
Definition declared_start : world :=
  Eval vm_compute in snd (declared_parts empty).
Definition declared_function : ref :=
  Eval vm_compute in
    match fst (declared_parts empty) with Ok (f, _) => f | _ => 0 end.
Definition declared_class : ref :=
  Eval vm_compute in
    match fst (declared_parts empty) with Ok (_, c) => c | _ => 0 end.
Definition declared_end : world :=
  Eval vm_compute in
    snd (Constructor_init declared_function declared_class declared_start).

(** [class Pair  new(x:Int) end  end] verified, and the signature of the
    call [Pair(1)] made in the scope of the main function: the class and
    the signature. *)
Definition class_call_parts : V (ref * ref) :=
  p <- program_constructor ;;
  verify_program 40 p ;;
  s <- get_state ;;
  put_state (mkState (builtins s) (Some (main p)) (Some [])) ;;
  call <- make_call_type 40 "Int" ;;
  ret (object_ p 0, call).
Definition class_call_start : world :=
  Eval vm_compute in snd (class_call_parts empty).
Definition class_call_class : ref :=
  Eval vm_compute in
    match fst (class_call_parts empty) with Ok (c, _) => c | _ => 0 end.
Definition class_call_signature : ref :=
  Eval vm_compute in
    match fst (class_call_parts empty) with Ok (_, s) => s | _ => 0 end.
Definition class_call_made : ref :=
  Eval vm_compute in
    match fst (resolveCall 40 (Some class_call_class) class_call_signature
                 class_call_start) with
    | Ok r => r
    | _ => 0
    end.
Definition class_call_end : world :=
  Eval vm_compute in
    snd (resolveCall 40 (Some class_call_class) class_call_signature
           class_call_start).

End Lekvar.

(* ================================================================== *)
(** * The later per-class files ([function.py], [util.py]) *)
(* ================================================================== *)

Module Split.

Section Types.

(** The type classes other than [FunctionType] are defined in files that
    are not among the sources: [other] stands for their instances,
    [other_check o t] for [o.checkCompatibility(t)] and [resolve o] for
    [o.resolveValue()]. *)
Variable other : Type.

Inductive type : Type :=
| FunctionType (arguments : list type) (return_type : option type)
| Other (o : other).

Variable other_check : other -> type -> result bool.
Variable resolve : other -> type.

(** [x.resolveValue()]: the object itself for a [FunctionType]. *)
Definition resolveValue (x : type) : type :=
  match x with
  | FunctionType _ _ => x
  | Other o => resolve o
  end.

(** [FunctionType.checkCompatibility] of [function.py], and
    [x.checkCompatibility(y)] for any type [x]. *)
Fixpoint checkCompatibility (self other_ : type) {struct self} : result bool :=
  match self with
  | Other o => other_check o other_
  | FunctionType arguments return_type =>
      match resolveValue other_ with
      | FunctionType other_arguments other_return_type =>
          if negb (Nat.eqb (length arguments) (length other_arguments))
          then Ok false
          else
            let fix loop (xs ys : list type) : result bool :=
              match xs, ys with
              | self_arg :: xs', other_arg :: ys' =>
                  match checkCompatibility self_arg other_arg with
                  | Ok true => loop xs' ys'
                  | Ok false => Ok false
                  | Raise e => Raise e
                  | OutOfFuel => OutOfFuel
                  end
              | _, _ => Ok true
              end in
            match loop arguments other_arguments with
            | Ok true =>
                match other_return_type with
                | Some r2 =>
                    match return_type with
                    | Some r1 => checkCompatibility r1 r2
                    | None => Raise (AttributeError "checkCompatibility")
                    end
                | None => Ok true
                end
            | r => r
            end
      | Other _ => Ok false
      end
  end.

(** [util.checkCompatibility] *)
Definition util_checkCompatibility (type1 type2 : type) : result bool :=
  match checkCompatibility type1 type2 with
  | Ok true => Ok true
  | Ok false => checkCompatibility type2 type1
  | r => r
  end.

(** The two flags of [State.soft_scope_state] that [function.py] reads
    and writes ([state.py] is not among the sources). *)
Record SoftScopeState : Type := mkSoftScopeState {
  definately_returns : bool;
  maybe_returns : bool
}.

(** [Function.verifySelf] of [function.py] *)
Definition Function_verifySelf (return_type : option type)
  (s : SoftScopeState) : result unit :=
  match return_type with
  | Some _ =>
      if negb (definately_returns s)
      then Raise (SemanticError "All code paths must return")
      else Ok tt
  | None => Ok tt
  end.

(** The last two statements of [Return.verify] of [function.py]. *)
Definition Return_update (s : SoftScopeState) : SoftScopeState :=
  mkSoftScopeState true true.

(** [Function.resolveCall] of [function.py], for a function [self] of
    type [self_type]; [resolve_dependencies] stands for the loop that
    calls [arg.type.resolveDependency] ([dependent.py] is not among the
    sources). *)
Definition Function_resolveCall {F : Type} (self : F) (self_type : type)
  (dependent : bool) (resolve_dependencies : type -> result unit)
  (call : type) : result F :=
  match util_checkCompatibility self_type call with
  | Ok true =>
      if dependent then
        match resolve_dependencies call with
        | Ok _ => Ok self
        | Raise e => Raise e
        | OutOfFuel => OutOfFuel
        end
      else Ok self
  | Ok false => Raise (TypeError "Function is not callable")
  | Raise e => Raise e
  | OutOfFuel => OutOfFuel
  end.

End Types.

End Split.

(* ================================================================== *)
(** * Properties *)
(* ================================================================== *)

(** ** Computations step by step *)

Lemma bind_Ok_inv {S A B : Type} (c : M S A) (k : A -> M S B) s b s' :
  bind c k s = (Ok b, s') ->
  exists a s1, c s = (Ok a, s1) /\ k a s1 = (Ok b, s').
Proof.
  unfold bind. destruct (c s) as [[a|e|] s1]; intros H; try discriminate.
  exists a, s1. split; [reflexivity | exact H].
Qed.

Lemma bind_Ok {S A B : Type} (c : M S A) (k : A -> M S B) s a s1 :
  c s = (Ok a, s1) -> bind c k s = k a s1.
Proof. intros H. unfold bind. now rewrite H. Qed.

Lemma bind_Raise {S A B : Type} (c : M S A) (k : A -> M S B) s e s1 :
  c s = (Raise e, s1) -> bind c k s = (Raise e, s1).
Proof. intros H. unfold bind. now rewrite H. Qed.

(* ------------------------------------------------------------------ *)
(** ** Lexer *)
(* ------------------------------------------------------------------ *)

Module LexerFacts.

Lemma list_ascii_of_string_app (a b : string) :
  list_ascii_of_string (a ++ b)%string
  = list_ascii_of_string a ++ list_ascii_of_string b.
Proof. induction a as [|c a IH]; simpl; [reflexivity | now rewrite IH]. Qed.

Ltac all_bits :=
  repeat match goal with b : bool |- _ => destruct b end.

(** One keyword: the lexeme at the end of the input, then the lexeme
    followed by each of the characters that end it. *)
Ltac keyword_case H :=
  unfold Lexer.init, Lexer.lex, Lexer.live_nodes;
  rewrite list_ascii_of_string_app;
  match goal with
  | |- context [list_ascii_of_string ?rest] =>
      match type of H with
      | context [list_ascii_of_string rest] =>
          destruct (list_ascii_of_string rest) as [|[? ? ? ? ? ? ? ?] ?]
      end
  end;
  [ vm_compute; repeat split; reflexivity
  | all_bits;
    (vm_compute in H;
     first [ discriminate H | vm_compute; repeat split; reflexivity ]) ].

(** A keyword of the direct map at the start of the source, followed by
    the end of the input or by a character that cannot continue an
    identifier: the keyword's terminal node and an identifier terminal
    are both live when the lexer emits, and the token has the keyword's
    kind. *)
Lemma keyword_at_start :
  forall (kw : string) (kind : Tokens.t) (rest : string),
    In (kw, kind) Lexer.keywords ->
    Lexer.ends_lexeme (list_ascii_of_string rest) = true ->
    let l := Lexer.init (kw ++ rest)%string in
    Lexer.live kind (Lexer.live_nodes l) = true /\
    Lexer.live Tokens.identifier (Lexer.live_nodes l) = true /\
    fst (Lexer.lex l)
    = Ok (Some (Lexer.mkToken (Some kind) 0 (Z.of_nat (String.length kw))
                  (Some kw))).
Proof.
  intros kw kind rest Hin Hend.
  assert (Hk : Lexer.keywords = skipn 23 Lexer.DIRECT_MAP)
    by (vm_compute; reflexivity).
  rewrite Hk in Hin. cbv [skipn Lexer.DIRECT_MAP] in Hin.
  cbv zeta.
  repeat (destruct Hin as [Hin | Hin];
          [ injection Hin as <- <-; keyword_case Hend | ]).
  destruct Hin.
Qed.

(** The tokens of a line with keywords, identifiers and a number. *)
Example lex_line :
  map (fun r => match r with
                | Ok (Some token) => Lexer.type token
                | _ => None
                end)
      (Lexer.lex_all 10 (Lexer.init "while classy < 1_000 break end"))
  = [Some Tokens.while_kwd; Some Tokens.identifier; Some Tokens.smaller_than;
     Some Tokens.integer; Some Tokens.break_kwd; Some Tokens.end_kwd; None].
Proof. vm_compute. reflexivity. Qed.


(** *** Scanning, character by character *)

Import Lexer.

Ltac each_ascii c := destruct c as [[] [] [] [] [] [] [] []].

(** A fact about a character with boolean side conditions, settled on
    each of the 256 characters. *)
Ltac by_ascii c :=
  each_ascii c; intros;
  repeat match goal with
         | H : _ = true |- _ => vm_compute in H; try discriminate H; clear H
         | H : _ = false |- _ => vm_compute in H; try discriminate H; clear H
         end;
  vm_compute; reflexivity.

(** The lexer whose current character and unread source are [pending]. *)
Abbreviation at_ pending pos :=
  (match pending with
   | [] => mk [] None pos
   | c :: r => mk r (Some c) pos
   end).

Lemma scan_cons c rest pos ts td nodes :
  scan (c :: rest) pos ts td nodes
  = match flat_map (fun node => evaluate node (Some c)) nodes with
    | [] =>
        match nodes with
        | _ :: _ => (Emit nodes ts td, mk rest (Some c) pos)
        | [] => (ZeroNodes, mk rest (Some c) pos)
        end
    | n :: ns =>
        if is_restart (n :: ns)
        then scan rest (pos + 1) pos EmptyString (n :: ns)
        else scan rest (pos + 1) ts (td ++ String c EmptyString) (n :: ns)
    end.
Proof.
  cbn [scan hd_error].
  destruct (flat_map _ nodes) as [|n ns]; [reflexivity|].
  destruct (is_restart (n :: ns)); reflexivity.
Qed.

Lemma scan_nil pos ts td nodes :
  scan [] pos ts td nodes
  = match flat_map (fun node => evaluate node None) nodes with
    | [] =>
        match nodes with
        | _ :: _ => (Emit nodes ts td, mk [] None pos)
        | [] => (ZeroNodes, mk [] None pos)
        end
    | _ :: _ => (EndOfInput, mk [] None pos)
    end.
Proof.
  cbn [scan hd_error].
  destruct (flat_map _ nodes) as [|n ns]; [reflexivity|].
  destruct (is_restart (n :: ns)); reflexivity.
Qed.

(** The live nodes have no link for what comes next: the lexer emits. *)
Lemma scan_emit pending pos ts td nodes :
  flat_map (fun node => evaluate node (hd_error pending)) nodes = [] ->
  nodes <> [] ->
  scan pending pos ts td nodes = (Emit nodes ts td, at_ pending pos).
Proof.
  intros E Hne. destruct pending as [|c rest]; cbn [hd_error] in E.
  - rewrite scan_nil, E. destruct nodes; [congruence | reflexivity].
  - rewrite scan_cons, E. destruct nodes; [congruence | reflexivity].
Qed.

Lemma append_cons (td : string) c (s : string) :
  ((td ++ String c EmptyString) ++ s = td ++ String c s)%string.
Proof. induction td as [|x td IH]; cbn; [reflexivity | now rewrite IH]. Qed.

Lemma append_empty (s : string) : (s ++ EmptyString = s)%string.
Proof. induction s as [|x s IH]; cbn; [reflexivity | now rewrite IH]. Qed.

Lemma string_of_list_ascii_app (a b : list ascii) :
  string_of_list_ascii (a ++ b)
  = (string_of_list_ascii a ++ string_of_list_ascii b)%string.
Proof. induction a as [|c a IH]; cbn; [reflexivity | now rewrite IH]. Qed.

Lemma length_string_of_list_ascii (a : list ascii) :
  String.length (string_of_list_ascii a) = length a.
Proof. induction a as [|c a IH]; cbn; [reflexivity | now rewrite IH]. Qed.

(** The loop of [lex] over the characters of one token. *)
Lemma scan_reads nodes w nodes' :
  reads nodes w nodes' ->
  forall rest pos ts td,
    scan (w ++ rest) pos ts td nodes
    = scan rest (pos + Z.of_nat (length w)) ts
        (td ++ string_of_list_ascii w) nodes'.
Proof.
  induction 1 as [nodes | nodes c w nodes' Hne Hr _ IH];
    intros rest pos ts td.
  - cbn [app length string_of_list_ascii Z.of_nat].
    now rewrite Z.add_0_r, append_empty.
  - cbn [app]. rewrite scan_cons. fold (step nodes c).
    destruct (step nodes c) as [|n ns] eqn:E; [congruence|].
    rewrite Hr, IH.
    cbn [string_of_list_ascii]. rewrite append_cons.
    f_equal. cbn [length]. lia.
Qed.

Lemma reads_app nodes w1 nodes1 :
  reads nodes w1 nodes1 ->
  forall w2 nodes2, reads nodes1 w2 nodes2 -> reads nodes (w1 ++ w2) nodes2.
Proof.
  induction 1 as [nodes | nodes c w nodes' Hne Hr _ IH]; intros w2 nodes2 H2;
    [exact H2|].
  cbn [app]. apply reads_cons; [exact Hne | exact Hr | now apply IH].
Qed.

Lemma reads_one c nodes nodes' :
  step nodes c = nodes' -> nodes' <> [] -> is_restart nodes' = false ->
  reads nodes [c] nodes'.
Proof.
  intros <- Hne Hr. apply reads_cons; [exact Hne | exact Hr | constructor].
Qed.

(** A run of characters that keep the live nodes as they are. *)
Lemma reads_run nodes w :
  nodes <> [] -> is_restart nodes = false ->
  (forall c, In c w -> step nodes c = nodes) ->
  reads nodes w nodes.
Proof.
  intros Hne Hr. induction w as [|c w IH]; intros Hw; [constructor|].
  assert (E : step nodes c = nodes) by (apply Hw; now left).
  apply reads_cons; rewrite E; [exact Hne | exact Hr |].
  apply IH. intros x Hx. apply Hw. now right.
Qed.

(** A single live node. *)
Lemma step_one n c : step [n] c = evaluate n (Some c).
Proof. unfold step. cbn [flat_map]. apply app_nil_r. Qed.

(** The lexer that reads [w] first is, [length w] characters on, the
    lexer that reads what follows [w]. *)
Lemma advance_at w : forall rest pos,
  w <> [] ->
  advance (length w) (at_ (w ++ rest) pos)
  = at_ rest (pos + Z.of_nat (length w)).
Proof.
  unfold advance. induction w as [|c w IH]; intros rest pos Hne; [congruence|].
  cbn [length]. rewrite Nat.iter_succ_r.
  destruct w as [|d w].
  - cbn [app length Nat.iter]. unfold next. cbn [source position].
    destruct rest; reflexivity.
  - replace (next (at_ ((c :: d :: w) ++ rest) pos))
      with (at_ ((d :: w) ++ rest) (pos + 1)) by reflexivity.
    rewrite IH by discriminate. f_equal.
    destruct rest; f_equal; cbn [length]; lia.
Qed.

Lemma lexer_at (l : t) c w :
  pending_of l = c :: w -> l = at_ (c :: w) (position l).
Proof.
  destruct l as [src [x|] pos]; unfold pending_of; cbn; [|discriminate].
  now intros [= -> ->].
Qed.

Lemma advance_pending (l : t) w rest :
  pending_of l = w ++ rest -> w <> [] ->
  advance (length w) l = at_ rest (position l + Z.of_nat (length w)).
Proof.
  intros Hp Hw. destruct w as [|c w]; [congruence|].
  rewrite (lexer_at l c (w ++ rest) Hp) at 1.
  exact (advance_at (c :: w) rest (position l) Hw).
Qed.

Lemma position_at rest pos : position (at_ rest pos) = pos.
Proof. now destruct rest. Qed.

Lemma current_at rest pos : current (at_ rest pos) = hd_error rest.
Proof. now destruct rest. Qed.

(** [lex] over a lexeme [w] that leads to live nodes without a link for
    what follows, the first of which has a token type. *)
Lemma lex_reads (l : t) w rest kind n ns :
  pending_of l = w ++ rest -> w <> [] ->
  reads [TREE] w (n :: ns) ->
  flat_map (fun node => evaluate node (hd_error rest)) (n :: ns) = [] ->
  token_type (node_at n) = Some kind ->
  lex l
  = (Ok (Some (mkToken (Some kind) (position l - 1)
                 (position l - 1 + Z.of_nat (length w))
                 (Some match verify (node_at n) with
                       | Some f => f (string_of_list_ascii w)
                       | None => string_of_list_ascii w
                       end))),
     advance (length w) l).
Proof.
  intros Hp Hw Hr He Hk. unfold lex.
  rewrite Hp, (scan_reads _ _ _ Hr), scan_emit
    by (exact He || discriminate).
  rewrite (advance_pending l w rest Hp Hw).
  f_equal. unfold outputNode. cbn [outputNode_loop]. rewrite Hk.
  unfold getToken. rewrite Hk, position_at. cbn [append].
  replace (position l + Z.of_nat (length w) - 1)%Z
    with (position l - 1 + Z.of_nat (length w))%Z by lia.
  reflexivity.
Qed.

(** [lex] over characters that lead to live nodes with a link for the
    end of the input. *)
Lemma lex_reads_end (l : t) w nodes :
  pending_of l = w ->
  reads [TREE] w nodes ->
  flat_map (fun node => evaluate node None) nodes <> [] ->
  fst (lex l) = Ok None.
Proof.
  intros Hp Hr He. unfold lex.
  rewrite Hp, <- (app_nil_r w), (scan_reads _ _ _ Hr), scan_nil.
  destruct (flat_map _ nodes); [congruence | reflexivity].
Qed.

(** *** Whitespace and the end of the input *)

Lemma evaluate_TREE_whitespace c :
  in_set WHITESPACE (Some c) = true -> evaluate TREE (Some c) = [TREE].
Proof. by_ascii c. Qed.

Lemma lex_at_whitespace (l : t) (c : ascii) :
  current l = Some c -> in_set WHITESPACE (Some c) = true ->
  lex l = lex (next l).
Proof.
  destruct l as [src cur pos]. intros Hc Hw. cbn [current] in Hc. subst cur.
  unfold lex, pending_of. cbn [current source position].
  rewrite scan_cons. cbn [flat_map]. rewrite app_nil_r.
  rewrite (evaluate_TREE_whitespace c Hw). cbn [is_restart Nat.eqb TREE].
  unfold next. cbn [source position].
  destruct src as [|d src]; cbn [current source position];
    replace (pos + 1 - 1)%Z with pos by lia; reflexivity.
Qed.

(** X1. [lex] skips a space or a tab: at such a character it returns
    what it returns one character further on, and leaves the lexer in
    the same state. *)
Theorem lex_skips_whitespace :
  forall (l : t) (c : ascii),
    current l = Some c -> in_set WHITESPACE (Some c) = true ->
    lex l = lex (next l).
Proof. exact lex_at_whitespace. Qed.

Lemma lex_skips_whitespace_witness :
  lex (init "  end") = lex (next (init "  end")).
Proof.
  apply (lex_skips_whitespace (init "  end") " "%char); reflexivity.
Defined.

Lemma lex_at_end pos : fst (lex (mk [] None pos)) = Ok None.
Proof.
  unfold lex, pending_of. cbn [current source position].
  rewrite scan_nil. vm_compute. reflexivity.
Qed.

(** X2. On a source of spaces and tabs only, the empty source among
    them, [lex] returns [None]: there is no token, and no error. *)
Theorem lex_blank_source :
  forall source : string,
    Forall (fun c => in_set WHITESPACE (Some c) = true)
      (list_ascii_of_string source) ->
    fst (lex (init source)) = Ok None.
Proof.
  intros src H. unfold init, next at 1. cbn [source position].
  generalize (0 + 1)%Z as pos.
  induction H as [|c w Hc _ IH]; intros pos; [apply lex_at_end|].
  rewrite (lex_at_whitespace (mk w (Some c) pos) c eq_refl Hc).
  unfold next. cbn [source position].
  destruct w as [|d w]; [apply lex_at_end | apply IH].
Qed.

Lemma lex_blank_source_witness : fst (lex (init "   ")) = Ok None.
Proof.
  apply (lex_blank_source "   "). repeat constructor.
Defined.

(** *** Comments *)

(** The nodes created before and after the chains of the direct map, in
    the order of their creation. *)
Abbreviation newline_node := 1 (only parsing).
Abbreviation comment_node := 2 (only parsing).
Abbreviation string_node := 3 (only parsing).
Abbreviation escape_node := 4 (only parsing).
Abbreviation string_end := 5 (only parsing).
Abbreviation wysiwyg_node := 6 (only parsing).
Abbreviation wysiwyg_end := 7 (only parsing).
Abbreviation identifier_node := 130 (only parsing).
Abbreviation identifier_end := 131 (only parsing).
Abbreviation number_node := 132 (only parsing).
Abbreviation underscore_node := 133 (only parsing).
Abbreviation number_end := 134 (only parsing).

Lemma evaluate_TREE_end : evaluate TREE None = [].
Proof. vm_compute. reflexivity. Qed.

Lemma evaluate_TREE_comment :
  evaluate TREE (Some COMMENT_CHAR) = [comment_node].
Proof. vm_compute. reflexivity. Qed.

Lemma evaluate_comment c :
  Ascii.eqb c NEWLINE_CHAR = false ->
  evaluate comment_node (Some c) = [comment_node].
Proof. by_ascii c. Qed.

Lemma evaluate_comment_newline :
  evaluate comment_node (Some NEWLINE_CHAR) = [newline_node].
Proof. vm_compute. reflexivity. Qed.

Lemma evaluate_comment_end : evaluate comment_node None = [comment_node].
Proof. vm_compute. reflexivity. Qed.

Lemma evaluate_newline c : evaluate newline_node c = [].
Proof. destruct c as [c|]; [by_ascii c | vm_compute; reflexivity]. Qed.

Lemma not_in_eqb (x : ascii) body :
  ~ In x body -> forall c, In c body -> Ascii.eqb c x = false.
Proof.
  intros H c Hc. apply Ascii.eqb_neq. intros ->. contradiction.
Qed.

Lemma reads_comment body :
  ~ In NEWLINE_CHAR body ->
  reads [TREE] (COMMENT_CHAR :: body) [comment_node].
Proof.
  intros H. change (COMMENT_CHAR :: body) with ([COMMENT_CHAR] ++ body).
  eapply reads_app.
  - apply reads_one; [rewrite step_one; apply evaluate_TREE_comment | |];
      [discriminate | reflexivity].
  - apply reads_run; [discriminate | reflexivity |].
    intros c Hc. rewrite step_one. apply evaluate_comment.
    now apply (not_in_eqb _ body).
Qed.

(** X3. A comment, from [#] to the end of its line, is emitted as one
    token of the kind [newline], whose data is the text of the comment
    with the newline that ends it. *)
Theorem comment_lexes_as_newline :
  forall (l : t) (body rest : list ascii),
    pending_of l = COMMENT_CHAR :: body ++ NEWLINE_CHAR :: rest ->
    ~ In NEWLINE_CHAR body ->
    let lexeme := COMMENT_CHAR :: body ++ [NEWLINE_CHAR] in
    lex l = (Ok (Some (token_of Tokens.newline l lexeme lexeme)),
             advance (length lexeme) l).
Proof.
  intros l body rest Hp Hb lexeme.
  assert (Hp' : pending_of l = lexeme ++ rest).
  { rewrite Hp. unfold lexeme. cbn [app]. now rewrite <- app_assoc. }
  rewrite (lex_reads l lexeme rest Tokens.newline newline_node [] Hp').
  - replace (verify (node_at newline_node)) with (@None (string -> string))
      by (vm_compute; reflexivity).
    reflexivity.
  - discriminate.
  - unfold lexeme. rewrite app_comm_cons. eapply reads_app.
    + now apply reads_comment.
    + apply reads_one;
        [rewrite step_one; apply evaluate_comment_newline | |];
        [discriminate | reflexivity].
  - cbn [flat_map]. now rewrite evaluate_newline.
  - vm_compute. reflexivity.
Qed.

Lemma comment_lexes_as_newline_witness :
  lex (init "# note
x")
  = (Ok (Some (mkToken (Some Tokens.newline) 0 7 (Some "# note
"))),
     advance 7 (init "# note
x")).
Proof.
  apply (comment_lexes_as_newline (init "# note
x") (list_ascii_of_string " note") (list_ascii_of_string "x")).
  - reflexivity.
  - cbn. intros H.
    repeat (destruct H as [H | H]; [discriminate H|]). exact H.
Defined.

(** *** Strings *)

Lemma evaluate_TREE_wysiwyg :
  evaluate TREE (Some WYSIWYG_STRING_CHAR) = [wysiwyg_node].
Proof. vm_compute. reflexivity. Qed.

Lemma evaluate_wysiwyg c :
  Ascii.eqb c WYSIWYG_STRING_CHAR = false ->
  evaluate wysiwyg_node (Some c) = [wysiwyg_node].
Proof. by_ascii c. Qed.

Lemma evaluate_wysiwyg_close :
  evaluate wysiwyg_node (Some WYSIWYG_STRING_CHAR) = [wysiwyg_end].
Proof. vm_compute. reflexivity. Qed.

Lemma evaluate_wysiwyg_at_end : evaluate wysiwyg_node None = [wysiwyg_node].
Proof. vm_compute. reflexivity. Qed.

Lemma evaluate_wysiwyg_end c : evaluate wysiwyg_end c = [].
Proof. destruct c as [c|]; [by_ascii c | vm_compute; reflexivity]. Qed.

Lemma evaluate_TREE_string :
  evaluate TREE (Some FORMAT_STRING_CHAR) = [string_node].
Proof. vm_compute. reflexivity. Qed.

Lemma evaluate_string c :
  Ascii.eqb c FORMAT_STRING_CHAR = false ->
  Ascii.eqb c FORMAT_STRING_ESCAPE_CHAR = false ->
  evaluate string_node (Some c) = [string_node].
Proof. by_ascii c. Qed.

Lemma evaluate_string_escape :
  evaluate string_node (Some FORMAT_STRING_ESCAPE_CHAR) = [escape_node].
Proof. vm_compute. reflexivity. Qed.

Lemma evaluate_string_close :
  evaluate string_node (Some FORMAT_STRING_CHAR) = [string_end].
Proof. vm_compute. reflexivity. Qed.

Lemma evaluate_string_at_end : evaluate string_node None = [string_node].
Proof. vm_compute. reflexivity. Qed.

Lemma evaluate_escape c : evaluate escape_node c = [string_node].
Proof. destruct c as [c|]; [by_ascii c | vm_compute; reflexivity]. Qed.

Lemma evaluate_string_end c : evaluate string_end c = [].
Proof. destruct c as [c|]; [by_ascii c | vm_compute; reflexivity]. Qed.

Lemma reads_wysiwyg body :
  ~ In WYSIWYG_STRING_CHAR body ->
  reads [TREE] (WYSIWYG_STRING_CHAR :: body) [wysiwyg_node].
Proof.
  intros H.
  change (WYSIWYG_STRING_CHAR :: body) with ([WYSIWYG_STRING_CHAR] ++ body).
  eapply reads_app.
  - apply reads_one; [rewrite step_one; apply evaluate_TREE_wysiwyg | |];
      [discriminate | reflexivity].
  - apply reads_run; [discriminate | reflexivity |].
    intros c Hc. rewrite step_one. apply evaluate_wysiwyg.
    now apply (not_in_eqb _ body).
Qed.

(** Inside a format string the live node is the string node, or the
    escape node after a backslash. *)
Lemma reads_string_body body :
  ~ In FORMAT_STRING_CHAR body ->
  forall n, n = string_node \/ n = escape_node ->
    exists n', (n' = string_node \/ n' = escape_node) /\
               reads [n] body [n'].
Proof.
  induction body as [|c body IH]; intros Hb n Hn.
  - exists n. split; [exact Hn | constructor].
  - assert (Hc : Ascii.eqb c FORMAT_STRING_CHAR = false)
      by (apply (not_in_eqb _ (c :: body) Hb); now left).
    assert (Hb' : ~ In FORMAT_STRING_CHAR body)
      by (intros X; apply Hb; now right).
    assert (S : exists m, (m = string_node \/ m = escape_node) /\
                          step [n] c = [m]).
    { rewrite step_one. destruct Hn as [-> | ->].
      - destruct (Ascii.eqb c FORMAT_STRING_ESCAPE_CHAR) eqn:E.
        + apply Ascii.eqb_eq in E. subst c. exists escape_node.
          split; [now right | apply evaluate_string_escape].
        + exists string_node. split; [now left | now apply evaluate_string].
      - exists string_node. split; [now left | apply evaluate_escape]. }
    destruct S as (m & Hm & E).
    destruct (IH Hb' m Hm) as (n' & Hn' & R).
    exists n'. split; [exact Hn'|].
    apply reads_cons; rewrite E;
      [discriminate | destruct Hm as [-> | ->]; reflexivity | exact R].
Qed.

(** X4. A comment without a newline, and a string without its closing
    quote, that run to the end of the input give no token and no error:
    [lex] returns [None], as at the end of the input. *)
Theorem unterminated_lexeme_is_dropped :
  forall (l : t) (opener : ascii) (body : list ascii),
    pending_of l = opener :: body ->
    (opener = COMMENT_CHAR /\ ~ In NEWLINE_CHAR body) \/
    (opener = WYSIWYG_STRING_CHAR /\ ~ In WYSIWYG_STRING_CHAR body) \/
    (opener = FORMAT_STRING_CHAR /\ ~ In FORMAT_STRING_CHAR body) ->
    fst (lex l) = Ok None.
Proof.
  intros l opener body Hp [[-> H] | [[-> H] | [-> H]]].
  - apply (lex_reads_end l _ [comment_node] Hp (reads_comment body H)).
    cbn [flat_map]. rewrite evaluate_comment_end. discriminate.
  - apply (lex_reads_end l _ [wysiwyg_node] Hp (reads_wysiwyg body H)).
    cbn [flat_map]. rewrite evaluate_wysiwyg_at_end. discriminate.
  - destruct (reads_string_body body H string_node (or_introl eq_refl))
      as (n & Hn & R).
    apply (lex_reads_end l _ [n] Hp).
    + change (FORMAT_STRING_CHAR :: body)
        with ([FORMAT_STRING_CHAR] ++ body).
      eapply reads_app; [|exact R].
      apply reads_one; [rewrite step_one; apply evaluate_TREE_string | |];
        [discriminate | reflexivity].
    + cbn [flat_map].
      destruct Hn as [-> | ->];
        [rewrite evaluate_string_at_end | rewrite evaluate_escape];
        discriminate.
Qed.

Lemma unterminated_lexeme_is_dropped_witness :
  fst (lex (init "`never closed")) = Ok None.
Proof.
  apply (unterminated_lexeme_is_dropped (init "`never closed")
           WYSIWYG_STRING_CHAR (list_ascii_of_string "never closed")).
  - reflexivity.
  - right. left. split; [reflexivity|]. cbn. intros H.
    repeat (destruct H as [H | H]; [discriminate H|]). exact H.
Defined.

Lemma substring_prefix (x y : list ascii) :
  substring 0 (length x) (string_of_list_ascii (x ++ y))
  = string_of_list_ascii x.
Proof. induction x as [|c x IH]; cbn; [now destruct y | now rewrite IH]. Qed.

(** [s[1:-1]] of a string of two characters or more. *)
Lemma strip_ends_spec (a b : ascii) (body : list ascii) :
  strip_ends (string_of_list_ascii (a :: body ++ [b]))
  = string_of_list_ascii body.
Proof.
  unfold strip_ends. rewrite length_string_of_list_ascii.
  cbn [length]. rewrite length_app. cbn [length].
  replace (S (length body + 1) - 2) with (length body) by lia.
  cbn [string_of_list_ascii substring]. apply substring_prefix.
Qed.

(** X5. A string between backquotes is emitted as one token of the kind
    [string] whose data is the text between the backquotes, whatever it
    contains: backslashes, double quotes and newlines are kept as they
    are. *)
Theorem wysiwyg_string_lexes_verbatim :
  forall (l : t) (body rest : list ascii),
    pending_of l
    = WYSIWYG_STRING_CHAR :: body ++ WYSIWYG_STRING_CHAR :: rest ->
    ~ In WYSIWYG_STRING_CHAR body ->
    let lexeme := WYSIWYG_STRING_CHAR :: body ++ [WYSIWYG_STRING_CHAR] in
    lex l = (Ok (Some (token_of Tokens.string l lexeme body)),
             advance (length lexeme) l).
Proof.
  intros l body rest Hp Hb lexeme.
  assert (Hp' : pending_of l = lexeme ++ rest).
  { rewrite Hp. unfold lexeme. cbn [app]. now rewrite <- app_assoc. }
  rewrite (lex_reads l lexeme rest Tokens.string wysiwyg_end [] Hp').
  - replace (verify (node_at wysiwyg_end)) with (Some strip_ends)
      by (vm_compute; reflexivity).
    unfold lexeme. rewrite strip_ends_spec. reflexivity.
  - discriminate.
  - unfold lexeme. rewrite app_comm_cons. eapply reads_app.
    + now apply reads_wysiwyg.
    + apply reads_one;
        [rewrite step_one; apply evaluate_wysiwyg_close | |];
        [discriminate | reflexivity].
  - cbn [flat_map]. now rewrite evaluate_wysiwyg_end.
  - vm_compute. reflexivity.
Qed.

Lemma wysiwyg_string_lexes_verbatim_witness :
  lex (init "`a\b` c")
  = (Ok (Some (mkToken (Some Tokens.string) 0 5 (Some "a\b"))),
     advance 5 (init "`a\b` c")).
Proof.
  apply (wysiwyg_string_lexes_verbatim (init "`a\b` c")
           (list_ascii_of_string "a\b") (list_ascii_of_string " c")).
  - reflexivity.
  - cbn. intros H.
    repeat (destruct H as [H | H]; [discriminate H|]). exact H.
Defined.

(** A piece of the text of a format string: a character other than the
    quote and the backslash, or a backslash and the character it
    escapes. *)
Abbreviation piece p :=
  ((exists c, p = [c] /\ c <> FORMAT_STRING_CHAR /\
              c <> FORMAT_STRING_ESCAPE_CHAR) \/
   (exists x, p = [FORMAT_STRING_ESCAPE_CHAR; x])).

Lemma reads_pieces pieces :
  Forall (fun p => piece p) pieces ->
  reads [string_node] (concat pieces) [string_node].
Proof.
  induction 1 as [|p pieces Hp _ IH]; [constructor|].
  cbn [concat]. eapply reads_app; [|exact IH].
  destruct Hp as [(c & -> & H1 & H2) | (x & ->)].
  - apply reads_one; [rewrite step_one; apply evaluate_string | |];
      [now apply Ascii.eqb_neq | now apply Ascii.eqb_neq
      | discriminate | reflexivity].
  - apply reads_cons; rewrite step_one, evaluate_string_escape;
      [discriminate | reflexivity |].
    apply reads_one; [rewrite step_one; apply evaluate_escape | |];
      [discriminate | reflexivity].
Qed.

(** X6. A string between double quotes, in which a backslash escapes
    the character after it (a quote among them), is emitted as one token
    of the kind [format_string]; its data is the text between the quotes
    with the backslashes still in it: the lexer decodes no escape. *)
Theorem format_string_keeps_escapes :
  forall (l : t) (pieces : list (list ascii)) (rest : list ascii),
    pending_of l
    = FORMAT_STRING_CHAR :: concat pieces ++ FORMAT_STRING_CHAR :: rest ->
    Forall (fun p => piece p) pieces ->
    let lexeme := FORMAT_STRING_CHAR :: concat pieces ++ [FORMAT_STRING_CHAR] in
    lex l = (Ok (Some (token_of Tokens.format_string l lexeme (concat pieces))),
             advance (length lexeme) l).
Proof.
  intros l pieces rest Hp Hb lexeme.
  assert (Hp' : pending_of l = lexeme ++ rest).
  { rewrite Hp. unfold lexeme. cbn [app]. now rewrite <- app_assoc. }
  rewrite (lex_reads l lexeme rest Tokens.format_string string_end [] Hp').
  - replace (verify (node_at string_end)) with (Some strip_ends)
      by (vm_compute; reflexivity).
    unfold lexeme. rewrite strip_ends_spec. reflexivity.
  - discriminate.
  - unfold lexeme.
    change (FORMAT_STRING_CHAR :: concat pieces ++ [FORMAT_STRING_CHAR])
      with ([FORMAT_STRING_CHAR] ++ concat pieces ++ [FORMAT_STRING_CHAR]).
    eapply reads_app;
      [apply reads_one; [rewrite step_one; apply evaluate_TREE_string | |];
       [discriminate | reflexivity]|].
    eapply reads_app; [now apply reads_pieces|].
    apply reads_one; [rewrite step_one; apply evaluate_string_close | |];
      [discriminate | reflexivity].
  - cbn [flat_map]. now rewrite evaluate_string_end.
  - vm_compute. reflexivity.
Qed.

Lemma format_string_keeps_escapes_witness :
  lex (init (String "034" (String "a" (String "\" (String "034"
               (String "b" (String "034" " c")))))))
  = (Ok (Some (mkToken (Some Tokens.format_string) 0 6
                 (Some (String "a" (String "\" (String "034" "b")))))),
     advance 6
       (init (String "034" (String "a" (String "\" (String "034"
                (String "b" (String "034" " c")))))))).
Proof.
  apply (format_string_keeps_escapes
           (init (String "034" (String "a" (String "\" (String "034"
                    (String "b" (String "034" " c")))))))
           [["a"%char]; ["\"%char; "034"%char]; ["b"%char]]
           [" "%char; "c"%char]).
  - reflexivity.
  - apply Forall_cons; [|apply Forall_cons; [|apply Forall_cons; [|apply Forall_nil]]].
    + left. exists "a"%char. repeat split; discriminate.
    + right. now exists "034"%char.
    + left. exists "b"%char. repeat split; discriminate.
Defined.

(** *** Numbers *)

Lemma evaluate_TREE_digit c :
  in_set DIGIT_CHARACTERS (Some c) = true ->
  evaluate TREE (Some c) = [number_node].
Proof. by_ascii c. Qed.

Lemma evaluate_number_digit c :
  in_set DIGIT_CHARACTERS (Some c) = true ->
  evaluate number_node (Some c) = [number_end] /\
  evaluate number_end (Some c) = [number_end] /\
  evaluate underscore_node (Some c) = [number_end].
Proof.
  each_ascii c; intros H; vm_compute in H; try discriminate H;
    vm_compute; auto.
Qed.

Lemma evaluate_number_underscore :
  evaluate number_node (Some "_"%char) = [underscore_node] /\
  evaluate number_end (Some "_"%char) = [underscore_node].
Proof. vm_compute. auto. Qed.

(** What cannot continue a number: the end of the input, or a character
    that is neither a digit nor an underscore. *)
Abbreviation ends_number rest :=
  (forall c, hd_error rest = Some c ->
     in_set DIGIT_CHARACTERS (Some c) = false /\ Ascii.eqb c "_" = false).

Lemma evaluate_number_ends rest :
  ends_number rest ->
  evaluate number_node (hd_error rest) = [] /\
  evaluate number_end (hd_error rest) = [].
Proof.
  destruct rest as [|c rest]; cbn [hd_error]; [vm_compute; auto|].
  intros H. destruct (H c eq_refl) as [H1 H2]. clear H. revert H1 H2.
  each_ascii c; intros H1 H2; vm_compute in H1; vm_compute in H2;
    try discriminate H1; try discriminate H2; vm_compute; auto.
Qed.

Lemma evaluate_underscore_ends rest :
  (forall c, hd_error rest = Some c ->
     in_set DIGIT_CHARACTERS (Some c) = false) ->
  evaluate underscore_node (hd_error rest) = [].
Proof.
  destruct rest as [|c rest]; cbn [hd_error]; [vm_compute; auto|].
  intros H. specialize (H c eq_refl). revert H.
  each_ascii c; intros H; vm_compute in H; try discriminate H;
    vm_compute; auto.
Qed.

Abbreviation digits_ w :=
  (Forall (fun c => in_set DIGIT_CHARACTERS (Some c) = true) w).

(** Digits lead from each of the three nodes of a number to its end
    node. *)
Lemma reads_digits w n :
  digits_ w -> w <> [] ->
  n = number_node \/ n = number_end \/ n = underscore_node ->
  reads [n] w [number_end].
Proof.
  intros H. revert n. induction H as [|c w Hc _ IH]; intros n Hne Hn;
    [congruence|].
  destruct (evaluate_number_digit c Hc) as (E1 & E2 & E3).
  assert (E : step [n] c = [number_end]).
  { rewrite step_one. destruct Hn as [-> | [-> | ->]]; assumption. }
  apply reads_cons; rewrite E; [discriminate | reflexivity |].
  destruct w as [|d w]; [constructor|].
  apply IH; [discriminate | right; now left].
Qed.

(** The groups of digits after the first, each after one underscore. *)
Lemma reads_groups groups :
  Forall (fun g => digits_ g /\ g <> []) groups ->
  forall n, n = number_node \/ n = number_end ->
    exists n', (n' = number_node \/ n' = number_end) /\
               reads [n] (concat (map (cons "_"%char) groups)) [n'].
Proof.
  induction 1 as [|g groups [Hg Hne] _ IH]; intros n Hn.
  - exists n. split; [exact Hn | constructor].
  - destruct (IH number_end (or_intror eq_refl)) as (n' & Hn' & R).
    exists n'. split; [exact Hn'|].
    cbn [map concat]. rewrite <- app_comm_cons.
    apply reads_cons.
    + rewrite step_one.
      destruct Hn as [-> | ->];
        [rewrite (proj1 evaluate_number_underscore)
        |rewrite (proj2 evaluate_number_underscore)]; discriminate.
    + rewrite step_one.
      destruct Hn as [-> | ->];
        [rewrite (proj1 evaluate_number_underscore)
        |rewrite (proj2 evaluate_number_underscore)]; reflexivity.
    + replace (step [n] "_") with [underscore_node].
      * eapply reads_app; [|exact R].
        apply reads_digits; [exact Hg | exact Hne | right; now right].
      * rewrite step_one.
        destruct Hn as [-> | ->];
          [rewrite (proj1 evaluate_number_underscore)
          |rewrite (proj2 evaluate_number_underscore)]; reflexivity.
Qed.

Lemma reads_number first groups :
  digits_ first -> first <> [] ->
  Forall (fun g => digits_ g /\ g <> []) groups ->
  exists n, (n = number_node \/ n = number_end) /\
            reads [TREE] (first ++ concat (map (cons "_"%char) groups)) [n].
Proof.
  intros Hf Hne Hg.
  assert (R1 : exists n, (n = number_node \/ n = number_end) /\
                         reads [TREE] first [n]).
  { destruct Hf as [|c w Hc Hw]; [congruence|].
    destruct w as [|d w].
    - exists number_node. split; [now left|].
      apply reads_one; [rewrite step_one; now apply evaluate_TREE_digit | |];
        [discriminate | reflexivity].
    - exists number_end. split; [now right|].
      apply reads_cons; rewrite step_one, (evaluate_TREE_digit c Hc);
        [discriminate | reflexivity |].
      apply reads_digits; [exact Hw | discriminate | now left]. }
  destruct R1 as (n1 & Hn1 & R1).
  destruct (reads_groups groups Hg n1 Hn1) as (n & Hn & R).
  exists n. split; [exact Hn|]. eapply reads_app; eassumption.
Qed.

(** X7. Digits, in groups separated by single underscores, are emitted
    as one token of the kind [integer] whose data is the lexeme with its
    underscores. *)
Theorem integer_lexes_with_underscores :
  forall (l : t) (first : list ascii) (groups : list (list ascii))
         (rest : list ascii),
    let lexeme := first ++ concat (map (cons "_"%char) groups) in
    pending_of l = lexeme ++ rest ->
    digits_ first -> first <> [] ->
    Forall (fun g => digits_ g /\ g <> []) groups ->
    ends_number rest ->
    lex l = (Ok (Some (token_of Tokens.integer l lexeme lexeme)),
             advance (length lexeme) l).
Proof.
  intros l first groups rest lexeme Hp Hf Hne Hg He.
  destruct (reads_number first groups Hf Hne Hg) as (n & Hn & R).
  fold lexeme in R.
  assert (Hl : lexeme <> []).
  { unfold lexeme. destruct first; [congruence | discriminate]. }
  destruct (evaluate_number_ends rest He) as [E1 E2].
  rewrite (lex_reads l lexeme rest Tokens.integer n [] Hp Hl R).
  - replace (verify (node_at n)) with (@None (string -> string))
      by (destruct Hn as [-> | ->]; vm_compute; reflexivity).
    reflexivity.
  - cbn [flat_map]. rewrite app_nil_r. now destruct Hn as [-> | ->].
  - destruct Hn as [-> | ->]; vm_compute; reflexivity.
Qed.

Lemma integer_lexes_with_underscores_witness :
  lex (init "1_000 + 2")
  = (Ok (Some (mkToken (Some Tokens.integer) 0 5 (Some "1_000"))),
     advance 5 (init "1_000 + 2")).
Proof.
  apply (integer_lexes_with_underscores (init "1_000 + 2")
           ["1"%char] [list_ascii_of_string "000"]
           (list_ascii_of_string " + 2")).
  - reflexivity.
  - repeat constructor.
  - discriminate.
  - apply Forall_cons; [|apply Forall_nil].
    split; [repeat constructor | discriminate].
  - intros c [= <-]. split; reflexivity.
Defined.

(** [outputNode] on one live node that has no token type and is not the
    root. *)
Lemma lex_reads_stuck (l : t) w rest n :
  pending_of l = w ++ rest -> w <> [] ->
  reads [TREE] w [n] ->
  evaluate n (hd_error rest) = [] ->
  token_type (node_at n) = None -> n <> TREE ->
  lex l = (Raise (SyntaxError "Unexpected character"), advance (length w) l).
Proof.
  intros Hp Hw Hr He Hk Hn. unfold lex.
  rewrite Hp, (scan_reads _ _ _ Hr), scan_emit;
    [|cbn [flat_map]; now rewrite He | discriminate].
  rewrite (advance_pending l w rest Hp Hw).
  f_equal. unfold outputNode. cbn [outputNode_loop]. rewrite Hk.
  apply Nat.eqb_neq in Hn. now rewrite Hn.
Qed.

(** X8. An underscore after a number that no digit follows is an error:
    [lex] raises [SyntaxError] where the underscore ends, and emits no
    token for the digits before it. *)
Theorem integer_with_trailing_underscore_raises :
  forall (l : t) (first : list ascii) (groups : list (list ascii))
         (rest : list ascii),
    let lexeme := first ++ concat (map (cons "_"%char) groups) ++ ["_"%char] in
    pending_of l = lexeme ++ rest ->
    digits_ first -> first <> [] ->
    Forall (fun g => digits_ g /\ g <> []) groups ->
    (forall c, hd_error rest = Some c ->
       in_set DIGIT_CHARACTERS (Some c) = false) ->
    lex l = (Raise (SyntaxError "Unexpected character"),
             advance (length lexeme) l).
Proof.
  intros l first groups rest lexeme Hp Hf Hne Hg He.
  destruct (reads_number first groups Hf Hne Hg) as (n & Hn & R).
  assert (Hl : lexeme <> []).
  { unfold lexeme. destruct first; [congruence | discriminate]. }
  apply (lex_reads_stuck l lexeme rest underscore_node Hp Hl).
  - unfold lexeme. rewrite app_assoc. eapply reads_app; [exact R|].
    apply reads_one; [rewrite step_one | discriminate | reflexivity].
    destruct Hn as [-> | ->]; apply evaluate_number_underscore.
  - now apply evaluate_underscore_ends.
  - vm_compute. reflexivity.
  - discriminate.
Qed.

Lemma integer_with_trailing_underscore_raises_witness :
  lex (init "12_ ")
  = (Raise (SyntaxError "Unexpected character"), advance 3 (init "12_ ")).
Proof.
  apply (integer_with_trailing_underscore_raises (init "12_ ")
           (list_ascii_of_string "12") [] [" "%char]).
  - reflexivity.
  - repeat constructor.
  - discriminate.
  - apply Forall_nil.
  - intros c [= <-]. reflexivity.
Defined.

(** *** Identifiers *)

Lemma in_all_ascii c : In c (map ascii_of_nat (seq 0 256)).
Proof.
  rewrite <- (ascii_nat_embedding c). apply in_map, in_seq.
  pose proof (nat_ascii_bounded c). lia.
Qed.

Lemma path_of_In n u : path_of n = Some u -> In (n, u) CHAINS.
Proof.
  unfold path_of.
  destruct (find _ CHAINS) as [[m p]|] eqn:E; [|discriminate].
  intros [= <-]. apply find_some in E as [Hin Hm].
  cbn [fst] in Hm. apply Nat.eqb_eq in Hm. now subst m.
Qed.

Lemma string_of_list_ascii_inj (a b : list ascii) :
  string_of_list_ascii a = string_of_list_ascii b -> a = b.
Proof.
  intros H. rewrite <- (list_ascii_of_string_of_list_ascii a),
                    <- (list_ascii_of_string_of_list_ascii b).
  now rewrite H.
Qed.

(** Every link of a node of a chain leads to the node of the same chain
    that is one character further on. *)
Lemma chain_links n u c m :
  path_of n = Some u -> In m (evaluate n (Some c)) ->
  path_of m = Some (u ++ [c]).
Proof.
  intros Hn Hm. apply path_of_In in Hn.
  assert (C : forallb (fun p =>
                forallb (fun c =>
                  forallb (fun m =>
                    match path_of m with
                    | Some q => String.eqb (string_of_list_ascii q)
                                  (string_of_list_ascii (snd p ++ [c]))
                    | None => false
                    end) (evaluate (fst p) (Some c)))
                  (map ascii_of_nat (seq 0 256))) CHAINS = true)
    by (vm_compute; reflexivity).
  rewrite forallb_forall in C. specialize (C _ Hn).
  rewrite forallb_forall in C. specialize (C c (in_all_ascii c)).
  rewrite forallb_forall in C. specialize (C m Hm). cbn [fst snd] in C.
  clear Hn Hm.
  destruct (path_of m) as [q|]; [|discriminate C].
  apply String.eqb_eq, string_of_list_ascii_inj in C. subst q. reflexivity.
Qed.

(** A node of a chain is not the root, and when it has a token type it
    is the last of the chain of an entry of the direct map. *)
Lemma chain_token n u :
  path_of n = Some u ->
  n <> TREE /\
  forall kind, token_type (node_at n) = Some kind ->
    In (string_of_list_ascii u, kind) DIRECT_MAP.
Proof.
  intros Hn. apply path_of_In in Hn.
  assert (C : forallb (fun p =>
                negb (Nat.eqb (fst p) TREE) &&
                match token_type (node_at (fst p)) with
                | Some k =>
                    existsb (fun e =>
                      String.eqb (fst e) (string_of_list_ascii (snd p))
                      && Tokens.eqb (snd e) k) DIRECT_MAP
                | None => true
                end) CHAINS = true)
    by (vm_compute; reflexivity).
  rewrite forallb_forall in C. specialize (C _ Hn). cbn [fst snd] in C.
  clear Hn.
  apply andb_true_iff in C as [C1 C2]. split.
  - apply negb_true_iff, Nat.eqb_neq in C1. exact C1.
  - intros kind Hk. rewrite Hk in C2.
    apply existsb_exists in C2 as ([s k] & Hin & He). cbn [fst snd] in He.
    apply andb_true_iff in He as [E1 E2].
    apply String.eqb_eq in E1. subst s.
    unfold Tokens.eqb in E2.
    destruct (Tokens.eq_dec k kind) as [<-|]; [exact Hin | discriminate E2].
Qed.

(** The chain of a word has no link for the end of the input, nor for a
    character that cannot continue an identifier. *)
Lemma chain_ends n a u rest :
  path_of n = Some (a :: u) -> in_set WORD_CHARACTERS (Some a) = true ->
  ends_lexeme rest = true ->
  evaluate n (hd_error rest) = [].
Proof.
  intros Hn Ha He. apply path_of_In in Hn.
  assert (C : forallb (fun p =>
                match snd p with
                | a :: _ =>
                    negb (in_set WORD_CHARACTERS (Some a)) ||
                    (match evaluate (fst p) None with
                     | [] => true
                     | _ :: _ => false
                     end &&
                     forallb (fun c =>
                       in_set WORD_CHARACTERS_AFTER (Some c) ||
                       match evaluate (fst p) (Some c) with
                       | [] => true
                       | _ :: _ => false
                       end) (map ascii_of_nat (seq 0 256)))
                | [] => true
                end) CHAINS = true)
    by (vm_compute; reflexivity).
  rewrite forallb_forall in C. specialize (C _ Hn). cbn [fst snd] in C.
  clear Hn.
  apply orb_true_iff in C as [C | C];
    [apply negb_true_iff in C; congruence|].
  apply andb_true_iff in C as [C1 C2].
  destruct rest as [|c rest]; cbn [hd_error].
  - destruct (evaluate n None); [reflexivity | discriminate C1].
  - rewrite forallb_forall in C2. specialize (C2 c (in_all_ascii c)).
    cbn [ends_lexeme] in He. apply negb_true_iff in He.
    apply orb_true_iff in C2 as [C2 | C2]; [congruence|].
    destruct (evaluate n (Some c)); [reflexivity | discriminate C2].
Qed.

(** The first character of a word leads from the root to the first
    identifier node and to the chains that start with it. *)
Lemma evaluate_TREE_word c :
  in_set WORD_CHARACTERS (Some c) = true ->
  In identifier_node (evaluate TREE (Some c)) /\
  forall m, In m (evaluate TREE (Some c)) ->
    m = identifier_node \/ path_of m = Some [c].
Proof.
  intros Hc.
  assert (C : forallb (fun c =>
                negb (in_set WORD_CHARACTERS (Some c)) ||
                (existsb (Nat.eqb identifier_node) (evaluate TREE (Some c)) &&
                 forallb (fun m =>
                   Nat.eqb m identifier_node ||
                   match path_of m with
                   | Some q => String.eqb (string_of_list_ascii q)
                                 (string_of_list_ascii [c])
                   | None => false
                   end) (evaluate TREE (Some c))))
                (map ascii_of_nat (seq 0 256)) = true)
    by (vm_compute; reflexivity).
  rewrite forallb_forall in C. specialize (C c (in_all_ascii c)).
  apply orb_true_iff in C as [C | C];
    [apply negb_true_iff in C; congruence|].
  apply andb_true_iff in C as [C1 C2]. split.
  - apply existsb_exists in C1 as (x & Hx & E).
    apply Nat.eqb_eq in E. subst x. exact Hx.
  - intros m Hm. rewrite forallb_forall in C2. specialize (C2 m Hm).
    apply orb_true_iff in C2 as [E | E].
    + left. apply Nat.eqb_eq. exact E.
    + right. destruct (path_of m) as [q|]; [|discriminate E].
      apply String.eqb_eq, string_of_list_ascii_inj in E. subst q.
      reflexivity.
Qed.

Lemma evaluate_identifier c :
  in_set WORD_CHARACTERS_AFTER (Some c) = true ->
  evaluate identifier_node (Some c) = [identifier_end] /\
  evaluate identifier_end (Some c) = [identifier_end].
Proof.
  each_ascii c; intros H; vm_compute in H; try discriminate H;
    vm_compute; auto.
Qed.

Lemma evaluate_identifier_ends rest :
  ends_lexeme rest = true ->
  evaluate identifier_node (hd_error rest) = [] /\
  evaluate identifier_end (hd_error rest) = [].
Proof.
  destruct rest as [|c rest]; cbn [hd_error ends_lexeme];
    [vm_compute; auto|].
  each_ascii c; intros H; vm_compute in H; try discriminate H;
    vm_compute; auto.
Qed.

(** The live nodes after the characters [u] of a word: an identifier
    node, and nodes of chains that [u] leads to. *)
Abbreviation word_nodes u nodes :=
  ((In identifier_node nodes \/ In identifier_end nodes) /\
   forall m, In m nodes ->
     (m = identifier_node \/ m = identifier_end) \/ path_of m = Some u).

Lemma word_nodes_live u nodes :
  word_nodes u nodes -> nodes <> [] /\ is_restart nodes = false.
Proof.
  intros [H _]. split.
  - intros ->. destruct H as [[] | []].
  - destruct nodes as [|n [|n' ns]]; try reflexivity.
    cbn [is_restart]. apply Nat.eqb_neq. intros ->.
    destruct H as [[H | []] | [H | []]]; discriminate H.
Qed.

Lemma word_nodes_step u nodes c :
  word_nodes u nodes ->
  in_set WORD_CHARACTERS_AFTER (Some c) = true ->
  word_nodes (u ++ [c]) (step nodes c).
Proof.
  intros [H1 H2] Hc. destruct (evaluate_identifier c Hc) as [E1 E2]. split.
  - right. unfold step. apply in_flat_map.
    destruct H1 as [H1 | H1]; eexists; (split; [exact H1|]);
      [rewrite E1 | rewrite E2]; left; reflexivity.
  - intros m Hm. unfold step in Hm. apply in_flat_map in Hm as (n & Hn & Hm).
    destruct (H2 n Hn) as [[-> | ->] | Hp].
    + rewrite E1 in Hm. destruct Hm as [<- | []]. left. right. reflexivity.
    + rewrite E2 in Hm. destruct Hm as [<- | []]. left. right. reflexivity.
    + right. exact (chain_links n u c m Hp Hm).
Qed.

Lemma reads_word w : forall u nodes,
  word_nodes u nodes ->
  Forall (fun x => in_set WORD_CHARACTERS_AFTER (Some x) = true) w ->
  exists nodes', word_nodes (u ++ w) nodes' /\ reads nodes w nodes'.
Proof.
  induction w as [|c w IH]; intros u nodes Hn Hw.
  - exists nodes. rewrite app_nil_r. split; [exact Hn | constructor].
  - inversion Hw as [|? ? Hc Hw']; subst.
    pose proof (word_nodes_step u nodes c Hn Hc) as Hs.
    destruct (IH (u ++ [c]) _ Hs Hw') as (nodes' & Hn' & R).
    rewrite <- app_assoc in Hn'. exists nodes'. split; [exact Hn'|].
    destruct (word_nodes_live _ _ Hs) as [L1 L2].
    apply reads_cons; [exact L1 | exact L2 | exact R].
Qed.

Lemma identifier_nodes n :
  n = identifier_node \/ n = identifier_end ->
  token_type (node_at n) = Some Tokens.identifier /\
  verify (node_at n) = None /\ path_of n = None.
Proof. intros [-> | ->]; vm_compute; auto. Qed.

(** [outputNode] on the live nodes of a word that is no entry of the
    direct map. *)
Lemma outputNode_word (l : t) a u start data nodes :
  word_nodes (a :: u) nodes ->
  (forall kind, ~ In (string_of_list_ascii (a :: u), kind) DIRECT_MAP) ->
  outputNode l nodes start data
  = Ok (Some (mkToken (Some Tokens.identifier) start (position l - 1)
                (Some data))).
Proof.
  intros [H1 H2] Hk. unfold outputNode.
  induction nodes as [|n nodes IH]; [destruct H1 as [[] | []]|].
  cbn [outputNode_loop].
  destruct (H2 n (or_introl eq_refl)) as [Hi | Hp].
  { destruct (identifier_nodes n Hi) as (E1 & E2 & _).
    rewrite E1. unfold getToken. now rewrite E1, E2. }
  destruct (chain_token n _ Hp) as [Hn Ht].
  destruct (token_type (node_at n)) as [kind|] eqn:E.
  { exfalso. exact (Hk kind (Ht kind eq_refl)). }
  apply Nat.eqb_neq in Hn. rewrite Hn. cbn [andb].
  apply IH.
  - assert (Hx : forall x, x = identifier_node \/ x = identifier_end ->
                           n <> x).
    { intros x Hx ->. destruct (identifier_nodes x Hx) as (_ & _ & E3).
      congruence. }
    destruct H1 as [[H1 | H1] | [H1 | H1]].
    + exfalso. exact (Hx _ (or_introl eq_refl) H1).
    + now left.
    + exfalso. exact (Hx _ (or_intror eq_refl) H1).
    + now right.
  - intros m Hm. apply H2. now right.
Qed.

(** X9. A word that is no entry of the direct map is emitted as one
    token of the kind [identifier] that spans the whole word, however
    many keywords it starts with: the lexer takes the longest lexeme. *)
Theorem word_lexes_as_identifier :
  forall (l : t) (c : ascii) (w rest : list ascii),
    pending_of l = (c :: w) ++ rest ->
    in_set WORD_CHARACTERS (Some c) = true ->
    Forall (fun x => in_set WORD_CHARACTERS_AFTER (Some x) = true) w ->
    ends_lexeme rest = true ->
    (forall kind, ~ In (string_of_list_ascii (c :: w), kind) DIRECT_MAP) ->
    lex l = (Ok (Some (token_of Tokens.identifier l (c :: w) (c :: w))),
             advance (length (c :: w)) l).
Proof.
  intros l c w rest Hp Hc Hw He Hk.
  destruct (evaluate_TREE_word c Hc) as [T1 T2].
  assert (H0 : word_nodes [c] (step [TREE] c)).
  { rewrite step_one. split; [left; exact T1|].
    intros m Hm. destruct (T2 m Hm) as [Hm' | Hm'];
      [left; left; exact Hm' | right; exact Hm']. }
  destruct (reads_word w [c] _ H0 Hw) as (nodes & Hn & R).
  cbn [app] in Hn.
  destruct (word_nodes_live _ _ H0) as [L1 L2].
  assert (R' : reads [TREE] (c :: w) nodes)
    by (apply reads_cons; [exact L1 | exact L2 | exact R]).
  assert (E : flat_map (fun node => evaluate node (hd_error rest)) nodes = []).
  { destruct (evaluate_identifier_ends rest He) as [E1 E2].
    destruct Hn as [_ Hn].
    clear -Hn E1 E2 Hc He. induction nodes as [|n nodes IH]; [reflexivity|].
    cbn [flat_map]. rewrite IH by (intros m Hm; apply Hn; now right).
    rewrite app_nil_r.
    destruct (Hn n (or_introl eq_refl)) as [[-> | ->] | Hp];
      [exact E1 | exact E2 | exact (chain_ends n c w rest Hp Hc He)]. }
  destruct (word_nodes_live _ _ Hn) as [L3 _].
  unfold lex. rewrite Hp, (scan_reads _ _ _ R'), scan_emit by assumption.
  rewrite (advance_pending l (c :: w) rest Hp) by discriminate.
  rewrite (outputNode_word _ c w _ _ nodes Hn Hk), position_at.
  unfold token_of. cbn [append].
  replace (position l + Z.of_nat (length (c :: w)) - 1)%Z
    with (position l - 1 + Z.of_nat (length (c :: w)))%Z by lia.
  reflexivity.
Qed.

Lemma word_lexes_as_identifier_witness :
  lex (init "classy(x)")
  = (Ok (Some (mkToken (Some Tokens.identifier) 0 6 (Some "classy"))),
     advance 6 (init "classy(x)")).
Proof.
  apply (word_lexes_as_identifier (init "classy(x)") "c"%char
           (list_ascii_of_string "lassy") (list_ascii_of_string "(x)")).
  - reflexivity.
  - reflexivity.
  - repeat constructor.
  - reflexivity.
  - intros kind H. cbn in H.
    repeat (destruct H as [H | H]; [discriminate H|]). exact H.
Defined.

(** *** Operators and punctuation *)

(** One entry of the direct map: the lexeme at the end of the input,
    then followed by each of the 256 characters. *)
Ltac operator_case H :=
  unfold init, lex;
  rewrite list_ascii_of_string_app;
  match goal with
  | |- context [list_ascii_of_string ?rest] =>
      match type of H with
      | context [list_ascii_of_string rest] =>
          destruct (list_ascii_of_string rest) as [|? ?]
      end
  end;
  [ vm_compute; reflexivity
  | match type of H with
    | forall c, hd_error (?x :: _) = Some c -> _ =>
        specialize (H x eq_refl); each_ascii x
    end;
    (vm_compute in H;
     first [ discriminate H | vm_compute; reflexivity ]) ].

(** X10. An operator or punctuation mark of the direct map is emitted
    with its own kind when the character after it does not make a longer
    entry of the map: [=] alone is [assign], while [==] and [=>] are
    one token each. *)
Theorem operator_lexes_longest :
  forall (op : string) (kind : Tokens.t) (rest : string),
    In (op, kind) (firstn 23 DIRECT_MAP) ->
    (forall c, hd_error (list_ascii_of_string rest) = Some c ->
       forallb (fun entry =>
                  negb (String.prefix (op ++ String c EmptyString)
                          (fst entry))) DIRECT_MAP = true) ->
    fst (lex (init (op ++ rest)%string))
    = Ok (Some (mkToken (Some kind) 0 (Z.of_nat (String.length op))
                  (Some op))).
Proof.
  intros op kind rest Hin H.
  cbv [firstn DIRECT_MAP] in Hin.
  repeat (destruct Hin as [Hin | Hin];
          [ injection Hin as <- <-; operator_case H | ]).
  destruct Hin.
Qed.

Lemma operator_lexes_longest_witness :
  fst (lex (init "=x"))
  = Ok (Some (mkToken (Some Tokens.assign) 0 1 (Some "="))).
Proof.
  apply (operator_lexes_longest "=" Tokens.assign "x").
  - vm_compute. tauto.
  - intros c [= <-]. reflexivity.
Defined.

(** *** Keywords *)

(** The loop of [lex] does not depend on where in the source it runs:
    [d] characters further on, it ends with the same live nodes and the
    same data, and with positions that are [d] larger. *)
Lemma scan_shift (d : Z) :
  forall pending pos ts td nodes,
    scan pending (pos + d) (ts + d) td nodes
    = (match fst (scan pending pos ts td nodes) with
       | Emit n s data => Emit n (s + d) data
       | e => e
       end,
       mk (source (snd (scan pending pos ts td nodes)))
          (current (snd (scan pending pos ts td nodes)))
          (position (snd (scan pending pos ts td nodes)) + d)).
Proof.
  induction pending as [|c rest IH]; intros pos ts td nodes.
  - rewrite !scan_nil.
    destruct (flat_map _ nodes); [destruct nodes|]; reflexivity.
  - rewrite !scan_cons.
    destruct (flat_map _ nodes) as [|n ns]; [destruct nodes; reflexivity|].
    replace (pos + d + 1)%Z with (pos + 1 + d)%Z by lia.
    destruct (is_restart (n :: ns)); apply IH.
Qed.

Lemma outputNode_shift (d : Z) src cur pos start data :
  forall nodes,
    outputNode (mk src cur (pos + d)) nodes (start + d) data
    = match outputNode (mk src cur pos) nodes start data with
      | Ok (Some token) =>
          Ok (Some (mkToken (type token) (Lexer.start token + d)
                      (Lexer.end_ token + d) (Lexer.data token)))
      | r => r
      end.
Proof.
  unfold outputNode.
  induction nodes as [|n nodes IH]; [reflexivity|].
  cbn [outputNode_loop position current]. unfold getToken.
  destruct (token_type (node_at n)) as [kind|].
  - cbn [type Lexer.start Lexer.end_ Lexer.data]. do 3 f_equal. lia.
  - destruct (Nat.eqb n TREE && _); [reflexivity | exact IH].
Qed.

Lemma pending_init (s : string) :
  pending_of (init s) = list_ascii_of_string s /\ position (init s) = 1%Z.
Proof. destruct s; split; reflexivity. Qed.

(** Two lexers with the same characters ahead emit from the same live
    nodes, and the same token up to its place in the source. *)
Lemma lex_shift (l l0 : t) :
  pending_of l = pending_of l0 ->
  live_nodes l = live_nodes l0 /\
  fst (lex l)
  = match fst (lex l0) with
    | Ok (Some token) =>
        Ok (Some (mkToken (type token)
                    (Lexer.start token + (position l - position l0))
                    (Lexer.end_ token + (position l - position l0))
                    (Lexer.data token)))
    | r => r
    end.
Proof.
  intros Hp. unfold live_nodes, lex. rewrite Hp.
  set (d := (position l - position l0)%Z).
  replace (position l) with (position l0 + d)%Z by (unfold d; lia).
  replace (position l0 + d - 1)%Z with (position l0 - 1 + d)%Z by lia.
  rewrite scan_shift.
  destruct (scan (pending_of l0) (position l0) (position l0 - 1) EmptyString
              [TREE]) as [[nodes s data| |] [src cur pos]];
    cbn [fst snd source current position]; split; try reflexivity.
  apply outputNode_shift.
Qed.

Lemma keyword_lexeme (l : t) (kw : string) (kind : Tokens.t)
  (rest : list ascii) :
  In (kw, kind) keywords ->
  pending_of l = list_ascii_of_string kw ++ rest ->
  ends_lexeme rest = true ->
  live kind (live_nodes l) = true /\
  live Tokens.identifier (live_nodes l) = true /\
  fst (lex l)
  = Ok (Some (mkToken (Some kind) (position l - 1)
                (position l - 1 + Z.of_nat (String.length kw)) (Some kw))).
Proof.
  intros Hin Hp He.
  rewrite <- (list_ascii_of_string_of_list_ascii rest) in He.
  destruct (keyword_at_start kw kind (string_of_list_ascii rest) Hin He)
    as (L1 & L2 & L3).
  set (l0 := init (kw ++ string_of_list_ascii rest)) in *.
  destruct (pending_init (kw ++ string_of_list_ascii rest)) as [P0 Q0].
  fold l0 in P0, Q0.
  rewrite list_ascii_of_string_app, list_ascii_of_string_of_list_ascii in P0.
  destruct (lex_shift l l0 (eq_trans Hp (eq_sym P0))) as [N T].
  rewrite N. split; [exact L1|]. split; [exact L2|].
  rewrite T, L3, Q0. cbn [type Lexer.start Lexer.end_ Lexer.data].
  do 3 f_equal; lia.
Qed.

Lemma live_nodes_at_whitespace (l : t) (c : ascii) :
  current l = Some c -> in_set WHITESPACE (Some c) = true ->
  live_nodes l = live_nodes (next l).
Proof.
  destruct l as [src cur pos]. intros Hc Hw. cbn [current] in Hc. subst cur.
  unfold live_nodes, pending_of. cbn [current source position].
  rewrite scan_cons. cbn [flat_map]. rewrite app_nil_r.
  rewrite (evaluate_TREE_whitespace c Hw). cbn [is_restart Nat.eqb TREE].
  unfold next. cbn [source position].
  destruct src as [|d src]; cbn [current source position];
    replace (pos + 1 - 1)%Z with pos by lia; reflexivity.
Qed.

Lemma pending_next (l : t) c w :
  pending_of l = c :: w ->
  current l = Some c /\ pending_of (next l) = w /\
  position (next l) = (position l + 1)%Z.
Proof.
  destruct l as [src [x|] pos]; unfold pending_of; cbn; [|discriminate].
  intros [= -> ->]. destruct w; auto.
Qed.

(** C8. A lexeme that spells a keyword of the direct map, wherever it
    stands in the source and after any spaces and tabs, followed by the
    end of the input or by a character that cannot continue an
    identifier, is emitted with the keyword's kind: when the lexer emits,
    the keyword's terminal node and an identifier terminal are both live,
    and [outputNode] takes the keyword's, which comes first because the
    keyword chains were linked to the root before the identifier
    nodes. *)
Theorem keyword_wins_over_identifier :
  forall (l : t) (blanks : list ascii) (kw : string) (kind : Tokens.t)
         (rest : list ascii),
    In (kw, kind) keywords ->
    pending_of l = blanks ++ list_ascii_of_string kw ++ rest ->
    Forall (fun c => in_set WHITESPACE (Some c) = true) blanks ->
    ends_lexeme rest = true ->
    let start := (position l - 1 + Z.of_nat (length blanks))%Z in
    live kind (live_nodes l) = true /\
    live Tokens.identifier (live_nodes l) = true /\
    fst (lex l)
    = Ok (Some (mkToken (Some kind) start
                  (start + Z.of_nat (String.length kw)) (Some kw))).
Proof.
  intros l blanks kw kind rest Hin Hp Hb He. cbv zeta.
  revert l Hp. induction Hb as [|c blanks Hc _ IH]; intros l Hp.
  - cbn [length Z.of_nat]. rewrite Z.add_0_r.
    exact (keyword_lexeme l kw kind rest Hin Hp He).
  - cbn [app] in Hp. destruct (pending_next l c _ Hp) as (C & P & Q).
    rewrite (live_nodes_at_whitespace l c C Hc), (lex_at_whitespace l c C Hc).
    destruct (IH (next l) P) as (L1 & L2 & L3).
    split; [exact L1|]. split; [exact L2|]. rewrite L3, Q.
    do 3 f_equal; cbn [length]; lia.
Qed.

(** The keyword [class] as the second lexeme of a source, in the state
    the lexer is in after the first. *)
Lemma keyword_wins_over_identifier_witness :
  let l := snd (lex (init "end class Foo")) in
  live Tokens.class_kwd (live_nodes l) = true /\
  live Tokens.identifier (live_nodes l) = true /\
  fst (lex l) = Ok (Some (mkToken (Some Tokens.class_kwd) 4 9 (Some "class"))).
Proof.
  apply (keyword_wins_over_identifier (snd (lex (init "end class Foo")))
           [" "%char] "class" Tokens.class_kwd
           (list_ascii_of_string " Foo")).
  - vm_compute. tauto.
  - vm_compute. reflexivity.
  - repeat constructor.
  - reflexivity.
Defined.

End LexerFacts.

(* ------------------------------------------------------------------ *)
(** ** Parser *)
(* ------------------------------------------------------------------ *)

Module ParserFacts.
Import Parser.

Lemma the_token_Ok (x : option Token) p token p' :
  the_token x p = (Ok token, p') -> x = Some token /\ p' = p.
Proof.
  destruct x as [y|]; cbn; intros H; inversion H; auto.
Qed.

Lemma tk_end_kwd (p : t) : tk "end_kwd" p = (Ok Tokens.end_kwd, p).
Proof. reflexivity. Qed.

Section While.

Variables parseValue parseLine : P ir.

(** What the loop of a block returns is what it was given, followed by
    the lines up to [end], and the closing token. *)
Lemma block_sound (message : string) :
  forall fuel acc toks p instructions toks' p',
    block parseLine fuel message acc toks p = (Ok (instructions, toks'), p') ->
    exists lines closing,
      block_lines parseLine p lines closing p' /\
      instructions = acc ++ lines /\ toks' = toks ++ [closing].
Proof.
  induction fuel as [|n IH]; intros acc toks p instructions toks' p' H.
  - discriminate H.
  - cbn [block] in H.
    apply bind_Ok_inv in H as (token & p1 & Hla & H).
    destruct token as [token|]; [|discriminate H].
    rewrite (bind_Ok _ _ _ _ _ (tk_end_kwd p1)) in H.
    destruct (has_type token Tokens.end_kwd) eqn:Hend.
    + apply bind_Ok_inv in H as (closing & p2 & Hnext & H).
      apply bind_Ok_inv in H as (closing' & p3 & Htok & H).
      apply the_token_Ok in Htok as [-> ->].
      cbv [ret] in H. injection H as <- <- <-.
      exists [], closing'. rewrite app_nil_r.
      split; [|split; reflexivity].
      eapply block_end; eassumption.
    + apply bind_Ok_inv in H as (line & p2 & Hline & H).
      apply IH in H as (lines & closing & Hlines & -> & ->).
      exists (line :: lines), closing. rewrite <- app_assoc.
      split; [|split; reflexivity].
      eapply block_line; eassumption.
Qed.

(** With one unit of fuel per line and one for [end], the loop returns. *)
Lemma block_complete (message : string) :
  forall p lines closing p',
    block_lines parseLine p lines closing p' ->
    forall fuel acc toks,
      length lines < fuel ->
      block parseLine fuel message acc toks p
      = (Ok (acc ++ lines, toks ++ [closing]), p').
Proof.
  induction 1 as [p p1 p2 token closing Hla Hend Hnext
                 |p p1 p2 p3 token line rest closing Hla Hend Hline _ IH];
    intros fuel acc toks Hfuel;
    (destruct fuel as [|n]; [inversion Hfuel|]); cbn [block].
  - rewrite (bind_Ok _ _ _ _ _ Hla).
    rewrite (bind_Ok _ _ _ _ _ (tk_end_kwd p1)), Hend.
    rewrite (bind_Ok _ _ _ _ _ Hnext). cbn. now rewrite app_nil_r.
  - rewrite (bind_Ok _ _ _ _ _ Hla).
    rewrite (bind_Ok _ _ _ _ _ (tk_end_kwd p1)), Hend.
    rewrite (bind_Ok _ _ _ _ _ Hline).
    rewrite IH by (cbn in Hfuel; lia). now rewrite <- app_assoc.
Qed.

(** With a value parser and a line parser that return, [parseWhile]
    returns exactly when the [while] token is followed by a value (the
    condition) and by lines up to [end], and what it returns is the
    [Loop] whose instructions are [Branch(condition, [], [Break()])]
    followed by those lines in the order they were read. *)
Lemma parseWhile_desugars :
  forall (p p' : t) (v : ir),
    (exists fuel, parseWhile parseValue parseLine fuel p = (Ok v, p')) <->
    (exists opening condition instructions closing p1 p2,
        next_asserted "while_kwd" p = (Ok opening, p1) /\
        parseValue p1 = (Ok condition, p2) /\
        block_lines parseLine p2 instructions closing p' /\
        v = Loop (Branch condition [] [Break None] None :: instructions)
              (Some [opening; closing])).
Proof.
  intros p p' v. split.
  - intros [fuel H]. unfold parseWhile in H.
    apply bind_Ok_inv in H as (opening & p1 & Hopen & H).
    apply bind_Ok_inv in H as (condition & p2 & Hcond & H).
    apply bind_Ok_inv in H as ([instructions toks] & p3 & Hblock & H).
    apply block_sound in Hblock as (lines & closing & Hlines & -> & ->).
    cbv [ret] in H. injection H as <- <-.
    exists opening, condition, lines, closing, p1, p2. auto.
  - intros (opening & condition & instructions & closing & p1 & p2
            & Hopen & Hcond & Hlines & ->).
    exists (S (length instructions)). unfold parseWhile.
    rewrite (bind_Ok _ _ _ _ _ Hopen), (bind_Ok _ _ _ _ _ Hcond).
    erewrite bind_Ok
      by (apply block_complete with (1 := Hlines); apply Nat.lt_succ_diag_r).
    reflexivity.
Qed.

End While.

(** The value parser of [parser.py] returns for no input: the first
    statement of [parseUnaryOperation] evaluates [Tokens.comment], which
    the enumeration of the lexer does not have. *)
Lemma prefix_operations_raises fuel operations (p : t) :
  prefix_operations (S fuel) operations p
  = (Raise (AttributeError "comment"), p).
Proof. reflexivity. Qed.

Section RealValues.

Variable parseSingleValue : P ir.
Variables parseCall parseAttribute parseCast : ir -> P ir.

Lemma parseUnaryOperation_raises fuel (p : t) :
  parseUnaryOperation parseSingleValue parseCall parseAttribute parseCast
    (S fuel) p
  = (Raise (AttributeError "comment"), p).
Proof. reflexivity. Qed.

Lemma parseValue_raises fuel (p : t) :
  parseValue parseSingleValue parseCall parseAttribute parseCast (S fuel) p
  = (Raise (AttributeError "comment"), p).
Proof. reflexivity. Qed.

Lemma parseValue_not_Ok fuel (p : t) value p' :
  parseValue parseSingleValue parseCall parseAttribute parseCast fuel p
  <> (Ok value, p').
Proof.
  destruct fuel as [|fuel]; [discriminate|].
  rewrite parseValue_raises. discriminate.
Qed.

End RealValues.

(** C9. [parseWhile] produces no [Loop]: after the [while] token it
    calls [parseValue], whose [parseUnaryOperation] evaluates
    [Tokens.comment] before it reads anything, and [Tokens] has no such
    member.  Whatever the source, [parseWhile] does not return; when the
    [while] token is there it raises [AttributeError] right after it. *)
Theorem parseWhile_raises_AttributeError :
  forall (parseSingleValue : P ir)
         (parseCall parseAttribute parseCast : ir -> P ir)
         (parseLine : P ir) (fuel fuel' : nat),
    let parseValue :=
      parseValue parseSingleValue parseCall parseAttribute parseCast in
    (forall p : t,
        match fst (parseWhile (parseValue fuel) parseLine fuel' p) with
        | Ok _ => False
        | _ => True
        end) /\
    (forall (p p1 : t) (opening : Token),
        next_asserted "while_kwd" p = (Ok opening, p1) ->
        parseWhile (parseValue (S fuel)) parseLine fuel' p
        = (Raise (AttributeError "comment"), p1)) /\
    fst (parseWhile (parseValue (S fuel)) parseLine fuel'
           (init "while x end"))
    = Raise (AttributeError "comment").
Proof.
  intros parseSingleValue parseCall parseAttribute parseCast parseLine
    fuel fuel' parseValue.
  assert (H2 : forall (p p1 : t) (opening : Token),
             next_asserted "while_kwd" p = (Ok opening, p1) ->
             parseWhile (parseValue (S fuel)) parseLine fuel' p
             = (Raise (AttributeError "comment"), p1)).
  { intros p p1 opening H. unfold parseWhile.
    rewrite (bind_Ok _ _ _ _ _ H). unfold parseValue.
    now rewrite (bind_Raise _ _ _ _ _ (parseValue_raises _ _ _ _ fuel p1)). }
  split; [|split; [exact H2|]].
  - intros p.
    destruct (parseWhile (parseValue fuel) parseLine fuel' p)
      as [[v| |] p'] eqn:H; cbn [fst]; trivial.
    unfold parseWhile in H.
    apply bind_Ok_inv in H as (opening & p1 & _ & H).
    apply bind_Ok_inv in H as (condition & p2 & Hv & _).
    exact (parseValue_not_Ok _ _ _ _ _ _ _ _ Hv).
  - eassert (H : next_asserted "while_kwd" (init "while x end") = (Ok _, _))
      by (vm_compute; reflexivity).
    now rewrite (H2 _ _ _ H).
Qed.

Lemma parseWhile_raises_AttributeError_witness :
  fst (parseWhile
         (parseValue parseBreak (fun value => ret value)
            (fun value => ret value) (fun value => ret value) 1)
         parseBreak 1 (init "while x end"))
  = Raise (AttributeError "comment").
Proof.
  eassert (H : next_asserted "while_kwd" (init "while x end") = (Ok _, _))
    by (vm_compute; reflexivity).
  rewrite (proj1 (proj2 (parseWhile_raises_AttributeError
                           parseBreak (fun value => ret value)
                           (fun value => ret value) (fun value => ret value)
                           parseBreak 0 1)) _ _ _ H).
  reflexivity.
Defined.

(** C10. [parser.py] names two members, [comment] and [equal], that the
    [Tokens] enumeration of [lexer.py] does not have.  On a source that
    starts with a token [parseLine] evaluates [Tokens.comment] and raises
    [AttributeError], which is not the parser's [SyntaxError]. *)
Theorem parser_names_missing_members :
  filter (fun attr => negb (is_member attr)) accessed_members
  = ["comment"; "equal"] /\
  (forall parseValue fuel,
      fst (parseLine parseValue (S fuel) (init "x = 1"))
      = Raise (AttributeError "comment")).
Proof.
  repeat split; intros; vm_compute; reflexivity.
Qed.

(** The look-ahead of [parseLine] for an assignment, were it reached,
    evaluates [Tokens.equal]. *)
Example assignment_ahead_names_equal :
  fst ((lookAhead 1 ;; assignment_ahead (seq 0 6)) (init "x = 1"))
  = Raise (AttributeError "equal").
Proof. vm_compute. reflexivity. Qed.

(** [parseVariable] returns no variable, so that the default-value check
    of [parseMethodArguments], which names [Tokens.equal], is not
    reached: an argument list with an argument ends in the [TypeError]
    of the call of [lekvar.Variable], or in an earlier error. *)
Lemma parseVariable_not_Ok parseValue (p : t) variable p' :
  parseVariable parseValue p <> (Ok variable, p').
Proof.
  intros H. unfold parseVariable in H.
  apply bind_Ok_inv in H as (? & ? & _ & H).
  apply bind_Ok_inv in H as (? & ? & _ & H).
  apply bind_Ok_inv in H as (? & ? & _ & H).
  apply bind_Ok_inv in H as ([? ?] & ? & _ & H).
  apply bind_Ok_inv in H as (? & ? & _ & H).
  apply bind_Ok_inv in H as (? & ? & _ & H).
  apply bind_Ok_inv in H as (? & ? & _ & H).
  discriminate H.
Qed.

Example parseMethodArguments_raises_TypeError parseValue fuel :
  exists message,
    fst (parseMethodArguments parseValue (S fuel) (init "(a)"))
    = Raise (TypeError message).
Proof. eexists. vm_compute. reflexivity. Qed.

(** Whatever the first token is, [parseLine] raises [AttributeError]. *)
Lemma parseLine_raises_on_any_token parseValue fuel p token p' :
  lookAhead 1 p = (Ok (Some token), p') ->
  parseLine parseValue (S fuel) p = (Raise (AttributeError "comment"), p').
Proof.
  intros H. cbn [parseLine]. unfold parseLine_body.
  rewrite (bind_Ok _ _ _ _ _ H). reflexivity.
Qed.


(** *** Looking ahead *)

Lemma nexts_lexed b : forall k l l' tok,
  Lexer.lex l = (Ok tok, l') ->
  fst (nexts k (mk l b)) = fst (nexts k (mk l' (b ++ [tok]))).
Proof.
  induction b as [|t b IH]; intros [|k] l l' tok H; try reflexivity.
  - cbn [nexts app]. unfold bind at 1 3, next at 1 2, bind at 1 3.
    cbn [get tokens]. unfold lex. cbn [lexer tokens]. rewrite H.
    reflexivity.
  - cbn [nexts app]. unfold bind at 1 3, next at 1 2, bind at 1 3.
    cbn [get tokens put bind ret lexer].
    specialize (IH k l l' tok H).
    unfold bind.
    destruct (nexts k (mk l b)) as [[ts| |] p1],
             (nexts k (mk l' (b ++ [tok]))) as [[ts'| |] p2];
      cbn [fst] in IH; try discriminate IH; try reflexivity.
    + injection IH as <-. reflexivity.
    + cbn. congruence.
Qed.

Lemma lookAhead_fill_keeps n : forall p p',
  lookAhead_fill n p = (Ok tt, p') ->
  length (tokens p') = n + length (tokens p) /\
  forall k, fst (nexts k p') = fst (nexts k p).
Proof.
  induction n as [|n IH]; intros p p' H.
  - injection H as <-. auto.
  - cbn [lookAhead_fill] in H.
    apply bind_Ok_inv in H as (tok & p1 & Hlex & H).
    apply bind_Ok_inv in H as ([] & p2 & Hmod & H).
    injection Hmod as <-.
    apply IH in H as [Hlen Hk]. cbn [tokens lexer] in Hlen, Hk.
    unfold lex in Hlex.
    destruct (Lexer.lex (lexer p)) as [r l'] eqn:E.
    injection Hlex as -> <-. cbn [tokens lexer] in Hlen, Hk.
    split.
    + rewrite Hlen, length_app. cbn [length]. lia.
    + intros k. rewrite Hk. symmetry.
      destruct p as [l b]. cbn [lexer tokens] in *.
      now apply nexts_lexed.
Qed.

(** Taking tokens that are in the buffer leaves the lexer alone. *)
Lemma nexts_buffered n : forall l b,
  n <= length b ->
  nexts n (mk l b) = (Ok (firstn n b), mk l (skipn n b)).
Proof.
  induction n as [|n IH]; intros l b H; [reflexivity|].
  destruct b as [|t b]; [inversion H|].
  cbn [nexts firstn skipn]. unfold bind at 1, next, bind at 1.
  cbn [get tokens put bind ret lexer]. unfold bind.
  rewrite IH by (cbn in H; lia). reflexivity.
Qed.

(** X11. When [lookAhead(n)] returns a token, it is the token that the
    [n]-th call of [next] returns, and looking ahead changes nothing of
    what the calls of [next] return, however many follow. *)
Theorem lookAhead_shows_what_next_returns :
  forall (i : nat) (p p' : t) (token : option Token),
    lookAhead (S i) p = (Ok token, p') ->
    (exists taken, fst (nexts (S i) p) = Ok taken /\
                   nth_error taken i = Some token) /\
    forall k, fst (nexts k p') = fst (nexts k p).
Proof.
  intros i p p' token H. unfold lookAhead in H.
  apply bind_Ok_inv in H as (p0 & p1 & Hget & H). injection Hget as <- <-.
  apply bind_Ok_inv in H as ([] & p2 & Hfill & H).
  apply bind_Ok_inv in H as (p3 & p4 & Hget & H). injection Hget as <- <-.
  destruct (nth_error (tokens p2) i) as [tok|] eqn:E; [|discriminate H].
  injection H as <- <-.
  destruct (lookAhead_fill_keeps _ _ _ Hfill) as [Hlen Hk].
  split; [|exact Hk].
  rewrite <- Hk. destruct p2 as [l b]. cbn [tokens] in *.
  assert (Hi : S i <= length b).
  { apply Nat.le_succ_l, nth_error_Some. congruence. }
  rewrite (nexts_buffered (S i) l b Hi). cbn [fst].
  exists (firstn (S i) b). split; [reflexivity|].
  rewrite nth_error_firstn.
  destruct (Nat.ltb_spec i (S i)); [exact E | lia].
Qed.

Lemma lookAhead_shows_what_next_returns_witness :
  (exists taken,
      fst (nexts 2 (init "a b c")) = Ok taken /\
      nth_error taken 1
      = Some (Some (Lexer.mkToken (Some Tokens.identifier) 2 3 (Some "b")))) /\
  forall k, fst (nexts k (snd (lookAhead 2 (init "a b c"))))
            = fst (nexts k (init "a b c")).
Proof.
  apply (lookAhead_shows_what_next_returns 1 (init "a b c")).
  vm_compute. reflexivity.
Defined.

(** *** Binary operations *)

Lemma skipn_length_app {A : Type} (a b : list A) :
  skipn (length a) (a ++ b) = b.
Proof. induction a as [|x a IH]; [reflexivity | exact IH]. Qed.

Lemma firstn_length_app {A : Type} (a b : list A) :
  firstn (length a) (a ++ b) = a.
Proof. induction a as [|x a IH]; cbn; [reflexivity | now rewrite IH]. Qed.

Lemma slice_middle {A : Type} (a b c : list A) (lo hi : nat) :
  lo = length a -> hi = length a + length b ->
  slice lo hi (a ++ b ++ c) = b.
Proof.
  intros -> ->. unfold slice. rewrite skipn_length_app.
  replace (length a + length b - length a) with (length b) by lia.
  apply firstn_length_app.
Qed.

Lemma climbs_le levels lo lo' tree values operations :
  climbs levels lo tree values operations -> lo' <= lo ->
  climbs levels lo' tree values operations.
Proof.
  intros H Hle. destruct H as [lo value | lo k level lhs rhs operation
                                  v1 o1 v2 o2 Hk Hl Hin H1 H2].
  - constructor.
  - apply climbs_call with (k := k) (level := level); auto. lia.
Qed.

(** The second loop folds the operations over the values from the left. *)
Lemma accumulate_fold operation_values : forall operation_operations index lhs,
  length operation_operations <= length (skipn (index + 1) operation_values) ->
  accumulate operation_values index operation_operations lhs
  = Ok (fold_left (fun lhs p => binary_call lhs (fst p) (snd p))
          (combine operation_operations (skipn (index + 1) operation_values))
          lhs).
Proof.
  induction operation_operations as [|o os IH]; intros index lhs H;
    [reflexivity|].
  cbn [accumulate].
  destruct (skipn (index + 1) operation_values) as [|rhs rest] eqn:E;
    [cbn in H; lia|].
  assert (E1 : nth_error operation_values (index + 1) = Some rhs).
  { rewrite <- (firstn_skipn (index + 1) operation_values) at 1.
    rewrite E, nth_error_app2; rewrite length_firstn.
    - assert (index + 1 <= length operation_values).
      { destruct (Nat.le_gt_cases (index + 1) (length operation_values));
          [assumption|].
        rewrite skipn_all2 in E by lia. discriminate E. }
      replace (index + 1 - Nat.min (index + 1) (length operation_values))
        with 0 by lia.
      reflexivity.
    - lia. }
  assert (E2 : skipn (S index + 1) operation_values = rest).
  { replace (S index + 1) with (1 + (index + 1)) by lia.
    rewrite <- skipn_skipn, E. reflexivity. }
  rewrite E1, IH; rewrite E2; [reflexivity | cbn in H; lia].
Qed.

(** A finished segment: its tree, the operation that ended it, its
    operands and its operations. *)
Abbreviation seg_tree s := (fst (fst (fst s))) (only parsing).
Abbreviation seg_op s := (snd (fst (fst s))) (only parsing).
Abbreviation seg_values s := (snd (fst s)) (only parsing).
Abbreviation seg_operations s := (snd s) (only parsing).
Abbreviation all_values segs :=
  (concat (map (fun s => seg_values s) segs)) (only parsing).
Abbreviation all_operations segs :=
  (concat (map (fun s => seg_operations s ++ [seg_op s]) segs))
  (only parsing).

Section Precedence.

Variable levels : list (list Tokens.t).
Variable lo : nat.
Variable level : list Tokens.t.
Variable parse : list ir -> list Token -> result ir.

Hypothesis level_at : nth_error levels lo = Some level.

(** An operation of the level [k] or of a level above it. *)
Abbreviation from k operation :=
  (exists j l, k <= j /\ nth_error levels j = Some l /\
               in_level operation l = true) (only parsing).

Hypothesis parse_climbs : forall values operations,
  length values = S (length operations) ->
  (forall o, In o operations -> from (S lo) o) ->
  exists tree, parse values operations = Ok tree /\
               climbs levels (S lo) tree values operations.

Abbreviation good s :=
  (in_level (seg_op s) level = true /\
   climbs levels (S lo) (seg_tree s) (seg_values s) (seg_operations s))
  (only parsing).

Lemma above_level o :
  from lo o -> in_level o level = false -> from (S lo) o.
Proof.
  intros (j & l & Hj & Hl & Hin) Hn. exists j, l.
  split; [|now split].
  destruct (Nat.eq_dec j lo) as [->|]; [|lia].
  rewrite level_at in Hl. injection Hl as <-. congruence.
Qed.

Lemma split_operations_spec values operations :
  forall rest (segs : list (ir * Token * list ir * list Token))
         pending_values pending rest_values,
  values = all_values segs ++ pending_values ++ rest_values ->
  operations = all_operations segs ++ pending ++ rest ->
  length (all_values segs) = length (all_operations segs) ->
  length pending_values = S (length pending) ->
  length rest_values = length rest ->
  Forall (fun s => good s) segs ->
  (forall o, In o pending -> from (S lo) o) ->
  (forall o, In o rest -> from lo o) ->
  exists (segs' : list (ir * Token * list ir * list Token))
         last_values last_operations,
    split_operations parse level values operations
      (length (all_operations segs) + length pending)
      (length (all_operations segs)) rest
      (map (fun s => seg_tree s) segs) (map (fun s => seg_op s) segs)
    = Ok (map (fun s => seg_tree s) segs', map (fun s => seg_op s) segs',
          length (all_operations segs')) /\
    values = all_values segs' ++ last_values /\
    operations = all_operations segs' ++ last_operations /\
    length (all_values segs') = length (all_operations segs') /\
    length last_values = S (length last_operations) /\
    Forall (fun s => good s) segs' /\
    (forall o, In o last_operations -> from (S lo) o).
Proof.
  induction rest as [|o rest IH];
    intros segs pv p rv Hv Ho Hlen Hp Hr Hg Hpend Hrest.
  - destruct rv; [|discriminate Hr].
    exists segs, pv, p. cbn [split_operations].
    rewrite !app_nil_r in *. repeat split; auto.
  - destruct rv as [|v rv]; [discriminate Hr|]. injection Hr as Hr.
    cbn [split_operations].
    destruct (in_level o level) eqn:Hin.
    + destruct (parse_climbs pv p Hp Hpend) as (tree & Hparse & Hclimbs).
      assert (E1 : slice (length (all_operations segs))
                     (length (all_operations segs) + length p + 1) values
                   = pv)
        by (rewrite Hv; apply slice_middle; lia).
      assert (E2 : slice (length (all_operations segs))
                     (length (all_operations segs) + length p) operations
                   = p)
        by (rewrite Ho; apply slice_middle; lia).
      rewrite E1, E2, Hparse.
      specialize (IH (segs ++ [(tree, o, pv, p)]) [v] [] rv).
      rewrite !map_app, !concat_app in IH. cbn [map concat fst snd] in IH.
      rewrite !app_nil_r, !length_app in IH. cbn [length] in IH.
      replace (S (length (all_operations segs) + length p))
        with (length (all_operations segs) + (length p + 1) + 0) by lia.
      replace (length (all_operations segs) + length p + 1)
        with (length (all_operations segs) + (length p + 1)) by lia.
      apply IH.
      * rewrite Hv, <- !app_assoc. reflexivity.
      * rewrite Ho, <- !app_assoc. reflexivity.
      * lia.
      * reflexivity.
      * exact Hr.
      * apply Forall_app. split; [exact Hg|].
        constructor; [|constructor]. cbn [fst snd]. now split.
      * intros x [].
      * intros x Hx. apply Hrest. now right.
    + specialize (IH segs (pv ++ [v]) (p ++ [o]) rv).
      rewrite !length_app in IH. cbn [length] in IH.
      replace (S (length (all_operations segs) + length p))
        with (length (all_operations segs) + (length p + 1)) by lia.
      apply IH.
      * rewrite Hv, <- !app_assoc. reflexivity.
      * rewrite Ho, <- !app_assoc. reflexivity.
      * exact Hlen.
      * lia.
      * exact Hr.
      * exact Hg.
      * intros x Hx. apply in_app_or in Hx as [Hx | [<- | []]];
          [now apply Hpend|].
        apply above_level; [|exact Hin]. apply Hrest. now left.
      * intros x Hx. apply Hrest. now right.
Qed.

(** The left fold of the second loop over finished segments. *)
Lemma fold_climbs last_tree last_values last_operations :
  climbs levels (S lo) last_tree last_values last_operations ->
  forall (segs : list (ir * Token * list ir * list Token))
         s lhs values operations,
    Forall (fun s => good s) (s :: segs) ->
    climbs levels lo lhs values operations ->
    climbs levels lo
      (fold_left (fun lhs p => binary_call lhs (fst p) (snd p))
         (combine (map (fun s => seg_op s) (s :: segs))
            (map (fun s => seg_tree s) segs ++ [last_tree]))
         lhs)
      (values ++ all_values segs ++ last_values)
      (operations ++ seg_op s :: all_operations segs ++ last_operations).
Proof.
  intros Hlast.
  induction segs as [|s1 segs IH]; intros s lhs values operations Hg Hl.
  - cbn. inversion Hg as [|? ? [Hs _] _]; subst.
    eapply climbs_call; eauto.
  - inversion Hg as [|? ? [Hs _] Hg']; subst.
    inversion Hg' as [|? ? [_ Hs1] _]; subst.
    cbn [map app combine fold_left fst snd concat].
    specialize (IH s1 (binary_call lhs (seg_op s) (seg_tree s1))
                  (values ++ seg_values s1)
                  (operations ++ seg_op s :: seg_operations s1) Hg').
    rewrite <- !app_assoc in IH. cbn [app] in IH.
    rewrite <- !app_assoc. cbn [app]. apply IH.
    eapply climbs_call; eauto.
Qed.

(** One level of [parseBinaryOperation]. *)
Lemma level_climbs values operations :
  length values = S (length operations) ->
  (forall o, In o operations -> from lo o) ->
  exists tree,
    match values with
    | [value] => Ok value
    | _ =>
        match split_operations parse level values operations 0 0
                operations [] [] with
        | Ok (operation_values, operation_operations, previous_index) =>
            match parse (skipn previous_index values)
                    (skipn previous_index operations) with
            | Ok value =>
                match operation_values ++ [value] with
                | [] => Raise (IndexError "list index out of range")
                | lhs :: _ =>
                    accumulate (operation_values ++ [value]) 0
                      operation_operations lhs
                end
            | Raise e => Raise e
            | OutOfFuel => OutOfFuel
            end
        | Raise e => Raise e
        | OutOfFuel => OutOfFuel
        end
    end = Ok tree /\
    climbs levels lo tree values operations.
Proof.
  intros Hlen Hall.
  destruct values as [|v [|v2 vs]]; [discriminate Hlen| |].
  { destruct operations; [|discriminate Hlen].
    exists v. split; [reflexivity | constructor]. }
  cbv iota.
  assert (Hr : length (v2 :: vs) = length operations)
    by (cbn in Hlen; cbn; lia).
  remember (v :: v2 :: vs) as values eqn:Ev.
  destruct (split_operations_spec values operations operations [] [v] []
              (v2 :: vs) Ev eq_refl eq_refl eq_refl Hr
              (Forall_nil _) (fun o (H : In o []) => match H with end) Hall)
    as (segs & lv & lops & Hsplit & Hv & Ho & Hl & Hlast & Hg & Hfrom).
  cbn [map concat length Nat.add] in Hsplit. rewrite Hsplit.
  assert (S1 : skipn (length (all_operations segs)) values = lv)
    by (rewrite Hv at 1; rewrite <- Hl; apply skipn_length_app).
  assert (S2 : skipn (length (all_operations segs)) operations = lops)
    by (rewrite Ho at 1; apply skipn_length_app).
  rewrite S1, S2.
  destruct (parse_climbs lv lops Hlast Hfrom) as (last & Hparse & Hclimbs).
  rewrite Hparse.
  destruct segs as [|s segs].
  - cbn [map concat app] in *. rewrite Hv, Ho. exists last.
    split; [reflexivity|].
    apply climbs_le with (lo := S lo); [exact Hclimbs | lia].
  - cbn [map app]. rewrite accumulate_fold.
    + cbn [Nat.add skipn]. eexists. split; [reflexivity|].
      pose proof (Forall_inv Hg) as [_ Hs].
      pose proof (fold_climbs last lv lops Hclimbs segs s (seg_tree s)
                    (seg_values s) (seg_operations s) Hg
                    (climbs_le _ _ _ _ _ _ Hs (Nat.le_succ_diag_r lo))) as F.
      cbn [map] in F. rewrite Hv, Ho. cbn [map concat].
      rewrite <- !app_assoc. cbn [app]. exact F.
    + cbn [Nat.add skipn length]. rewrite length_app, !length_map.
      cbn [length]. lia.
Qed.

End Precedence.

Lemma parseBinaryOperation_from_climbs all : forall levels lo,
  skipn lo all = levels ->
  forall values operations,
    length values = S (length operations) ->
    (forall o, In o operations ->
       exists j l, lo <= j /\ nth_error all j = Some l /\
                   in_level o l = true) ->
    exists tree,
      parseBinaryOperation_from levels values operations = Ok tree /\
      climbs all lo tree values operations.
Proof.
  induction levels as [|level higher IH]; intros lo Hs values operations
    Hlen Hall.
  - destruct values as [|v [|v2 vs]]; [discriminate Hlen| |].
    + destruct operations; [|discriminate Hlen].
      exists v. split; [reflexivity | constructor].
    + exfalso. destruct operations as [|o os]; [discriminate Hlen|].
      destruct (Hall o (or_introl eq_refl)) as (j & l & Hj & Hl & _).
      assert (length all <= lo).
      { destruct (Nat.le_gt_cases (length all) lo) as [|Hlt]; [assumption|].
        apply (f_equal (@length _)) in Hs. rewrite length_skipn in Hs.
        cbn in Hs. lia. }
      assert (nth_error all j = None) by (apply nth_error_None; lia).
      congruence.
  - assert (Hat : nth_error all lo = Some level).
    { rewrite <- (firstn_skipn lo all), Hs.
      assert (lo <= length all).
      { destruct (Nat.le_gt_cases lo (length all)) as [|Hlt]; [assumption|].
        rewrite skipn_all2 in Hs by lia. discriminate Hs. }
      rewrite nth_error_app2; rewrite length_firstn; [|lia].
      replace (lo - Nat.min lo (length all)) with 0 by lia. reflexivity. }
    assert (Hhigher : skipn (S lo) all = higher).
    { change (S lo) with (1 + lo). rewrite <- skipn_skipn, Hs. reflexivity. }
    destruct (level_climbs all lo level (parseBinaryOperation_from higher)
                Hat (IH (S lo) Hhigher) values operations Hlen Hall)
      as (tree & Htree & Hclimbs).
    exists tree. split; [|exact Hclimbs].
    rewrite <- Htree.
    destruct values as [|v [|v2 vs]]; reflexivity.
Qed.

(** X12. Given operands and the operations between them, all of them
    operations of [BINARY_OPERATIONS], [parseBinaryOperation] returns a
    tree that keeps operands and operations in their order and respects
    precedence: comparisons bind least, then additions and subtractions,
    then multiplications and divisions, and operations of one level
    associate to the left. *)
Theorem parseBinaryOperation_by_precedence :
  forall (values : list ir) (operations : list Token),
    length values = S (length operations) ->
    (forall o, In o operations ->
       exists level, In level BINARY_OPERATIONS /\ in_level o level = true) ->
    exists tree,
      parseBinaryOperation values operations = Ok tree /\
      climbs BINARY_OPERATIONS 0 tree values operations.
Proof.
  intros values operations Hlen Hall.
  apply (parseBinaryOperation_from_climbs BINARY_OPERATIONS
           BINARY_OPERATIONS 0 eq_refl values operations Hlen).
  intros o Ho. destruct (Hall o Ho) as (level & Hin & Hl).
  apply In_nth_error in Hin as [j Hj].
  exists j, level. split; [lia | now split].
Qed.

Lemma parseBinaryOperation_by_precedence_witness :
  exists tree,
    parseBinaryOperation
      [Reference (Some "a") None; Reference (Some "b") None;
       Reference (Some "c") None]
      [Lexer.mkToken (Some Tokens.addition) 2 3 (Some "+");
       Lexer.mkToken (Some Tokens.multiplication) 6 7 (Some "*")]
    = Ok tree /\
    climbs BINARY_OPERATIONS 0 tree
      [Reference (Some "a") None; Reference (Some "b") None;
       Reference (Some "c") None]
      [Lexer.mkToken (Some Tokens.addition) 2 3 (Some "+");
       Lexer.mkToken (Some Tokens.multiplication) 6 7 (Some "*")].
Proof.
  apply parseBinaryOperation_by_precedence; [reflexivity|].
  intros o [<- | [<- | []]].
  - exists [Tokens.addition; Tokens.subtraction].
    split; [right; left; reflexivity | reflexivity].
  - exists [Tokens.multiplication; Tokens.division; Tokens.integer_division].
    split; [right; right; left; reflexivity | reflexivity].
Defined.

(** In [a + b * c] the multiplication is the right operand of the
    addition, and in [a * b + c] the left one. *)
Example multiplication_binds_tighter a b c plus times :
  Lexer.type plus = Some Tokens.addition ->
  Lexer.type times = Some Tokens.multiplication ->
  parseBinaryOperation [a; b; c] [plus; times]
  = Ok (binary_call a plus (binary_call b times c)) /\
  parseBinaryOperation [a; b; c] [times; plus]
  = Ok (binary_call (binary_call a times b) plus c).
Proof.
  destruct plus as [? ? ? ?], times as [? ? ? ?]. cbn [Lexer.type].
  intros -> ->. split; vm_compute; reflexivity.
Qed.

(** *** Lines and branches *)

(** X22. [parseLine] returns only at the end of the input, and then
    [None]: on a token it evaluates [Tokens.comment], which the
    enumeration of the lexer does not have, before it looks at the kind
    of the token, so that no statement is ever returned. *)
Theorem parseLine_returns_no_statement :
  forall (parseValue : P ir) (fuel : nat) (p p' : t) (v : ir),
    parseLine parseValue fuel p = (Ok v, p') ->
    v = PyNone /\ lookAhead 1 p = (Ok None, p').
Proof.
  intros parseValue [|fuel] p p' v H; [discriminate H|].
  cbn [parseLine] in H. unfold parseLine_body in H.
  apply bind_Ok_inv in H as (token & p1 & Hla & H).
  destruct token as [token|]; [discriminate H|].
  cbv [ret] in H. injection H as <- <-. split; [reflexivity | exact Hla].
Qed.

Lemma parseLine_returns_no_statement_witness :
  exists p',
    parseLine parseReference 1 (init " ") = (Ok PyNone, p') /\
    lookAhead 1 (init " ") = (Ok None, p').
Proof.
  eassert (H : parseLine parseReference 1 (init " ") = (Ok PyNone, _))
    by (vm_compute; reflexivity).
  eexists. split; [exact H|].
  exact (proj2 (parseLine_returns_no_statement _ _ _ _ _ H)).
Defined.

(** X23. [parseBranch] and [parseReturn] return for no source: each
    calls [parseValue] right after its keyword, and [parseValue] raises
    [AttributeError] at [Tokens.comment]; the [except SyntaxError] of
    [parseReturn] does not catch it.  The parser is left after the
    keyword. *)
Theorem parseBranch_and_parseReturn_raise :
  forall (parseSingleValue : P ir)
         (parseCall parseAttribute parseCast : ir -> P ir)
         (parseLine : P ir) (fuel fuel' : nat),
    let parseValue :=
      parseValue parseSingleValue parseCall parseAttribute parseCast in
    (forall (p p1 : t) (opening : Token),
        next_asserted "if_kwd" p = (Ok opening, p1) ->
        parseBranch (parseValue (S fuel)) parseLine fuel' p
        = (Raise (AttributeError "comment"), p1)) /\
    (forall (p p1 : t) (opening : Token),
        next_asserted "return_kwd" p = (Ok opening, p1) ->
        parseReturn (parseValue (S fuel)) p
        = (Raise (AttributeError "comment"), p1)) /\
    (forall p : t,
        match fst (parseBranch (parseValue fuel) parseLine fuel' p) with
        | Ok _ => False
        | _ => True
        end) /\
    (forall p : t,
        match fst (parseReturn (parseValue fuel) p) with
        | Ok _ => False
        | _ => True
        end).
Proof.
  intros parseSingleValue parseCall parseAttribute parseCast parseLine
    fuel fuel' parseValue.
  split; [|split; [|split]].
  - intros p p1 opening H. unfold parseBranch.
    rewrite (bind_Ok _ _ _ _ _ H). unfold parseValue.
    now rewrite (bind_Raise _ _ _ _ _ (parseValue_raises _ _ _ _ fuel p1)).
  - intros p p1 opening H. unfold parseReturn.
    rewrite (bind_Ok _ _ _ _ _ H). unfold parseValue, try_except, bind.
    now rewrite parseValue_raises.
  - intros p.
    destruct (parseBranch (parseValue fuel) parseLine fuel' p)
      as [[v| |] p'] eqn:H; cbn [fst]; trivial.
    unfold parseBranch in H.
    apply bind_Ok_inv in H as (opening & p1 & _ & H).
    apply bind_Ok_inv in H as (condition & p2 & Hv & _).
    exact (parseValue_not_Ok _ _ _ _ _ _ _ _ Hv).
  - intros p.
    destruct (parseReturn (parseValue fuel) p) as [[v| |] p'] eqn:H;
      cbn [fst]; trivial.
    unfold parseReturn in H.
    apply bind_Ok_inv in H as (opening & p1 & _ & H).
    apply bind_Ok_inv in H as (value & p2 & Hv & _).
    unfold try_except in Hv.
    destruct fuel as [|fuel]; [discriminate Hv|].
    unfold parseValue in Hv. rewrite parseValue_raises in Hv.
    discriminate Hv.
Qed.

Lemma parseBranch_and_parseReturn_raise_witness :
  fst (parseBranch (parseValue parseReference (fun _ => parseBreak)
                      (fun _ => parseBreak) (fun _ => parseBreak) 1)
         parseBreak 2 (init "if x break end"))
  = Raise (AttributeError "comment") /\
  fst (parseReturn (parseValue parseReference (fun _ => parseBreak)
                      (fun _ => parseBreak) (fun _ => parseBreak) 1)
         (init "return x"))
  = Raise (AttributeError "comment").
Proof.
  destruct (parseBranch_and_parseReturn_raise parseReference
              (fun _ => parseBreak) (fun _ => parseBreak)
              (fun _ => parseBreak) parseBreak 0 2) as (H1 & H2 & _).
  split.
  - eassert (H : next_asserted "if_kwd" (init "if x break end") = (Ok _, _))
      by (vm_compute; reflexivity).
    now rewrite (H1 _ _ _ H).
  - eassert (H : next_asserted "return_kwd" (init "return x") = (Ok _, _))
      by (vm_compute; reflexivity).
    now rewrite (H2 _ _ _ H).
Defined.

End ParserFacts.

(* ------------------------------------------------------------------ *)
(** ** Verifier *)
(* ------------------------------------------------------------------ *)

Module LekvarFacts.
Import Lekvar.

(** *** The store *)

Lemma load_Ok w r o : nth_error (heap w) r = Some o -> load r w = (Ok o, w).
Proof. intros H. unfold load. now rewrite H. Qed.

Lemma load_Ok_inv w r o w' :
  load r w = (Ok o, w') -> nth_error (heap w) r = Some o /\ w' = w.
Proof.
  unfold load. destruct (nth_error (heap w) r); intros H; inversion H; auto.
Qed.

Lemma attr_Ok {A : Type} attr_name (field : object -> option A) w r o a :
  nth_error (heap w) r = Some o -> field o = Some a ->
  attr attr_name field (Some r) w = (Ok a, w).
Proof.
  intros Ho Hf. unfold attr.
  rewrite (bind_Ok _ _ _ _ _ (load_Ok _ _ _ Ho)). now rewrite Hf.
Qed.

Lemma attr_Ok_inv {A : Type} attr_name (field : object -> option A) w x a w' :
  attr attr_name field x w = (Ok a, w') ->
  exists r o, x = Some r /\ nth_error (heap w) r = Some o /\
              field o = Some a /\ w' = w.
Proof.
  unfold attr. destruct x as [r|]; [|discriminate].
  intros H. apply bind_Ok_inv in H as (o & w1 & Hl & H).
  apply load_Ok_inv in Hl as [Ho ->].
  destruct (field o) as [a'|] eqn:Hf; [|discriminate].
  injection H as <- <-. exists r, o. auto.
Qed.

Lemma isinstance_true C w r :
  instance_of C w r -> isinstance C (Some r) w = (Ok true, w).
Proof.
  intros (o & Ho & HC). unfold isinstance.
  rewrite (bind_Ok _ _ _ _ _ (load_Ok _ _ _ Ho)). cbn. now rewrite HC.
Qed.

Lemma isinstance_false C w r :
  not_instance_of C w r -> isinstance C (Some r) w = (Ok false, w).
Proof.
  intros (o & Ho & HC). unfold isinstance.
  rewrite (bind_Ok _ _ _ _ _ (load_Ok _ _ _ Ho)). cbn. now rewrite HC.
Qed.

Lemma isinstance_is C w r :
  r < length (heap w) ->
  isinstance C (Some r) w = (Ok (is_instance C w r), w).
Proof.
  intros Hr. unfold isinstance, is_instance.
  destruct (nth_error (heap w) r) as [o|] eqn:E.
  - rewrite (bind_Ok _ _ _ _ _ (load_Ok _ _ _ E)). reflexivity.
  - apply nth_error_None in E. lia.
Qed.

Lemma nth_error_replace_same r f h o :
  nth_error h r = Some o -> nth_error (replace r f h) r = Some (f o).
Proof.
  revert r. induction h as [|x h IH]; intros [|r]; cbn; try discriminate.
  - now intros [= ->].
  - apply IH.
Qed.

Lemma nth_error_replace_other r f h i :
  i <> r -> nth_error (replace r f h) i = nth_error h i.
Proof.
  revert r i. induction h as [|x h IH]; intros [|r] [|i] Hne; cbn;
    try reflexivity; try congruence.
  apply IH. congruence.
Qed.

(** *** Scoped acquisition *)

(** When the body of [with State.scoped(scope_)] completes, the scope and
    the soft-scope stack of before are back. *)
Lemma State_scoped_returns {A : Type} (scope_ : ref) (body : V A) w a w2 :
  body (mkWorld (heap w) (mkState (builtins (state w)) (Some scope_) (Some [])))
  = (Ok a, w2) ->
  State_scoped scope_ body w
  = (Ok a, mkWorld (heap w2)
             (mkState (builtins (state w2)) (scope (state w))
                (soft_scope_stack (state w)))).
Proof.
  intros H. unfold State_scoped, bind, get_state, put_state, modify, ret.
  cbn. rewrite H. reflexivity.
Qed.

(** When the body raises, the state is what the body left. *)
Lemma State_scoped_raises {A : Type} (scope_ : ref) (body : V A) w e w2 :
  body (mkWorld (heap w) (mkState (builtins (state w)) (Some scope_) (Some [])))
  = (Raise e, w2) ->
  State_scoped scope_ body w = (Raise e, w2).
Proof.
  intros H. unfold State_scoped, bind, get_state, put_state, modify, ret.
  cbn. rewrite H. reflexivity.
Qed.

Lemma State_softScoped_returns {A : Type} (scope_ : ref) (body : V A)
  w stack a w2 :
  soft_scope_stack (state w) = Some stack ->
  body (mkWorld (heap w)
          (mkState (builtins (state w)) (scope (state w))
             (Some (stack ++ [scope_]))))
  = (Ok a, w2) ->
  soft_scope_stack (state w2) = Some (stack ++ [scope_]) ->
  State_softScoped scope_ body w
  = (Ok a, mkWorld (heap w2)
             (mkState (builtins (state w2)) (scope (state w2)) (Some stack))).
Proof.
  intros Hs H H2.
  unfold State_softScoped, bind, get_state, put_state, modify, ret, raise.
  cbn. rewrite Hs. cbn. rewrite H. cbn. rewrite H2.
  destruct (stack ++ [scope_]) eqn:E.
  - destruct stack; discriminate E.
  - rewrite <- E, removelast_last. reflexivity.
Qed.

Lemma State_softScoped_raises {A : Type} (scope_ : ref) (body : V A)
  w stack e w2 :
  soft_scope_stack (state w) = Some stack ->
  body (mkWorld (heap w)
          (mkState (builtins (state w)) (scope (state w))
             (Some (stack ++ [scope_]))))
  = (Raise e, w2) ->
  State_softScoped scope_ body w = (Raise e, w2).
Proof.
  intros Hs H.
  unfold State_softScoped, bind, get_state, put_state, modify, ret, raise.
  cbn. rewrite Hs. cbn. rewrite H. reflexivity.
Qed.

(** C6. In the program
    [def g(x) h(x) end  def g(y:String) end] the call of [g] with a
    [String], resolved in the scope of the main function, tries the
    first overload: its copy fails to verify with a [TypeError] raised
    under [State.scoped], [Method.resolveCall] catches the error and
    returns the second overload.  After the call [State.scope] is not the
    main function any more: the scope of before was not restored when the
    error left the scoped region.  (With an [Int] nothing raises and the
    scope is the main function again.) *)
Theorem State_scoped_not_restored_when_body_raises :
  outcome (p <- program_overloads ;;
           let g := object_ p 0 in
           let g1 := object_ p 2 in
           verify_program 40 p ;;
           r <- call_with 40 (main p) g "String" ;;
           let '(chosen, scope_after) := r in
           ret (Nat.eqb chosen g1, is_ scope_after (Some (main p))))
  = Ok (true, false) /\
  outcome (p <- program_overloads ;;
           let g := object_ p 0 in
           verify_program 40 p ;;
           r <- call_with 40 (main p) g "Int" ;;
           ret (is_ (snd r) (Some (main p))))
  = Ok true.
Proof. split; vm_compute; reflexivity. Qed.

(** *** Break *)

(** [_getSoftScope] walks the stack from its bottom, the outermost soft
    scope, and returns the first [Loop] it meets. *)
Lemma _getSoftScope_outermost w below loop above :
  Forall (not_instance_of isinstance_Loop w) below ->
  instance_of isinstance_Loop w loop ->
  _getSoftScope_loop (below ++ loop :: above) w = (Ok (Some loop), w).
Proof.
  intros Hbelow Hloop. induction Hbelow as [|x below Hx _ IH]; cbn.
  - rewrite (bind_Ok _ _ _ _ _ (isinstance_true _ _ _ Hloop)). reflexivity.
  - rewrite (bind_Ok _ _ _ _ _ (isinstance_false _ _ _ Hx)). exact IH.
Qed.

Lemma _getSoftScope_none w stack :
  Forall (not_instance_of isinstance_Loop w) stack ->
  _getSoftScope_loop stack w = (Ok None, w).
Proof.
  induction 1 as [|x stack Hx _ IH]; cbn; [reflexivity|].
  rewrite (bind_Ok _ _ _ _ _ (isinstance_false _ _ _ Hx)). exact IH.
Qed.

Lemma _getSoftScope_Some w stack :
  soft_scope_stack (state w) = Some stack ->
  _getSoftScope w = _getSoftScope_loop stack w.
Proof.
  intros Hs. unfold _getSoftScope.
  rewrite (bind_Ok get_state _ w (state w) w eq_refl). now rewrite Hs.
Qed.

(** X19. A [Break] verified where no [Loop] is on the soft-scope stack
    raises [SyntaxError], after its [loop] attribute has been set to
    [None]. *)
Lemma Break_verify_outside_loop w self stack :
  soft_scope_stack (state w) = Some stack ->
  Forall (not_instance_of isinstance_Loop w) stack ->
  fst (Break_verify self w) = Raise (SyntaxError "Cannot break outside loop").
Proof.
  intros Hs Hstack. unfold Break_verify.
  erewrite bind_Ok
    by (rewrite (_getSoftScope_Some _ _ Hs); apply _getSoftScope_none, Hstack).
  reflexivity.
Qed.

(** X18. A [Break] verified where loops are on the stack is bound to
    the one nearest the bottom of the stack, that is the outermost, and
    nothing else in the store or the state changes. *)
Lemma Break_verify_inside_loops w self below loop above :
  soft_scope_stack (state w) = Some (below ++ loop :: above) ->
  Forall (not_instance_of isinstance_Loop w) below ->
  instance_of isinstance_Loop w loop ->
  Break_verify self w
  = (Ok tt,
     mkWorld (replace self (fun o => match o with
                                     | Break _ => Break (Some loop)
                                     | o => o
                                     end) (heap w)) (state w)).
Proof.
  intros Hs Hbelow Hloop. unfold Break_verify.
  erewrite bind_Ok
    by (rewrite (_getSoftScope_Some _ _ Hs);
        apply _getSoftScope_outermost; assumption).
  reflexivity.
Qed.

(** C5. In [def f() loop loop break end end end] the outer loop encloses
    the inner loop and the inner loop encloses the [Break]; after the
    verification of the module the [loop] attribute of the [Break] is the
    outer loop, not the inner one. *)
Theorem Break_binds_to_outermost_loop :
  outcome (p <- program_nested_loops ;;
           let outer := object_ p 0 in
           let inner := object_ p 1 in
           let break := object_ p 2 in
           encloses_inner <- loop_of outer inner ;;
           encloses_break <- loop_of inner break ;;
           verify_program 40 p ;;
           to_inner <- bound_to break inner ;;
           to_outer <- bound_to break outer ;;
           ret (encloses_inner, encloses_break, to_inner, to_outer))
  = Ok (true, true, false, true).
Proof. vm_compute. reflexivity. Qed.

(** *** Return-path coverage *)

Lemma any_Return_top_level w instructions :
  Forall (fun r => r < length (heap w)) instructions ->
  any_Return instructions w
  = (Ok (existsb (is_instance isinstance_Return w) instructions), w).
Proof.
  induction 1 as [|r rest Hr _ IH]; cbn [any_Return existsb]; [reflexivity|].
  rewrite (bind_Ok _ _ _ _ _ (isinstance_is _ _ _ Hr)).
  destruct (is_instance isinstance_Return w r); [reflexivity | exact IH].
Qed.

(** X20. [Function.verifySelf] of [lekvar.py] raises exactly when the
    function has a return type and none of the instructions of its body
    is itself a [Return]; what the instructions contain is not looked
    at, and the store is left as it is. *)
Lemma Function_verifySelf_top_level w self b k l c arguments instructions
  ft verified fb fargs return_type fverified :
  nth_error (heap w) self
  = Some (Function_ b k l c arguments instructions (Some ft) verified) ->
  nth_error (heap w) ft
  = Some (FunctionType fb fargs return_type fverified) ->
  Forall (fun r => r < length (heap w)) instructions ->
  Function_verifySelf self w
  = (if existsb (is_instance isinstance_Return w) instructions then Ok tt
     else match return_type with
          | Some _ => Raise (SemanticError "All code paths must return")
          | None => Ok tt
          end, w).
Proof.
  intros Hself Hft Hall. unfold Function_verifySelf.
  rewrite (bind_Ok _ _ _ _ _ (attr_Ok _ get_instructions _ _ _ _ Hself eq_refl)).
  rewrite (bind_Ok _ _ _ _ _ (any_Return_top_level _ _ Hall)).
  destruct (existsb _ _); cbn [negb]; [reflexivity|].
  rewrite (bind_Ok _ _ _ _ _ (attr_Ok _ get_type _ _ _ _ Hself eq_refl)).
  rewrite (bind_Ok _ _ _ _ _ (attr_Ok _ get_return_type _ _ _ _ Hft eq_refl)).
  destruct return_type; reflexivity.
Qed.

(** [Function.verifySelf] of [function.py] raises exactly when the
    function has a return type and the flag is clear, and [Return.verify]
    there sets the flag. *)
Lemma Split_Function_verifySelf_flag (other : Type)
  (return_type : option (Split.type other)) (s : Split.SoftScopeState) :
  (Split.Function_verifySelf other return_type s
   = Raise (SemanticError "All code paths must return")
   <-> return_type <> None /\ Split.definately_returns s = false) /\
  Split.definately_returns (Split.Return_update s) = true.
Proof.
  split; [|reflexivity].
  unfold Split.Function_verifySelf.
  destruct return_type as [t|], (Split.definately_returns s); cbn;
    split; try (intros [? ?]); try discriminate; try congruence; auto.
  intros _. split; [discriminate | reflexivity].
Qed.

(** C1. In [def f(b:Bool) -> Int  if b return 1 else return 2 end  end]
    the body is one [Branch] and each of its arms is a [Return], yet the
    verification of [lekvar.py] raises "All code paths must return", as
    it does for the single-armed
    [def f(b:Bool) -> Int  if b return 1 end  end]. *)
Theorem Branch_with_a_Return_in_each_arm_is_rejected :
  outcome (p <- program_branch_returns ;;
           body_is_branch_of_returns (object_ p 0) (object_ p 1)) = Ok true /\
  outcome (p <- program_branch_returns ;; verify_program 40 p)
  = Raise (SemanticError "All code paths must return") /\
  outcome (p <- program_single_armed_branch ;; verify_program 40 p)
  = Raise (SemanticError "All code paths must return").
Proof. repeat split; vm_compute; reflexivity. Qed.

(** *** Compatibility of function types *)

Section SplitTypes.

Variable other : Type.
Variable other_check : other -> Split.type other -> result bool.
Variable resolve : other -> Split.type other.

Abbreviation check := (Split.checkCompatibility other other_check resolve).

(** [FunctionType.checkCompatibility] of [function.py] against a
    function type: arities, arguments pairwise, and the return types when
    the other side has one. *)
Lemma Split_checkCompatibility_true arguments return_type
  other_arguments other_return_type :
  check (Split.FunctionType other arguments return_type)
        (Split.FunctionType other other_arguments other_return_type)
  = Ok true
  <-> length arguments = length other_arguments /\
      Forall2 (fun a b => check a b = Ok true) arguments other_arguments /\
      match other_return_type with
      | None => True
      | Some r2 => exists r1, return_type = Some r1 /\ check r1 r2 = Ok true
      end.
Proof.
  cbn [Split.checkCompatibility Split.resolveValue].
  destruct (Nat.eqb (length arguments) (length other_arguments)) eqn:Hlen;
    cbn [negb].
  2:{ apply Nat.eqb_neq in Hlen. split; [discriminate | tauto]. }
  apply Nat.eqb_eq in Hlen.
  match goal with
  | |- context [match ?L arguments other_arguments with _ => _ end] =>
      set (loop := L)
  end.
  assert (Hloop : forall xs ys, length xs = length ys ->
            (loop xs ys = Ok true
             <-> Forall2 (fun a b => check a b = Ok true) xs ys)).
  { induction xs as [|x xs IH]; intros [|y ys] Hl; try discriminate Hl.
    - cbn. split; auto.
    - injection Hl as Hl. cbn.
      destruct (check x y) as [[|]| |] eqn:E.
      + rewrite (IH ys Hl). split.
        * intros H. constructor; assumption.
        * intros H. inversion H; assumption.
      + split; [discriminate|]. intros H. inversion H; congruence.
      + split; [discriminate|]. intros H. inversion H; congruence.
      + split; [discriminate|]. intros H. inversion H; congruence. }
  specialize (Hloop arguments other_arguments Hlen).
  destruct (loop arguments other_arguments) as [[|]| |] eqn:E.
  - destruct other_return_type as [r2|].
    + destruct return_type as [r1|].
      * split.
        -- intros H. split; [assumption|]. split; [apply Hloop; reflexivity|].
           exists r1; auto.
        -- intros (_ & _ & r1' & Hr & H). now injection Hr as <-.
      * split; [discriminate|]. intros (_ & _ & r1 & Hr & _). discriminate.
    + split; [|reflexivity]. intros _. split; [assumption|].
      split; [apply Hloop; reflexivity | exact I].
  - split; [discriminate|]. intros (_ & H & _). apply Hloop in H. discriminate.
  - split; [discriminate|]. intros (_ & H & _). apply Hloop in H. discriminate.
  - split; [discriminate|]. intros (_ & H & _). apply Hloop in H. discriminate.
Qed.

(** [Function.resolveCall] of [function.py] returns the function it was
    called on, dependent or not: it makes no copy. *)
Lemma Split_Function_resolveCall_returns_self (F : Type) (self r : F)
  self_type dependent resolve_dependencies call :
  Split.Function_resolveCall other other_check resolve self self_type
    dependent resolve_dependencies call = Ok r ->
  r = self.
Proof.
  unfold Split.Function_resolveCall.
  destruct (Split.util_checkCompatibility _ _ _ _ _) as [[|]| |];
    try discriminate.
  destruct dependent; [destruct (resolve_dependencies call)|];
    intros H; inversion H; reflexivity.
Qed.

End SplitTypes.

(** C4. For classes [A], [B], [C] and a [DependentType] [D] without
    target, [B] and [C] are compatible in neither direction, yet
    [FunctionType.checkCompatibility] of [lekvar.py] accepts [((A, B))]
    against [((D, C))]: its loop returns at the first pair.  For classes
    [A] and [B], incompatible in both directions, it accepts [(() -> A)]
    against [(() -> B)]: it never compares return types. *)
Theorem FunctionType_checkCompatibility_skips_arguments_and_returns :
  outcome (p <- program_signatures ;; compare_signatures p)
  = Ok (false, false, true) /\
  outcome (p <- program_return_signatures ;; compare_signatures p)
  = Ok (false, false, true).
Proof. split; vm_compute; reflexivity. Qed.

(** *** Overload resolution *)

Lemma collect_matches_tried resolve overloads w matches w1 :
  tried resolve overloads w matches w1 ->
  forall found,
    collect_matches resolve overloads found w = (Ok (found ++ matches), w1).
Proof.
  induction 1 as [w | overload rest w x w1 matches w2 Hx _ IH
                    | overload rest w message w1 matches w2 Hx _ IH];
    intros found; cbn [collect_matches].
  - now rewrite app_nil_r.
  - unfold bind at 1, try_except. rewrite (bind_Ok _ _ _ _ _ Hx). cbn.
    rewrite IH, <- app_assoc. reflexivity.
  - unfold bind at 1, try_except. rewrite (bind_Raise _ _ _ _ _ Hx). cbn.
    apply IH.
Qed.

(** The overloads of [def g(x:Int) end  def g(x:Int) end], merged by
    [assimilate], are numbered in the order of their declaration. *)
Example overloads_numbered_in_declaration_order :
  outcome (p <- program_ambiguous ;;
           c <- attr "overload_context" get_overload_context (Some (object_ p 0)) ;;
           children <- attr "children" get_children c ;;
           ret (map fst children,
                map (Nat.eqb (object_ p 1)) (map snd children),
                map (Nat.eqb (object_ p 2)) (map snd children)))
  = Ok ([Some "0"; Some "1"], [true; false], [false; true]).
Proof. vm_compute. reflexivity. Qed.




(** *** Constructors *)

Lemma Constructor_verifySelf_loop w instructions :
  Forall (fun r => r < length (heap w)) instructions ->
  for_each instructions (fun instruction =>
    b <- isinstance isinstance_Return (Some instruction) ;;
    if b then raise (SyntaxError "Returns within constructors are invalid")
    else ret tt) w
  = (if existsb (is_instance isinstance_Return w) instructions
     then Raise (SyntaxError "Returns within constructors are invalid")
     else Ok tt, w).
Proof.
  induction 1 as [|r rest Hr _ IH]; cbn [for_each existsb]; [reflexivity|].
  unfold bind at 1. rewrite (bind_Ok _ _ _ _ _ (isinstance_is _ _ _ Hr)).
  destruct (is_instance isinstance_Return w r); cbn; [reflexivity | exact IH].
Qed.


(** In [class Pair  new(x:Int) end  end] the class is the return type of
    the type of the function the parser made for [new]; the type of the
    [Constructor] made from it has no return type as long as no call of
    the class has been resolved.  A function with a declared return type
    cannot be made a constructor. *)
Example constructor_return_types :
  outcome (p <- program_constructor ;;
           let c := object_ p 0 in
           let k := object_ p 1 in
           let new := object_ p 2 in
           of_constructor <- return_type_of k ;;
           of_function <- return_type_of new ;;
           ret (of_constructor, is_ of_function (Some c)))
  = Ok (None, true) /\
  outcome program_constructor_typed
  = Raise (TypeError "Constructors must return nothing").
Proof. split; vm_compute; reflexivity. Qed.

Lemma nth_error_replace_at r f h :
  nth_error (replace r f h) r = option_map f (nth_error h r).
Proof.
  revert r. induction h as [|x h IH]; intros [|r]; cbn; try reflexivity.
  apply IH.
Qed.

(** [Class.resolveCall]: the function it returns has the class as the
    return type of its type. *)
Lemma Class_resolveCall_return_type n cls call w bcl constructor ic vcl
  function w' rt :
  nth_error (heap w) cls = Some (Class_ bcl (Some constructor) ic vcl) ->
  resolveCall (S n) (Some cls) call w = (Ok function, w') ->
  return_type_of function w' = (Ok rt, w') ->
  return_type_of function w' = (Ok (Some cls), w').
Proof.
  intros Hc H Hr. rewrite Hr. f_equal. f_equal.
  cbn [resolveCall] in H.
  rewrite (bind_Ok _ _ _ _ _ (load_Ok _ _ _ Hc)) in H.
  apply bind_Ok_inv in H as (fn & w1 & _ & H).
  apply bind_Ok_inv in H as (t & w2 & Ht & H).
  apply attr_Ok_inv in Ht as (f & o & [= <-] & Ho & Ht & ->).
  destruct t as [ft|]; [|discriminate H].
  apply bind_Ok_inv in H as ([] & w3 & Hset & H).
  injection H as <- <-.
  cbv [set_return_type update modify] in Hset. injection Hset as <-.
  unfold return_type_of in Hr.
  apply bind_Ok_inv in Hr as (t' & w4 & Ht' & Hr).
  apply attr_Ok_inv in Ht' as (f' & o' & [= <-] & Ho' & Ht' & ->).
  cbn [heap] in Ho'.
  assert (Ht2 : t' = Some ft).
  { destruct (Nat.eq_dec fn ft) as [->|Hne].
    - rewrite nth_error_replace_at, Ho in Ho'. cbn [option_map] in Ho'.
      injection Ho' as <-.
      destruct o; cbn in Ht; try discriminate Ht; cbn in Ht'; congruence.
    - rewrite nth_error_replace_other in Ho' by exact Hne.
      rewrite Ho in Ho'. injection Ho' as <-. congruence. }
  subst t'.
  apply attr_Ok_inv in Hr as (f'' & o'' & [= <-] & Ho'' & Hr & _).
  cbn [heap] in Ho''. rewrite nth_error_replace_at in Ho''.
  destruct (nth_error (heap w1) ft) as [oft|]; [|discriminate Ho''].
  cbn in Ho''. injection Ho'' as <-.
  destruct oft; cbn in Hr; try discriminate Hr.
  injection Hr as <-. reflexivity.
Qed.



(** *** Specialization of dependent functions *)

(** In [def h(z:Int) end  def f(x) h(x) end] the function [f] verifies,
    is dependent with no target, and its type is compatible with a call
    with an [Int]; still [resolveCall] does not return a copy: the copy
    does not verify, because [h] is not in its scope. *)
Lemma specialization_can_fail :
  outcome (p <- program_generic_caller ;;
           let f := object_ p 0 in
           verify_program 40 p ;;
           d <- dependent_and_unresolved f ;;
           c <- compatible_with 40 (main p) f "Int" ;;
           r <- attempt (call_with 40 (main p) f "Int") ;;
           ret (d, c, r))
  = Ok (true, true, Raise (MissingReferenceError "No reference")).
Proof. vm_compute. reflexivity. Qed.

(** [def id(x) return x end] called with an [Int] and with a [String]:
    two distinct copies, specialized to [Int] and to [String], and [id]
    itself still dependent without target. *)
Example generic_function_specialized_twice :
  outcome (p <- program_generic ;;
           let f := object_ p 0 in
           let m := object_ p 1 in
           verify_program 40 p ;;
           r1 <- call_with 40 (main p) m "Int" ;;
           r2 <- call_with 40 (main p) m "String" ;;
           s1 <- specialized_to (fst r1) (object_ p 2) ;;
           s2 <- specialized_to (fst r2) (object_ p 3) ;;
           d <- dependent_and_unresolved f ;;
           ret (s1, s2, d,
                negb (Nat.eqb (fst r1) (fst r2)),
                negb (Nat.eqb (fst r1) f), negb (Nat.eqb (fst r2) f)))
  = Ok (true, true, true, true, true, true).
Proof. vm_compute. reflexivity. Qed.


(** *** Frames *)

Lemma kept_refl o : kept o o.
Proof. split; reflexivity. Qed.

Lemma kept_trans o1 o2 o3 : kept o1 o2 -> kept o2 o3 -> kept o1 o3.
Proof. intros [? ?] [? ?]; split; congruence. Qed.

Lemma settled_refl o : settled o o.
Proof. repeat split; auto. Qed.

Lemma settled_trans o1 o2 o3 : settled o1 o2 -> settled o2 o3 -> settled o1 o3.
Proof.
  intros (? & ? & ? & ? & ?) (? & ? & ? & ? & ?).
  repeat split; try congruence; auto.
Qed.

Lemma extends_refl N w : extends N w w.
Proof.
  split; [lia|]. intros r o Ho. exists o.
  auto using kept_refl, settled_refl.
Qed.

Lemma extends_trans N w1 w2 w3 :
  extends N w1 w2 -> extends N w2 w3 -> extends N w1 w3.
Proof.
  intros [L1 H1] [L2 H2]. split; [lia|]. intros r o Ho.
  destruct (H1 r o Ho) as (o2 & Ho2 & K1 & S1).
  destruct (H2 r o2 Ho2) as (o3 & Ho3 & K2 & S2).
  exists o3. split; [exact Ho3|]. split; [exact (kept_trans _ _ _ K1 K2)|].
  intros Hr. exact (settled_trans _ _ _ (S1 Hr) (S2 Hr)).
Qed.

Lemma extends_le N N' w w' : N' <= N -> extends N w w' -> extends N' w w'.
Proof.
  intros Hle [L H]. split; [exact L|]. intros r o Ho.
  destruct (H r o Ho) as (o' & Ho' & K & S).
  exists o'. split; [exact Ho'|]. split; [exact K|]. intros Hr. apply S. lia.
Qed.

Lemma extends_state N w w' : heap w = heap w' -> extends N w w'.
Proof.
  intros E. split; [rewrite E; lia|]. intros r o Ho. exists o.
  rewrite <- E. auto using kept_refl, settled_refl.
Qed.

Lemma kept_Literal o o' :
  kept o o' -> isinstance_Literal o' = isinstance_Literal o.
Proof. intros [K _]. destruct o, o'; try discriminate K; reflexivity. Qed.

Lemma kept_DependentType o o' :
  kept o o' -> isinstance_DependentType o' = isinstance_DependentType o.
Proof. intros [K _]. destruct o, o'; try discriminate K; reflexivity. Qed.

Lemma extends_is_Literal N w w' t :
  extends N w w' ->
  is_instance isinstance_Literal w t = true ->
  is_instance isinstance_Literal w' t = true.
Proof.
  intros [_ H]. unfold is_instance.
  destruct (nth_error (heap w) t) as [o|] eqn:Ho; [|discriminate].
  destruct (H t o Ho) as (o' & -> & K & _). now rewrite (kept_Literal _ _ K).
Qed.

Lemma types_fresh_state N w w' :
  heap w = heap w' -> types_fresh N w -> types_fresh N w'.
Proof.
  intros E H r o t Hr Ho Ht. unfold is_instance. rewrite <- E in *.
  apply (H r o t Hr Ho Ht).
Qed.

(** *** Rules *)

Section Rules.

Variable N : nat.
Variable I : world -> Prop.
Hypothesis I_heap : forall w w', heap w = heap w' -> I w -> I w'.

Lemma spec_ret {A : Type} (a : A) (P : A -> Prop) :
  P a -> spec N I (ret a) P.
Proof.
  intros Ha w r w' _ [= <- <-].
  split; [apply extends_refl|]. split; [auto|]. now intros ? [= <-].
Qed.

Lemma spec_raise {A : Type} e (P : A -> Prop) : spec N I (raise e) P.
Proof.
  intros w r w' _ [= <- <-].
  split; [apply extends_refl|]. split; [auto|]. discriminate.
Qed.

Lemma spec_out_of_fuel {A : Type} (P : A -> Prop) : spec N I out_of_fuel P.
Proof.
  intros w r w' _ [= <- <-].
  split; [apply extends_refl|]. split; [auto|]. discriminate.
Qed.

Lemma spec_bind {A B : Type} (c : V A) (k : A -> V B) P Q :
  spec N I c P -> (forall a, P a -> spec N I (k a) Q) ->
  spec N I (bind c k) Q.
Proof.
  intros Hc Hk w r w' HN H. unfold bind in H.
  destruct (c w) as [[a|e|] w1] eqn:E;
    destruct (Hc _ _ _ HN E) as (X1 & I1 & P1).
  - assert (HN1 : N <= length (heap w1)) by (destruct X1; lia).
    destruct (Hk a (P1 a eq_refl) _ _ _ HN1 H) as (X2 & I2 & P2).
    split; [eapply extends_trans; eassumption|]. split; auto.
  - injection H as <- <-. split; [exact X1|]. split; [exact I1|]. discriminate.
  - injection H as <- <-. split; [exact X1|]. split; [exact I1|]. discriminate.
Qed.

Lemma spec_conseq {A : Type} (c : V A) (P Q : A -> Prop) :
  spec N I c P -> (forall a, P a -> Q a) -> spec N I c Q.
Proof.
  intros Hc HPQ w r w' HN H. destruct (Hc _ _ _ HN H) as (X & J & HP).
  split; [exact X|]. split; [exact J|]. intros a E. apply HPQ, HP, E.
Qed.

Lemma spec_any {A : Type} (c : V A) (P : A -> Prop) :
  spec N I c P -> spec N I c anything.
Proof. intros H. apply (spec_conseq _ _ _ H). intros; exact Logic.I. Qed.

Lemma spec_for_each {A : Type} (xs : list A) (body : A -> V unit) P :
  P tt -> (forall x, In x xs -> spec N I (body x) anything) ->
  spec N I (for_each xs body) P.
Proof.
  intros HP. induction xs as [|x xs IH]; intros Hb; cbn [for_each].
  - now apply spec_ret.
  - eapply spec_bind; [apply Hb; now left|]. intros _ _.
    apply IH. intros y Hy. apply Hb. now right.
Qed.

Lemma spec_map_M {A B : Type} (f : A -> V B) (xs : list A) (P : B -> Prop) :
  (forall x, In x xs -> spec N I (f x) P) ->
  spec N I (map_M f xs) (Forall P).
Proof.
  induction xs as [|x xs IH]; intros Hf; cbn [map_M].
  - now apply spec_ret.
  - eapply spec_bind; [apply Hf; now left|]. intros y Hy.
    eapply spec_bind; [apply IH; intros z Hz; apply Hf; now right|].
    intros ys Hys. apply spec_ret. now constructor.
Qed.

Lemma spec_try_except {A : Type} (c h : V A) handled P :
  spec N I c P -> spec N I h P -> spec N I (try_except c handled h) P.
Proof.
  intros Hc Hh w r w' HN H. unfold try_except in H.
  destruct (c w) as [[a|e|] w1] eqn:E;
    destruct (Hc _ _ _ HN E) as (X1 & I1 & P1).
  - injection H as <- <-. auto.
  - destruct (handled e).
    + assert (HN1 : N <= length (heap w1)) by (destruct X1; lia).
      destruct (Hh _ _ _ HN1 H) as (X2 & I2 & P2).
      split; [eapply extends_trans; eassumption|]. split; auto.
    + injection H as <- <-. auto.
  - injection H as <- <-. auto.
Qed.

Lemma spec_pure {A : Type} (c : V A) (P : A -> Prop) :
  (forall w, snd (c w) = w) -> (forall w a, fst (c w) = Ok a -> P a) ->
  spec N I c P.
Proof.
  intros Hw Hv w r w' _ H. pose proof (Hw w) as E. pose proof (Hv w) as F.
  rewrite H in E, F. cbn in E, F. subst w'.
  split; [apply extends_refl|]. split; [auto|]. intros a ->. now apply F.
Qed.

Lemma spec_load r : spec N I (load r) anything.
Proof.
  apply spec_pure; [|intros; exact Logic.I].
  intros w. unfold load. now destruct (nth_error (heap w) r).
Qed.

Lemma spec_attr {A : Type} attr_name (field : object -> option A) x :
  spec N I (attr attr_name field x) anything.
Proof.
  unfold attr. destruct x as [r|]; [|apply spec_raise].
  eapply spec_bind; [apply spec_load|]. intros o _.
  destruct (field o); [now apply spec_ret | apply spec_raise].
Qed.

Lemma spec_isinstance C x : spec N I (isinstance C x) anything.
Proof.
  unfold isinstance. destruct x as [r|]; [|now apply spec_ret].
  eapply spec_bind; [apply spec_load|]. intros o _. now apply spec_ret.
Qed.

Lemma spec_get_state : spec N I get_state anything.
Proof. apply spec_pure; [reflexivity | intros; exact Logic.I]. Qed.

Lemma spec_put_state s : spec N I (put_state s) anything.
Proof.
  intros w r w' _ [= <- <-].
  split; [now apply extends_state|]. split; [now apply I_heap|].
  intros; exact Logic.I.
Qed.

Lemma spec_State_scoped {A : Type} scope_ (body : V A) P :
  spec N I body P -> spec N I (State_scoped scope_ body) P.
Proof.
  intros Hb. unfold State_scoped.
  eapply spec_bind; [apply spec_get_state|]. intros s _.
  eapply spec_bind; [apply spec_put_state|]. intros _ _.
  eapply spec_bind; [apply Hb|]. intros a Ha.
  eapply spec_bind; [apply spec_get_state|]. intros s' _.
  eapply spec_bind; [apply spec_put_state|]. intros _ _.
  now apply spec_ret.
Qed.

Lemma spec_State_softScoped {A : Type} scope_ (body : V A) P :
  spec N I body P -> spec N I (State_softScoped scope_ body) P.
Proof.
  intros Hb. unfold State_softScoped.
  eapply spec_bind; [apply spec_get_state|]. intros s _.
  destruct (soft_scope_stack s); [|apply spec_raise].
  eapply spec_bind; [apply spec_put_state|]. intros _ _.
  eapply spec_bind; [apply Hb|]. intros a Ha.
  eapply spec_bind; [apply spec_get_state|]. intros s' _.
  destruct (soft_scope_stack s') as [[|x stack]|]; try apply spec_raise.
  eapply spec_bind; [apply spec_put_state|]. intros _ _.
  now apply spec_ret.
Qed.

End Rules.

Lemma spec_forget {A : Type} N I (c : V A) P :
  spec N I c P -> spec N always c P.
Proof.
  intros H w r w' HN E. destruct (H _ _ _ HN E) as (X & _ & HP).
  split; [exact X|]. split; [auto|exact HP].
Qed.

(** *** The store operations *)

Lemma length_replace r f h : length (replace r f h) = length h.
Proof.
  revert r. induction h as [|x h IH]; intros [|r]; cbn; auto.
Qed.

Lemma nth_error_replace r f h i :
  nth_error (replace r f h) i
  = if Nat.eqb i r then option_map f (nth_error h i) else nth_error h i.
Proof.
  destruct (Nat.eqb_spec i r) as [->|Hne].
  - destruct (nth_error h r) as [o|] eqn:E.
    + now apply nth_error_replace_same.
    + apply nth_error_None. rewrite length_replace. now apply nth_error_None.
  - now apply nth_error_replace_other.
Qed.

Lemma types_fresh_extends N w w' :
  extends N w w' ->
  (forall r o' t, N <= r -> nth_error (heap w') r = Some o' ->
     get_type o' = Some (Some t) ->
     (exists o, nth_error (heap w) r = Some o /\ get_type o = Some (Some t))
     \/ N <= t \/ is_instance isinstance_Literal w' t = true) ->
  types_fresh N w -> types_fresh N w'.
Proof.
  intros X H F r o' t Hr Ho' Ht.
  destruct (H r o' t Hr Ho' Ht) as [(o & Ho & Hto)|[?|?]]; auto.
  destruct (F r o t Hr Ho Hto) as [?|L]; auto.
  right. eapply extends_is_Literal; eassumption.
Qed.

Lemma update_extends N r f w :
  (forall o, kept o (f o)) ->
  (r < N -> forall o, nth_error (heap w) r = Some o -> settled o (f o)) ->
  extends N w (mkWorld (replace r f (heap w)) (state w)).
Proof.
  intros K S. split; [cbn; rewrite length_replace; lia|].
  intros i o Ho. cbn [heap]. rewrite nth_error_replace.
  destruct (Nat.eqb_spec i r) as [->|Hne].
  - rewrite Ho. exists (f o). cbn. auto.
  - exists o. auto using kept_refl, settled_refl.
Qed.

Lemma spec_update N r f :
  (forall o, kept o (f o) /\ get_type (f o) = get_type o) ->
  (r < N -> forall o, settled o (f o)) ->
  spec N (types_fresh N) (update r f) anything.
Proof.
  intros K S w x w' _ [= <- <-].
  assert (X : extends N w (mkWorld (replace r f (heap w)) (state w))).
  { apply update_extends; [apply K | auto]. }
  split; [exact X|]. split; [|intros; exact Logic.I].
  apply (types_fresh_extends _ _ _ X). intros i o' t Hi Ho' Ht. left.
  cbn [heap] in Ho'. rewrite nth_error_replace in Ho'.
  destruct (Nat.eqb i r).
  - destruct (nth_error (heap w) i) as [o|]; [|discriminate].
    injection Ho' as <-. exists o. split; [reflexivity|].
    now rewrite <- (proj2 (K o)).
  - eauto.
Qed.


Lemma spec_update_benign N r f :
  benign f -> spec N (types_fresh N) (update r f) anything.
Proof.
  intros B. apply spec_update.
  - intros o. destruct (B o) as (? & ? & ?). auto.
  - intros _ o. apply B.
Qed.

Ltac benign_update :=
  apply spec_update_benign; intros o; destruct o; cbn;
  repeat split; auto; try congruence.

Lemma spec_set_name N r x : spec N (types_fresh N) (set_name r x) anything.
Proof. benign_update. Qed.
Lemma spec_set_bound_context N r x :
  spec N (types_fresh N) (set_bound_context r x) anything.
Proof. benign_update. Qed.
Lemma spec_set_static N r x : spec N (types_fresh N) (set_static r x) anything.
Proof. benign_update. Qed.
Lemma spec_set_verified N r : spec N (types_fresh N) (set_verified r) anything.
Proof. benign_update. Qed.
Lemma spec_set_return_type N r x :
  spec N (types_fresh N) (set_return_type r x) anything.
Proof. benign_update. Qed.
Lemma spec_append_compatible N r x :
  spec N (types_fresh N) (append_compatible r x) anything.
Proof. benign_update. Qed.
Lemma spec_set_children N r x :
  spec N (types_fresh N) (set_children r x) anything.
Proof. benign_update. Qed.
Lemma spec_set_local_context N r x :
  spec N (types_fresh N) (set_local_context r x) anything.
Proof. benign_update. Qed.
Lemma spec_set_closed_context N r x :
  spec N (types_fresh N) (set_closed_context r x) anything.
Proof. benign_update. Qed.
Lemma spec_set_overload_context N r x :
  spec N (types_fresh N) (set_overload_context r x) anything.
Proof. benign_update. Qed.
Lemma spec_set_context N r x : spec N (types_fresh N) (set_context r x) anything.
Proof. benign_update. Qed.
Lemma spec_set_main N r x : spec N (types_fresh N) (set_main r x) anything.
Proof. benign_update. Qed.
Lemma spec_set_instance_context N r x :
  spec N (types_fresh N) (set_instance_context r x) anything.
Proof. benign_update. Qed.
Lemma spec_set_constructor N r x :
  spec N (types_fresh N) (set_constructor r x) anything.
Proof. benign_update. Qed.
Lemma spec_set_function N r x :
  spec N (types_fresh N) (set_function r x) anything.
Proof. benign_update. Qed.
Lemma spec_set_loop N r x : spec N (types_fresh N) (set_loop r x) anything.
Proof. benign_update. Qed.
Lemma spec_set_value N r x : spec N (types_fresh N) (set_value r x) anything.
Proof. benign_update. Qed.
Lemma spec_set_assignment_scope N r x :
  spec N (types_fresh N) (set_assignment_scope r x) anything.
Proof. benign_update. Qed.
Lemma spec_set_variable N r x :
  spec N (types_fresh N) (set_variable r x) anything.
Proof. benign_update. Qed.

(** [self.dependent = True] and [self.type = ...] of an object the
    method has created. *)
Lemma spec_set_dependent N r x :
  N <= r -> spec N (types_fresh N) (set_dependent r x) anything.
Proof.
  intros Hr. apply spec_update; [|lia].
  intros o; destruct o; cbn; repeat split; auto.
Qed.

Lemma alloc_extends N o w :
  extends N w (mkWorld (heap w ++ [o]) (state w)).
Proof.
  split; [cbn; rewrite length_app; lia|]. intros r x Hx. exists x.
  cbn [heap]. rewrite nth_error_app1 by (apply nth_error_Some; congruence).
  auto using kept_refl, settled_refl.
Qed.

Lemma spec_alloc N o :
  (forall t, get_type o = Some (Some t) -> N <= t) ->
  spec N (types_fresh N) (alloc o) (fun r => N <= r).
Proof.
  intros Ht w x w' HN [= <- <-].
  pose proof (alloc_extends N o w) as X.
  split; [exact X|]. split; [|intros a [= <-]; exact HN].
  apply (types_fresh_extends _ _ _ X). intros i o' t Hi Ho' Hto.
  cbn [heap] in Ho'.
  destruct (Nat.lt_ge_cases i (length (heap w))) as [Hlt|Hge].
  - rewrite nth_error_app1 in Ho' by exact Hlt. left. eauto.
  - rewrite nth_error_app2 in Ho' by exact Hge.
    destruct (i - length (heap w)) as [|[|k]]; cbn in Ho'; try discriminate.
    injection Ho' as <-. right; left. now apply Ht.
Qed.

(** [x.type = t] where [x.type] is [None], or [x] has been created by the
    method. *)
Lemma set_type_extends N r t w :
  (r < N -> forall o t0, nth_error (heap w) r = Some o ->
             get_type o <> Some (Some t0)) ->
  extends N w (snd (set_type r t w)).
Proof.
  intros G. apply update_extends.
  - intros o; destruct o; cbn; split; reflexivity.
  - intros Hr o Ho. pose proof (G Hr o) as G'.
    destruct o; cbn; repeat split; auto;
      intros t0 E; exfalso; exact (G' t0 Ho E).
Qed.

Lemma set_type_fresh N r t w :
  extends N w (snd (set_type r t w)) ->
  (forall x, t = Some x -> N <= x) ->
  types_fresh N w -> types_fresh N (snd (set_type r t w)).
Proof.
  intros X Ht. apply (types_fresh_extends _ _ _ X).
  intros i o' x Hi Ho' Hx. cbn in Ho'. rewrite nth_error_replace in Ho'.
  destruct (Nat.eqb i r).
  - destruct (nth_error (heap w) i) as [o|]; [|discriminate].
    injection Ho' as <-.
    destruct o; cbn in Hx; try (left; eexists; split; [reflexivity|exact Hx]);
      right; left; apply Ht; congruence.
  - left. eauto.
Qed.

Lemma spec_set_type_fresh N r t :
  N <= r -> N <= t -> spec N (types_fresh N) (set_type r (Some t)) anything.
Proof.
  intros Hr Ht w x w' _ E.
  assert (X : extends N w (snd (set_type r (Some t) w))).
  { apply set_type_extends. lia. }
  replace w' with (snd (set_type r (Some t) w)) by now rewrite E.
  split; [exact X|]. split; [|intros; exact Logic.I].
  apply set_type_fresh; [exact X|]. now intros ? [= <-].
Qed.

Create HintDb spec.
#[local] Hint Resolve spec_load spec_attr spec_isinstance spec_get_state
  spec_set_name spec_set_bound_context spec_set_static spec_set_verified
  spec_set_return_type spec_append_compatible spec_set_children
  spec_set_local_context spec_set_closed_context spec_set_overload_context
  spec_set_context spec_set_main spec_set_instance_context
  spec_set_constructor spec_set_function spec_set_loop spec_set_value
  spec_set_assignment_scope spec_set_variable : spec.

Lemma types_fresh_heap N w w' :
  heap w = heap w' -> types_fresh N w -> types_fresh N w'.
Proof. apply types_fresh_state. Qed.

#[local] Hint Resolve types_fresh_heap : spec.
#[local] Hint Extern 1 (spec _ _ (put_state _) _) =>
  apply spec_put_state; eauto with spec : spec.

Ltac spec_side := first [exact Logic.I | assumption | lia | auto].

Ltac spec_leaf :=
  first [ solve [eauto 2 with spec]
        | solve [eapply spec_any; eauto 2 with spec]
        | solve [eapply spec_conseq; [eauto 2 with spec | intros; spec_side]] ].

Ltac spec_go :=
  lazymatch goal with
  | H : spec ?N ?I ?c ?P |- spec ?N ?I ?c ?P => exact H
  | |- spec _ _ (ret _) _ => apply spec_ret; spec_side
  | |- spec _ _ (raise _) _ => apply spec_raise
  | |- spec _ _ out_of_fuel _ => apply spec_out_of_fuel
  | |- spec _ _ (bind _ _) _ =>
      eapply spec_bind;
      [ first [ solve [spec_leaf]
              | lazymatch goal with
                | |- @spec ?A _ _ _ ?P => unify P (fun _ : A => True)
                end; spec_go ]
      | intros ? ?; spec_go ]
  | |- spec _ _ (for_each _ _) _ =>
      apply spec_for_each; [spec_side | intros ? ?; spec_go]
  | |- spec _ _ (map_M _ _) _ =>
      eapply spec_conseq;
      [ apply spec_map_M with (P := anything); intros ? ?; spec_go
      | intros; spec_side ]
  | |- spec _ _ (State_scoped _ _) _ =>
      apply spec_State_scoped; [solve [eauto with spec] | spec_go]
  | |- spec _ _ (State_softScoped _ _) _ =>
      apply spec_State_softScoped; [solve [eauto with spec] | spec_go]
  | |- spec _ _ (try_except _ _ _) _ =>
      apply spec_try_except; spec_go
  | |- spec _ _ (if ?b then _ else _) _ => destruct b; spec_go
  | |- spec _ _ (match ?x with _ => _ end) _ => destruct x; spec_go
  | |- _ => spec_leaf
  end.

(** *** Constructors *)

Lemma spec_Context_fakeChild N self child :
  spec N (types_fresh N) (Context_fakeChild self child) anything.
Proof. unfold Context_fakeChild. spec_go. Qed.
#[local] Hint Resolve spec_Context_fakeChild : spec.

Lemma spec_Context_addChild N self child :
  spec N (types_fresh N) (Context_addChild self child) anything.
Proof. unfold Context_addChild. spec_go. Qed.
#[local] Hint Resolve spec_Context_addChild : spec.

Lemma spec_alloc_untyped N o :
  get_type o = None \/ get_type o = Some None ->
  spec N (types_fresh N) (alloc o) (fun r => N <= r).
Proof. intros H. apply spec_alloc. intros t E. destruct H; congruence. Qed.

Lemma spec_Context_init N scope_ children :
  spec N (types_fresh N) (Context_init scope_ children) (fun r => N <= r).
Proof.
  unfold Context_init.
  eapply spec_bind; [apply spec_alloc_untyped; now left|]. intros self Hs.
  spec_go.
Qed.
#[local] Hint Resolve spec_Context_init : spec.

Lemma spec_DependentType_init N compatibles :
  spec N (types_fresh N) (DependentType_init compatibles) (fun r => N <= r).
Proof. apply spec_alloc_untyped; now left. Qed.
#[local] Hint Resolve spec_DependentType_init : spec.

Lemma spec_Variable_init N name_ type_ :
  (forall t, type_ = Some t -> N <= t) ->
  spec N (types_fresh N) (Variable_init name_ type_) (fun r => N <= r).
Proof. intros H. apply spec_alloc. cbn. intros t [= ->]. now apply H. Qed.

Lemma spec_FunctionType_init N name_ arguments return_type :
  spec N (types_fresh N) (FunctionType_init name_ arguments return_type)
    (fun r => N <= r).
Proof. apply spec_alloc_untyped; now left. Qed.
#[local] Hint Resolve spec_FunctionType_init : spec.

Lemma spec_Reference_init N reference :
  spec N (types_fresh N) (Reference_init reference) (fun r => N <= r).
Proof. apply spec_alloc_untyped; now left. Qed.
#[local] Hint Resolve spec_Reference_init : spec.

Lemma spec_ModuleType_init N module :
  spec N (types_fresh N) (ModuleType_init module) (fun r => N <= r).
Proof. apply spec_alloc_untyped; now left. Qed.
#[local] Hint Resolve spec_ModuleType_init : spec.

(** The body of the loop of [Function.__init__]: an argument without
    type gets a new [DependentType]. *)
Lemma spec_Function_init_argument N self arg :
  N <= self ->
  spec N (types_fresh N)
    (t <- attr "type" get_type (Some arg) ;;
     match t with
     | None =>
         d <- DependentType_init [] ;;
         set_type arg (Some d) ;;
         set_dependent self true
     | Some _ => ret tt
     end) anything.
Proof.
  intros Hself w r w' HN H.
  destruct (attr "type" get_type (Some arg) w) as [[t| |] w0] eqn:E.
  - apply attr_Ok_inv in E as (x & o & [= <-] & Ho & Ht & ->).
    rewrite (bind_Ok _ _ _ _ _ (attr_Ok _ get_type _ _ _ _ Ho Ht)) in H.
    destruct t as [t|].
    { exact (spec_ret N _ tt anything Logic.I w r w' HN H). }
    set (d := length (heap w)) in *.
    set (w1 := mkWorld
                 (heap w ++ [DependentType
                               (mkBound (Some EmptyString) None false false)
                               [] None]) (state w)).
    assert (E1 : DependentType_init [] w = (Ok d, w1)) by reflexivity.
    rewrite (bind_Ok _ _ _ _ _ E1) in H.
    destruct (spec_DependentType_init N [] w _ _ HN E1) as (X1 & F1 & _).
    set (w2 := snd (set_type arg (Some d) w1)).
    assert (E2 : set_type arg (Some d) w1 = (Ok tt, w2)) by reflexivity.
    rewrite (bind_Ok _ _ _ _ _ E2) in H.
    assert (X2 : extends N w1 w2).
    { apply set_type_extends. intros _ o1 t0 Ho1 Ht0.
      cbn [heap w1] in Ho1.
      rewrite nth_error_app1 in Ho1 by (apply nth_error_Some; congruence).
      congruence. }
    assert (F2 : types_fresh N w1 -> types_fresh N w2).
    { apply set_type_fresh; [exact X2|]. intros ? [= <-]. exact HN. }
    assert (HN2 : N <= length (heap w2)) by (destruct X1, X2; lia).
    destruct (spec_set_dependent N self true Hself w2 r w' HN2 H)
      as (X3 & F3 & _).
    split; [eauto using extends_trans|]. split; [auto|].
    intros; exact Logic.I.
  - rewrite (bind_Raise _ _ _ _ _ E) in H. injection H as <- <-.
    destruct (spec_attr N (types_fresh N) "type" get_type (Some arg) w _ _ HN E)
      as (X & F & _).
    split; [exact X|]. split; [exact F|]. discriminate.
  - unfold bind in H. rewrite E in H. injection H as <- <-.
    destruct (spec_attr N (types_fresh N) "type" get_type (Some arg) w _ _ HN E)
      as (X & F & _).
    split; [exact X|]. split; [exact F|]. discriminate.
Qed.

Lemma Function_init_rest_eq constructor name_ arguments instructions
  return_type static_ :
  Function_init constructor name_ arguments instructions return_type static_
  = (self <- alloc (Function_ (mkBound name_ None static_ false) constructor
                      None None arguments instructions None false) ;;
     Function_init_rest self name_ arguments return_type static_).
Proof. reflexivity. Qed.

Lemma spec_Function_init_rest N self name_ arguments return_type static_ :
  N <= self ->
  spec N (types_fresh N)
    (Function_init_rest self name_ arguments return_type static_)
    (fun r => r = self).
Proof.
  intros Hs. unfold Function_init_rest.
  eapply spec_bind with (P := anything); [spec_go|]. intros _ _.
  eapply spec_bind; [apply spec_Context_init|]. intros c Hc.
  eapply spec_bind; [apply spec_set_closed_context|]. intros _ _.
  eapply spec_bind with (P := anything).
  { apply spec_for_each; [exact Logic.I|]. intros arg _.
    now apply spec_Function_init_argument. }
  intros _ _.
  eapply spec_bind with (P := anything).
  { eapply spec_any. apply spec_map_M. intros arg _. apply spec_attr. }
  intros types _.
  eapply spec_bind; [apply spec_FunctionType_init|]. intros ft Hft.
  eapply spec_bind; [now apply spec_set_type_fresh|]. intros _ _.
  now apply spec_ret.
Qed.

Lemma spec_Function_init N constructor name_ arguments instructions
  return_type static_ :
  spec N (types_fresh N)
    (Function_init constructor name_ arguments instructions return_type static_)
    (fun r => N <= r).
Proof.
  unfold Function_init.
  eapply spec_bind; [apply spec_alloc_untyped; now right|]. intros self Hs.
  eapply spec_conseq;
    [apply (spec_Function_init_rest N self name_ arguments return_type static_ Hs)|].
  now intros ? ->.
Qed.
#[local] Hint Resolve spec_Function_init : spec.

Lemma spec_Constructor_init N function constructing :
  spec N (types_fresh N) (Constructor_init function constructing)
    (fun r => N <= r).
Proof. unfold Constructor_init. spec_go. Qed.
#[local] Hint Resolve spec_Constructor_init : spec.

Lemma spec_Method_addOverload N self overload :
  spec N (types_fresh N) (Method_addOverload self overload) anything.
Proof. unfold Method_addOverload. spec_go. Qed.
#[local] Hint Resolve spec_Method_addOverload : spec.

Lemma spec_Method_init N name_ overloads :
  spec N (types_fresh N) (Method_init name_ overloads) (fun r => N <= r).
Proof.
  unfold Method_init.
  eapply spec_bind; [apply spec_alloc_untyped; now left|]. intros self Hs.
  spec_go.
Qed.
#[local] Hint Resolve spec_Method_init : spec.

Lemma spec_Module_init N name_ children main :
  spec N (types_fresh N) (Module_init name_ children main) (fun r => N <= r).
Proof.
  unfold Module_init.
  eapply spec_bind; [apply spec_alloc_untyped; now left|]. intros self Hs.
  spec_go.
Qed.
#[local] Hint Resolve spec_Module_init : spec.

Lemma spec_Class_init N name_ constructor attributes :
  spec N (types_fresh N) (Class_init name_ constructor attributes)
    (fun r => N <= r).
Proof.
  unfold Class_init.
  eapply spec_bind; [apply spec_alloc_untyped; now left|]. intros self Hs.
  assert (V : forall n, spec N (types_fresh N) (Variable_init n (Some self))
                          (fun r => N <= r)).
  { intros n. apply spec_Variable_init. now intros ? [= <-]. }
  spec_go.
Qed.
#[local] Hint Resolve spec_Class_init : spec.

(** *** Rules for a computation started in a given store *)

Lemma at_spec {A : Type} N I w (c : V A) (P : A -> Prop) :
  spec N I c P -> spec_at N I w c (fun a _ => P a).
Proof. intros H r w' HN E. exact (H w r w' HN E). Qed.

Lemma spec_of_at {A : Type} N I (c : V A) (Q : A -> world -> Prop) :
  (forall w, spec_at N I w c Q) -> spec N I c anything.
Proof.
  intros H w r w' HN E. destruct (H w r w' HN E) as (X & F & _).
  split; [exact X|]. split; [exact F|]. intros; exact Logic.I.
Qed.

Lemma at_ret {A : Type} N I w (a : A) (Q : A -> world -> Prop) :
  Q a w -> spec_at N I w (ret a) Q.
Proof.
  intros Ha r w' _ [= <- <-].
  split; [apply extends_refl|]. split; [auto|]. now intros ? [= <-].
Qed.

Lemma at_raise {A : Type} N I w e (Q : A -> world -> Prop) :
  spec_at N I w (raise e) Q.
Proof.
  intros r w' _ [= <- <-].
  split; [apply extends_refl|]. split; [auto|]. discriminate.
Qed.

Lemma at_out_of_fuel {A : Type} N I w (Q : A -> world -> Prop) :
  spec_at N I w out_of_fuel Q.
Proof.
  intros r w' _ [= <- <-].
  split; [apply extends_refl|]. split; [auto|]. discriminate.
Qed.

Lemma at_bind {A B : Type} N I w (c : V A) (k : A -> V B) Q Q' :
  spec_at N I w c Q ->
  (forall a w1, N <= length (heap w1) -> extends N w w1 -> Q a w1 ->
     spec_at N I w1 (k a) Q') ->
  spec_at N I w (bind c k) Q'.
Proof.
  intros Hc Hk r w' HN H. unfold bind in H.
  destruct (c w) as [[a|e|] w1] eqn:E;
    destruct (Hc _ _ HN E) as (X1 & I1 & P1).
  - assert (HN1 : N <= length (heap w1)) by (destruct X1; lia).
    destruct (Hk a w1 HN1 X1 (P1 a eq_refl) _ _ HN1 H) as (X2 & I2 & P2).
    split; [eapply extends_trans; eassumption|]. split; auto.
  - injection H as <- <-. split; [exact X1|]. split; [exact I1|]. discriminate.
  - injection H as <- <-. split; [exact X1|]. split; [exact I1|]. discriminate.
Qed.

Lemma at_conseq {A : Type} N I w (c : V A) (Q Q' : A -> world -> Prop) :
  spec_at N I w c Q ->
  (forall a w', N <= length (heap w') -> extends N w w' -> Q a w' -> Q' a w') ->
  spec_at N I w c Q'.
Proof.
  intros Hc HQ r w' HN H. destruct (Hc _ _ HN H) as (X & J & HP).
  split; [exact X|]. split; [exact J|]. intros a E.
  apply HQ; [destruct X; lia | exact X | apply HP, E].
Qed.

Lemma at_load {A : Type} N I w r (k : object -> V A) Q :
  (forall o, nth_error (heap w) r = Some o -> spec_at N I w (k o) Q) ->
  spec_at N I w (bind (load r) k) Q.
Proof.
  intros H x w' HN E. unfold bind, load in E.
  destruct (nth_error (heap w) r) as [o|] eqn:Ho.
  - exact (H o eq_refl x w' HN E).
  - injection E as <- <-.
    split; [apply extends_refl|]. split; [auto|]. discriminate.
Qed.

Lemma at_map_M {A B : Type} N I (f : A -> V B) (Q : B -> world -> Prop) :
  (forall b w1 w2, N <= length (heap w1) -> extends N w1 w2 ->
     Q b w1 -> Q b w2) ->
  forall (xs : list A) w,
    (forall x w1, In x xs -> spec_at N I w1 (f x) Q) ->
    spec_at N I w (map_M f xs) (fun ys w' => Forall (fun y => Q y w') ys).
Proof.
  intros HQ. induction xs as [|x xs IH]; intros w Hf; cbn [map_M].
  - apply at_ret. constructor.
  - eapply at_bind; [apply Hf; now left|]. intros y w1 HN1 X1 Hy.
    eapply at_bind; [apply IH; intros z w2 Hz; apply Hf; now right|].
    intros ys w2 HN2 X2 Hys. apply at_ret. constructor; [|exact Hys].
    exact (HQ y w1 w2 HN1 X2 Hy).
Qed.

Lemma at_alloc N w o :
  (forall t, get_type o = Some (Some t) ->
     N <= t \/ is_instance isinstance_Literal w t = true) ->
  spec_at N (types_fresh N) w (alloc o)
    (fun r w' => N <= r /\ r = length (heap w) /\ heap w' = heap w ++ [o]).
Proof.
  intros Ht x w' HN [= <- <-].
  pose proof (alloc_extends N o w) as X.
  split; [exact X|]. split; [|intros a [= <-]; auto].
  apply (types_fresh_extends _ _ _ X). intros i o' t Hi Ho' Hto.
  cbn [heap] in Ho'.
  destruct (Nat.lt_ge_cases i (length (heap w))) as [Hlt|Hge].
  - rewrite nth_error_app1 in Ho' by exact Hlt. left. eauto.
  - rewrite nth_error_app2 in Ho' by exact Hge.
    destruct (i - length (heap w)) as [|[|k]]; cbn in Ho'; try discriminate.
    injection Ho' as <-. right. destruct (Ht t Hto) as [?|L]; [now left|].
    right. eapply extends_is_Literal; eassumption.
Qed.

Lemma nth_error_alloc (h : list object) o :
  nth_error (h ++ [o]) (length h) = Some o.
Proof. rewrite nth_error_app2 by lia. now rewrite Nat.sub_diag. Qed.

(** A constructor that creates [self] first and returns it. *)
Lemma at_init N w o (rest : ref -> V ref) :
  (forall t, get_type o = Some (Some t) ->
     N <= t \/ is_instance isinstance_Literal w t = true) ->
  (forall self, N <= self ->
     spec N (types_fresh N) (rest self) (fun r => r = self)) ->
  spec_at N (types_fresh N) w (bind (alloc o) rest)
    (fun a w' => N <= a /\
       exists o', nth_error (heap w') a = Some o' /\ kept o o').
Proof.
  intros Ht Hrest r w' HN E.
  destruct (at_alloc N w o Ht _ _ HN eq_refl) as (X1 & F1 & _).
  unfold bind in E. cbn [alloc] in E.
  set (w1 := mkWorld (heap w ++ [o]) (state w)) in *.
  assert (HN1 : N <= length (heap w1)) by (destruct X1; lia).
  destruct (Hrest _ HN w1 r w' HN1 E) as (X & F & P).
  split; [eapply extends_trans; eassumption|]. split; [auto|]. intros a Ha.
  rewrite (P a Ha). split; [exact HN|].
  destruct X as [_ X].
  destruct (X (length (heap w)) o) as (o' & Ho' & K & _).
  { apply nth_error_alloc. }
  eauto.
Qed.

(** *** Copies *)

Lemma is_Literal_back N w w' a :
  extends N w w' ->
  is_instance isinstance_Literal w' a = false ->
  is_instance isinstance_Literal w a = false.
Proof.
  intros X H. destruct (is_instance isinstance_Literal w a) eqn:E; [|reflexivity].
  rewrite (extends_is_Literal _ _ _ _ X E) in H. discriminate.
Qed.

Lemma copied_extends N a w w' :
  extends N w w' -> copied N a w -> copied N a w'.
Proof.
  intros X (Ha & Hf & Hargs). pose proof X as [L Hx].
  split; [lia|]. split.
  - destruct Hf as [?|Hl]; [now left|]. right.
    eapply extends_is_Literal; eassumption.
  - intros o' arguments Ho' Hg.
    destruct (nth_error (heap w) a) as [o|] eqn:Ho.
    + destruct (Hx a o Ho) as (o2 & Ho2 & [_ K] & _).
      rewrite Ho' in Ho2. injection Ho2 as <-.
      apply (Hargs o arguments eq_refl). congruence.
    + apply nth_error_None in Ho. lia.
Qed.

Lemma copied_kept N a w o o' :
  N <= a -> nth_error (heap w) a = Some o' -> kept o o' ->
  get_function_arguments o = None -> copied N a w.
Proof.
  intros Ha Ho' [_ K] Hg. split; [apply nth_error_Some; congruence|].
  split; [now left|]. intros o2 arguments Ho2 Hg2. congruence.
Qed.

Lemma copied_alloc N a w w' o :
  N <= a -> a = length (heap w) -> heap w' = heap w ++ [o] ->
  get_function_arguments o = None -> copied N a w'.
Proof.
  intros HN -> Hh Hg. apply (copied_kept _ _ _ o o); auto using kept_refl.
  rewrite Hh. apply nth_error_alloc.
Qed.

Lemma is_instance_prefix C h o s s' a :
  is_instance C (mkWorld (h ++ [o]) s) a = false ->
  is_instance C (mkWorld h s') a = false.
Proof.
  unfold is_instance. cbn [heap].
  destruct (nth_error h a) as [x|] eqn:E; [|reflexivity].
  rewrite nth_error_app1 by (apply nth_error_Some; congruence).
  now rewrite E.
Qed.

(** [Context.addChild] reads the name of the child: a literal has none. *)
Lemma for_each_addChild_named self children :
  forall w w',
    for_each children (Context_addChild self) w = (Ok tt, w') ->
    Forall (fun a => is_instance isinstance_Literal w a = false) children.
Proof.
  induction children as [|x xs IH]; intros w w' H; [constructor|].
  cbn [for_each] in H.
  apply bind_Ok_inv in H as ([] & w1 & Hx & Hxs).
  destruct (spec_Context_addChild 0 self x w _ _ (Nat.le_0_l _) Hx) as (X & _).
  constructor.
  - unfold Context_addChild in Hx.
    apply bind_Ok_inv in Hx as (children & w0 & Hc & Hx).
    apply attr_Ok_inv in Hc as (? & ? & _ & _ & _ & ->).
    apply bind_Ok_inv in Hx as (n & w0 & Hn & _).
    apply attr_Ok_inv in Hn as (? & o & [= <-] & Ho & Hname & _).
    unfold is_instance. rewrite Ho. now destruct o.
  - eapply Forall_impl; [|exact (IH _ _ Hxs)].
    intros a. cbn beta. now apply is_Literal_back with (N := 0).
Qed.

Lemma Function_init_named constructor name_ arguments instructions
  return_type w fn w' :
  Function_init constructor name_ arguments instructions return_type false w
  = (Ok fn, w') ->
  Forall (fun a => is_instance isinstance_Literal w a = false) arguments.
Proof.
  intros H. unfold Function_init in H.
  apply bind_Ok_inv in H as (self & w1 & Ha & H).
  apply bind_Ok_inv in H as ([] & w2 & H & _).
  apply bind_Ok_inv in H as (c & w3 & H & _).
  unfold Context_init in H.
  apply bind_Ok_inv in H as (c' & w4 & Hc & H).
  apply bind_Ok_inv in H as ([] & w5 & H & _).
  apply for_each_addChild_named in H.
  injection Ha as <- <-. injection Hc as <- <-.
  eapply Forall_impl; [|exact H]. intros a Hl. cbn beta in *.
  apply is_instance_prefix with (s' := state w) in Hl.
  apply is_instance_prefix with (s' := state w) in Hl. exact Hl.
Qed.

Lemma Function_init_at N w constructor name_ arguments instructions
  return_type :
  spec_at N (types_fresh N) w
    (Function_init constructor name_ arguments instructions return_type false)
    (fun fn w' =>
       N <= fn /\
       (exists o', nth_error (heap w') fn = Some o' /\
                   get_function_arguments o' = Some arguments) /\
       Forall (fun a => is_instance isinstance_Literal w a = false) arguments).
Proof.
  intros r w' HN E.
  assert (S : spec_at N (types_fresh N) w
                (Function_init constructor name_ arguments instructions
                   return_type false)
                (fun a w' => N <= a /\
                   exists o', nth_error (heap w') a = Some o' /\
                     kept (Function_ (mkBound name_ None false false)
                             constructor None None arguments instructions
                             None false) o')).
  { unfold Function_init. apply at_init; [discriminate|].
    intros self Hs.
    exact (spec_Function_init_rest N self name_ arguments return_type false Hs). }
  destruct (S r w' HN E) as (X & F & P).
  split; [exact X|]. split; [exact F|]. intros fn ->.
  destruct (P fn eq_refl) as (Hfn & o' & Ho' & [_ K]).
  split; [exact Hfn|]. split; [eauto|].
  eapply Function_init_named; eassumption.
Qed.

Ltac at_pure :=
  eapply at_bind;
  [apply at_spec with (P := anything); spec_go | intros ?x ?w ?HN ?X _].

Ltac at_final_alloc :=
  eapply at_conseq;
  [ apply at_alloc; cbn; intros; discriminate
  | intros ?a ?w _ _ (?Ha & ?Hl & ?Hh);
    eapply copied_alloc; [eassumption | eassumption | eassumption | reflexivity] ].

Ltac transport :=
  repeat match goal with
         | X : extends _ ?w1 ?w2, H : copied _ _ ?w1 |- _ =>
             apply (copied_extends _ _ _ _ X) in H
         | X : extends _ ?w1 ?w2,
           H : is_instance isinstance_Literal ?w1 _ = true |- _ =>
             apply (extends_is_Literal _ _ _ _ X) in H
         end.

Lemma copy_at : forall n N self w,
  spec_at N (types_fresh N) w (copy_ n self) (copied N).
Proof.
  induction n as [|n IH]; intros N self w; [apply at_out_of_fuel|].
  assert (IHs : forall N self, spec N (types_fresh N) (copy_ n self) anything).
  { intros N' self'. eapply spec_of_at. intros w'. apply IH. }
  cbn [copy_]. apply at_load. intros o Ho. destruct o.
  - (* Context *) apply at_raise.
  - (* Module *)
    at_pure. at_pure.
    eapply at_conseq; [unfold Module_init; apply at_init; [discriminate|]|].
    { intros self' Hs. spec_go. }
    intros a w' _ _ (Ha & o' & Ho' & K).
    now apply (copied_kept _ _ _ _ _ Ha Ho' K).
  - (* ModuleType *) at_pure. unfold ModuleType_init. at_final_alloc.
  - (* DependentType *) unfold DependentType_init. at_final_alloc.
  - (* Function *)
    eapply at_bind.
    { apply at_map_M; [|intros; apply IH].
      intros; eapply copied_extends; eassumption. }
    intros args' w1 HN1 X1 Hargs.
    at_pure. at_pure.
    assert (Hargs' : Forall (fun a => N <= a
                        \/ is_instance isinstance_Literal w2 a = true) args').
    { eapply Forall_impl; [|exact Hargs]. intros a (_ & Hl & _).
      destruct Hl as [?|Hl]; [now left|]. right. transport. exact Hl. }
    eapply at_bind; [apply Function_init_at|].
    intros fn w4 HN4 X4 (Hfn & (o' & Ho' & Hg) & Hnamed).
    assert (Hc : copied N fn w4).
    { split; [apply nth_error_Some; congruence|]. split; [now left|].
      intros o2 arguments2 Ho2 Hg2.
      assert (arguments2 = args') by congruence. subst arguments2.
      rewrite Forall_forall in *. intros a Ha.
      destruct (Hargs' a Ha) as [?|Hl]; [assumption|].
      specialize (Hnamed a Ha). cbn beta in Hnamed. congruence. }
    at_pure. at_pure. apply at_ret. transport. exact Hc.
  - (* ExternalFunction *) apply at_raise.
  - (* FunctionType *)
    at_pure. at_pure. unfold FunctionType_init. at_final_alloc.
  - (* Method *)
    at_pure. at_pure.
    eapply at_conseq; [unfold Method_init; apply at_init; [discriminate|]|].
    { intros self' Hs. spec_go. }
    intros a w' _ _ (Ha & o' & Ho' & K).
    now apply (copied_kept _ _ _ _ _ Ha Ho' K).
  - (* Class *)
    at_pure. at_pure. at_pure. at_pure.
    eapply at_conseq; [unfold Class_init; apply at_init; [discriminate|]|].
    { intros self' Hs.
      assert (V : forall n, spec N (types_fresh N)
                              (Variable_init n (Some self')) (fun r => N <= r)).
      { intros n'. apply spec_Variable_init. now intros ? [= <-]. }
      spec_go. }
    intros a w' _ _ (Ha & o' & Ho' & K).
    now apply (copied_kept _ _ _ _ _ Ha Ho' K).
  - (* Loop *) at_final_alloc.
  - (* Break *) at_final_alloc.
  - (* Branch *) at_final_alloc.
  - (* Variable *)
    eapply at_bind with (Q := fun t w1 => forall c, t = Some c -> copied N c w1).
    { destruct type_ as [t|].
      - eapply at_bind; [apply IH|]. intros c w1 _ _ Hc.
        apply at_ret. now intros ? [= <-].
      - apply at_ret. discriminate. }
    intros t w1 HN1 X1 Ht. unfold Variable_init.
    eapply at_bind.
    { apply at_alloc. cbn. intros c [= ->]. apply (Ht c eq_refl). }
    intros var w2 HN2 X2 (Hv & Hvar & Hh).
    assert (Hc : copied N var w2) by (eapply copied_alloc; eauto).
    at_pure. apply at_ret. transport. exact Hc.
  - (* Assignment *) at_pure. at_pure. at_final_alloc.
  - (* Call *) at_pure. at_pure. at_final_alloc.
  - (* Literal *)
    apply at_ret. split; [apply nth_error_Some; congruence|].
    split; [right; unfold is_instance; now rewrite Ho|].
    intros o2 arguments2 Ho2 Hg2. rewrite Ho in Ho2. now injection Ho2 as <-.
  - (* Reference *) unfold Reference_init. at_final_alloc.
  - (* Return *) at_pure. at_final_alloc.
  - (* Comment *) at_final_alloc.
Qed.

(** *** The methods settle what they have not created *)

Lemma always_heap (w w' : world) : heap w = heap w' -> always w -> always w'.
Proof. intros _ _. exact Logic.I. Qed.
#[local] Hint Resolve always_heap : spec.

#[local] Hint Extern 3 (spec _ always _ _) =>
  eapply spec_forget; solve [eauto 2 with spec] : spec.

Lemma spec_local_context N I fuel self :
  spec N I (local_context fuel self) anything.
Proof.
  revert self. induction fuel as [|n IH]; intros self; cbn [local_context];
    [apply spec_out_of_fuel|].
  destruct self as [r|]; [|apply spec_raise].
  eapply spec_bind; [apply spec_load|]. intros o _.
  destruct o; try (apply spec_ret; exact Logic.I); try apply spec_raise;
    try apply IH.
  destruct (static b); apply spec_ret; exact Logic.I.
Qed.
#[local] Hint Resolve spec_local_context : spec.

Lemma spec_get_bound_context N I fuel self :
  spec N I (get_bound_context fuel self) anything.
Proof.
  revert self. induction fuel as [|n IH]; intros self;
    cbn [get_bound_context]; [apply spec_out_of_fuel|].
  destruct self as [r|]; [|apply spec_raise].
  eapply spec_bind; [apply spec_load|]. intros o _.
  destruct o; cbn [bound];
    try (apply spec_ret; exact Logic.I); try apply spec_raise.
  destruct (static b); [|apply spec_ret; exact Logic.I].
  eapply spec_bind; [apply spec_attr|]. intros s _. apply IH.
Qed.
#[local] Hint Resolve spec_get_bound_context : spec.

Lemma spec_resolveReference_loop N I fuel reference :
  forall scope_ found,
    spec N I (resolveReference_loop fuel reference scope_ found) anything.
Proof.
  induction fuel as [|n IH]; intros scope_ found;
    cbn [resolveReference_loop]; [apply spec_out_of_fuel|].
  eapply spec_bind; [apply spec_local_context|]. intros context _.
  eapply spec_bind with (P := anything).
  { destruct context as [c|]; [|apply spec_ret; exact Logic.I].
    eapply spec_bind; [apply spec_attr|]. intros children _.
    destruct (dict_get reference children); apply spec_ret; exact Logic.I. }
  intros found' _.
  eapply spec_bind; [apply spec_get_state|]. intros s _.
  destruct (is_ scope_ (builtins s)); [apply spec_ret; exact Logic.I|].
  eapply spec_bind; [apply spec_get_bound_context|]. intros bc _.
  eapply spec_bind with (P := anything).
  { destruct bc; [apply spec_attr | apply spec_ret; exact Logic.I]. }
  intros next _. apply IH.
Qed.
#[local] Hint Resolve spec_resolveReference_loop : spec.

Lemma spec_resolveReference N I fuel reference :
  spec N I (resolveReference fuel reference) anything.
Proof. unfold resolveReference. spec_go. Qed.
#[local] Hint Resolve spec_resolveReference : spec.

Lemma spec__getSoftScope_loop N I stack :
  spec N I (_getSoftScope_loop stack) anything.
Proof.
  induction stack as [|x stack IH]; cbn [_getSoftScope_loop]; spec_go.
Qed.
#[local] Hint Resolve spec__getSoftScope_loop : spec.

Lemma spec_Break_verify N self : spec N always (Break_verify self) anything.
Proof. unfold Break_verify, _getSoftScope. spec_go. Qed.
#[local] Hint Resolve spec_Break_verify : spec.

Lemma spec_any_Return N I instructions :
  spec N I (any_Return instructions) anything.
Proof.
  induction instructions as [|x xs IH]; cbn [any_Return]; spec_go.
Qed.
#[local] Hint Resolve spec_any_Return : spec.

Lemma spec_Function_verifySelf N I self :
  spec N I (Function_verifySelf self) anything.
Proof. unfold Function_verifySelf. spec_go. Qed.
#[local] Hint Resolve spec_Function_verifySelf : spec.

Lemma spec_Constructor_verifySelf N I self :
  spec N I (Constructor_verifySelf self) anything.
Proof. unfold Constructor_verifySelf. spec_go. Qed.
#[local] Hint Resolve spec_Constructor_verifySelf : spec.

Lemma spec_collect_matches N I resolve overloads :
  (forall overload, spec N I (resolve overload) anything) ->
  forall matches, spec N I (collect_matches resolve overloads matches) anything.
Proof.
  intros Hr. induction overloads as [|x xs IH]; intros matches;
    cbn [collect_matches]; [now apply spec_ret|].
  eapply spec_bind with (P := anything).
  { apply spec_try_except; [|now apply spec_ret].
    eapply spec_bind; [apply Hr|]. intros; now apply spec_ret. }
  intros [y|] _; apply IH.
Qed.

Lemma spec_Method_resolveCall N I resolve self :
  (forall overload, spec N I (resolve overload) anything) ->
  spec N I (Method_resolveCall resolve self) anything.
Proof.
  intros Hr. unfold Method_resolveCall.
  eapply spec_bind; [apply spec_attr|]. intros c _.
  eapply spec_bind; [apply spec_attr|]. intros children _.
  eapply spec_bind; [now apply spec_collect_matches|]. intros matches _.
  spec_go.
Qed.

Lemma spec_FunctionType_check_arguments N I check pairs :
  (forall a b, spec N I (check a b) anything) ->
  spec N I (FunctionType_check_arguments check pairs) anything.
Proof.
  intros Hc. induction pairs as [|[a b] pairs IH];
    cbn [FunctionType_check_arguments]; [now apply spec_ret|].
  eapply spec_bind; [apply Hc|]. intros ok _.
  destruct (negb ok); [apply Hc | apply IH].
Qed.

Lemma update_at N r f w :
  (forall o, nth_error (heap w) r = Some o ->
     kept o (f o) /\ get_type (f o) = get_type o) ->
  (r < N -> forall o, nth_error (heap w) r = Some o -> settled o (f o)) ->
  spec_at N (types_fresh N) w (update r f) (fun _ _ => True).
Proof.
  intros K S x w' _ [= <- <-].
  assert (X : extends N w (mkWorld (replace r f (heap w)) (state w))).
  { split; [cbn; rewrite length_replace; lia|].
    intros i o Ho. cbn [heap]. rewrite nth_error_replace.
    destruct (Nat.eqb_spec i r) as [->|Hne].
    - rewrite Ho. exists (f o). cbn. split; [reflexivity|].
      split; [apply (K o Ho) | intros Hr; now apply S].
    - exists o. auto using kept_refl, settled_refl. }
  split; [exact X|]. split; [|auto].
  apply (types_fresh_extends _ _ _ X). intros i o' t Hi Ho' Ht. left.
  cbn [heap] in Ho'. rewrite nth_error_replace in Ho'.
  destruct (Nat.eqb_spec i r) as [->|Hne].
  - destruct (nth_error (heap w) r) as [o|] eqn:Ho; [|discriminate].
    injection Ho' as <-. exists o. split; [reflexivity|].
    now rewrite <- (proj2 (K o eq_refl)).
  - eauto.
Qed.

Lemma at_bind_I {A B : Type} N I w (c : V A) (k : A -> V B) Q Q' :
  spec_at N I w c Q ->
  (forall a w1, N <= length (heap w1) -> extends N w w1 -> (I w -> I w1) ->
     Q a w1 -> spec_at N I w1 (k a) Q') ->
  spec_at N I w (bind c k) Q'.
Proof.
  intros Hc Hk r w' HN H. unfold bind in H.
  destruct (c w) as [[a|e|] w1] eqn:E;
    destruct (Hc _ _ HN E) as (X1 & I1 & P1).
  - assert (HN1 : N <= length (heap w1)) by (destruct X1; lia).
    destruct (Hk a w1 HN1 X1 I1 (P1 a eq_refl) _ _ HN1 H) as (X2 & I2 & P2).
    split; [eapply extends_trans; eassumption|]. split; auto.
  - injection H as <- <-. split; [exact X1|]. split; [exact I1|]. discriminate.
  - injection H as <- <-. split; [exact X1|]. split; [exact I1|]. discriminate.
Qed.

Lemma at_attr {A B : Type} N I w attr_name (field : object -> option A) x
  (k : A -> V B) Q :
  (forall r o a, x = Some r -> nth_error (heap w) r = Some o ->
     field o = Some a -> spec_at N I w (k a) Q) ->
  spec_at N I w (bind (attr attr_name field x) k) Q.
Proof.
  intros H. destruct x as [r|].
  - unfold attr. intros y w' HN E. unfold bind at 1 in E.
    unfold bind at 1, load in E.
    destruct (nth_error (heap w) r) as [o|] eqn:Ho.
    + destruct (field o) as [a|] eqn:Hf.
      * exact (H r o a eq_refl Ho Hf y w' HN E).
      * injection E as <- <-.
        split; [apply extends_refl|]. split; [auto|]. discriminate.
    + injection E as <- <-.
      split; [apply extends_refl|]. split; [auto|]. discriminate.
  - intros y w' HN [= <- <-].
    split; [apply extends_refl|]. split; [auto|]. discriminate.
Qed.

Lemma at_isinstance {B : Type} N I w C x (k : bool -> V B) Q :
  (forall b, (x = None /\ b = false)
             \/ (exists r o, x = Some r /\ nth_error (heap w) r = Some o
                             /\ b = C o) ->
     spec_at N I w (k b) Q) ->
  spec_at N I w (bind (isinstance C x) k) Q.
Proof.
  intros H. destruct x as [r|].
  - unfold isinstance. intros y w' HN E. unfold bind at 1 in E.
    unfold bind at 1, load in E.
    destruct (nth_error (heap w) r) as [o|] eqn:Ho.
    + refine (H (C o) _ y w' HN E). right. eauto.
    + injection E as <- <-.
      split; [apply extends_refl|]. split; [auto|]. discriminate.
  - apply (H false). now left.
Qed.

Lemma at_set_type N w r t :
  (r < N -> forall o t0, nth_error (heap w) r = Some o ->
             get_type o <> Some (Some t0)) ->
  spec_at N always w (set_type r t) (fun _ _ => True).
Proof.
  intros G x w' _ E.
  replace w' with (snd (set_type r t w)) by now rewrite E.
  split; [now apply set_type_extends|]. auto.
Qed.

Lemma spec_set_target N d x :
  N <= d -> spec N (types_fresh N) (set_target d x) anything.
Proof.
  intros Hd. apply spec_update; [|lia].
  intros o; destruct o; cbn; repeat split; auto.
Qed.

Lemma at_set_argument N w ft index x :
  N <= ft \/ is_instance isinstance_Literal w ft = true ->
  spec_at N (types_fresh N) w (set_argument ft index x) (fun _ _ => True).
Proof.
  intros Hft. unfold set_argument. apply at_load. intros o Ho.
  destruct o; try apply at_raise.
  destruct (Nat.ltb index (length arguments)); [|apply at_raise].
  apply update_at.
  - intros o Ho'. rewrite Ho in Ho'. injection Ho' as <-.
    split; [split|]; reflexivity.
  - intros Hlt. destruct Hft as [?|Hl]; [lia|].
    unfold is_instance in Hl. rewrite Ho in Hl. discriminate.
Qed.

(** The body of the loop of [Function.resolveCall], for an argument of a
    copy. *)
Lemma retarget_at N fn_type call :
  forall arguments index w,
    types_fresh N w ->
    (forall ft, fn_type = Some ft ->
       N <= ft \/ is_instance isinstance_Literal w ft = true) ->
    Forall (le N) arguments ->
    spec_at N (types_fresh N) w (retarget fn_type call index arguments)
      (fun _ _ => True).
Proof.
  induction arguments as [|arg rest IH]; intros index w F Hft Hargs;
    cbn [retarget]; [now apply at_ret|].
  inversion Hargs as [|? ? Harg Hrest]; subst.
  apply at_attr. intros r o t [= <-] Ho Ht.
  apply at_isinstance. intros is_dependent Hd.
  eapply at_bind_I with (Q := fun _ _ => True).
  - destruct is_dependent; [|now apply at_ret].
    destruct Hd as [[_ ?]|(d & od & -> & Hod & Hdt)]; [discriminate|].
    assert (Hfresh : N <= d).
    { destruct (F arg o d Harg Ho Ht) as [?|Hl]; [assumption|].
      unfold is_instance in Hl. rewrite Hod in Hl.
      destruct od; discriminate. }
    apply at_attr. intros ? ? call_arguments _ _ _.
    destruct (nth_error call_arguments index) as [x|]; [|apply at_raise].
    eapply at_bind.
    + destruct fn_type as [ft|]; [|apply at_raise].
      apply at_set_argument. now apply Hft.
    + intros _ w1 _ _ _. apply at_spec with (P := anything).
      now apply spec_set_target.
  - intros _ w1 HN1 X1 F1 _. apply IH; auto.
    intros ft E. destruct (Hft ft E) as [?|Hl]; [now left|]. right.
    eapply extends_is_Literal; eassumption.
Qed.

Lemma types_fresh_top w : types_fresh (length (heap w)) w.
Proof.
  intros r o t Hr Ho _. exfalso.
  assert (r < length (heap w)) by (apply nth_error_Some; congruence). lia.
Qed.

Lemma at_keep {A : Type} N I w (c : V A) Q :
  I w -> spec_at N I w c Q ->
  spec_at N always w c (fun a w' => Q a w' /\ I w').
Proof.
  intros Hi H r w' HN E. destruct (H r w' HN E) as (X & F & P).
  split; [exact X|]. split; [auto|]. intros a Ha. split; [now apply P|auto].
Qed.

Lemma at_forget {A : Type} N I w (c : V A) Q :
  spec_at N I w c Q -> spec_at N always w c Q.
Proof.
  intros H r w' HN E. destruct (H r w' HN E) as (X & F & P).
  split; [exact X|]. split; [auto|exact P].
Qed.

Lemma at_le {A : Type} N N' w (c : V A) Q :
  N' <= N -> spec_at N always w c Q -> N <= length (heap w) ->
  spec_at N' always w c Q.
Proof.
  intros Hle H HN r w' _ E. destruct (H r w' HN E) as (X & F & P).
  split; [eapply extends_le; eassumption|]. split; [auto|exact P].
Qed.

Lemma spec_specialize N n self call :
  (forall N self, spec N always (verify n self) anything) ->
  spec N always (specialize n self call) anything.
Proof.
  intros IHv w r w' HN E.
  set (N0 := length (heap w)).
  assert (S : spec_at N0 always w (specialize n self call) (fun _ _ => True)).
  { unfold specialize.
    eapply at_bind.
    { apply (at_keep N0 (types_fresh N0)); [apply types_fresh_top | apply copy_at]. }
    intros fn w1 HN1 X1 [(Hlt & Hfn & Hargs) F1].
    apply at_attr. intros ? o arguments [= <-] Ho Hg.
    apply at_attr. intros ? ? fn_type [= <-] Ho' Ht.
    rewrite Ho in Ho'. injection Ho' as <-.
    assert (Hfresh : N0 <= fn).
    { destruct Hfn as [?|Hl]; [assumption|].
      unfold is_instance in Hl. rewrite Ho in Hl. destruct o; discriminate. }
    eapply at_bind.
    { apply (at_forget N0 (types_fresh N0)).
      apply retarget_at; [exact F1| |exact (Hargs _ _ Ho Hg)].
      intros ft ->. exact (F1 fn o ft Hfresh Ho Ht). }
    intros _ w2 _ _ _.
    eapply at_bind; [apply at_spec with (P := anything); apply IHv|].
    intros _ w3 _ _ _. now apply at_ret. }
  destruct (S r w' (Nat.le_refl _) E) as (X & _ & _).
  split; [eapply extends_le; eassumption|]. split; [auto|].
  intros; exact Logic.I.
Qed.

#[local] Hint Extern 1 (spec _ _ (FunctionType_check_arguments _ _) _) =>
  apply spec_FunctionType_check_arguments; intros : spec.
#[local] Hint Extern 1 (spec _ _ (Method_resolveCall _ _) _) =>
  apply spec_Method_resolveCall; intros : spec.
#[local] Hint Extern 1 (spec _ _ (collect_matches _ _ _) _) =>
  apply spec_collect_matches; intros : spec.

Theorem methods_settle : forall n,
  (forall N self, spec N always (verify n self) anything) /\
  (forall N self, spec N always (resolveType n self) anything) /\
  (forall N self, spec N always (resolveValue n self) anything) /\
  (forall N self other,
     spec N always (checkCompatibility n self other) anything) /\
  (forall N self call, spec N always (resolveCall n self call) anything).
Proof.
  induction n as [|n (IHv & IHt & IHx & IHc & IHr)].
  { repeat apply conj; intros; apply spec_out_of_fuel. }
  split; [|split; [|split; [|split]]].
  - (* verify *)
    intros N [self|]; cbn [verify]; [|apply spec_raise].
    eapply spec_bind; [apply spec_load|]. intros o _.
    destruct o; try solve [spec_go].
    (* Assignment *)
    apply spec_of_at with (Q := fun _ _ => True). intros w.
    at_pure. at_pure. at_pure. at_pure.
    assert (tail : forall variable0 w',
      spec_at N always w'
        (verify n (Some value) ;;
         verify n (Some variable0) ;;
         value_type <- resolveType n (Some value) ;;
         t <- attr "type" get_type (Some variable0) ;;
         match t with
         | Some _ =>
             ok <- checkCompatibility n value_type t ;;
             (if negb ok
              then raise (TypeError "Cannot assign value to variable")
              else ret tt)
         | None => set_type variable0 value_type
         end) (fun _ _ => True)).
    { intros variable0 w'. at_pure. at_pure. at_pure.
      apply at_attr. intros r o t [= <-] Ho Ht.
      destruct t as [t|].
      - eapply at_conseq; [apply at_spec with (P := anything); spec_go | auto].
      - eapply at_conseq; [apply at_set_type | auto].
        intros _ o' t0 Ho'. congruence. }
    eapply at_bind with (Q := fun _ _ => True); [|intros; apply tail].
    match goal with
    | |- spec_at _ _ _ (match ?f with _ => _ end) _ =>
        destruct f as [existing|]
    end.
    + apply at_attr. intros r o t [= <-] Ho Ht.
      apply at_attr. intros r' o' declared _ _ _.
      eapply at_bind with (Q := fun _ _ => True).
      * destruct t as [t|].
        -- eapply at_conseq; [apply at_spec with (P := anything); spec_go | auto].
        -- eapply at_conseq; [apply at_set_type | auto].
           intros _ o2 t0 Ho2. congruence.
      * intros. eapply at_conseq;
          [apply at_spec with (P := anything); spec_go | auto].
    + eapply at_conseq; [apply at_spec with (P := anything); spec_go | auto].
  - (* resolveType *)
    intros N [self|]; cbn [resolveType]; [|apply spec_raise].
    eapply spec_bind; [apply spec_load|]. intros o _.
    destruct o; spec_go.
  - (* resolveValue *)
    intros N [self|]; cbn [resolveValue]; [|apply spec_raise].
    eapply spec_bind; [apply spec_load|]. intros o _.
    destruct o; spec_go.
  - (* checkCompatibility *)
    intros N [self|] other; cbn [checkCompatibility]; [|apply spec_raise].
    eapply spec_bind; [apply spec_load|]. intros o _.
    destruct o; spec_go.
  - (* resolveCall *)
    intros N [self|] call; cbn [resolveCall]; [|apply spec_raise].
    eapply spec_bind; [apply spec_load|]. intros o _.
    pose proof (spec_specialize N n self call IHv) as Hs.
    unfold specialize in Hs.
    destruct o; spec_go.
Qed.

(** *** The copy of a function whose arguments have types *)

Lemma typed_variable_extends N w w' r b t :
  extends N w w' -> r < N ->
  nth_error (heap w) r = Some (Variable_ b (Some t)) ->
  exists b', nth_error (heap w') r = Some (Variable_ b' (Some t)).
Proof.
  intros [_ X] Hr Ho. destruct (X r _ Ho) as (o' & Ho' & [K _] & S).
  destruct (S Hr) as (_ & _ & _ & _ & T). specialize (T t eq_refl).
  destruct o'; try discriminate K. cbn in T. injection T as ->. eauto.
Qed.

Lemma typed_chain_le w lo lo' vs :
  lo' <= lo -> typed_chain w lo vs -> typed_chain w lo' vs.
Proof.
  destruct vs as [|v vs]; [auto|]. cbn.
  intros Hle [(b & c & Ho & Hv & Hc & Hf) Hvs]. split; [|exact Hvs].
  exists b, c. repeat split; auto; try lia. destruct Hf; [left; lia | now right].
Qed.

Lemma typed_chain_lt w vs : forall lo,
  typed_chain w lo vs -> Forall (fun v => lo <= v < length (heap w)) vs.
Proof.
  induction vs as [|v vs IH]; intros lo; cbn; [constructor|].
  intros [(b & c & Ho & Hv & Hc & Hf) Hvs]. constructor.
  - split; [exact Hv|]. apply nth_error_Some. congruence.
  - eapply Forall_impl; [|exact (IH _ Hvs)]. cbn. intros; lia.
Qed.

Lemma typed_chain_extends N w w' vs : forall lo,
  extends N w w' -> length (heap w) <= N ->
  typed_chain w lo vs -> typed_chain w' lo vs.
Proof.
  induction vs as [|v vs IH]; intros lo X HN; cbn; [auto|].
  intros [(b & c & Ho & Hv & Hc & Hf) Hvs]. split; [|now apply IH].
  assert (Hlt : v < N).
  { assert (v < length (heap w)) by (apply nth_error_Some; congruence). lia. }
  destruct (typed_variable_extends _ _ _ _ _ _ X Hlt Ho) as (b' & Ho').
  exists b', c. repeat split; auto.
  destruct Hf as [?|Hl]; [now left|]. right.
  eapply extends_is_Literal; eassumption.
Qed.

Lemma typed_chain_typed w lo vs :
  typed_chain w lo vs -> Forall (typed_variable w) vs.
Proof.
  revert lo. induction vs as [|v vs IH]; intros lo; cbn; [constructor|].
  intros [(b & c & Ho & _) Hvs]. constructor; [exists b, c; exact Ho|].
  exact (IH _ Hvs).
Qed.

Lemma typed_variables_extends N w w' vs :
  extends N w w' -> length (heap w) <= N ->
  Forall (typed_variable w) vs -> Forall (typed_variable w') vs.
Proof.
  intros X HN. apply Forall_impl. intros v (b & t & Ho).
  assert (Hlt : v < N).
  { assert (v < length (heap w)) by (apply nth_error_Some; congruence). lia. }
  destruct (typed_variable_extends _ _ _ _ _ _ X Hlt Ho) as (b' & Ho').
  exists b', t. exact Ho'.
Qed.

(** [Variable.copy] of a variable with a type. *)
Lemma copy_typed_variable n w arg b t var w' :
  nth_error (heap w) arg = Some (Variable_ b (Some t)) ->
  copy_ n arg w = (Ok var, w') ->
  length (heap w) <= var /\ S var = length (heap w') /\
  exists b' c,
    nth_error (heap w') var = Some (Variable_ b' (Some c)) /\ c < var /\
    (length (heap w) <= c \/ is_instance isinstance_Literal w' c = true).
Proof.
  intros Ho H. destruct n as [|n]; [discriminate H|].
  cbn [copy_] in H. rewrite (bind_Ok _ _ _ _ _ (load_Ok _ _ _ Ho)) in H.
  apply bind_Ok_inv in H as (t0 & w1 & Hc & H).
  apply bind_Ok_inv in Hc as (c & w1' & Hc & Hr). injection Hr as <- <-.
  apply bind_Ok_inv in H as (var' & w2 & Hv & H).
  injection Hv as <- <-.
  apply bind_Ok_inv in H as ([] & w3 & Hs & H).
  injection Hs as <-. injection H as <- <-.
  destruct (copy_at n _ t w _ _ (Nat.le_refl _) Hc)
    as ([L _] & _ & Hcopied).
  destruct (Hcopied c eq_refl) as (Hlt & Hf & _).
  cbn [heap]. rewrite length_replace, length_app. cbn [length].
  split; [exact L|]. split; [lia|].
  eexists _, c. split.
  - rewrite (nth_error_replace_same _ _ _ _ (nth_error_alloc _ _)).
    cbn. reflexivity.
  - split; [exact Hlt|]. destruct Hf as [?|Hl]; [now left|]. right.
    unfold is_instance in *. cbn [heap]. rewrite nth_error_replace.
    destruct (Nat.eqb_spec c (length (heap w1'))) as [E|_]; [lia|].
    now rewrite nth_error_app1 by exact Hlt.
Qed.

Lemma spec_copy N n self : spec N (types_fresh N) (copy_ n self) anything.
Proof. eapply spec_of_at. intros w. apply copy_at. Qed.

Lemma spec_map_copy N n xs :
  spec N (types_fresh N) (map_M (copy_ n) xs) anything.
Proof.
  eapply spec_any. apply spec_map_M. intros x _. apply spec_copy.
Qed.

Lemma map_copy_typed n : forall arguments w vs w',
  Forall (typed_variable w) arguments ->
  map_M (copy_ n) arguments w = (Ok vs, w') ->
  typed_chain w' (length (heap w)) vs /\ length vs = length arguments.
Proof.
  induction arguments as [|a rest IH]; intros w vs w' Ht H; cbn [map_M] in H.
  - injection H as <- <-. split; [exact Logic.I | reflexivity].
  - inversion Ht as [|? ? (b & t & Ho) Hrest]; subst.
    apply bind_Ok_inv in H as (v & w1 & Hv & H).
    apply bind_Ok_inv in H as (vs' & w2 & Hvs & H). injection H as <- <-.
    destruct (copy_typed_variable _ _ _ _ _ _ _ Ho Hv)
      as (Hlo & Hlen & b' & c & Hov & Hc & Hf).
    destruct (spec_copy (length (heap w)) n a w _ _ (Nat.le_refl _) Hv)
      as (X1 & _).
    destruct (spec_map_copy (length (heap w1)) n rest w1 _ _
                (Nat.le_refl _) Hvs) as (X2 & _).
    destruct (IH w1 vs' w2) as (Hchain & Hl); [|exact Hvs|].
    { eapply typed_variables_extends; [exact X1|lia|exact Hrest]. }
    split; [|cbn; now rewrite Hl]. cbn [typed_chain]. split.
    + assert (Hlt : v < length (heap w1)) by lia.
      destruct (typed_variable_extends _ _ _ _ _ _ X2 Hlt Hov) as (b2 & Hov2).
      exists b2, c. repeat split; auto.
      destruct Hf as [?|Hl']; [now left|]. right.
      eapply extends_is_Literal; eassumption.
    + now rewrite Hlen.
Qed.

Lemma is_function_extends N w w' fn vs ft d :
  extends N w w' -> fn < N ->
  is_function w fn vs ft d -> is_function w' fn vs ft d.
Proof.
  intros [_ X] Hlt (o & Ho & Hc & Hd & Ha & Ht).
  destruct (X fn o Ho) as (o' & Ho' & [K1 K2] & S).
  destruct (S Hlt) as (S1 & _ & _ & _ & S5).
  exists o'. repeat split; auto; congruence.
Qed.

Lemma attr_world {A : Type} attr_name (field : object -> option A) x w r w' :
  attr attr_name field x w = (r, w') -> w' = w.
Proof.
  unfold attr. destruct x as [i|]; [|now intros [= _ <-]].
  unfold bind, load. destruct (nth_error (heap w) i) as [o|];
    [|now intros [= _ <-]].
  destruct (field o); now intros [= _ <-].
Qed.

Lemma map_attr_world {A : Type} attr_name (field : object -> option A) :
  forall xs w r w',
    map_M (fun x => attr attr_name field (Some x)) xs w = (r, w') -> w' = w.
Proof.
  induction xs as [|x xs IH]; intros w r w'; cbn [map_M];
    [now intros [= _ <-]|].
  unfold bind at 1.
  destruct (attr attr_name field (Some x) w) as [[a|e|] w1] eqn:E;
    apply attr_world in E; subst w1; try now intros [= _ <-].
  unfold bind at 1.
  destruct (map_M _ xs w) as [[ys|e|] w1] eqn:E;
    apply IH in E; subst w1; now intros [= _ <-].
Qed.

(** The loop of [Function.__init__] does nothing when every argument has
    a type. *)
Lemma for_each_typed_noop self vs w :
  Forall (typed_variable w) vs ->
  for_each vs (fun arg =>
    t <- attr "type" get_type (Some arg) ;;
    match t with
    | None =>
        d <- DependentType_init [] ;;
        set_type arg (Some d) ;;
        set_dependent self true
    | Some _ => ret tt
    end) w = (Ok tt, w).
Proof.
  induction 1 as [|v vs (b & t & Ho) _ IH]; cbn [for_each]; [reflexivity|].
  rewrite (bind_Ok _ _ w tt w); [exact IH|].
  now rewrite (bind_Ok _ _ _ _ _ (attr_Ok _ get_type _ _ _ _ Ho eq_refl)).
Qed.

(** [Function.__init__] with arguments that all have a type: the new
    function is not dependent. *)
Lemma Function_init_typed constructor name_ vs instructions return_type
  w fn w' :
  Forall (typed_variable w) vs ->
  Function_init constructor name_ vs instructions return_type false w
  = (Ok fn, w') ->
  fn = length (heap w) /\
  exists ft, is_function w' fn vs ft false /\ fn < ft /\
             is_instance isinstance_FunctionType w' ft = true.
Proof.
  intros Ht H. unfold Function_init in H.
  apply bind_Ok_inv in H as (self & w1 & Ha & H). injection Ha as <- <-.
  set (self := length (heap w)) in *.
  set (F0 := Function_ _ _ _ _ _ _ _ _) in H.
  set (w1 := mkWorld (heap w ++ [F0]) (state w)) in H.
  change (Function_init_rest self name_ vs return_type false w1 = (Ok fn, w'))
    in H.
  unfold Function_init_rest in H.
  apply bind_Ok_inv in H as ([] & w2 & H1 & H).
  apply bind_Ok_inv in H as (c2 & w3 & H2 & H).
  apply bind_Ok_inv in H as ([] & w4 & H3 & H).
  apply bind_Ok_inv in H as ([] & w5 & H4 & H).
  apply bind_Ok_inv in H as (types & w6 & H5 & H).
  apply bind_Ok_inv in H as (ft & w7 & H6 & H).
  apply bind_Ok_inv in H as ([] & w8 & H7 & H). injection H as <- <-.
  assert (L1 : length (heap w1) = S self).
  { unfold w1. cbn. rewrite length_app. cbn. lia. }
  assert (X : extends (S self) w1 w4).
  { assert (S1 : spec (S self) (types_fresh (S self))
                   (c <- Context_init (Some self) vs ;;
                    set_local_context self (Some c)) anything) by spec_go.
    destruct (S1 w1 _ _ (Nat.eq_le_incl _ _ (eq_sym L1)) H1) as (X1 & _).
    assert (L2 : S self <= length (heap w2)) by (destruct X1; lia).
    destruct (spec_Context_init (S self) (Some self) [] w2 _ _ L2 H2)
      as (X2 & _).
    assert (L3 : S self <= length (heap w3)) by (destruct X2; lia).
    destruct (spec_set_closed_context (S self) self (Some c2) w3 _ _ L3 H3)
      as (X3 & _).
    eauto using extends_trans. }
  assert (Ht4 : Forall (typed_variable w4) vs).
  { apply (typed_variables_extends (length (heap w)) w w4); [|lia|exact Ht].
    eapply extends_trans; [apply alloc_extends|].
    eapply extends_le; [|exact X]. unfold self. lia. }
  rewrite (for_each_typed_noop self vs w4 Ht4) in H4. injection H4 as <-.
  apply map_attr_world in H5. subst w6.
  injection H6 as <- <-. injection H7 as <-.
  destruct X as [L4 X].
  destruct (X self F0) as (o4 & Ho4 & [K1 K2] & S).
  { unfold w1, self. cbn [heap]. apply nth_error_alloc. }
  destruct (S (Nat.lt_succ_diag_r _)) as (S1 & _ & _ & _ & _).
  assert (Hself : self < length (heap w4)) by lia.
  split; [reflexivity|]. exists (length (heap w4)). split; [|split].
  - eexists. split.
    + cbn [heap]. apply nth_error_replace_same.
      rewrite nth_error_app1 by exact Hself. exact Ho4.
    + destruct o4; try discriminate K1. cbn in *. repeat split; congruence.
  - exact Hself.
  - unfold is_instance. cbn [heap]. rewrite nth_error_replace.
    destruct (Nat.eqb_spec (length (heap w4)) self) as [E|_]; [lia|].
    now rewrite nth_error_alloc.
Qed.

Lemma kept_FunctionType o o' :
  kept o o' -> isinstance_FunctionType o' = isinstance_FunctionType o.
Proof. intros [K _]. destruct o, o'; try discriminate K; reflexivity. Qed.

Lemma extends_is_instance N w w' C r :
  (forall o o', kept o o' -> C o' = C o) ->
  extends N w w' -> r < length (heap w) ->
  is_instance C w' r = is_instance C w r.
Proof.
  intros HC [_ H] Hr. unfold is_instance.
  destruct (nth_error (heap w) r) as [o|] eqn:Ho.
  - destruct (H r o Ho) as (o' & -> & K & _). now apply HC.
  - apply nth_error_None in Ho. lia.
Qed.

(** [Variable.copy] of a variable whose type is a [DependentType]: the
    type of the copy is a new [DependentType]. *)
Lemma copy_dependent_variable n w a ba c v w' :
  nth_error (heap w) a = Some (Variable_ ba (Some c)) ->
  is_instance isinstance_DependentType w c = true ->
  copy_ n a w = (Ok v, w') ->
  exists bv c',
    nth_error (heap w') v = Some (Variable_ bv (Some c')) /\
    is_instance isinstance_DependentType w' c' = true /\
    length (heap w) <= c'.
Proof.
  intros Ho Hd H. destruct n as [|n]; [discriminate H|].
  cbn [copy_] in H. rewrite (bind_Ok _ _ _ _ _ (load_Ok _ _ _ Ho)) in H.
  apply bind_Ok_inv in H as (t0 & w1 & Hc & H).
  apply bind_Ok_inv in Hc as (c' & w1' & Hc & Hr). injection Hr as <- <-.
  apply bind_Ok_inv in H as (var' & w2 & Hv & H).
  injection Hv as <- <-.
  apply bind_Ok_inv in H as ([] & w3 & Hs & H).
  injection Hs as <-. injection H as <- <-.
  destruct n as [|n]; [discriminate Hc|].
  unfold is_instance in Hd.
  destruct (nth_error (heap w) c) as [oc|] eqn:Hoc; [|discriminate Hd].
  destruct oc; try discriminate Hd.
  cbn [copy_] in Hc. rewrite (bind_Ok _ _ _ _ _ (load_Ok _ _ _ Hoc)) in Hc.
  injection Hc as <- <-.
  cbn [heap]. eexists _, (length (heap w)). split; [|split].
  - rewrite (nth_error_replace_same _ _ _ _ (nth_error_alloc _ _)).
    cbn. reflexivity.
  - unfold is_instance. cbn [heap]. rewrite nth_error_replace.
    rewrite length_app. cbn [length].
    destruct (Nat.eqb_spec (length (heap w)) (length (heap w) + 1)) as [E|_];
      [lia|].
    rewrite nth_error_app1 by (rewrite length_app; cbn [length]; lia).
    now rewrite nth_error_alloc.
  - apply Nat.le_refl.
Qed.

(** The copies of the arguments of a function: where an argument has a
    [DependentType] as its type, so has its copy, a new one. *)
Lemma map_copy_dependent n : forall arguments w vs w',
  Forall (typed_variable w) arguments ->
  map_M (copy_ n) arguments w = (Ok vs, w') ->
  forall i a ba c,
    nth_error arguments i = Some a ->
    nth_error (heap w) a = Some (Variable_ ba (Some c)) ->
    is_instance isinstance_DependentType w c = true ->
    exists v bv c',
      nth_error vs i = Some v /\
      nth_error (heap w') v = Some (Variable_ bv (Some c')) /\
      is_instance isinstance_DependentType w' c' = true /\
      length (heap w) <= c'.
Proof.
  induction arguments as [|a0 rest IH]; intros w vs w' Ht H i a ba c Hi Ha Hd;
    [destruct i; discriminate Hi|].
  cbn [map_M] in H.
  inversion Ht as [|? ? (b0 & t0 & Ho) Hrest]; subst.
  apply bind_Ok_inv in H as (v & w1 & Hv & H).
  apply bind_Ok_inv in H as (vs' & w2 & Hvs & H). injection H as <- <-.
  destruct (spec_copy (length (heap w)) n a0 w _ _ (Nat.le_refl _) Hv)
    as (X1 & _).
  destruct (spec_map_copy (length (heap w1)) n rest w1 _ _
              (Nat.le_refl _) Hvs) as (X2 & _).
  assert (L1 : length (heap w) <= length (heap w1)) by (destruct X1; lia).
  destruct i as [|i].
  - cbn [nth_error] in Hi. injection Hi as <-.
    destruct (copy_dependent_variable _ _ _ _ _ _ _ Ha Hd Hv)
      as (bv & c' & Hov & Hdc & Hlo).
    assert (Hvlt : v < length (heap w1))
      by (apply nth_error_Some; congruence).
    assert (Hclt : c' < length (heap w1)).
    { unfold is_instance in Hdc.
      destruct (nth_error (heap w1) c') eqn:E; [|discriminate Hdc].
      apply nth_error_Some. congruence. }
    destruct (typed_variable_extends _ _ _ _ _ _ X2 Hvlt Hov) as (b2 & Hov2).
    exists v, b2, c'. split; [reflexivity|]. split; [exact Hov2|].
    split; [|exact Hlo].
    rewrite (extends_is_instance _ _ _ _ _ kept_DependentType X2 Hclt).
    exact Hdc.
  - cbn [nth_error] in Hi.
    assert (Halt : a < length (heap w)) by (apply nth_error_Some; congruence).
    assert (Hclt : c < length (heap w)).
    { unfold is_instance in Hd.
      destruct (nth_error (heap w) c) eqn:E; [|discriminate Hd].
      apply nth_error_Some. congruence. }
    destruct (typed_variable_extends _ _ _ _ _ _ X1 Halt Ha) as (b1 & Ha1).
    assert (Hd1 : is_instance isinstance_DependentType w1 c = true).
    { rewrite (extends_is_instance _ _ _ _ _ kept_DependentType X1 Hclt).
      exact Hd. }
    assert (Hrest1 : Forall (typed_variable w1) rest).
    { eapply typed_variables_extends; [exact X1|lia|exact Hrest]. }
    destruct (IH w1 vs' w2 Hrest1 Hvs i a b1 c Hi Ha1 Hd1)
      as (v' & bv & c' & H1 & H2 & H3 & H4).
    exists v', bv, c'. split; [exact H1|]. split; [exact H2|].
    split; [exact H3|lia].
Qed.

(** [Function.copy] of a function whose arguments have types. *)
Lemma copy_function_typed n w f b k l c arguments instructions type_ v
  fn w' :
  nth_error (heap w) f
  = Some (Function_ b k l c arguments instructions type_ v) ->
  Forall (typed_variable w) arguments ->
  copy_ n f w = (Ok fn, w') ->
  extends (length (heap w)) w w' /\ types_fresh (length (heap w)) w' /\
  length (heap w) <= fn /\
  exists vs ft,
    length vs = length arguments /\
    typed_chain w' (length (heap w)) vs /\
    Forall (fun x => x < fn) vs /\
    is_function w' fn vs ft false /\ fn < ft /\
    is_instance isinstance_FunctionType w' ft = true /\
    forall i a ba c0,
      nth_error arguments i = Some a ->
      nth_error (heap w) a = Some (Variable_ ba (Some c0)) ->
      is_instance isinstance_DependentType w c0 = true ->
      exists v bv c',
        nth_error vs i = Some v /\
        nth_error (heap w') v = Some (Variable_ bv (Some c')) /\
        is_instance isinstance_DependentType w' c' = true /\
        length (heap w) <= c'.
Proof.
  intros Ho Ht H.
  destruct (copy_at n _ f w _ _ (Nat.le_refl _) H) as (X & F & _).
  split; [exact X|]. split; [apply F, types_fresh_top|].
  destruct n as [|n]; [discriminate H|].
  cbn [copy_] in H. rewrite (bind_Ok _ _ _ _ _ (load_Ok _ _ _ Ho)) in H.
  apply bind_Ok_inv in H as (vs & w1 & Hvs & H).
  apply bind_Ok_inv in H as (ins & w2 & Hins & H).
  apply bind_Ok_inv in H as (rt & w3 & Hrt & H).
  apply attr_world in Hrt. subst w3.
  apply bind_Ok_inv in H as (fn' & w4 & Hfn & H).
  apply bind_Ok_inv in H as (st & w5 & Hst & H).
  apply attr_world in Hst. subst w5.
  apply bind_Ok_inv in H as ([] & w6 & Hset & H). injection H as <- <-.
  destruct (map_copy_typed _ _ _ _ _ Ht Hvs) as (C1 & Hlen).
  assert (L1 : length (heap w) <= length (heap w1)).
  { destruct (spec_map_copy 0 n arguments w _ _ (Nat.le_0_l _) Hvs)
      as ([L _] & _). exact L. }
  destruct (spec_map_copy (length (heap w1)) n instructions w1 _ _
              (Nat.le_refl _) Hins) as (X2 & _).
  assert (C2 : typed_chain w2 (length (heap w)) vs).
  { eapply typed_chain_extends; [exact X2|lia|exact C1]. }
  destruct (Function_init_typed _ _ _ _ _ _ _ _
              (typed_chain_typed _ _ _ C2) Hfn) as (-> & ft & Hf & Hlt & Hft).
  destruct (spec_Function_init (length (heap w2)) false (name b) vs ins rt
              false w2 _ _ (Nat.le_refl _) Hfn) as (X4 & _).
  assert (Hex : length (heap w2) < length (heap w4)).
  { destruct Hf as (o & Hof & _).
    apply nth_error_Some. congruence. }
  assert (Hftex : ft < length (heap w4)).
  { unfold is_instance in Hft.
    destruct (nth_error (heap w4) ft) eqn:E; [|discriminate].
    apply nth_error_Some. congruence. }
  destruct (spec_set_static (length (heap w4)) (length (heap w2)) st w4 _ _
              (Nat.le_refl _) Hset) as (X6 & _).
  split; [destruct X2; lia|]. exists vs, ft.
  split; [exact Hlen|]. split.
  { eapply typed_chain_extends; [exact X6|lia|].
    eapply typed_chain_extends; [exact X4|lia|exact C2]. }
  split.
  { eapply Forall_impl; [|exact (typed_chain_lt _ _ _ C2)]. cbn. intros; lia. }
  split; [eapply is_function_extends; eassumption|]. split; [exact Hlt|].
  split.
  { rewrite (extends_is_instance _ _ _ _ _ kept_FunctionType X6 Hftex).
    exact Hft. }
  intros i a ba c0 Hi Ha Hd.
  destruct (map_copy_dependent _ _ _ _ _ Ht Hvs _ _ _ _ Hi Ha Hd)
    as (v0 & bv & c' & H1 & H2 & H3 & H4).
  assert (Hv1 : v0 < length (heap w1)) by (apply nth_error_Some; congruence).
  assert (Hc1 : c' < length (heap w1)).
  { unfold is_instance in H3.
    destruct (nth_error (heap w1) c') eqn:E; [|discriminate H3].
    apply nth_error_Some. congruence. }
  assert (L2 : length (heap w1) <= length (heap w2)) by (destruct X2; lia).
  assert (X14 : extends (length (heap w1)) w1 w4).
  { eapply extends_trans; [exact X2|].
    eapply extends_le; [|exact X4]. lia. }
  assert (X16 : extends (length (heap w1)) w1 w6).
  { eapply extends_trans; [exact X14|].
    eapply extends_le; [|exact X6]. lia. }
  destruct (typed_variable_extends _ _ _ _ _ _ X16 Hv1 H2) as (b6 & Hv6).
  exists v0, b6, c'. split; [exact H1|]. split; [exact Hv6|].
  split; [|exact H4].
  rewrite (extends_is_instance _ _ _ _ _ kept_DependentType X16 Hc1).
  exact H3.
Qed.

(** *** What the loop of [Function.resolveCall] sets *)

Lemma length_list_set {A : Type} i (x : A) l :
  length (list_set i x l) = length l.
Proof. revert i. induction l as [|y l IH]; intros [|i]; cbn; auto. Qed.

Lemma nth_error_list_set_same {A : Type} i (x : A) l :
  i < length l -> nth_error (list_set i x l) i = Some x.
Proof.
  revert i. induction l as [|y l IH]; intros [|i]; cbn; try lia; auto.
  intros H. apply IH. lia.
Qed.

Lemma nth_error_list_set_other {A : Type} i j (x : A) l :
  j <> i -> nth_error (list_set i x l) j = nth_error l j.
Proof.
  revert i j. induction l as [|y l IH]; intros [|i] [|j] H; cbn; auto;
    try congruence.
Qed.

Lemma typed_chain_frame w w' vs : forall lo,
  (forall r o, nth_error (heap w) r = Some o ->
     class_of o = c_Variable \/ class_of o = c_Literal ->
     nth_error (heap w') r = Some o) ->
  typed_chain w lo vs -> typed_chain w' lo vs.
Proof.
  intros lo H. revert lo. induction vs as [|v vs IH]; intros lo; cbn; [auto|].
  intros [(b & c & Ho & Hv & Hc & Hf) Hvs]. split; [|now apply IH].
  exists b, c. split; [apply (H v _ Ho); now left|].
  split; [exact Hv|]. split; [exact Hc|].
  destruct Hf as [?|Hl]; [now left|]. right. unfold is_instance in *.
  destruct (nth_error (heap w) c) as [o|] eqn:E; [|discriminate].
  rewrite (H c o E); [exact Hl|]. right. now destruct o.
Qed.

Lemma retarget_effect ft call xs bf rt vf : forall vs k lo w w' targs,
  typed_chain w lo vs ->
  nth_error (heap w) ft = Some (FunctionType bf targs rt vf) ->
  (exists oc, nth_error (heap w) call = Some oc /\ get_arguments oc = Some xs) ->
  call <> ft ->
  retarget (Some ft) call k vs w = (Ok tt, w') ->
  (forall j v, nth_error vs j = Some v -> retargeted w' ft xs (k + j) v) /\
  (forall r, r < lo -> r <> ft ->
     nth_error (heap w') r = nth_error (heap w) r) /\
  (forall r o, nth_error (heap w) r = Some o -> r <> ft ->
     isinstance_DependentType o = false -> nth_error (heap w') r = Some o) /\
  (exists targs',
     nth_error (heap w') ft = Some (FunctionType bf targs' rt vf) /\
     length targs' = length targs /\
     forall i, i < k -> nth_error targs' i = nth_error targs i).
Proof.
  induction vs as [|v vs IH]; intros k lo w w' targs Hchain Hft Hcall Hne H.
  { injection H as <-. split; [intros [|j] ?; discriminate|].
    split; [reflexivity|]. split; [auto|]. exists targs. auto. }
  destruct Hchain as [(b & c & Hov & Hlo & Hcv & Hf) Hchain].
  destruct Hcall as (oc & Hoc & Hxs).
  cbn [retarget] in H.
  rewrite (bind_Ok _ _ _ _ _ (attr_Ok _ get_type _ _ _ _ Hov eq_refl)) in H.
  apply bind_Ok_inv in H as (isd & w0 & Hd & H). unfold isinstance in Hd.
  assert (Hvlt : v < length (heap w)) by (apply nth_error_Some; congruence).
  destruct (nth_error (heap w) c) as [od|] eqn:Hod;
    [|apply nth_error_None in Hod; lia].
  rewrite (bind_Ok _ _ _ _ _ (load_Ok _ _ _ Hod)) in Hd.
  injection Hd as <- <-.
  apply bind_Ok_inv in H as ([] & w2 & Hstep & H).
  assert (Hvft : v <> ft) by (intros ->; congruence).
  destruct (isinstance_DependentType od) eqn:Hisd.
  - (* the type of the argument is a DependentType *)
    destruct od as [| | |bd cs t0| | | | | | | | | | | | | | |];
      try discriminate Hisd.
    assert (Hcft : c <> ft) by (intros ->; congruence).
    assert (Hcall_c : call <> c).
    { intros ->. rewrite Hod in Hoc. injection Hoc as <-. discriminate Hxs. }
    assert (Hclo : lo <= c).
    { destruct Hf as [?|Hl]; [assumption|].
      unfold is_instance in Hl. rewrite Hod in Hl. discriminate Hl. }
    rewrite (bind_Ok _ _ _ _ _ (attr_Ok _ get_arguments _ _ _ _ Hoc Hxs))
      in Hstep.
    destruct (nth_error xs k) as [x|] eqn:Hx; [|discriminate Hstep].
    apply bind_Ok_inv in Hstep as ([] & w1 & Hsa & Hst).
    unfold set_argument in Hsa.
    rewrite (bind_Ok _ _ _ _ _ (load_Ok _ _ _ Hft)) in Hsa.
    destruct (Nat.ltb k (length targs)) eqn:Hk; [|discriminate Hsa].
    apply Nat.ltb_lt in Hk.
    injection Hsa as <-. injection Hst as <-.
    set (w2 := mkWorld _ _) in *.
    assert (Fr : forall r, r <> ft -> r <> c ->
                   nth_error (heap w2) r = nth_error (heap w) r).
    { intros r H1 H2. unfold w2. cbn [heap]. rewrite !nth_error_replace.
      destruct (Nat.eqb_spec r c); [contradiction|].
      destruct (Nat.eqb_spec r ft); [contradiction|]. reflexivity. }
    assert (Hft2 : nth_error (heap w2) ft
                   = Some (FunctionType bf (list_set k x targs) rt vf)).
    { unfold w2. cbn [heap]. rewrite !nth_error_replace.
      destruct (Nat.eqb_spec ft c) as [E|_]; [congruence|].
      rewrite Nat.eqb_refl, Hft. reflexivity. }
    assert (Hc2 : nth_error (heap w2) c = Some (DependentType bd cs x)).
    { unfold w2. cbn [heap]. rewrite !nth_error_replace.
      rewrite Nat.eqb_refl.
      destruct (Nat.eqb_spec c ft) as [E|_]; [congruence|].
      rewrite Hod. reflexivity. }
    assert (Hchain2 : typed_chain w2 (S v) vs).
    { apply (typed_chain_frame w); [|exact Hchain].
      intros r o Hr Hclass. rewrite Fr; [exact Hr| |].
      - intros ->. rewrite Hft in Hr. injection Hr as <-.
        destruct Hclass; discriminate.
      - intros ->. rewrite Hod in Hr. injection Hr as <-.
        destruct Hclass; discriminate. }
    destruct (IH (S k) (S v) w2 w' (list_set k x targs) Hchain2 Hft2)
      as (R1 & R2 & R2b & targs' & R3 & R4 & R5); [|exact Hne|exact H|].
    { exists oc. split; [|exact Hxs]. now rewrite Fr. }
    split; [|split; [|split]].
    + intros [|j] u Hu.
      * injection Hu as <-. exists b, c. split.
        { rewrite R2, Fr by (auto; lia). exact Hov. }
        intros _. exists x. rewrite Nat.add_0_r. split; [exact Hx|].
        split.
        { exists (DependentType bd cs x). split; [|reflexivity].
          rewrite R2 by (auto; lia). exact Hc2. }
        eexists _, targs'. split; [exact R3|]. split; [reflexivity|].
        rewrite R5 by lia. now apply nth_error_list_set_same.
      * replace (k + S j) with (S k + j) by lia. now apply R1.
    + intros r Hr Hrft. rewrite R2 by (auto; lia). apply Fr; [exact Hrft|lia].
    + intros r o Hr Hrft Hnd. apply R2b; [|exact Hrft|exact Hnd].
      rewrite Fr; [exact Hr|exact Hrft|].
      intros ->. rewrite Hod in Hr. injection Hr as <-. discriminate Hnd.
    + exists targs'. split; [exact R3|].
      split; [now rewrite R4, length_list_set|].
      intros i Hi. rewrite R5 by lia. apply nth_error_list_set_other. lia.
  - (* any other type *)
    injection Hstep as <-.
    destruct (IH (S k) (S v) w w' targs Hchain Hft)
      as (R1 & R2 & R2b & targs' & R3 & R4 & R5); [eauto|exact Hne|exact H|].
    split; [|split; [|split]].
    + intros [|j] u Hu.
      * injection Hu as <-. exists b, c. split.
        { rewrite R2 by (auto; lia). exact Hov. }
        intros Hdt. exfalso. unfold is_instance in Hdt.
        destruct (Nat.eq_dec c ft) as [->|Hcft].
        -- rewrite R3 in Hdt. discriminate Hdt.
        -- rewrite R2, Hod, Hisd in Hdt by (auto; lia). discriminate Hdt.
      * replace (k + S j) with (S k + j) by lia. now apply R1.
    + intros r Hr Hrft. apply R2; [lia|exact Hrft].
    + exact R2b.
    + exists targs'. split; [exact R3|]. split; [exact R4|].
      intros i Hi. apply R5. lia.
Qed.

(** *** [Function.resolveCall] on a dependent function *)

Lemma typed_chain_nth w vs : forall lo i v,
  typed_chain w lo vs -> nth_error vs i = Some v ->
  exists b c, nth_error (heap w) v = Some (Variable_ b (Some c)) /\ c < v.
Proof.
  induction vs as [|u vs IH]; intros lo [|i] v; cbn; try discriminate.
  - intros [(b & c & Ho & _ & Hc & _) _] [= <-]. eauto.
  - intros [_ H] Hi. eapply IH; eassumption.
Qed.

Lemma retargeted_extends N w w' ft xs i v :
  extends N w w' -> length (heap w) <= N ->
  (forall b c, nth_error (heap w) v = Some (Variable_ b (Some c)) ->
     c < length (heap w)) ->
  retargeted w ft xs i v -> retargeted w' ft xs i v.
Proof.
  intros X HN Hc (b & c & Hv & H). pose proof X as [_ Hx].
  assert (Hvlt : v < N).
  { assert (v < length (heap w)) by (apply nth_error_Some; congruence). lia. }
  destruct (typed_variable_extends _ _ _ _ _ _ X Hvlt Hv) as (b' & Hv').
  exists b', c. split; [exact Hv'|]. intros Hdt.
  rewrite (extends_is_instance _ _ _ _ _ kept_DependentType X (Hc _ _ Hv))
    in Hdt.
  destruct (H Hdt) as (x & Hx1 & (o & Ho & Ht) & (o2 & targs & Ho2 & Ha & Hn)).
  exists x. split; [exact Hx1|]. split.
  - destruct (Hx c o Ho) as (o' & Ho' & _ & S).
    assert (c < N) by (specialize (Hc _ _ Hv); lia).
    destruct (S H0) as (_ & S2 & _). exists o'. split; [exact Ho'|congruence].
  - destruct (Hx ft o2 Ho2) as (o' & Ho' & _ & S).
    assert (ft < N).
    { assert (ft < length (heap w)) by (apply nth_error_Some; congruence). lia. }
    destruct (S H0) as (_ & _ & S3 & _). exists o', targs.
    split; [exact Ho'|]. split; [congruence|exact Hn].
Qed.

(** A function that has been verified is marked verified. *)
Lemma verify_sets_verified n fn w w' :
  is_instance isinstance_Function w fn = true ->
  verify n (Some fn) w = (Ok tt, w') ->
  exists o, nth_error (heap w') fn = Some o /\ get_verified o = Some true.
Proof.
  intros Hf H. unfold is_instance in Hf.
  destruct (nth_error (heap w) fn) as [o|] eqn:Ho; [|discriminate].
  destruct o; try discriminate Hf.
  destruct n as [|n]; [discriminate H|]. cbn [verify] in H.
  rewrite (bind_Ok _ _ _ _ _ (load_Ok _ _ _ Ho)) in H.
  destruct verified.
  - injection H as <-. eauto.
  - apply bind_Ok_inv in H as ([] & w1 & Hs & H). injection Hs as <-.
    set (w1 := mkWorld _ _) in H.
    destruct (methods_settle n) as (IHv & _).
    assert (S : spec (length (heap w1)) always
                  (State_scoped fn
                     (verify n type_ ;;
                      for_each instructions
                        (fun instruction => verify n (Some instruction)) ;;
                      (if constructor then Constructor_verifySelf fn
                       else Function_verifySelf fn))) anything) by spec_go.
    destruct (S w1 _ _ (Nat.le_refl _) H) as ([_ X] & _).
    assert (H1 : nth_error (heap w1) fn
                 = Some (Function_ b constructor _local_context closed_context
                           arguments instructions type_ true)).
    { unfold w1. cbn [heap]. now rewrite (nth_error_replace_same _ _ _ _ Ho). }
    destruct (X fn _ H1) as (o' & Ho' & _ & St).
    assert (Hlt : fn < length (heap w1))
      by (apply nth_error_Some; congruence).
    destruct (St Hlt) as (_ & _ & _ & S4 & _).
    exists o'. split; [exact Ho'|]. now apply S4.
Qed.

Lemma extends_Function N w w' f b k l c arguments instructions type_ verified :
  extends N w w' -> f < N ->
  nth_error (heap w) f
  = Some (Function_ b k l c arguments instructions type_ verified) ->
  exists b' k' l' c' i' t' v',
    nth_error (heap w') f = Some (Function_ b' k' l' c' arguments i' t' v')
    /\ dependent b' = dependent b.
Proof.
  intros [_ X] Hlt Ho. destruct (X f _ Ho) as (o' & Ho' & [K1 K2] & S).
  destruct (S Hlt) as (S1 & _).
  destruct o'; try discriminate K1. cbn in K2, S1.
  injection K2 as <-. injection S1 as S1.
  do 7 eexists. split; [exact Ho'|]. now symmetry.
Qed.

Lemma extends_DependentType N w w' d bd cs t :
  extends N w w' -> d < N ->
  nth_error (heap w) d = Some (DependentType bd cs t) ->
  exists bd' cs', nth_error (heap w') d = Some (DependentType bd' cs' t).
Proof.
  intros [_ X] Hlt Ho. destruct (X d _ Ho) as (o' & Ho' & [K1 _] & S).
  destruct (S Hlt) as (_ & S2 & _).
  destruct o'; try discriminate K1. cbn in S2. injection S2 as <-. eauto.
Qed.

Lemma retargeted_resolved w lo ft xs i v b c :
  retargeted w ft xs i v ->
  nth_error (heap w) v = Some (Variable_ b (Some c)) ->
  is_instance isinstance_DependentType w c = true ->
  lo <= c ->
  resolved w lo ft xs i v.
Proof.
  intros (b0 & c0 & Hv0 & H) Hv Hd Hlo.
  assert (c0 = c) by congruence. subst c0.
  destruct (H Hd) as (x & Hx & (o & Ho & Ht) & (o2 & targs & Ho2 & Ha & Hn)).
  unfold is_instance in Hd. rewrite Ho in Hd.
  destruct o as [| | |bd cs t| | | | | | | | | | | | | | |];
    try discriminate Hd.
  cbn in Ht. injection Ht as ->.
  exists b, c, x, bd, cs, o2, targs. repeat split; assumption.
Qed.

Lemma resolveCall_specializes n f call w r w' b k l c arguments instructions
  type_ verified bc xs rc vc :
  nth_error (heap w) f
  = Some (Function_ b k l c arguments instructions type_ verified) ->
  dependent b = true ->
  Forall (typed_variable w) arguments ->
  nth_error (heap w) call = Some (FunctionType bc xs rc vc) ->
  resolveCall n (Some f) call w = (Ok r, w') ->
  length (heap w) <= r /\
  extends (length (heap w)) w w' /\
  exists vs ft,
    length vs = length arguments /\
    is_function w' r vs ft false /\
    (exists o, nth_error (heap w') r = Some o /\ get_verified o = Some true) /\
    (forall i v, nth_error vs i = Some v -> retargeted w' ft xs i v) /\
    forall i a ba c0,
      nth_error arguments i = Some a ->
      nth_error (heap w) a = Some (Variable_ ba (Some c0)) ->
      is_instance isinstance_DependentType w c0 = true ->
      exists v, nth_error vs i = Some v /\
                resolved w' (length (heap w)) ft xs i v.
Proof.
  intros Hf Hdep Hargs Hcall H.
  set (N := length (heap w)).
  assert (Hflt : f < N) by (apply nth_error_Some; congruence).
  assert (Hclt : call < N) by (apply nth_error_Some; congruence).
  destruct n as [|n]; [discriminate H|].
  destruct (methods_settle n) as (IHv & IHt & _ & IHc & _).
  cbn [resolveCall] in H.
  rewrite (bind_Ok _ _ _ _ _ (load_Ok _ _ _ Hf)) in H.
  apply bind_Ok_inv in H as (t & w1 & Ht & H).
  destruct (IHt N _ w _ _ (Nat.le_refl _) Ht) as (X1 & _).
  assert (L1 : N <= length (heap w1)) by (destruct X1; exact H0 || lia).
  apply bind_Ok_inv in H as (ok & w2 & Hok & H).
  destruct (IHc N _ _ w1 _ _ L1 Hok) as (X2 & _).
  assert (X02 : extends N w w2) by eauto using extends_trans.
  assert (L2 : N <= length (heap w2)) by (destruct X02; lia).
  destruct (negb ok); [discriminate H|].
  destruct (extends_Function _ _ _ _ _ _ _ _ _ _ _ _ X02 Hflt Hf)
    as (b2 & k2 & l2 & c2 & i2 & t2 & v2 & Hf2 & Hd2).
  rewrite (bind_Ok _ _ _ _ _ (attr_Ok _ get_dependent _ _ _ _ Hf2 eq_refl))
    in H.
  cbn [bound option_map] in H. rewrite Hd2, Hdep in H. cbn [negb] in H.
  apply bind_Ok_inv in H as (fn & w4 & Hcopy & H).
  assert (Hargs2 : Forall (typed_variable w2) arguments).
  { eapply typed_variables_extends; [exact X02|unfold N; lia|exact Hargs]. }
  destruct (copy_function_typed _ _ _ _ _ _ _ _ _ _ _ _ _ Hf2 Hargs2 Hcopy)
    as (X4 & F4 & Hfn & vs & ft & Hlen & Hchain & Hvs & Hisf & Hft & Hisft
        & Hdepc).
  destruct Hisf as (ofn & Hofn & Hcl & Hdp & Hga & Hty).
  rewrite (bind_Ok _ _ _ _ _
             (attr_Ok _ get_function_arguments _ _ _ _ Hofn Hga)) in H.
  rewrite (bind_Ok _ _ _ _ _ (attr_Ok _ get_type _ _ _ _ Hofn Hty)) in H.
  apply bind_Ok_inv in H as ([] & w6 & Hre & H).
  apply bind_Ok_inv in H as ([] & w7 & Hver & H). injection H as <- <-.
  assert (L4 : length (heap w2) <= length (heap w4)) by (destruct X4; lia).
  (* the call signature is where it was *)
  assert (X04 : extends N w w4).
  { eapply extends_trans; [exact X02|]. eapply extends_le; [|exact X4]. lia. }
  assert (Hcall4 : exists oc, nth_error (heap w4) call = Some oc
                              /\ get_arguments oc = Some xs).
  { destruct X04 as [_ X]. destruct (X call _ Hcall) as (oc & Hoc & _ & S).
    destruct (S Hclt) as (_ & _ & S3 & _). exists oc. split; [exact Hoc|].
    now rewrite <- S3. }
  (* the type of the copy *)
  unfold is_instance in Hisft.
  destruct (nth_error (heap w4) ft) as [oft|] eqn:Hoft; [|discriminate].
  destruct oft as [| | | | | |bf targs rt vf| | | | | | | | | | | |];
    try discriminate Hisft.
  destruct (retarget_effect ft call xs bf rt vf vs 0 _ w4 w6 targs
              Hchain Hoft Hcall4) as (R1 & R2 & R2b & targs' & R3 & _);
    [lia|exact Hre|].
  assert (X46 : extends (length (heap w2)) w4 w6).
  { refine (proj1 (retarget_at (length (heap w2)) (Some ft) call vs 0 w4
                     F4 _ _ _ _ L4 Hre)).
    - intros ? [= <-]. left. lia.
    - eapply Forall_impl; [|exact (typed_chain_lt _ _ _ Hchain)].
      cbn. intros; lia. }
  assert (Hofn6 : nth_error (heap w6) fn = Some ofn).
  { apply R2b; [exact Hofn|lia|]. now destruct ofn. }
  assert (Hfn6 : fn < length (heap w6)) by (apply nth_error_Some; congruence).
  assert (Hft6 : ft < length (heap w6)) by (apply nth_error_Some; congruence).
  destruct (IHv (length (heap w6)) _ w6 _ _ (Nat.le_refl _) Hver) as (X67 & _).
  split; [unfold N in *; lia|]. split.
  { eapply extends_trans; [exact X04|].
    eapply extends_trans; [eapply extends_le; [|exact X46]; lia|].
    eapply extends_le; [|exact X67]. destruct X46; lia. }
  exists vs, ft. split; [exact Hlen|]. split.
  { apply (is_function_extends _ _ _ _ _ _ _ X67 Hfn6).
    exists ofn. auto. }
  split.
  { apply (verify_sets_verified n fn w6 w7); [|exact Hver].
    unfold is_instance. rewrite Hofn6. now destruct ofn. }
  assert (Hret : forall i v, nth_error vs i = Some v ->
                   retargeted w7 ft xs i v).
  { intros i v Hi.
    apply (retargeted_extends _ _ _ _ _ _ _ X67 (Nat.le_refl _)).
    - intros bv cv Hv.
      destruct (typed_chain_nth _ _ _ _ _ Hchain Hi)
        as (bv' & cv' & Hv4 & Hlt).
      assert (Hv6 : nth_error (heap w6) v = Some (Variable_ bv' (Some cv')))
        by (apply R2b; [exact Hv4| |reflexivity];
            intros ->; congruence).
      assert (cv = cv') by congruence. subst cv'.
      assert (v < length (heap w6)) by (apply nth_error_Some; congruence).
      lia.
    - exact (R1 i v Hi). }
  split; [exact Hret|].
  intros i a ba c0 Hi Ha Hd.
  assert (Halt : a < N) by (apply nth_error_Some; congruence).
  assert (Hc0lt : c0 < N).
  { unfold is_instance in Hd.
    destruct (nth_error (heap w) c0) eqn:E; [|discriminate Hd].
    apply nth_error_Some. congruence. }
  destruct (typed_variable_extends _ _ _ _ _ _ X02 Halt Ha) as (ba2 & Ha2).
  assert (Hd2' : is_instance isinstance_DependentType w2 c0 = true).
  { rewrite (extends_is_instance _ _ _ _ _ kept_DependentType X02 Hc0lt).
    exact Hd. }
  destruct (Hdepc _ _ _ _ Hi Ha2 Hd2') as (v & bv & c' & Hv & Hv4 & Hd4 & Hlo).
  exists v. split; [exact Hv|].
  assert (Hv6 : nth_error (heap w6) v = Some (Variable_ bv (Some c')))
    by (apply R2b; [exact Hv4| |reflexivity]; intros ->; congruence).
  assert (Hvlt6 : v < length (heap w6)) by (apply nth_error_Some; congruence).
  destruct (typed_variable_extends _ _ _ _ _ _ X67 Hvlt6 Hv6) as (bv7 & Hv7).
  assert (Hc4 : c' < length (heap w4)).
  { unfold is_instance in Hd4.
    destruct (nth_error (heap w4) c') eqn:E; [|discriminate Hd4].
    apply nth_error_Some. congruence. }
  assert (Hd6 : is_instance isinstance_DependentType w6 c' = true).
  { rewrite (extends_is_instance _ _ _ _ _ kept_DependentType X46 Hc4).
    exact Hd4. }
  assert (Hc6 : c' < length (heap w6)) by (destruct X46; lia).
  assert (Hd7 : is_instance isinstance_DependentType w7 c' = true).
  { rewrite (extends_is_instance _ _ _ _ _ kept_DependentType X67 Hc6).
    exact Hd6. }
  apply (retargeted_resolved _ _ _ _ _ _ _ _ (Hret i v Hv) Hv7 Hd7).
  unfold N. lia.
Qed.




(** *** What verification leaves alone *)

(** X13. Whatever they return or raise, [verify], [resolveType],
    [resolveValue], [checkCompatibility] and [resolveCall] only add
    objects to the store and leave every object that was there with its
    class, its list of arguments, its [dependent] flag, the target of a
    dependent type, the arguments of a function type, a [verified] flag
    that was set and a type that was not [None]: what a call
    specializes is a copy, never the function that was declared. *)
Theorem methods_leave_existing_objects :
  forall (n : nat) (self other : option ref) (call : ref) (w : world),
    extends (length (heap w)) w (snd (verify n self w)) /\
    extends (length (heap w)) w (snd (resolveType n self w)) /\
    extends (length (heap w)) w (snd (resolveValue n self w)) /\
    extends (length (heap w)) w (snd (checkCompatibility n self other w)) /\
    extends (length (heap w)) w (snd (resolveCall n self call w)).
Proof.
  intros n self other call w.
  destruct (methods_settle n) as (Hv & Ht & Hx & Hc & Hr).
  split; [|split; [|split; [|split]]].
  - destruct (verify n self w) as [r w'] eqn:E.
    exact (proj1 (Hv _ self w r w' (Nat.le_refl _) E)).
  - destruct (resolveType n self w) as [r w'] eqn:E.
    exact (proj1 (Ht _ self w r w' (Nat.le_refl _) E)).
  - destruct (resolveValue n self w) as [r w'] eqn:E.
    exact (proj1 (Hx _ self w r w' (Nat.le_refl _) E)).
  - destruct (checkCompatibility n self other w) as [r w'] eqn:E.
    exact (proj1 (Hc _ self other w r w' (Nat.le_refl _) E)).
  - destruct (resolveCall n self call w) as [r w'] eqn:E.
    exact (proj1 (Hr _ self call w r w' (Nat.le_refl _) E)).
Qed.

(** X14. What [copy] returns is an object that was not in the store
    before, or a literal (a literal is its own copy); the arguments of
    the copy of a function are new objects, none shared with the
    original; and the objects that were in the store are left as they
    were. *)
Theorem copy_returns_new_objects :
  forall (n : nat) (self r : ref) (w w' : world),
    copy_ n self w = (Ok r, w') ->
    r < length (heap w') /\
    (length (heap w) <= r \/ is_instance isinstance_Literal w' r = true) /\
    (forall o arguments,
        nth_error (heap w') r = Some o ->
        get_function_arguments o = Some arguments ->
        Forall (le (length (heap w))) arguments) /\
    extends (length (heap w)) w w'.
Proof.
  intros n self r w w' H.
  destruct (copy_at n (length (heap w)) self w (Ok r) w' (Nat.le_refl _) H)
    as (X & _ & P).
  destruct (P r eq_refl) as (H1 & H2 & H3).
  split; [exact H1|]. split; [exact H2|]. split; [exact H3 | exact X].
Qed.

Lemma copy_returns_new_objects_witness :
  generic_copy
  < length (heap (snd (copy_ 39 generic_function generic_start))) /\
  (length (heap generic_start) <= generic_copy \/
   is_instance isinstance_Literal
     (snd (copy_ 39 generic_function generic_start)) generic_copy = true).
Proof.
  assert (H : copy_ 39 generic_function generic_start
              = (Ok generic_copy,
                 snd (copy_ 39 generic_function generic_start)))
    by (vm_compute; reflexivity).
  destruct (copy_returns_new_objects 39 generic_function generic_copy
              generic_start _ H) as (H1 & H2 & _).
  split; [exact H1 | exact H2].
Defined.

(** *** Verification after a failure *)

Lemma set_verified_Ok self w o :
  nth_error (heap w) self = Some o ->
  get_verified o = Some false ->
  exists w1 o1,
    set_verified self w = (Ok tt, w1) /\
    nth_error (heap w1) self = Some o1 /\
    class_of o1 = class_of o /\ get_verified o1 = Some true.
Proof.
  intros Ho Hv. eexists. eexists. split; [reflexivity|].
  cbn [heap]. rewrite (nth_error_replace_same _ _ _ _ Ho).
  split; [reflexivity|]. destruct o; try discriminate Hv; auto.
Qed.

(** [verify] marks the object before it verifies what is in it, and
    nothing takes the mark away. *)
Lemma verify_marks_first n self w o r w' :
  nth_error (heap w) self = Some o ->
  get_verified o = Some false ->
  verify (S n) (Some self) w = (r, w') ->
  exists o', nth_error (heap w') self = Some o' /\
             class_of o' = class_of o /\ get_verified o' = Some true.
Proof.
  intros Ho Hv H. cbn [verify] in H.
  rewrite (bind_Ok _ _ _ _ _ (load_Ok _ _ _ Ho)) in H.
  destruct (set_verified_Ok self w o Ho Hv) as (w1 & o1 & E & Ho1 & K1 & V1).
  destruct (methods_settle n) as (IHv & IHt & IHx & IHc & IHr).
  destruct o; try discriminate Hv; cbn in Hv; injection Hv as ->;
    rewrite (bind_Ok _ _ _ _ _ E) in H;
    match type of H with
    | ?body w1 = _ =>
        assert (S : spec (length (heap w1)) always body anything)
          by spec_go;
        destruct (S w1 _ _ (Nat.le_refl _) H) as ([_ X] & _)
    end;
    destruct (X self o1 Ho1) as (o' & Ho' & [K _] & St);
    (assert (Hlt : self < length (heap w1))
      by (apply nth_error_Some; congruence));
    destruct (St Hlt) as (_ & _ & _ & S4 & _);
    exists o'; (split; [exact Ho'|]); (split; [congruence | auto]).
Qed.

(** X15. An object whose verification has raised is left marked as
    verified: verifying it again returns at once, without an error. *)
Theorem failed_verification_is_not_repeated :
  forall (n m : nat) (self : ref) (w w' : world) (o : object) (e : error),
    nth_error (heap w) self = Some o ->
    get_verified o = Some false ->
    verify (S n) (Some self) w = (Raise e, w') ->
    verify (S m) (Some self) w' = (Ok tt, w').
Proof.
  intros n m self w w' o e Ho Hv H.
  destruct (verify_marks_first n self w o _ w' Ho Hv H)
    as (o' & Ho' & K & V).
  cbn [verify]. rewrite (bind_Ok _ _ _ _ _ (load_Ok _ _ _ Ho')).
  destruct o'; try discriminate V; cbn in V; injection V as ->; reflexivity.
Qed.

Lemma failed_verification_is_not_repeated_witness :
  verify 40 (Some rejected_module)
    (snd (verify 40 (Some rejected_module) rejected_start))
  = (Ok tt, snd (verify 40 (Some rejected_module) rejected_start)).
Proof.
  eassert (Ho : nth_error (heap rejected_start) rejected_module = Some _)
    by (vm_compute; reflexivity).
  eapply (failed_verification_is_not_repeated 39 39 rejected_module
            rejected_start _ _ _ Ho).
  - reflexivity.
  - vm_compute. reflexivity.
Defined.

(** *** Contexts and overloads *)

Lemma key_eqb_refl k : key_eqb k k = true.
Proof. destruct k as [s|]; [apply String.eqb_refl | reflexivity]. Qed.

Lemma key_eqb_eq a b : key_eqb a b = true -> a = b.
Proof.
  destruct a as [x|], b as [y|]; cbn; try discriminate; [|reflexivity].
  intros H. apply String.eqb_eq in H. now subst.
Qed.

Lemma dict_get_set_same k v d : dict_get k (dict_set k v d) = Some v.
Proof.
  induction d as [|[k' v'] d IH]; cbn.
  - now rewrite key_eqb_refl.
  - destruct (key_eqb k k') eqn:E; cbn.
    + now rewrite key_eqb_refl.
    + now rewrite E.
Qed.

Lemma dict_get_set_other k k' v d :
  key_eqb k' k = false -> dict_get k' (dict_set k v d) = dict_get k' d.
Proof.
  intros H. induction d as [|[k0 v0] d IH]; cbn.
  - now rewrite H.
  - destruct (key_eqb k k0) eqn:E; cbn.
    + apply key_eqb_eq in E. subst k0. now rewrite H.
    + now rewrite IH.
Qed.

(** A key that is not in the dictionary is added at its end. *)
Lemma dict_set_new k v d :
  dict_get k d = None -> dict_set k v d = d ++ [(k, v)].
Proof.
  induction d as [|[k' v'] d IH]; cbn; [reflexivity|].
  destruct (key_eqb k k'); [discriminate|].
  intros H. now rewrite IH.
Qed.

Lemma update_Ok r f w :
  update r f w = (Ok tt, mkWorld (replace r f (heap w)) (state w)).
Proof. reflexivity. Qed.

(** What [x.bound_context] reads after [x.bound_context = c]: the
    context, unless [x] is a static function, whose property gives the
    bound context of the scope of [c]. *)
Lemma get_bound_context_stored w r o n c :
  nth_error (heap w) r = Some o ->
  option_map bound_context (bound o) = Some c ->
  static_function o = false ->
  get_bound_context (S n) (Some r) w = (Ok c, w).
Proof.
  intros Ho Hb Hs. cbn [get_bound_context].
  rewrite (bind_Ok _ _ _ _ _ (load_Ok _ _ _ Ho)).
  destruct o; cbn in Hb, Hs; try discriminate Hb;
    try (injection Hb as <-; reflexivity).
  rewrite Hs. now injection Hb as <-.
Qed.

Lemma get_bound_context_static w r o n c scope_ children :
  nth_error (heap w) r = Some o ->
  option_map bound_context (bound o) = Some (Some c) ->
  static_function o = true ->
  nth_error (heap w) c = Some (Context scope_ children) ->
  get_bound_context (S n) (Some r) w = get_bound_context n scope_ w.
Proof.
  intros Ho Hb Hs Hc. cbn [get_bound_context].
  rewrite (bind_Ok _ _ _ _ _ (load_Ok _ _ _ Ho)).
  destruct o; cbn in Hs; try discriminate Hs.
  cbn in Hb. injection Hb as Hb. rewrite Hs, Hb.
  now rewrite (bind_Ok _ _ _ _ _ (attr_Ok _ get_scope _ _ _ _ Hc eq_refl)).
Qed.

(** X16. [Context.addChild] registers the child under its name, in the
    place of an earlier child of that name, leaves the children of
    other names as they are, and assigns the context to the
    [bound_context] of the child: the context is what is stored, and
    what [child.bound_context] reads afterwards, except for a static
    [Function], whose property reads the bound context of the scope of
    the context. *)
Theorem Context_addChild_registers :
  forall (self child : ref) (w : world) (scope_ : option ref)
         (children : list (option string * ref)) (o : object)
         (n : option string),
    nth_error (heap w) self = Some (Context scope_ children) ->
    nth_error (heap w) child = Some o ->
    get_name o = Some n ->
    exists w' children' o',
      Context_addChild self child w = (Ok tt, w') /\
      nth_error (heap w') self = Some (Context scope_ children') /\
      dict_get n children' = Some child /\
      (forall k, key_eqb k n = false ->
         dict_get k children' = dict_get k children) /\
      nth_error (heap w') child = Some o' /\
      get_name o' = Some n /\
      option_map bound_context (bound o') = Some (Some self) /\
      (static_function o = false ->
       forall fuel,
         get_bound_context (S fuel) (Some child) w' = (Ok (Some self), w')) /\
      (static_function o = true ->
       forall fuel,
         get_bound_context (S fuel) (Some child) w'
         = get_bound_context fuel scope_ w') /\
      (forall r, r <> self -> r <> child ->
         nth_error (heap w') r = nth_error (heap w) r).
Proof.
  intros self child w scope_ children o n Hs Hc Hn.
  assert (Hne : child <> self).
  { intros ->. rewrite Hs in Hc. injection Hc as <-. discriminate Hn. }
  unfold Context_addChild.
  rewrite (bind_Ok _ _ _ _ _ (attr_Ok _ get_children _ _ _ _ Hs eq_refl)).
  rewrite (bind_Ok _ _ _ _ _ (attr_Ok _ get_name _ _ _ _ Hc Hn)).
  unfold set_children. rewrite (bind_Ok _ _ _ _ _ (update_Ok _ _ _)).
  unfold Context_fakeChild, set_bound_context. rewrite update_Ok.
  cbn [heap state].
  set (w' := mkWorld _ _).
  assert (Hs' : nth_error (heap w') self
                = Some (Context scope_ (dict_set n child children))).
  { unfold w'. cbn [heap]. rewrite nth_error_replace_other by congruence.
    rewrite (nth_error_replace_same _ _ _ _ Hs). reflexivity. }
  assert (Hc' : nth_error (heap w') child
                = Some (with_bound
                          (fun b => mkBound (name b) (Some self) (static b)
                                      (dependent b)) o)).
  { unfold w'. cbn [heap]. apply nth_error_replace_same.
    rewrite nth_error_replace_other by congruence. exact Hc. }
  assert (Hb' : option_map bound_context
                  (bound (with_bound
                            (fun b => mkBound (name b) (Some self) (static b)
                                        (dependent b)) o))
                = Some (Some self)).
  { destruct o; try discriminate Hn; reflexivity. }
  assert (Hst : static_function
                  (with_bound
                     (fun b => mkBound (name b) (Some self) (static b)
                                 (dependent b)) o)
                = static_function o) by (now destruct o).
  exists w'. eexists. eexists. split; [reflexivity|].
  split; [exact Hs'|].
  split; [apply dict_get_set_same|].
  split; [intros k Hk; now apply dict_get_set_other|].
  split; [exact Hc'|].
  split; [destruct o; try discriminate Hn; exact Hn|].
  split; [exact Hb'|].
  split; [|split].
  - intros Hf fuel.
    apply (get_bound_context_stored w' child _ fuel (Some self) Hc' Hb').
    now rewrite Hst.
  - intros Hf fuel.
    apply (get_bound_context_static w' child _ fuel self scope_
             (dict_set n child children) Hc' Hb');
      [now rewrite Hst | exact Hs'].
  - intros r H1 H2. unfold w'. cbn [heap].
    rewrite !nth_error_replace_other by congruence. reflexivity.
Qed.

Lemma Context_addChild_registers_witness :
  exists w' children' o',
    Context_addChild 0 1
      (mkWorld [Context None [];
                Variable_ (mkBound (Some "x") None false false) None]
         State_init)
    = (Ok tt, w') /\
    nth_error (heap w') 0 = Some (Context None children') /\
    dict_get (Some "x") children' = Some 1 /\
    nth_error (heap w') 1 = Some o' /\
    option_map bound_context (bound o') = Some (Some 0) /\
    get_bound_context 1 (Some 1) w' = (Ok (Some 0), w').
Proof.
  destruct (Context_addChild_registers 0 1
              (mkWorld [Context None [];
                        Variable_ (mkBound (Some "x") None false false) None]
                 State_init)
              None [] _ (Some "x") eq_refl eq_refl eq_refl)
    as (w' & children' & o' & H1 & H2 & H3 & _ & H5 & _ & H7 & H8 & _).
  exists w', children', o'.
  split; [exact H1|]. split; [exact H2|]. split; [exact H3|].
  split; [exact H5|]. split; [exact H7|]. exact (H8 eq_refl 0).
Defined.

Lemma str_inj a b : str a = str b -> a = b.
Proof.
  unfold str. intros H.
  apply (f_equal NilEmpty.uint_of_string) in H.
  rewrite !NilEmpty.usu in H. injection H as H.
  apply (f_equal Nat.of_uint) in H.
  now rewrite !DecimalNat.Unsigned.of_to in H.
Qed.

(** The overloads are stored under the decimal numerals of their
    indices. *)
Abbreviation numbered children lo :=
  (map fst children
   = map (fun i => Some (str i)) (seq lo (length children))).

Lemma numbered_free children : forall lo j,
  numbered children lo -> lo + length children <= j ->
  dict_get (Some (str j)) children = None.
Proof.
  induction children as [|[k v] children IH]; intros lo j H Hj;
    [reflexivity|].
  cbn [map length seq fst] in H. injection H as -> H.
  cbn [dict_get key_eqb].
  destruct (String.eqb (str j) (str lo)) eqn:E.
  - apply String.eqb_eq, str_inj in E. cbn [length] in Hj. lia.
  - apply (IH (S lo)); [exact H | cbn [length] in Hj; lia].
Qed.


(** *** Instances of the properties of [Break] and [Function.verifySelf] *)

Lemma Break_verify_inside_loops_witness :
  Break_verify 2
    (mkWorld [Loop None [1]; Loop None [2]; Break None]
       (mkState None None (Some [0; 1])))
  = (Ok tt,
     mkWorld [Loop None [1]; Loop None [2]; Break (Some 0)]
       (mkState None None (Some [0; 1]))).
Proof.
  apply (Break_verify_inside_loops
           (mkWorld [Loop None [1]; Loop None [2]; Break None]
              (mkState None None (Some [0; 1]))) 2 [] 0 [1]).
  - reflexivity.
  - constructor.
  - eexists. split; reflexivity.
Defined.

Lemma Break_verify_outside_loop_witness :
  fst (Break_verify 1
         (mkWorld [Branch None 2 [1] []; Break None; Comment "c"]
            (mkState None None (Some [0]))))
  = Raise (SyntaxError "Cannot break outside loop").
Proof.
  apply (Break_verify_outside_loop
           (mkWorld [Branch None 2 [1] []; Break None; Comment "c"]
              (mkState None None (Some [0]))) 1 [0]).
  - reflexivity.
  - constructor; [|constructor]. eexists. split; reflexivity.
Defined.

Lemma Function_verifySelf_top_level_witness :
  Function_verifySelf 0
    (mkWorld [Function_ (mkBound (Some "f") None false false) false None None
                [] [2] (Some 1) false;
              FunctionType (mkBound (Some "f") None false false) []
                (Some 3) false;
              Branch None 3 [4] [];
              Comment "Int";
              Return None None]
       State_init)
  = (Raise (SemanticError "All code paths must return"),
     mkWorld [Function_ (mkBound (Some "f") None false false) false None None
                [] [2] (Some 1) false;
              FunctionType (mkBound (Some "f") None false false) []
                (Some 3) false;
              Branch None 3 [4] [];
              Comment "Int";
              Return None None]
       State_init).
Proof.
  refine (Function_verifySelf_top_level
            (mkWorld [Function_ (mkBound (Some "f") None false false) false
                        None None [] [2] (Some 1) false;
                      FunctionType (mkBound (Some "f") None false false) []
                        (Some 3) false;
                      Branch None 3 [4] [];
                      Comment "Int";
                      Return None None]
               State_init)
            0 _ _ _ _ _ _ 1 _ _ _ _ _ eq_refl eq_refl _).
  repeat constructor.
Defined.

(** *** Function types of [function.py] *)

(** X21. [FunctionType.checkCompatibility] of [function.py] against a
    function type returns [True] exactly when the two have as many
    arguments, the arguments are compatible pair by pair, every pair
    being checked, and, when the other side has a return type, this side
    has one that is compatible with it. *)
Theorem Split_FunctionType_checks_every_pair :
  forall (other : Type)
         (other_check : other -> Split.type other -> result bool)
         (resolve : other -> Split.type other)
         (arguments other_arguments : list (Split.type other))
         (return_type other_return_type : option (Split.type other)),
    Split.checkCompatibility other other_check resolve
      (Split.FunctionType other arguments return_type)
      (Split.FunctionType other other_arguments other_return_type)
    = Ok true
    <-> length arguments = length other_arguments /\
        Forall2 (fun a b =>
                   Split.checkCompatibility other other_check resolve a b
                   = Ok true) arguments other_arguments /\
        match other_return_type with
        | None => True
        | Some r2 =>
            exists r1, return_type = Some r1 /\
                       Split.checkCompatibility other other_check resolve
                         r1 r2 = Ok true
        end.
Proof.
  intros. apply Split_checkCompatibility_true.
Qed.

(** *** The overloads of a method *)

Lemma rebound_refl o : rebound o o.
Proof. exists (fun b => b). now destruct o. Qed.

Lemma rebound_trans o1 o2 o3 : rebound o1 o2 -> rebound o2 o3 -> rebound o1 o3.
Proof.
  intros [f ->] [g ->]. exists (fun b => g (f b)). now destruct o1.
Qed.

Lemma rebound_bound o o' : rebound o o' -> bound o <> None -> bound o' <> None.
Proof. intros [f ->] H. destruct o; try exact H; discriminate. Qed.

Lemma rebound_Method o b c v :
  rebound (Method b c v) o -> exists b', o = Method b' c v.
Proof. intros [f ->]. now exists (f b). Qed.

Lemma rebound_Context o s ch : rebound (Context s ch) o -> o = Context s ch.
Proof. now intros [f ->]. Qed.

(** The overloads [rs] under the numerals from [lo] on. *)
Abbreviation renumbered lo rs :=
  (combine (map (fun i => Some (str i)) (seq lo (length rs))) rs).

(** What one [addOverload] does to the store. *)
Lemma Method_addOverload_effect self overload w b c verified scope_ children o :
  nth_error (heap w) self = Some (Method b (Some c) verified) ->
  nth_error (heap w) c = Some (Context scope_ children) ->
  nth_error (heap w) overload = Some o ->
  bound o <> None ->
  numbered children 0 ->
  exists w',
    Method_addOverload self overload w = (Ok tt, w') /\
    state w' = state w /\
    length (heap w') = length (heap w) /\
    nth_error (heap w') c
    = Some (Context scope_
              (children ++ [(Some (str (length children)), overload)])) /\
    nth_error (heap w') overload
    = Some (with_bound (fun b => mkBound (Some (str (length children)))
                                   (Some c) (static b) (dependent b)) o) /\
    (forall r, r <> c -> r <> overload ->
       nth_error (heap w') r = nth_error (heap w) r).
Proof.
  intros Hs Hc Ho Hb Hnum.
  assert (Hne : overload <> c).
  { intros ->. rewrite Hc in Ho. injection Ho as <-. now apply Hb. }
  unfold Method_addOverload.
  rewrite (bind_Ok _ _ _ _ _
             (attr_Ok _ get_overload_context _ _ _ _ Hs eq_refl)).
  rewrite (bind_Ok _ _ _ _ _ (attr_Ok _ get_children _ _ _ _ Hc eq_refl)).
  unfold set_name. rewrite (bind_Ok _ _ _ _ _ (update_Ok _ _ _)).
  set (rename := with_bound _).
  set (w1 := mkWorld _ _).
  assert (Hc1 : nth_error (heap w1) c = Some (Context scope_ children)).
  { unfold w1. cbn [heap]. now rewrite nth_error_replace_other by congruence. }
  assert (Ho1 : nth_error (heap w1) overload = Some (rename o)).
  { unfold w1. cbn [heap]. now apply nth_error_replace_same. }
  assert (Hn1 : get_name (rename o) = Some (Some (str (length children)))).
  { unfold rename. destruct o; try (exfalso; now apply Hb); reflexivity. }
  unfold Context_addChild.
  rewrite (bind_Ok _ _ _ _ _ (attr_Ok _ get_children _ _ _ _ Hc1 eq_refl)).
  rewrite (bind_Ok _ _ _ _ _ (attr_Ok _ get_name _ _ _ _ Ho1 Hn1)).
  unfold set_children. rewrite (bind_Ok _ _ _ _ _ (update_Ok _ _ _)).
  unfold Context_fakeChild, set_bound_context. rewrite update_Ok.
  rewrite (dict_set_new _ _ _ (numbered_free children 0 _ Hnum (Nat.le_refl _))).
  eexists. split; [reflexivity|]. cbn [heap state].
  split; [reflexivity|].
  split; [unfold w1; cbn [heap]; now rewrite !length_replace|].
  split; [|split].
  - rewrite nth_error_replace_other by congruence.
    now rewrite (nth_error_replace_same _ _ _ _ Hc1).
  - rewrite (nth_error_replace_same _ _ _ (rename o)).
    + unfold rename. destruct o; try (exfalso; now apply Hb); reflexivity.
    + rewrite nth_error_replace_other by congruence. exact Ho1.
  - intros r H1 H2. unfold w1. cbn [heap].
    now rewrite !nth_error_replace_other by congruence.
Qed.

Lemma numbered_snoc (children : list (option string * ref)) k (r : ref) :
  numbered children 0 -> k = length children ->
  numbered (children ++ [(Some (str k), r)]) 0.
Proof.
  intros Hnum ->. rewrite map_app, length_app. cbn [map length fst].
  rewrite Nat.add_1_r, seq_S, map_app, Hnum. reflexivity.
Qed.

(** X17. [Method.addOverload] names the overload by the number of the
    overloads there are and adds it after them: when the overloads are
    numbered from 0 in their order they stay so, and no overload is
    replaced.  The overload context is assigned to the [bound_context]
    of the overload: it is what is stored, and what
    [overload.bound_context] reads afterwards unless the overload is a
    static [Function]. *)
Theorem Method_addOverload_appends :
  forall (self overload : ref) (w : world) (b : BoundObject) (c : ref)
         (verified : bool) (scope_ : option ref)
         (children : list (option string * ref)) (o : object),
    nth_error (heap w) self = Some (Method b (Some c) verified) ->
    nth_error (heap w) c = Some (Context scope_ children) ->
    nth_error (heap w) overload = Some o ->
    bound o <> None ->
    numbered children 0 ->
    exists w' o',
      Method_addOverload self overload w = (Ok tt, w') /\
      nth_error (heap w') c
      = Some (Context scope_
                (children ++ [(Some (str (length children)), overload)])) /\
      numbered (children ++ [(Some (str (length children)), overload)]) 0 /\
      nth_error (heap w') overload = Some o' /\
      get_name o' = Some (Some (str (length children))) /\
      option_map bound_context (bound o') = Some (Some c) /\
      (static_function o = false ->
       forall fuel,
         get_bound_context (S fuel) (Some overload) w' = (Ok (Some c), w')).
Proof.
  intros self overload w b c verified scope_ children o Hs Hc Ho Hb Hnum.
  destruct (Method_addOverload_effect self overload w b c verified scope_
              children o Hs Hc Ho Hb Hnum)
    as (w' & E & _ & _ & C & O & _).
  assert (Hb' : option_map bound_context
                  (bound (with_bound
                            (fun b => mkBound (Some (str (length children)))
                                        (Some c) (static b) (dependent b)) o))
                = Some (Some c)).
  { destruct o; try (exfalso; now apply Hb); reflexivity. }
  exists w'. eexists. split; [exact E|]. split; [exact C|].
  split; [exact (numbered_snoc children _ overload Hnum eq_refl)|].
  split; [exact O|].
  split; [destruct o; try (exfalso; now apply Hb); reflexivity|].
  split; [exact Hb'|].
  intros Hf fuel.
  apply (get_bound_context_stored w' overload _ fuel (Some c) O Hb').
  now destruct o.
Qed.

Lemma Method_addOverload_appends_witness :
  exists w' o',
    Method_addOverload 0 2
      (mkWorld [Method (mkBound (Some "f") None false false) (Some 1) false;
                Context (Some 0) [];
                Variable_ (mkBound (Some "g") None false false) None]
         State_init)
    = (Ok tt, w') /\
    nth_error (heap w') 1 = Some (Context (Some 0) [(Some "0", 2)]) /\
    nth_error (heap w') 2 = Some o' /\
    get_name o' = Some (Some "0") /\
    get_bound_context 1 (Some 2) w' = (Ok (Some 1), w').
Proof.
  destruct (Method_addOverload_appends 0 2
              (mkWorld [Method (mkBound (Some "f") None false false) (Some 1)
                          false;
                        Context (Some 0) [];
                        Variable_ (mkBound (Some "g") None false false) None]
                 State_init)
              _ 1 _ (Some 0) [] _ eq_refl eq_refl eq_refl)
    as (w' & o' & H1 & H2 & _ & H4 & H5 & _ & H7);
    [discriminate | reflexivity |].
  exists w', o'.
  split; [exact H1|]. split; [exact H2|]. split; [exact H4|].
  split; [exact H5|]. exact (H7 eq_refl 0).
Defined.

(** The loop of [Method.__init__] and of [Method.assimilate]. *)
Lemma addOverloads_effect self c scope_ :
  forall overloads w children,
    (exists b verified,
        nth_error (heap w) self = Some (Method b (Some c) verified)) ->
    nth_error (heap w) c = Some (Context scope_ children) ->
    numbered children 0 ->
    Forall (fun r => exists o, nth_error (heap w) r = Some o /\
                               bound o <> None) overloads ->
    exists w',
      for_each overloads (Method_addOverload self) w = (Ok tt, w') /\
      state w' = state w /\
      length (heap w') = length (heap w) /\
      nth_error (heap w') c
      = Some (Context scope_
                (children ++ renumbered (length children) overloads)) /\
      (forall r, r <> c -> ~ In r overloads ->
         nth_error (heap w') r = nth_error (heap w) r) /\
      (forall r o, r <> c -> nth_error (heap w) r = Some o ->
         exists o', nth_error (heap w') r = Some o' /\ rebound o o') /\
      (forall r, In r overloads ->
         exists o', nth_error (heap w') r = Some o' /\
                    option_map bound_context (bound o') = Some (Some c)) /\
      (NoDup overloads ->
       forall i r, nth_error overloads i = Some r ->
         exists o', nth_error (heap w') r = Some o' /\
                    get_name o' = Some (Some (str (length children + i)))).
Proof.
  induction overloads as [|x rest IH]; intros w children Hs Hc Hnum Hall.
  - exists w. cbn [for_each length seq map combine]. rewrite app_nil_r.
    split; [reflexivity|]. split; [reflexivity|]. split; [reflexivity|].
    split; [exact Hc|]. split; [reflexivity|].
    split; [intros r o _ Ho; exists o; split; [exact Ho | apply rebound_refl]|].
    split; [intros r []|]. intros _ [|i] r H; discriminate H.
  - destruct Hs as (b & verified & Hs).
    pose proof (Forall_inv Hall) as (o & Ho & Hb).
    pose proof (Forall_inv_tail Hall) as Hrest.
    destruct (Method_addOverload_effect self x w b c verified scope_ children o
                Hs Hc Ho Hb Hnum)
      as (w1 & E1 & S1 & L1 & C1 & O1 & F1).
    assert (Hxc : x <> c).
    { intros ->. rewrite Hc in Ho. injection Ho as <-. now apply Hb. }
    assert (R1 : forall r o0, r <> c -> nth_error (heap w) r = Some o0 ->
                   exists o', nth_error (heap w1) r = Some o' /\ rebound o0 o').
    { intros r o0 Hr H0. destruct (Nat.eq_dec r x) as [->|Hrx].
      - rewrite Ho in H0. injection H0 as <-.
        eexists. split; [exact O1|]. now eexists.
      - exists o0. rewrite (F1 r Hr Hrx). split; [exact H0 | apply rebound_refl]. }
    assert (Hs1 : exists b1 v1,
               nth_error (heap w1) self = Some (Method b1 (Some c) v1)).
    { assert (self <> c).
      { intros ->. rewrite Hc in Hs. discriminate Hs. }
      destruct (R1 self _ H Hs) as (o' & Ho' & R).
      apply rebound_Method in R as (b' & ->). now exists b', verified. }
    assert (Hall1 : Forall (fun r => exists o, nth_error (heap w1) r = Some o /\
                                               bound o <> None) rest).
    { apply Forall_forall. intros r Hr.
      destruct (proj1 (Forall_forall _ _) Hrest r Hr) as (o0 & H0 & Hb0).
      assert (r <> c).
      { intros ->. rewrite Hc in H0. injection H0 as <-. now apply Hb0. }
      destruct (R1 r o0 H H0) as (o' & Ho' & R).
      exists o'. split; [exact Ho' | exact (rebound_bound _ _ R Hb0)]. }
    destruct (IH w1 _ Hs1 C1 (numbered_snoc children _ x Hnum eq_refl) Hall1)
      as (w' & E & S & L & C & F & R & B & N).
    exists w'. cbn [for_each]. rewrite (bind_Ok _ _ _ _ _ E1).
    split; [exact E|]. split; [congruence|]. split; [congruence|].
    rewrite length_app, Nat.add_1_r in C, N. cbn [length] in C, N.
    split; [|split; [|split; [|split]]].
    + rewrite C. cbn [length seq map combine]. now rewrite <- app_assoc.
    + intros r Hr Hin. rewrite F, F1; try reflexivity; try exact Hr.
      * intros ->. apply Hin. now left.
      * intros Hin'. apply Hin. now right.
    + intros r o0 Hr H0. destruct (R1 r o0 Hr H0) as (o1 & H1 & R01).
      destruct (R r o1 Hr H1) as (o' & H' & R1').
      exists o'. split; [exact H' | exact (rebound_trans _ _ _ R01 R1')].
    + intros r [<-|Hin]; [|now apply B].
      destruct (in_dec Nat.eq_dec x rest) as [Hin|Hout]; [now apply B|].
      rewrite (F x Hxc Hout), O1. eexists. split; [reflexivity|].
      destruct o; try (exfalso; now apply Hb); reflexivity.
    + intros Hnd [|i] r Hi.
      * injection Hi as <-. rewrite Nat.add_0_r.
        rewrite (F x Hxc (proj1 (proj1 (NoDup_cons_iff x rest) Hnd))), O1.
        eexists. split; [reflexivity|].
        destruct o; try (exfalso; now apply Hb); reflexivity.
      * cbn [nth_error] in Hi.
        destruct (N (proj2 (proj1 (NoDup_cons_iff x rest) Hnd)) i r Hi)
          as (o' & H' & Hn).
        exists o'. split; [exact H'|]. now rewrite Nat.add_succ_r.
Qed.

Lemma stored_bound_context_reads w r c :
  (exists o', nth_error (heap w) r = Some o' /\
              option_map bound_context (bound o') = Some (Some c)) ->
  exists o', nth_error (heap w) r = Some o' /\
             option_map bound_context (bound o') = Some (Some c) /\
             (static_function o' = false ->
              forall fuel,
                get_bound_context (S fuel) (Some r) w = (Ok (Some c), w)).
Proof.
  intros (o' & Ho & Hb). exists o'. split; [exact Ho|]. split; [exact Hb|].
  intros Hs fuel. exact (get_bound_context_stored w r o' fuel _ Ho Hb Hs).
Qed.

(** X24. [Method.__init__] returns a new method whose overload context
    holds the given overloads in their order under the numerals '0',
    '1', ...; that context is assigned to the [bound_context] of every
    overload (it is what is stored, and what [overload.bound_context]
    reads unless the overload is a static [Function]) and, when no
    overload is given twice, every overload carries its numeral as its
    name.  Objects that are not among the overloads are left as they
    were. *)
Theorem Method_init_numbers_overloads :
  forall (name_ : option string) (overloads : list ref) (w : world),
    Forall (fun r => exists o, nth_error (heap w) r = Some o /\
                               bound o <> None) overloads ->
    let self := length (heap w) in
    let c := S (length (heap w)) in
    exists w',
      Method_init name_ overloads w = (Ok self, w') /\
      nth_error (heap w') self
      = Some (Method (mkBound name_ None false false) (Some c) false) /\
      nth_error (heap w') c
      = Some (Context (Some self) (renumbered 0 overloads)) /\
      (forall r, In r overloads ->
         exists o', nth_error (heap w') r = Some o' /\
                    option_map bound_context (bound o') = Some (Some c) /\
                    (static_function o' = false ->
                     forall fuel,
                       get_bound_context (S fuel) (Some r) w'
                       = (Ok (Some c), w'))) /\
      (NoDup overloads ->
       forall i r, nth_error overloads i = Some r ->
         exists o', nth_error (heap w') r = Some o' /\
                    get_name o' = Some (Some (str i))) /\
      (forall r, r < length (heap w) -> ~ In r overloads ->
         nth_error (heap w') r = nth_error (heap w) r).
Proof.
  intros name_ overloads w Hall self c.
  set (M0 := Method (mkBound name_ None false false) None false).
  assert (Hlen : length (heap w ++ [M0]) = c).
  { rewrite length_app. cbn [length]. unfold c. lia. }
  assert (E0 : Method_init name_ overloads w
               = bind (for_each overloads (Method_addOverload self))
                   (fun _ => ret self)
                   (mkWorld
                      (replace self
                         (fun o => match o with
                                   | Method b _ v =>
                                       Method b (Some (length (heap w ++ [M0]))) v
                                   | o => o
                                   end)
                         ((heap w ++ [M0]) ++ [Context (Some self) []]))
                      (state w))).
  { reflexivity. }
  rewrite Hlen in E0.
  set (w3 := mkWorld
               (replace self
                  (fun o => match o with
                            | Method b _ v => Method b (Some c) v
                            | o => o
                            end)
                  ((heap w ++ [M0]) ++ [Context (Some self) []]))
               (state w)).
  assert (E3 : Method_init name_ overloads w
               = bind (for_each overloads (Method_addOverload self))
                   (fun _ => ret self) w3).
  { exact E0. }
  clear E0.
  assert (Hold : forall r, r < length (heap w) ->
                   nth_error (heap w3) r = nth_error (heap w) r).
  { intros r Hr. unfold w3. cbn [heap].
    rewrite nth_error_replace_other by (unfold self; lia).
    rewrite nth_error_app1 by (rewrite Hlen; unfold c; lia).
    now rewrite nth_error_app1 by exact Hr. }
  assert (Hs3 : nth_error (heap w3) self
                = Some (Method (mkBound name_ None false false) (Some c) false)).
  { unfold w3. cbn [heap].
    rewrite (nth_error_replace_same _ _ _ M0); [reflexivity|].
    rewrite nth_error_app1 by (rewrite Hlen; unfold c, self; lia).
    apply nth_error_alloc. }
  assert (Hc3 : nth_error (heap w3) c = Some (Context (Some self) [])).
  { unfold w3. cbn [heap].
    rewrite nth_error_replace_other by (unfold c, self; lia).
    rewrite <- Hlen. apply nth_error_alloc. }
  assert (Hall3 : Forall (fun r => exists o, nth_error (heap w3) r = Some o /\
                                             bound o <> None) overloads).
  { apply Forall_forall. intros r Hr.
    destruct (proj1 (Forall_forall _ _) Hall r Hr) as (o & Ho & Hb).
    exists o. split; [|exact Hb]. rewrite Hold; [exact Ho|].
    apply nth_error_Some. now rewrite Ho. }
  assert (Hin : forall r, In r overloads -> r < length (heap w)).
  { intros r Hr.
    destruct (proj1 (Forall_forall _ _) Hall r Hr) as (o & Ho & _).
    apply nth_error_Some. now rewrite Ho. }
  destruct (addOverloads_effect self c (Some self) overloads w3 []
              (ex_intro _ _ (ex_intro _ _ Hs3)) Hc3 eq_refl Hall3)
    as (w' & E & S & L & C & F & R & B & N).
  exists w'. rewrite E3, (bind_Ok _ _ _ _ _ E).
  split; [reflexivity|].
  split; [|split; [|split; [|split]]].
  - rewrite F, Hs3; [reflexivity | unfold c, self; lia |].
    intros H. apply Hin in H. unfold self in H. lia.
  - exact C.
  - intros r Hr. exact (stored_bound_context_reads w' r c (B r Hr)).
  - exact N.
  - intros r Hr Hout. rewrite F, Hold; trivial. unfold c. lia.
Qed.

Lemma Method_init_numbers_overloads_witness :
  exists w',
    Method_init (Some "f") [1; 0]
      (mkWorld [Variable_ (mkBound (Some "a") None false false) None;
                Variable_ (mkBound (Some "b") None false false) None]
         State_init)
    = (Ok 2, w') /\
    nth_error (heap w') 3
    = Some (Context (Some 2) [(Some "0", 1); (Some "1", 0)]) /\
    get_bound_context 1 (Some 1) w' = (Ok (Some 3), w').
Proof.
  destruct (Method_init_numbers_overloads (Some "f") [1; 0]
              (mkWorld [Variable_ (mkBound (Some "a") None false false) None;
                        Variable_ (mkBound (Some "b") None false false) None]
                 State_init))
    as (w' & H1 & _ & H3 & H4 & _).
  - apply Forall_cons; [|apply Forall_cons; [|apply Forall_nil]];
      eexists; (split; [reflexivity | discriminate]).
  - exists w'. split; [exact H1|]. split; [exact H3|].
    destruct (H4 1 (or_introl eq_refl)) as (o' & Ho' & _ & Hread).
    apply Hread. clear Hread.
    destruct o'; try reflexivity.
    exfalso.
    assert (K : Method_init (Some "f") [1; 0]
                  (mkWorld
                     [Variable_ (mkBound (Some "a") None false false) None;
                      Variable_ (mkBound (Some "b") None false false) None]
                     State_init)
                = (Ok 2, _)) by (vm_compute; reflexivity).
    rewrite K in H1. injection H1 as <-.
    vm_compute in Ho'. discriminate Ho'.
Defined.

(** X25. [Method.assimilate] adds the overloads of the other method after
    the overloads of this one, numbered on from them, without copying
    them: the other method still lists the same objects, and the
    overload context of this method has been assigned to their
    [bound_context] (it is what is stored, and what
    [overload.bound_context] reads unless the overload is a static
    [Function]). *)
Theorem Method_assimilate_shares_overloads :
  forall (self other : ref) (w : world) (b b' : BoundObject) (c c' : ref)
         (verified verified' : bool) (scope_ scope' : option ref)
         (children children' : list (option string * ref)),
    nth_error (heap w) self = Some (Method b (Some c) verified) ->
    nth_error (heap w) c = Some (Context scope_ children) ->
    numbered children 0 ->
    nth_error (heap w) other = Some (Method b' (Some c') verified') ->
    nth_error (heap w) c' = Some (Context scope' children') ->
    c <> c' ->
    Forall (fun r => exists o, nth_error (heap w) r = Some o /\
                               bound o <> None) (dict_values children') ->
    exists w',
      Method_assimilate self other w = (Ok tt, w') /\
      nth_error (heap w') c
      = Some (Context scope_
                (children
                 ++ renumbered (length children) (dict_values children'))) /\
      nth_error (heap w') c' = Some (Context scope' children') /\
      (forall r, In r (dict_values children') ->
         exists o', nth_error (heap w') r = Some o' /\
                    option_map bound_context (bound o') = Some (Some c) /\
                    (static_function o' = false ->
                     forall fuel,
                       get_bound_context (S fuel) (Some r) w'
                       = (Ok (Some c), w'))).
Proof.
  intros self other w b b' c c' verified verified' scope_ scope'
    children children' Hs Hc Hnum Ho Hc' Hne Hall.
  destruct (addOverloads_effect self c scope_ (dict_values children') w
              children (ex_intro _ _ (ex_intro _ _ Hs)) Hc Hnum Hall)
    as (w' & E & S & L & C & F & R & B & N).
  exists w'. unfold Method_assimilate.
  rewrite (bind_Ok _ _ _ _ _
             (attr_Ok _ get_overload_context _ _ _ _ Ho eq_refl)).
  rewrite (bind_Ok _ _ _ _ _ (attr_Ok _ get_children _ _ _ _ Hc' eq_refl)).
  split; [exact E|]. split; [exact C|].
  split; [|intros r Hr; exact (stored_bound_context_reads w' r c (B r Hr))].
  rewrite F; [exact Hc' | congruence |].
  intros Hin.
  destruct (proj1 (Forall_forall _ _) Hall c' Hin) as (o & Ho' & Hb).
  rewrite Hc' in Ho'. injection Ho' as <-. now apply Hb.
Qed.

Lemma Method_assimilate_shares_overloads_witness :
  exists w' o',
    Method_assimilate 0 2
      (mkWorld [Method (mkBound (Some "f") None false false) (Some 1) false;
                Context (Some 0) [];
                Method (mkBound (Some "f") None false false) (Some 3) false;
                Context (Some 2) [(Some "0", 4)];
                Variable_ (mkBound (Some "0") (Some 3) false false) None]
         State_init)
    = (Ok tt, w') /\
    nth_error (heap w') 1 = Some (Context (Some 0) [(Some "0", 4)]) /\
    nth_error (heap w') 3 = Some (Context (Some 2) [(Some "0", 4)]) /\
    nth_error (heap w') 4 = Some o' /\
    option_map bound_context (bound o') = Some (Some 1) /\
    get_bound_context 1 (Some 4) w' = (Ok (Some 1), w').
Proof.
  destruct (Method_assimilate_shares_overloads 0 2
              (mkWorld [Method (mkBound (Some "f") None false false) (Some 1)
                          false;
                        Context (Some 0) [];
                        Method (mkBound (Some "f") None false false) (Some 3)
                          false;
                        Context (Some 2) [(Some "0", 4)];
                        Variable_ (mkBound (Some "0") (Some 3) false false)
                          None]
                 State_init)
              _ _ 1 3 _ _ _ _ [] [(Some "0", 4)]
              eq_refl eq_refl eq_refl eq_refl eq_refl)
    as (w' & H1 & H2 & H3 & H4).
  - discriminate.
  - apply Forall_cons; [|apply Forall_nil].
    eexists. split; [reflexivity | discriminate].
  - destruct (H4 4 (or_introl eq_refl)) as (o' & H5 & H6 & H7).
    exists w', o'.
    split; [exact H1|]. split; [exact H2|]. split; [exact H3|].
    split; [exact H5|]. split; [exact H6|].
    apply H7. clear H7.
    destruct o'; try reflexivity.
    exfalso.
    assert (K : Method_assimilate 0 2
                  (mkWorld
                     [Method (mkBound (Some "f") None false false) (Some 1)
                        false;
                      Context (Some 0) [];
                      Method (mkBound (Some "f") None false false) (Some 3)
                        false;
                      Context (Some 2) [(Some "0", 4)];
                      Variable_ (mkBound (Some "0") (Some 3) false false)
                        None]
                     State_init)
                = (Ok tt, _)) by (vm_compute; reflexivity).
    rewrite K in H1. injection H1 as <-.
    vm_compute in H5. discriminate H5.
Defined.

(** *** The arguments of a function *)

Abbreviation variables w rs :=
  (Forall (fun r => exists b t, nth_error (heap w) r = Some (Variable_ b t))
     rs).

Abbreviation bound_objects w rs :=
  (Forall (fun r => exists o, nth_error (heap w) r = Some o /\ bound o <> None)
     rs).

Lemma variables_bound w rs : variables w rs -> bound_objects w rs.
Proof.
  apply Forall_impl. intros r (b & t & H). eexists. split; [exact H|].
  discriminate.
Qed.

Abbreviation fresh_dependent :=
  (DependentType (mkBound (Some EmptyString) None false false) [] None).

Lemma rebound_Variable o b t :
  rebound (Variable_ b t) o -> exists b', o = Variable_ b' t.
Proof. intros [f ->]. now exists (f b). Qed.

Lemma rebound_Function o b k l c a i t v :
  rebound (Function_ b k l c a i t v) o ->
  exists b', o = Function_ b' k l c a i t v.
Proof. intros [f ->]. now exists (f b). Qed.

Lemma existsb_ext_in {A : Type} (f g : A -> bool) l :
  (forall x, In x l -> f x = g x) -> existsb f l = existsb g l.
Proof.
  induction l as [|x l IH]; intros H; [reflexivity|]. cbn [existsb].
  rewrite (H x (or_introl eq_refl)), IH; [reflexivity|].
  intros y Hy. apply H. now right.
Qed.

(** What one [addChild] does to the store. *)
Lemma Context_addChild_effect self child w scope_ children o n :
  nth_error (heap w) self = Some (Context scope_ children) ->
  nth_error (heap w) child = Some o ->
  get_name o = Some n ->
  exists w',
    Context_addChild self child w = (Ok tt, w') /\
    state w' = state w /\
    length (heap w') = length (heap w) /\
    nth_error (heap w') self
    = Some (Context scope_ (dict_set n child children)) /\
    nth_error (heap w') child
    = Some (with_bound (fun b => mkBound (name b) (Some self) (static b)
                                   (dependent b)) o) /\
    (forall r, r <> self -> r <> child ->
       nth_error (heap w') r = nth_error (heap w) r).
Proof.
  intros Hs Hc Hn.
  assert (Hne : child <> self).
  { intros ->. rewrite Hs in Hc. injection Hc as <-. discriminate Hn. }
  unfold Context_addChild.
  rewrite (bind_Ok _ _ _ _ _ (attr_Ok _ get_children _ _ _ _ Hs eq_refl)).
  rewrite (bind_Ok _ _ _ _ _ (attr_Ok _ get_name _ _ _ _ Hc Hn)).
  unfold set_children. rewrite (bind_Ok _ _ _ _ _ (update_Ok _ _ _)).
  unfold Context_fakeChild, set_bound_context. rewrite update_Ok.
  eexists. split; [reflexivity|]. cbn [heap state].
  split; [reflexivity|]. split; [now rewrite !length_replace|].
  split; [|split].
  - rewrite nth_error_replace_other by congruence.
    now rewrite (nth_error_replace_same _ _ _ _ Hs).
  - apply nth_error_replace_same.
    now rewrite nth_error_replace_other by congruence.
  - intros r H1 H2. now rewrite !nth_error_replace_other by congruence.
Qed.

(** The loop of [Context.__init__]. *)
Lemma addChildren_effect c scope_ :
  forall args w children,
    nth_error (heap w) c = Some (Context scope_ children) ->
    bound_objects w args ->
    exists w' children',
      for_each args (Context_addChild c) w = (Ok tt, w') /\
      state w' = state w /\
      length (heap w') = length (heap w) /\
      nth_error (heap w') c = Some (Context scope_ children') /\
      (forall r, r <> c -> ~ In r args ->
         nth_error (heap w') r = nth_error (heap w) r) /\
      (forall r o, r <> c -> nth_error (heap w) r = Some o ->
         exists o', nth_error (heap w') r = Some o' /\ rebound o o').
Proof.
  induction args as [|x rest IH]; intros w children Hc Hall.
  - exists w, children. cbn [for_each].
    split; [reflexivity|]. split; [reflexivity|]. split; [reflexivity|].
    split; [exact Hc|]. split; [reflexivity|].
    intros r o _ Ho. exists o. split; [exact Ho | apply rebound_refl].
  - pose proof (Forall_inv Hall) as (ox & Hx & Hbx).
    pose proof (Forall_inv_tail Hall) as Hrest.
    destruct (get_name ox) as [nx|] eqn:Hnx;
      [|destruct ox; try discriminate Hnx; now elim Hbx].
    destruct (Context_addChild_effect c x w scope_ children _ nx
                Hc Hx Hnx)
      as (w1 & E1 & S1 & L1 & C1 & O1 & F1).
    assert (R1 : forall r o, r <> c -> nth_error (heap w) r = Some o ->
                   exists o', nth_error (heap w1) r = Some o' /\ rebound o o').
    { intros r o Hr Ho. destruct (Nat.eq_dec r x) as [->|Hrx].
      - rewrite Hx in Ho. injection Ho as <-.
        eexists. split; [exact O1|]. now eexists.
      - exists o. rewrite (F1 r Hr Hrx). split; [exact Ho | apply rebound_refl]. }
    assert (Hall1 : bound_objects w1 rest).
    { apply Forall_forall. intros r Hr.
      destruct (proj1 (Forall_forall _ _) Hrest r Hr) as (o0 & H0 & Hb0).
      assert (r <> c).
      { intros ->. rewrite Hc in H0. injection H0 as <-. now apply Hb0. }
      destruct (R1 r _ H H0) as (o' & Ho' & R).
      exists o'. split; [exact Ho' | exact (rebound_bound _ _ R Hb0)]. }
    destruct (IH w1 _ C1 Hall1) as (w' & children' & E & St & L & C & F & R).
    exists w', children'. cbn [for_each]. rewrite (bind_Ok _ _ _ _ _ E1).
    split; [exact E|]. split; [congruence|]. split; [congruence|].
    split; [exact C|]. split.
    + intros r Hr Hin. rewrite F, F1; try reflexivity; try exact Hr.
      * intros ->. apply Hin. now left.
      * intros Hin'. apply Hin. now right.
    + intros r o Hr Ho. destruct (R1 r o Hr Ho) as (o1 & H1 & R01).
      destruct (R r o1 Hr H1) as (o' & H' & R1').
      exists o'. split; [exact H' | exact (rebound_trans _ _ _ R01 R1')].
Qed.

Lemma untyped_Variable w r b t :
  nth_error (heap w) r = Some (Variable_ b t) ->
  untyped w r = match t with None => true | Some _ => false end.
Proof. intros H. unfold untyped. now rewrite H. Qed.

(** The loop of [Function.__init__] over the arguments. *)
Lemma type_arguments_effect self :
  forall args w b k l c a i t v,
    nth_error (heap w) self = Some (Function_ b k l c a i t v) ->
    variables w args ->
    exists w',
      for_each args (fun arg =>
        t <- attr "type" get_type (Some arg) ;;
        match t with
        | None =>
            d <- DependentType_init [] ;;
            set_type arg (Some d) ;;
            set_dependent self true
        | Some _ => ret tt
        end) w = (Ok tt, w') /\
      state w' = state w /\
      length (heap w) <= length (heap w') /\
      nth_error (heap w') self
      = Some (Function_
                (mkBound (name b) (bound_context b) (static b)
                   (dependent b || existsb (untyped w) args))
                k l c a i t v) /\
      (forall r o, nth_error (heap w) r = Some o -> r <> self ->
         untyped w r = false \/ ~ In r args ->
         nth_error (heap w') r = Some o) /\
      (forall r, In r args -> untyped w r = true ->
         exists b0 d,
           nth_error (heap w) r = Some (Variable_ b0 None) /\
           length (heap w) <= d /\
           nth_error (heap w') r = Some (Variable_ b0 (Some d)) /\
           nth_error (heap w') d = Some fresh_dependent) /\
      (forall r r' b1 b2 d,
         In r args -> In r' args ->
         untyped w r = true -> untyped w r' = true ->
         nth_error (heap w') r = Some (Variable_ b1 (Some d)) ->
         nth_error (heap w') r' = Some (Variable_ b2 (Some d)) ->
         r = r').
Proof.
  induction args as [|x rest IH]; intros w b k l c a i t v Hs Hall.
  - exists w. cbn [for_each existsb]. rewrite orb_false_r.
    split; [reflexivity|]. split; [reflexivity|]. split; [apply Nat.le_refl|].
    split; [rewrite Hs; now destruct b|].
    split; [intros r o Ho _ _; exact Ho|].
    split; [intros r []|]. intros r r' b1 b2 d [].
  - pose proof (Forall_inv Hall) as (bx & tx & Hx).
    pose proof (Forall_inv_tail Hall) as Hrest.
    assert (Hxs : x <> self) by (intros ->; rewrite Hs in Hx; discriminate Hx).
    cbn [for_each existsb].
    rewrite (bind_Ok _ _ w tt
               (match tx with
                | Some _ => w
                | None =>
                    mkWorld
                      (replace self
                         (with_bound (fun b => mkBound (name b)
                                                 (bound_context b) (static b)
                                                 true))
                         (replace x
                            (fun o => match o with
                                      | Function_ b k l c a i _ v =>
                                          Function_ b k l c a i
                                            (Some (length (heap w))) v
                                      | ExternalFunction b e _ v =>
                                          ExternalFunction b e
                                            (Some (length (heap w))) v
                                      | Variable_ b _ =>
                                          Variable_ b (Some (length (heap w)))
                                      | Literal d _ =>
                                          Literal d (Some (length (heap w)))
                                      | o => o
                                      end)
                            (heap w ++ [fresh_dependent])))
                      (state w)
                end));
      [|rewrite (bind_Ok _ _ _ _ _ (attr_Ok _ get_type _ _ _ _ Hx eq_refl));
        destruct tx; reflexivity].
    destruct tx as [tx|].
    + (* the argument has a type *)
      destruct (IH w b k l c a i t v Hs Hrest)
        as (w' & E & St & L & F & K & N & D).
      assert (Ux : untyped w x = false) by (unfold untyped; now rewrite Hx).
      exists w'. rewrite Ux. cbn [orb].
      split; [exact E|]. split; [exact St|]. split; [exact L|].
      split; [exact F|]. split; [|split].
      * intros r o Ho Hr [Hu|Hin]; apply (K r o Ho Hr); [now left|].
        right. intros H. apply Hin. now right.
      * intros r [<-|Hin] Hu; [congruence | now apply N].
      * intros r r' b1 b2 d [<-|Hr] [<-|Hr'] U U'; try congruence.
        now apply D.
    + (* the argument has no type *)
      set (d := length (heap w)).
      set (w1 := mkWorld _ _).
      assert (Hd : nth_error (heap w ++ [fresh_dependent]) d
                   = Some fresh_dependent) by apply nth_error_alloc.
      assert (Hxd : x < d) by (apply nth_error_Some; now rewrite Hx).
      assert (Hsd : self < d) by (apply nth_error_Some; now rewrite Hs).
      assert (Hx1 : nth_error (heap w1) x = Some (Variable_ bx (Some d))).
      { unfold w1. cbn [heap].
        rewrite nth_error_replace_other by congruence.
        rewrite (nth_error_replace_same _ _ _ (Variable_ bx None));
          [reflexivity|].
        now rewrite nth_error_app1 by exact Hxd. }
      assert (Hs1 : nth_error (heap w1) self
                    = Some (Function_
                              (mkBound (name b) (bound_context b) (static b)
                                 true) k l c a i t v)).
      { unfold w1. cbn [heap].
        rewrite (nth_error_replace_same _ _ _ (Function_ b k l c a i t v));
          [reflexivity|].
        rewrite nth_error_replace_other by congruence.
        now rewrite nth_error_app1 by exact Hsd. }
      assert (Hd1 : nth_error (heap w1) d = Some fresh_dependent).
      { unfold w1. cbn [heap].
        rewrite !nth_error_replace_other by lia. exact Hd. }
      assert (Hf1 : forall r o, nth_error (heap w) r = Some o ->
                      r <> self -> r <> x -> nth_error (heap w1) r = Some o).
      { intros r o Ho H1 H2. unfold w1. cbn [heap].
        rewrite !nth_error_replace_other by congruence.
        rewrite nth_error_app1; [exact Ho|].
        apply nth_error_Some. now rewrite Ho. }
      assert (L1 : length (heap w1) = S d).
      { unfold w1. cbn [heap]. rewrite !length_replace, length_app.
        cbn [length]. unfold d. lia. }
      assert (Hall1 : variables w1 rest).
      { apply Forall_forall. intros r Hr.
        destruct (proj1 (Forall_forall _ _) Hrest r Hr) as (b0 & t0 & H0).
        destruct (Nat.eq_dec r x) as [->|Hrx]; [now exists bx, (Some d)|].
        exists b0, t0. apply Hf1; [exact H0 | | exact Hrx].
        intros ->. rewrite Hs in H0. discriminate H0. }
      assert (U1 : forall r, r <> x -> r <> self -> r < d ->
                     untyped w1 r = untyped w r).
      { intros r H1 H2 H3. unfold untyped.
        destruct (nth_error (heap w) r) as [o|] eqn:Ho.
        - now rewrite (Hf1 r o Ho H2 H1).
        - apply nth_error_None in Ho. unfold d in H3. lia. }
      assert (Ux1 : untyped w1 x = false)
        by (unfold untyped; now rewrite Hx1).
      destruct (IH w1 _ k l c a i t v Hs1 Hall1)
        as (w' & E & St & L & F & K & N & D).
      cbn [name bound_context static dependent] in F.
      exists w'.
      assert (Ux : untyped w x = true) by (unfold untyped; now rewrite Hx).
      rewrite Ux. cbn [orb]. rewrite orb_true_r.
      split; [exact E|]. split; [exact St|]. split; [lia|].
      split; [exact F|]. split; [|split].
      * intros r o Ho Hr Hor.
        assert (Hrx : r <> x).
        { intros ->. destruct Hor as [H|H]; [congruence|].
          apply H. now left. }
        apply K; [now apply Hf1 | exact Hr |].
        destruct Hor as [H|H].
        -- left. rewrite U1; trivial.
           apply nth_error_Some. now rewrite Ho.
        -- right. intros H'. apply H. now right.
      * intros r Hin Hu.
        destruct (Nat.eq_dec r x) as [->|Hrx].
        -- exists bx, d. split; [exact Hx|]. split; [apply Nat.le_refl|].
           split.
           ++ apply K; [exact Hx1 | exact Hxs | now left].
           ++ apply K; [exact Hd1 | lia |].
              left. unfold untyped. now rewrite Hd1.
        -- destruct Hin as [->|Hin]; [congruence|].
           assert (Hrs : r <> self).
           { intros ->. unfold untyped in Hu. now rewrite Hs in Hu. }
           assert (Hrd : r < d).
           { apply nth_error_Some. unfold untyped in Hu.
             destruct (nth_error (heap w) r); [discriminate | discriminate Hu]. }
           destruct (N r Hin) as (b0 & d0 & H0 & Hle & H1 & H2).
           { now rewrite U1. }
           exists b0, d0. split; [|split; [lia|split; [exact H1 | exact H2]]].
           unfold untyped in Hu.
           destruct (nth_error (heap w) r) as [o|] eqn:Ho; [|discriminate Hu].
           rewrite (Hf1 r o Ho Hrs Hrx) in H0. exact H0.
      * assert (Hfresh : forall r b1 d0, In r rest -> r <> x ->
                           untyped w r = true ->
                           nth_error (heap w') r = Some (Variable_ b1 (Some d0)) ->
                           S d <= d0).
        { intros r b1 d0 Hin Hrx Hu H1.
          assert (Hrs : r <> self).
          { intros ->. unfold untyped in Hu. now rewrite Hs in Hu. }
          assert (Hrd : r < d).
          { apply nth_error_Some. unfold untyped in Hu.
            destruct (nth_error (heap w) r); [discriminate | discriminate Hu]. }
          destruct (N r Hin) as (b0 & d1 & _ & Hle & H1' & _).
          { now rewrite U1. }
          rewrite H1 in H1'. injection H1' as _ ->. lia. }
        assert (Hx' : nth_error (heap w') x = Some (Variable_ bx (Some d))).
        { apply K; [exact Hx1 | exact Hxs | now left]. }
        intros r r' b1 b2 d0 Hr Hr' U U' H1 H2.
        destruct (Nat.eq_dec r x) as [->|Hrx];
          destruct (Nat.eq_dec r' x) as [->|Hrx']; [reflexivity | | |].
        -- exfalso. rewrite Hx' in H1. injection H1 as _ <-.
           destruct Hr' as [->|Hr']; [congruence|].
           pose proof (Hfresh r' b2 d Hr' Hrx' U' H2). lia.
        -- exfalso. rewrite Hx' in H2. injection H2 as _ <-.
           destruct Hr as [->|Hr]; [congruence|].
           pose proof (Hfresh r b1 d Hr Hrx U H1). lia.
        -- destruct Hr as [->|Hr]; [congruence|].
           destruct Hr' as [->|Hr']; [congruence|].
           assert (Hrs : forall q, untyped w q = true -> q <> self /\ q < d).
           { intros q Hq. unfold untyped in Hq.
             destruct (nth_error (heap w) q) as [o|] eqn:Ho;
               [|discriminate Hq].
             split; [intros ->; rewrite Hs in Ho; now injection Ho as <-
                    |apply nth_error_Some; now rewrite Ho]. }
           destruct (Hrs r U), (Hrs r' U').
           apply (D r r' b1 b2 d0); trivial; now rewrite U1.
Qed.

Lemma bound_objects_app w o rs :
  bound_objects w rs -> bound_objects (mkWorld (heap w ++ [o]) (state w)) rs.
Proof.
  intros H. apply Forall_forall. intros r Hr.
  destruct (proj1 (Forall_forall _ _) H r Hr) as (o0 & Ho & Hb).
  exists o0. split; [|exact Hb]. cbn [heap].
  rewrite nth_error_app1; [exact Ho|].
  apply nth_error_Some. now rewrite Ho.
Qed.

(** [Context.__init__] *)
Lemma Context_init_effect scope_ args w :
  bound_objects w args ->
  exists w' children',
    Context_init scope_ args w = (Ok (length (heap w)), w') /\
    state w' = state w /\
    length (heap w') = S (length (heap w)) /\
    nth_error (heap w') (length (heap w))
    = Some (Context scope_ children') /\
    (forall r, r < length (heap w) -> ~ In r args ->
       nth_error (heap w') r = nth_error (heap w) r) /\
    (forall r o, nth_error (heap w) r = Some o ->
       exists o', nth_error (heap w') r = Some o' /\ rebound o o').
Proof.
  intros Hall. unfold Context_init.
  set (c := length (heap w)).
  set (w1 := mkWorld (heap w ++ [Context scope_ []]) (state w)).
  assert (E1 : alloc (Context scope_ []) w = (Ok c, w1)) by reflexivity.
  rewrite (bind_Ok _ _ _ _ _ E1).
  assert (Hc : nth_error (heap w1) c = Some (Context scope_ []))
    by apply nth_error_alloc.
  destruct (addChildren_effect c scope_ args w1 [] Hc
              (bound_objects_app _ _ _ Hall))
    as (w' & children' & E & St & L & C & F & R).
  exists w', children'. rewrite (bind_Ok _ _ _ _ _ E).
  split; [reflexivity|]. split; [exact St|].
  assert (L1 : length (heap w1) = S c).
  { unfold w1. cbn [heap]. rewrite length_app. cbn [length]. unfold c. lia. }
  split; [congruence|]. split; [exact C|]. split.
  - intros r Hr Hin. rewrite F; [|lia|exact Hin].
    unfold w1. cbn [heap]. now rewrite nth_error_app1 by exact Hr.
  - intros r o Ho.
    assert (Hr : r < c) by (apply nth_error_Some; now rewrite Ho).
    apply R; [lia|]. unfold w1. cbn [heap].
    now rewrite nth_error_app1 by exact Hr.
Qed.

(** [[arg.type for arg in arguments]] *)
Lemma map_types w :
  forall args,
    variables w args ->
    exists types,
      map_M (fun arg => attr "type" get_type (Some arg)) args w
      = (Ok types, w) /\
      Forall2 (fun arg t =>
                 exists b, nth_error (heap w) arg = Some (Variable_ b t))
        args types.
Proof.
  induction args as [|x rest IH]; intros Hall.
  - exists []. split; [reflexivity | constructor].
  - pose proof (Forall_inv Hall) as (b & t & Hx).
    destruct (IH (Forall_inv_tail Hall)) as (types & E & F).
    exists (t :: types). cbn [map_M].
    rewrite (bind_Ok _ _ _ _ _ (attr_Ok _ get_type _ _ _ _ Hx eq_refl)).
    rewrite (bind_Ok _ _ _ _ _ E).
    split; [reflexivity|]. constructor; [now exists b | exact F].
Qed.

(** X26. [Function.__init__] gives every argument without a type a
    [DependentType] of its own and leaves the declared types alone; the
    new function is marked dependent exactly when some argument had no
    type, and its type is the [FunctionType] of the types of the
    arguments, in their order, with the given return type. *)
Theorem Function_init_types_arguments :
  forall (constructor : bool) (name_ : option string)
         (arguments instructions : list ref) (return_type : option ref)
         (static_ : bool) (w : world),
    variables w arguments ->
    let self := length (heap w) in
    exists w' l c ft types,
      Function_init constructor name_ arguments instructions return_type
        static_ w = (Ok self, w') /\
      nth_error (heap w') self
      = Some (Function_
                (mkBound name_ None static_
                   (existsb (untyped w) arguments))
                constructor l (Some c) arguments instructions (Some ft)
                false) /\
      nth_error (heap w') ft
      = Some (FunctionType (mkBound name_ None false false) types
                return_type false) /\
      Forall2 (fun arg t =>
                 exists b, nth_error (heap w') arg = Some (Variable_ b t))
        arguments types /\
      (forall arg b t,
         In arg arguments ->
         nth_error (heap w) arg = Some (Variable_ b (Some t)) ->
         exists b', nth_error (heap w') arg = Some (Variable_ b' (Some t))) /\
      (forall arg,
         In arg arguments -> untyped w arg = true ->
         exists b d,
           length (heap w) <= d /\
           nth_error (heap w') arg = Some (Variable_ b (Some d)) /\
           nth_error (heap w') d = Some fresh_dependent) /\
      (forall arg arg' b b' d,
         In arg arguments -> In arg' arguments ->
         untyped w arg = true -> untyped w arg' = true ->
         nth_error (heap w') arg = Some (Variable_ b (Some d)) ->
         nth_error (heap w') arg' = Some (Variable_ b' (Some d)) ->
         arg = arg').
Proof.
  intros constructor name_ arguments instructions return_type static_ w
    Hall self.
  rewrite Function_init_rest_eq.
  set (b0 := mkBound name_ None static_ false).
  set (F0 := Function_ b0 constructor None None arguments instructions None
               false).
  set (w1 := mkWorld (heap w ++ [F0]) (state w)).
  assert (E1 : alloc F0 w = (Ok self, w1)) by reflexivity.
  rewrite (bind_Ok _ _ _ _ _ E1). clear E1.
  assert (Hlt : forall r, In r arguments -> r < self).
  { intros r Hr.
    destruct (proj1 (Forall_forall _ _) Hall r Hr) as (b & t & Ho).
    apply nth_error_Some. now rewrite Ho. }
  assert (Hout : ~ In self arguments).
  { intros H. apply Hlt in H. lia. }
  assert (L1 : length (heap w1) = S self).
  { unfold w1. cbn [heap]. rewrite length_app. cbn [length]. unfold self. lia. }
  assert (Hs1 : nth_error (heap w1) self = Some F0) by apply nth_error_alloc.
  assert (R1 : forall r o, nth_error (heap w) r = Some o ->
                 exists o', nth_error (heap w1) r = Some o' /\ rebound o o').
  { intros r o Ho. exists o. split; [|apply rebound_refl].
    unfold w1. cbn [heap]. rewrite nth_error_app1; [exact Ho|].
    apply nth_error_Some. now rewrite Ho. }
  (* the context of the arguments *)
  assert (Step2 : exists w2 l,
             (if static_ then ret tt
              else (c <- Context_init (Some self) arguments ;;
                    set_local_context self (Some c))) w1 = (Ok tt, w2) /\
             self < length (heap w2) /\
             nth_error (heap w2) self
             = Some (Function_ b0 constructor l None arguments instructions
                       None false) /\
             (forall r o, nth_error (heap w) r = Some o ->
                exists o', nth_error (heap w2) r = Some o' /\ rebound o o')).
  { destruct static_.
    - exists w1, None. split; [reflexivity|]. split; [lia|].
      split; [exact Hs1 | exact R1].
    - destruct (Context_init_effect (Some self) arguments w1
                  (bound_objects_app _ _ _ (variables_bound _ _ Hall)))
        as (wa & children' & E & St & L & C & F & R).
      eexists. exists (Some (length (heap w1))).
      rewrite (bind_Ok _ _ _ _ _ E). unfold set_local_context.
      rewrite update_Ok. split; [reflexivity|]. cbn [heap].
      rewrite length_replace. split; [lia|]. split.
      + rewrite (nth_error_replace_same _ _ _ F0); [reflexivity|].
        rewrite F; [exact Hs1 | lia | exact Hout].
      + intros r o Ho. destruct (R1 r o Ho) as (o1 & H1 & R01).
        destruct (R r o1 H1) as (o' & H' & R1').
        exists o'. split; [|exact (rebound_trans _ _ _ R01 R1')].
        rewrite nth_error_replace_other; [exact H'|].
        intros ->.
        assert (H : self < length (heap w))
          by (apply nth_error_Some; now rewrite Ho).
        unfold self in H. lia. }
  destruct Step2 as (w2 & l & E2 & L2 & Hs2 & R2).
  unfold Function_init_rest. rewrite (bind_Ok _ _ _ _ _ E2). clear E2.
  (* the closed context *)
  destruct (Context_init_effect (Some self) [] w2 (Forall_nil _))
    as (w3 & children3 & E3 & St3 & L3 & C3 & F3 & R3).
  rewrite (bind_Ok _ _ _ _ _ E3). clear E3.
  unfold set_closed_context. rewrite (bind_Ok _ _ _ _ _ (update_Ok _ _ _)).
  set (c := length (heap w2)) in *.
  set (w4 := mkWorld _ _).
  assert (Hs4 : nth_error (heap w4) self
                = Some (Function_ b0 constructor l (Some c) arguments
                          instructions None false)).
  { unfold w4. cbn [heap].
    rewrite (nth_error_replace_same _ _ _
               (Function_ b0 constructor l None arguments instructions None
                  false)); [reflexivity|].
    rewrite F3; [exact Hs2 | exact L2 | intros []]. }
  assert (R4 : forall r o, r <> self -> nth_error (heap w) r = Some o ->
                 exists o', nth_error (heap w4) r = Some o' /\ rebound o o').
  { intros r o Hr Ho. destruct (R2 r o Ho) as (o2 & H2 & R02).
    destruct (R3 r o2 H2) as (o' & H' & R2').
    exists o'. split; [|exact (rebound_trans _ _ _ R02 R2')].
    unfold w4. cbn [heap]. now rewrite nth_error_replace_other by exact Hr. }
  assert (V4 : forall r b t, In r arguments ->
                 nth_error (heap w) r = Some (Variable_ b t) ->
                 exists b', nth_error (heap w4) r = Some (Variable_ b' t)).
  { intros r b t Hr Ho.
    assert (r <> self) by (apply Hlt in Hr; lia).
    destruct (R4 r _ H Ho) as (o' & H' & R).
    apply rebound_Variable in R as (b' & ->). now exists b'. }
  assert (Hall4 : variables w4 arguments).
  { apply Forall_forall. intros r Hr.
    destruct (proj1 (Forall_forall _ _) Hall r Hr) as (b & t & Ho).
    destruct (V4 r b t Hr Ho) as (b' & H'). now exists b', t. }
  assert (U4 : forall r, In r arguments -> untyped w4 r = untyped w r).
  { intros r Hr.
    destruct (proj1 (Forall_forall _ _) Hall r Hr) as (b & t & Ho).
    destruct (V4 r b t Hr Ho) as (b' & H').
    now rewrite (untyped_Variable _ _ _ _ Ho), (untyped_Variable _ _ _ _ H'). }
  (* the types of the arguments *)
  destruct (type_arguments_effect self arguments w4 _ _ _ _ _ _ _ _ Hs4 Hall4)
    as (w5 & E5 & St5 & L5 & Hs5 & K5 & N5 & D5).
  rewrite (bind_Ok _ _ _ _ _ E5). clear E5.
  cbn [name bound_context static dependent b0 orb] in Hs5.
  rewrite (existsb_ext_in _ _ _ U4) in Hs5.
  assert (V5 : forall r, In r arguments ->
                 exists b t, nth_error (heap w5) r = Some (Variable_ b t)).
  { intros r Hr.
    destruct (proj1 (Forall_forall _ _) Hall4 r Hr) as (b & t & Ho).
    destruct (untyped w4 r) eqn:U.
    - destruct (N5 r Hr U) as (b1 & d & _ & _ & H & _). now exists b1, (Some d).
    - exists b, t. apply K5; [exact Ho | | now left].
      apply Hlt in Hr. lia. }
  assert (Hall5 : variables w5 arguments)
    by (apply Forall_forall; exact V5).
  destruct (map_types w5 arguments Hall5) as (types & E6 & T6).
  rewrite (bind_Ok _ _ _ _ _ E6). clear E6.
  unfold FunctionType_init.
  set (FT := FunctionType _ _ _ _).
  set (ft := length (heap w5)).
  set (w6 := mkWorld (heap w5 ++ [FT]) (state w5)).
  assert (E7 : alloc FT w5 = (Ok ft, w6)) by reflexivity.
  rewrite (bind_Ok _ _ _ _ _ E7). clear E7.
  unfold set_type. rewrite (bind_Ok _ _ _ _ _ (update_Ok _ _ _)).
  set (w' := mkWorld _ _).
  assert (Hs5' : self < ft) by (apply nth_error_Some; now rewrite Hs5).
  assert (Keep : forall r o, r <> self -> nth_error (heap w5) r = Some o ->
                   nth_error (heap w') r = Some o).
  { intros r o Hr Ho. unfold w', w6. cbn [heap].
    rewrite nth_error_replace_other by exact Hr.
    rewrite nth_error_app1; [exact Ho|].
    apply nth_error_Some. now rewrite Ho. }
  exists w', l, c, ft, types. split; [reflexivity|].
  split; [|split; [|split; [|split; [|split]]]].
  - unfold w', w6. cbn [heap].
    erewrite nth_error_replace_same;
      [|rewrite nth_error_app1 by exact Hs5'; exact Hs5].
    reflexivity.
  - unfold w', w6. cbn [heap].
    rewrite nth_error_replace_other by lia. apply nth_error_alloc.
  - eapply Forall2_impl; [|exact T6].
    intros arg t (b & Hb). exists b. apply Keep; [|exact Hb].
    intros ->. rewrite Hs5 in Hb. discriminate Hb.
  - intros arg b t Hin Ho.
    destruct (V4 arg b (Some t) Hin Ho) as (b' & H4).
    exists b'. apply Keep; [apply Hlt in Hin; lia|].
    apply K5; [exact H4 | apply Hlt in Hin; lia |].
    left. now rewrite (untyped_Variable _ _ _ _ H4).
  - intros arg Hin U. rewrite <- (U4 arg Hin) in U.
    destruct (N5 arg Hin U) as (b1 & d & _ & Hle & H1 & H2).
    exists b1, d. split; [|split].
    + unfold w4 in Hle. cbn [heap] in Hle.
      rewrite length_replace in Hle. lia.
    + apply Keep; [apply Hlt in Hin; lia | exact H1].
    + apply Keep; [|exact H2].
      unfold w4 in Hle. cbn [heap] in Hle. rewrite length_replace in Hle. lia.
  - intros arg arg' b b' d Hin Hin' U U' H1 H2.
    rewrite <- (U4 arg Hin) in U. rewrite <- (U4 arg' Hin') in U'.
    destruct (V5 arg Hin) as (b5 & t5 & H5).
    destruct (V5 arg' Hin') as (b5' & t5' & H5').
    pose proof (Keep arg _ ltac:(apply Hlt in Hin; lia) H5) as K.
    pose proof (Keep arg' _ ltac:(apply Hlt in Hin'; lia) H5') as K'.
    rewrite H1 in K. rewrite H2 in K'.
    injection K as <- <-. injection K' as <- <-.
    exact (D5 arg arg' b b' d Hin Hin' U U' H5 H5').
Qed.

Lemma Function_init_types_arguments_witness :
  exists w' l c ft d,
    Function_init false (Some "f") [0; 1] [] None false
      (mkWorld [Variable_ (mkBound (Some "x") None false false) None;
                Variable_ (mkBound (Some "y") None false false) (Some 0)]
         State_init)
    = (Ok 2, w') /\
    nth_error (heap w') 2
    = Some (Function_ (mkBound (Some "f") None false true) false l (Some c)
              [0; 1] [] (Some ft) false) /\
    nth_error (heap w') ft
    = Some (FunctionType (mkBound (Some "f") None false false)
              [Some d; Some 0] None false) /\
    nth_error (heap w') d = Some fresh_dependent.
Proof.
  destruct (Function_init_types_arguments false (Some "f") [0; 1] [] None
              false
              (mkWorld [Variable_ (mkBound (Some "x") None false false) None;
                        Variable_ (mkBound (Some "y") None false false)
                          (Some 0)]
                 State_init))
    as (w' & l & c & ft & types & H1 & H2 & H3 & H4 & H5 & H6 & _).
  - apply Forall_cons; [|apply Forall_cons; [|apply Forall_nil]];
      eexists; eexists; reflexivity.
  - destruct (H6 0 (or_introl eq_refl) eq_refl) as (b & d & _ & Hd & Hf).
    destruct (H5 1 _ 0 (or_intror (or_introl eq_refl)) eq_refl) as (b' & Hy).
    exists w', l, c, ft, d. split; [exact H1|]. split; [exact H2|].
    split; [|exact Hf]. rewrite H3. do 2 f_equal.
    inversion H4 as [|? t0 ? ts0 (b0 & E0) T]; subst.
    inversion T as [|? t1 ? ts1 (b1 & E1) T']; subst.
    inversion T'; subst.
    rewrite Hd in E0. rewrite Hy in E1.
    injection E0 as _ <-. injection E1 as _ <-. reflexivity.
Defined.

(** *** References *)

Lemma local_context_mono :
  forall n x w r w',
    local_context n x w = (Ok r, w') ->
    forall m, n <= m -> local_context m x w = (Ok r, w').
Proof.
  induction n as [|n IH]; intros x w r w' H m Hm; [discriminate H|].
  destruct m as [|m]; [lia|]. cbn [local_context] in *.
  destruct x as [i|]; [|exact H]. unfold bind in *.
  destruct (load i w) as [[o| |] w1]; try exact H.
  destruct o; try exact H. apply IH with (1 := H). lia.
Qed.

Lemma get_bound_context_mono :
  forall n x w r w',
    get_bound_context n x w = (Ok r, w') ->
    forall m, n <= m -> get_bound_context m x w = (Ok r, w').
Proof.
  induction n as [|n IH]; intros x w r w' H m Hm; [discriminate H|].
  destruct m as [|m]; [lia|]. cbn [get_bound_context] in *.
  destruct x as [i|]; [|exact H]. unfold bind in *.
  destruct (load i w) as [[o| |] w1]; try exact H.
  destruct o; try exact H.
  destruct (static b); [|exact H].
  destruct (attr "scope" get_scope (bound_context b) w1) as [[s| |] w2];
    try exact H.
  apply IH with (1 := H). lia.
Qed.

Lemma found_in_Ok w reference context found acc :
  found_in w reference context = Some found ->
  match context with
  | None => ret acc
  | Some c =>
      children <- attr "children" get_children (Some c) ;;
      match dict_get reference children with
      | Some x => ret (acc ++ [x])
      | None => ret acc
      end
  end w = (Ok (acc ++ found), w).
Proof.
  unfold found_in. destruct context as [c|].
  - destruct (nth_error (heap w) c) as [o|] eqn:Ho; [|discriminate].
    destruct (get_children o) as [children|] eqn:Hc; [|discriminate].
    intros [= <-].
    rewrite (bind_Ok _ _ _ _ _ (attr_Ok _ get_children _ _ _ _ Ho Hc)).
    destruct (dict_get reference children); [reflexivity|].
    now rewrite app_nil_r.
  - intros [= <-]. now rewrite app_nil_r.
Qed.

Lemma enclosing_Ok w bc next :
  enclosing w bc = Some next ->
  match bc with
  | Some c => attr "scope" get_scope (Some c)
  | None => ret (builtins (state w))
  end w = (Ok next, w).
Proof.
  unfold enclosing. destruct bc as [c|]; [|now intros [= <-]].
  destruct (nth_error (heap w) c) as [o|] eqn:Ho; [|discriminate].
  intros Hs. exact (attr_Ok _ get_scope _ _ _ _ Ho Hs).
Qed.

(** The loop of [resolveReference] collects what the visited contexts
    hold under the name, from the innermost scope outwards. *)
Lemma resolveReference_loop_collects w reference :
  forall scope_ contexts,
    scopes_up w scope_ contexts ->
    forall founds,
      Forall2 (fun context found => found_in w reference context = Some found)
        contexts founds ->
      exists fuel,
        forall fuel' acc, fuel <= fuel' ->
          resolveReference_loop fuel' reference scope_ acc w
          = (Ok (acc ++ concat founds), w).
Proof.
  induction 1 as [scope_ n context Hl Hb
                 |scope_ n m context bc next contexts Hl Hb Hc He _ IH];
    intros founds HF.
  - inversion HF as [|? found ? ? Hf HF']; subst. inversion HF'; subst.
    exists (S n). intros [|k] acc Hk; [lia|].
    cbn [resolveReference_loop concat].
    rewrite (bind_Ok _ _ _ _ _
               (local_context_mono _ _ _ _ _ Hl k (le_S_n _ _ Hk))).
    rewrite (bind_Ok _ _ _ _ _ (found_in_Ok _ _ _ _ acc Hf)).
    unfold bind at 1. cbn [get_state]. rewrite Hb.
    now rewrite app_nil_r.
  - inversion HF as [|? found ? founds' Hf HF']; subst.
    destruct (IH founds' HF') as (fuel & Hfuel).
    exists (S (Nat.max (Nat.max n m) fuel)). intros [|k] acc Hk; [lia|].
    cbn [resolveReference_loop concat].
    rewrite (bind_Ok _ _ _ _ _
               (local_context_mono _ _ _ _ _ Hl k ltac:(lia))).
    rewrite (bind_Ok _ _ _ _ _ (found_in_Ok _ _ _ _ acc Hf)).
    unfold bind at 1. cbn [get_state]. rewrite Hb.
    rewrite (bind_Ok _ _ _ _ _
               (get_bound_context_mono _ _ _ _ _ Hc k ltac:(lia))).
    rewrite (bind_Ok _ _ _ _ _ (enclosing_Ok _ _ _ He)).
    rewrite Hfuel by lia. now rewrite app_assoc.
Qed.

(** X27. [resolveReference] looks the name up in the local context of
    every scope from [State.scope] up to [State.builtins] and changes
    nothing.  It returns the object found when exactly one of these
    contexts holds the name, raises [MissingReferenceError] when none
    does and [AmbiguityError] when more than one does: a definition in
    an inner scope does not shadow one further out. *)
Theorem resolveReference_collects_all_scopes :
  forall (w : world) (reference : option string)
         (contexts : list (option ref)) (founds : list (list ref)),
    scopes_up w (scope (state w)) contexts ->
    Forall2 (fun context found => found_in w reference context = Some found)
      contexts founds ->
    exists fuel,
      forall fuel', fuel <= fuel' ->
        match concat founds with
        | [] =>
            exists message,
              resolveReference fuel' reference w
              = (Raise (MissingReferenceError message), w)
        | [x] => resolveReference fuel' reference w = (Ok x, w)
        | _ =>
            exists message,
              resolveReference fuel' reference w
              = (Raise (AmbiguityError message), w)
        end.
Proof.
  intros w reference contexts founds Hs HF.
  destruct (resolveReference_loop_collects w reference _ _ Hs founds HF)
    as (fuel & Hfuel).
  exists fuel. intros fuel' Hle.
  assert (E : resolveReference fuel' reference w
              = (match concat founds with
                 | [] => raise (MissingReferenceError "No reference")
                 | [x] => ret x
                 | _ => raise (AmbiguityError "Ambiguous reference")
                 end) w).
  { unfold resolveReference. unfold bind at 1. cbn [get_state].
    now rewrite (bind_Ok _ _ _ _ _ (Hfuel fuel' [] Hle)). }
  rewrite E.
  destruct (concat founds) as [|x [|y rest]];
    [eexists; reflexivity | reflexivity | eexists; reflexivity].
Qed.

(** A variable [x] of a function and a variable [x] of the module around
    it: the reference to [x] inside the function is ambiguous. *)
Lemma resolveReference_collects_all_scopes_witness :
  exists fuel,
    forall fuel', fuel <= fuel' ->
      exists message,
        resolveReference fuel' (Some "x") shadowing_world
        = (Raise (AmbiguityError message), shadowing_world).
Proof.
  destruct (resolveReference_collects_all_scopes shadowing_world (Some "x")
              [Some 4; Some 1] [[5]; [2]])
    as (fuel & H).
  - eapply (scopes_next _ _ 1 1); [reflexivity | reflexivity | reflexivity
                                  | reflexivity |].
    eapply (scopes_top _ _ 1); reflexivity.
  - repeat constructor.
  - exists fuel. exact H.
Defined.

(** *** Modules *)

(** The loop [for child in children: child.static = True]. *)
Lemma make_static_effect :
  forall children w,
    exists w',
      for_each children (fun child => set_static child true) w = (Ok tt, w') /\
      forall r o, nth_error (heap w) r = Some o ->
        exists o', nth_error (heap w') r = Some o' /\
                   (bound o <> None -> bound o' <> None) /\
                   (get_static o = Some true -> get_static o' = Some true) /\
                   (In r children -> bound o <> None ->
                    get_static o' = Some true).
Proof.
  induction children as [|x rest IH]; intros w.
  - exists w. split; [reflexivity|]. intros r o Ho.
    exists o. split; [exact Ho|]. split; [trivial|]. split; [trivial|].
    intros [].
  - cbn [for_each]. unfold set_static at 1.
    rewrite (bind_Ok _ _ _ _ _ (update_Ok _ _ _)).
    set (f := with_bound _).
    set (w1 := mkWorld _ _).
    destruct (IH w1) as (w' & E & K). exists w'. split; [exact E|].
    intros r o Ho.
    assert (H1 : nth_error (heap w1) r = Some (if Nat.eqb r x then f o else o)).
    { unfold w1. cbn [heap]. rewrite nth_error_replace, Ho.
      now destruct (Nat.eqb r x). }
    destruct (K r _ H1) as (o' & Ho' & Kb & Ks & Kin).
    exists o'. split; [exact Ho'|].
    assert (Fb : bound o <> None -> bound (f o) <> None).
    { intros Hb. unfold f. destruct o; try exact Hb; discriminate. }
    assert (Fs : bound o <> None -> get_static (f o) = Some true).
    { intros Hb. unfold f. destruct o; try (now elim Hb); reflexivity. }
    split; [|split].
    + intros Hb. apply Kb. destruct (Nat.eqb r x); auto.
    + intros Hs. apply Ks. destruct (Nat.eqb r x); [|exact Hs].
      apply Fs. intros Hb. unfold get_static in Hs. now rewrite Hb in Hs.
    + intros [<-|Hin] Hb.
      * apply Ks. rewrite Nat.eqb_refl. now apply Fs.
      * apply Kin; [exact Hin|]. destruct (Nat.eqb r x); auto.
Qed.

(** X28. [Module.__init__] cannot do without a main function: with
    [main] at its default [None] it raises [AttributeError] at
    [self.main.bound_context], after it has made its children static. *)
Theorem Module_init_without_main_raises :
  forall (name_ : option string) (children : list ref) (w : world),
    bound_objects w children ->
    exists w',
      Module_init name_ children None w
      = (Raise (AttributeError "bound_context"), w') /\
      forall r, In r children ->
        exists o', nth_error (heap w') r = Some o' /\
                   get_static o' = Some true.
Proof.
  intros name_ children w Hall. unfold Module_init.
  set (self := length (heap w)).
  set (M0 := Module_ _ _ _ _).
  set (w1 := mkWorld (heap w ++ [M0]) (state w)).
  assert (E1 : alloc M0 w = (Ok self, w1)) by reflexivity.
  rewrite (bind_Ok _ _ _ _ _ E1). clear E1.
  destruct (Context_init_effect (Some self) children w1
              (bound_objects_app _ _ _ Hall))
    as (w2 & children' & E2 & _ & _ & _ & _ & R2).
  rewrite (bind_Ok _ _ _ _ _ E2). clear E2.
  unfold set_context. rewrite (bind_Ok _ _ _ _ _ (update_Ok _ _ _)).
  set (w3 := mkWorld _ _).
  destruct (make_static_effect children w3) as (w4 & E4 & K4).
  rewrite (bind_Ok _ _ _ _ _ E4). clear E4.
  unfold set_main. rewrite (bind_Ok _ _ _ _ _ (update_Ok _ _ _)).
  eexists. split; [reflexivity|]. cbn [heap].
  intros r Hr.
  destruct (proj1 (Forall_forall _ _) Hall r Hr) as (o & Ho & Hb).
  assert (Hlt : r < self) by (apply nth_error_Some; now rewrite Ho).
  assert (H1 : nth_error (heap w1) r = Some o).
  { unfold w1. cbn [heap]. now rewrite nth_error_app1 by exact Hlt. }
  destruct (R2 r o H1) as (o2 & H2 & R).
  assert (H3 : nth_error (heap w3) r = Some o2).
  { unfold w3. cbn [heap]. rewrite nth_error_replace_other; [exact H2 | lia]. }
  destruct (K4 r o2 H3) as (o4 & H4 & _ & _ & Kin).
  exists o4. split.
  - rewrite nth_error_replace_other; [exact H4 | lia].
  - apply Kin; [exact Hr | exact (rebound_bound _ _ R Hb)].
Qed.

Lemma Module_init_without_main_raises_witness :
  exists w' o',
    Module_init (Some "m") [0] None
      (mkWorld [Variable_ (mkBound (Some "x") None false false) None]
         State_init)
    = (Raise (AttributeError "bound_context"), w') /\
    nth_error (heap w') 0 = Some o' /\ get_static o' = Some true.
Proof.
  destruct (Module_init_without_main_raises (Some "m") [0]
              (mkWorld [Variable_ (mkBound (Some "x") None false false) None]
                 State_init))
    as (w' & H1 & H2).
  - apply Forall_cons; [|apply Forall_nil].
    eexists. split; [reflexivity | discriminate].
  - destruct (H2 0 (or_introl eq_refl)) as (o' & H3 & H4).
    exists w', o'. auto.
Defined.

Lemma Module_init_None_not_Ok name_ children w self w' :
  Module_init name_ children None w <> (Ok self, w').
Proof.
  intros H. unfold Module_init in H.
  apply bind_Ok_inv in H as (s0 & w0 & _ & H).
  apply bind_Ok_inv in H as (c & w1 & _ & H).
  apply bind_Ok_inv in H as (? & w2 & _ & H).
  apply bind_Ok_inv in H as (? & w3 & _ & H).
  apply bind_Ok_inv in H as (? & w4 & _ & H).
  discriminate H.
Qed.

(** X29. [Module.copy] never returns a copy: it builds the new module
    without a main function, which [Module.__init__] does not accept. *)
Theorem Module_copy_never_returns :
  forall (fuel : nat) (self : ref) (w : world) (b : BoundObject)
         (context main : option ref) (verified : bool),
    nth_error (heap w) self = Some (Module_ b context main verified) ->
    match fst (copy_ fuel self w) with
    | Ok _ => False
    | _ => True
    end.
Proof.
  intros fuel self w b context main verified Hs.
  destruct (copy_ fuel self w) as [[copy| |] w'] eqn:H; cbn [fst]; trivial.
  destruct fuel as [|n]; [discriminate H|].
  cbn [copy_] in H.
  rewrite (bind_Ok _ _ _ _ _ (load_Ok _ _ _ Hs)) in H.
  apply bind_Ok_inv in H as (children & w1 & _ & H).
  apply bind_Ok_inv in H as (copies & w2 & _ & H).
  exact (Module_init_None_not_Ok _ _ _ _ _ H).
Qed.

Lemma Module_copy_never_returns_witness :
  match fst (copy_ 3 0
               (mkWorld [Module_ (mkBound (Some "m") None true false)
                           (Some 1) None false;
                         Context (Some 0) []]
                  State_init)) with
  | Ok _ => False
  | _ => True
  end.
Proof.
  apply (Module_copy_never_returns 3 0
           (mkWorld [Module_ (mkBound (Some "m") None true false) (Some 1)
                       None false;
                     Context (Some 0) []]
              State_init)
           _ _ _ _ eq_refl).
Defined.

End LekvarFacts.
